(** * Systematic-Mapping screening pipeline: parsing, normalisation, deduplication

    A shallow embedding of the BibTeX tooling under [Screening/Python]
    ([Unique.py], [Keywords.py], [Add_type.py], [Screening.py],
    [clean_ISSN.py]) together with the properties its specification states.

    Conventions.
    - A Python [str] is a list of code points ([list N]); indices and
      lengths are [nat]; slices are [take]/[drop].
    - Counters that Python decrements ([depth]) are [Z].
    - Library routines whose behaviour is fixed by tables outside the
      repository ([html.unescape], [urllib.parse.unquote], [unicodedata],
      [str.lower], the Unicode classes behind [\d] and [\w]) are fields of
      the class [PyLib]; every general theorem holds for all instances.
    - Regular expressions are terms of [regex], run by a backtracking
      matcher with the priorities of Python's [re] (leftmost match, ordered
      alternatives, greedy and lazy repetition). *)

From Stdlib Require Import NArith ZArith Strings.String Strings.Ascii.
From stdpp Require Import gmap list sorting pretty.

Local Open Scope nat_scope.

(** ** Strings *)

Abbreviation str := (list N).

(** The code points of an ASCII literal. *)
Definition py (s : string) : str :=
  map N_of_ascii (list_ascii_of_string s).

Abbreviation NL := 10%N (only parsing).
Abbreviation CR := 13%N (only parsing).
Abbreviation SPACE := 32%N (only parsing).
Abbreviation DQUOTE := 34%N (only parsing).
Abbreviation HASH := 35%N (only parsing).
Abbreviation PERCENT := 37%N (only parsing).
Abbreviation AMP := 38%N (only parsing).
Abbreviation LPAREN := 40%N (only parsing).
Abbreviation RPAREN := 41%N (only parsing).
Abbreviation COMMA := 44%N (only parsing).
Abbreviation SEMI := 59%N (only parsing).
Abbreviation LT := 60%N (only parsing).
Abbreviation EQUALS := 61%N (only parsing).
Abbreviation GT := 62%N (only parsing).
Abbreviation AT := 64%N (only parsing).
Abbreviation BACKSLASH := 92%N (only parsing).
Abbreviation LBRACE := 123%N (only parsing).
Abbreviation RBRACE := 125%N (only parsing).

(** [ch in "..."] for a string of ASCII characters. *)
Definition one_of (s : string) (c : N) : bool :=
  bool_decide (c ∈ py s).

Definition in_range (lo hi c : N) : bool := ((lo <=? c) && (c <=? hi))%N.

(** [Py_UNICODE_ISSPACE]: what [str.isspace], [str.strip], [str.split] and
    [\s] in a [str] pattern test. *)
Definition isspace (c : N) : bool :=
  in_range 9 13 c || in_range 28 32 c || (c =? 133)%N || (c =? 160)%N
  || (c =? 5760)%N || in_range 8192 8202 c || (c =? 8232)%N || (c =? 8233)%N
  || (c =? 8239)%N || (c =? 8287)%N || (c =? 12288)%N.

(** [\s] under [re.A]: [ \t\n\r\f\v]. *)
Definition isspace_ascii (c : N) : bool :=
  in_range 9 13 c || (c =? 32)%N.

Fixpoint drop_while (p : N → bool) (s : str) : str :=
  match s with
  | [] => []
  | c :: t => if p c then drop_while p t else s
  end.

Fixpoint take_while (p : N → bool) (s : str) : str :=
  match s with
  | [] => []
  | c :: t => if p c then c :: take_while p t else []
  end.

(** [s.lstrip()], [s.rstrip()], [s.strip()]. *)
Definition lstrip (s : str) : str := drop_while isspace s.
Definition rstrip (s : str) : str := reverse (drop_while isspace (reverse s)).
Definition strip (s : str) : str := rstrip (lstrip s).

(** [s[i:j]] for [0 <= i], [0 <= j]. *)
Definition slice (s : str) (i j : nat) : str := take (j - i) (drop i s).

(** [while i < n and p(s[i]): i += 1]. *)
Definition skip_while (p : N → bool) (s : str) (i : nat) : nat :=
  i + length (take_while p (drop i s)).

(** [s.find(c, i)] for a one-character needle; [None] is Python's [-1]. *)
Fixpoint find_in (c : N) (rest : str) (i : nat) : option nat :=
  match rest with
  | [] => None
  | x :: t => if (x =? c)%N then Some i else find_in c t (S i)
  end.

Definition find_char (c : N) (s : str) (i : nat) : option nat :=
  find_in c (drop i s) i.

(** [s.rfind(c)]. *)
Fixpoint rfind_in (c : N) (rest : str) (i : nat) : option nat :=
  match rest with
  | [] => None
  | x :: t =>
      match rfind_in c t (S i) with
      | Some j => Some j
      | None => if (x =? c)%N then Some i else None
      end
  end.

Definition rfind_char (c : N) (s : str) : option nat := rfind_in c s 0.

(** ** Outcomes of a Python call

    A call returns, raises, or (in the model only) exhausts the fuel given to
    one of its [while] loops; each such loop is shown to have fuel enough. *)

Inductive exn := AssertionError | IndexError | AttributeError.

Inductive outcome (A : Type) :=
| Ret (a : A)
| Raise (e : exn)
| OutOfFuel.
Arguments Ret {A} a.
Arguments Raise {A} e.
Arguments OutOfFuel {A}.

#[global] Instance outcome_ret : MRet outcome := λ A, Ret.

#[global] Instance outcome_bind : MBind outcome := λ A B f m,
  match m with
  | Ret a => f a
  | Raise e => Raise e
  | OutOfFuel => OutOfFuel
  end.

(** [s.replace(old, new)] for a non-empty [old]; [skip] counts the
    characters of a replaced occurrence still to be stepped over. *)
Fixpoint replace_go (old new rest : str) (skip : nat) : str :=
  match rest with
  | [] => []
  | x :: t =>
      match skip with
      | S skip' => replace_go old new t skip'
      | 0 =>
          if bool_decide (old `prefix_of` rest)
          then new ++ replace_go old new t (length old - 1)
          else x :: replace_go old new t 0
      end
  end.

Definition replace (old new s : str) : str := replace_go old new s 0.

(** [s.rstrip(chars)]. *)
Definition rstrip_chars (chars : string) (s : str) : str :=
  reverse (drop_while (one_of chars) (reverse s)).

(** [s.startswith(c)], [s.endswith(c)] for one character. *)
Definition startswith (c : N) (s : str) : bool := bool_decide (head s = Some c).
Definition endswith (c : N) (s : str) : bool := bool_decide (last s = Some c).

(** [s.endswith(suffix)] for a suffix of any length. *)
Definition ends_with (suffix s : str) : bool :=
  bool_decide (suffix `suffix_of` s).

(** [s.splitlines()]: the lines of [s] without their line breaks; [\r\n]
    counts as one break.  [cur] is the line being read, [after_cr] tells that
    the character before was a [\r]. *)
Definition is_linebreak (c : N) : bool :=
  in_range 10 13 c || in_range 28 30 c || (c =? 133)%N || (c =? 8232)%N
  || (c =? 8233)%N.

Fixpoint splitlines_go (rest cur : str) (after_cr : bool) : list str :=
  match rest with
  | [] => match cur with [] => [] | _ => [cur] end
  | c :: t =>
      if after_cr && (c =? NL)%N then splitlines_go t cur false
      else if is_linebreak c then cur :: splitlines_go t [] (c =? CR)%N
      else splitlines_go t (cur ++ [c]) false
  end.

Definition splitlines (s : str) : list str := splitlines_go s [] false.

(** [a <= b] on strings: by code points, a prefix first. *)
Fixpoint str_leb (a b : str) : bool :=
  match a, b with
  | [], _ => true
  | _ :: _, [] => false
  | x :: a', y :: b' =>
      if (x <? y)%N then true else if (y <? x)%N then false else str_leb a' b'
  end.

(** [sep.join(l)]. *)
Fixpoint join (sep : str) (l : list str) : str :=
  match l with
  | [] => []
  | x :: t => match t with [] => x | _ => x ++ sep ++ join sep t end
  end.

(** [s.split()]: the maximal runs of characters that are not white
    space. *)
Fixpoint split_ws_go (rest cur : str) : list str :=
  match rest with
  | [] => match cur with [] => [] | _ => [cur] end
  | c :: t =>
      if isspace c
      then match cur with [] => [] | _ => [cur] end ++ split_ws_go t []
      else split_ws_go t (cur ++ [c])
  end.

Definition split_ws (s : str) : list str := split_ws_go s [].

(** [needle in hay]. *)
Fixpoint contains (needle hay : str) : bool :=
  bool_decide (needle `prefix_of` hay)
  || match hay with [] => false | _ :: t => contains needle t end.

(** ** Library routines

    What the scripts import and what the classes of [re] consult.  The
    tables behind them are not part of the repository. *)
Class PyLib := {
  html_unescape : str → str;     (* html.unescape *)
  unquote : str → str;           (* urllib.parse.unquote *)
  nfkd : str → str;              (* unicodedata.normalize('NFKD', s) *)
  combining : N → bool;          (* unicodedata.combining(ch) != 0 *)
  str_lower : str → str;         (* str.lower *)
  str_upper : str → str;         (* str.upper *)
  is_decimal : N → bool;         (* \d in a str pattern *)
  is_word : N → bool;            (* \w in a str pattern *)
  sre_lower : N → N;             (* simple lower-case mapping used by re.I *)
  sre_upper : N → N;             (* simple upper-case mapping used by re.I *)
  path_basename : str → str;     (* os.path.basename *)
  path_splitext : str → str * str;  (* os.path.splitext *)
}.

(** ** Regular expressions *)

Inductive regex :=
| Eps
| Chr (p : N → bool)                  (* a literal, a class, [.], [\s], [\d] *)
| Seq (r1 r2 : regex)
| Alt (r1 r2 : regex)                 (* [r1|r2], [r1] tried first *)
| Rep (greedy : bool) (lo : nat) (hi : option nat) (r : regex)
| Grp (n : nat) (r : regex)           (* capturing group number [n] *)
| Bos                                 (* [^] without re.M *)
| Bol                                 (* [^] under re.M *)
| Wordb (w : N → bool).               (* [\b] for the word class [w] *)

(** Where the matcher stands: the character before, the text ahead and the
    index of its first character. *)
Record cursor := Cursor { before : option N; ahead : str; pos : nat }.

Abbreviation caps := (gmap nat (nat * nat)).
Definition kont := cursor → caps → option (nat * caps).

Definition accept : kont := fun c g => Some (pos c, g).

Definition is_some_and {A} (p : A → bool) (o : option A) : bool :=
  match o with Some a => p a | None => false end.

(** [r{lo,hi}]: a round that consumes nothing is not repeated, so a round
    shortens [ahead] and [fuel = S (length ahead)] rounds are enough. *)
Fixpoint rep_loop (body : kont → kont) (greedy : bool) (fuel lo : nat)
    (hi : option nat) (k : kont) (c : cursor) (g : caps)
    : option (nat * caps) :=
  match fuel with
  | 0 => None
  | S fuel =>
      let again :=
        if bool_decide (hi = Some 0) then None
        else body (fun c' g' =>
                     if pos c' =? pos c then None
                     else rep_loop body greedy fuel (pred lo) (pred <$> hi)
                            k c' g') c g in
      if 0 <? lo then again
      else if greedy then
        match again with Some r => Some r | None => k c g end
      else
        match k c g with Some r => Some r | None => again end
  end.

Fixpoint mtch (r : regex) (k : kont) (c : cursor) (g : caps)
    : option (nat * caps) :=
  match r with
  | Eps => k c g
  | Chr p =>
      match ahead c with
      | x :: t => if p x then k (Cursor (Some x) t (S (pos c))) g else None
      | [] => None
      end
  | Seq r1 r2 => mtch r1 (mtch r2 k) c g
  | Alt r1 r2 =>
      match mtch r1 k c g with
      | Some res => Some res
      | None => mtch r2 k c g
      end
  | Rep greedy lo hi r =>
      rep_loop (mtch r) greedy (S (length (ahead c))) lo hi k c g
  | Grp n r => mtch r (fun c' g' => k c' (<[n := (pos c, pos c')]> g')) c g
  | Bos => if bool_decide (before c = None) then k c g else None
  | Bol =>
      if bool_decide (before c = None) || bool_decide (before c = Some NL)
      then k c g else None
  | Wordb w =>
      if xorb (is_some_and w (before c)) (is_some_and w (head (ahead c)))
      then k c g else None
  end.

(** A match object: [m.start()], [m.end()] and the spans of its groups. *)
Record mobj := Mobj { m_start : nat; m_end : nat; m_groups : caps }.

Definition match_at (r : regex) (c : cursor) : option mobj :=
  match mtch r accept c ∅ with
  | Some (e, g) => Some (Mobj (pos c) e g)
  | None => None
  end.

Definition cursor_at (s : str) (i : nat) : cursor :=
  let i := i `min` length s in
  Cursor (match i with 0 => None | S j => s !! j end) (drop i s) i.

(** [m.group(n)], [None] for a group that took no part in the match. *)
Definition group (s : str) (m : mobj) (n : nat) : option str :=
  match n with
  | 0 => Some (slice s (m_start m) (m_end m))
  | _ => (fun '(a, b) => slice s a b) <$> m_groups m !! n
  end.

(** [pattern.match(s)]. *)
Definition re_match (r : regex) (s : str) : option mobj :=
  match_at r (cursor_at s 0).

Fixpoint search_go (r : regex) (bef : option N) (rest : str) (i : nat)
    : option mobj :=
  match match_at r (Cursor bef rest i) with
  | Some m => Some m
  | None =>
      match rest with
      | [] => None
      | x :: t => search_go r (Some x) t (S i)
      end
  end.

(** [pattern.search(s, i)]. *)
Definition re_search (r : regex) (s : str) (i : nat) : option mobj :=
  let c := cursor_at s i in search_go r (before c) (ahead c) (pos c).

(** [pattern.finditer(s)] and [pattern.sub(rep, s)] for a plain [rep]: the
    matches from left to right, none overlapping the one before; [skip]
    counts the characters of the last match still to be stepped over.
    (No pattern of the scripts matches the empty string.) *)
Fixpoint finditer_go (r : regex) (bef : option N) (rest : str) (i skip : nat)
    : list mobj :=
  match skip with
  | S skip' =>
      match rest with
      | [] => []
      | x :: t => finditer_go r (Some x) t (S i) skip'
      end
  | 0 =>
      match match_at r (Cursor bef rest i) with
      | Some m =>
          m :: match rest with
               | [] => []
               | x :: t => finditer_go r (Some x) t (S i) (m_end m - i - 1)
               end
      | None =>
          match rest with
          | [] => []
          | x :: t => finditer_go r (Some x) t (S i) 0
          end
      end
  end.

Definition re_finditer (r : regex) (s : str) : list mobj :=
  finditer_go r None s 0 0.

Fixpoint sub_go (r : regex) (rep : str) (bef : option N) (rest : str)
    (i skip : nat) : str :=
  match skip with
  | S skip' =>
      match rest with
      | [] => []
      | x :: t => sub_go r rep (Some x) t (S i) skip'
      end
  | 0 =>
      match match_at r (Cursor bef rest i) with
      | Some m =>
          rep ++ match rest with
                 | [] => []
                 | x :: t =>
                     (if m_end m =? i then [x] else [])
                     ++ sub_go r rep (Some x) t (S i) (m_end m - i - 1)
                 end
      | None =>
          match rest with
          | [] => []
          | x :: t => x :: sub_go r rep (Some x) t (S i) 0
          end
      end
  end.

Definition re_sub (r : regex) (rep s : str) : str := sub_go r rep None s 0 0.

(** Pattern syntax. *)
Definition lit (c : N) : regex := Chr (N.eqb c).
Definition any : regex := Chr (fun _ => true).          (* [.] under re.S *)
Definition star (r : regex) : regex := Rep true 0 None r.
Definition plus (r : regex) : regex := Rep true 1 None r.
Definition opt (r : regex) : regex := Rep true 0 (Some 1) r.
Definition lazy_star (r : regex) : regex := Rep false 0 None r.
Definition seqs (rs : list regex) : regex := foldr Seq Eps rs.
Definition lits (s : string) : regex := seqs (lit <$> py s).
Definition ws : regex := Chr isspace.                   (* [\s] *)
Definition az (c : N) : bool := in_range 97 122 c.      (* [a-z] *)
Definition AZ (c : N) : bool := in_range 65 90 c.       (* [A-Z] *)
Definition d09 (c : N) : bool := in_range 48 57 c.      (* [0-9] *)

Section IgnoreCase.
Context `{PyLib}.

(** A literal and a class under [re.I]: besides the 52 ASCII letters,
    [[a-z]] then takes the characters whose simple case mapping is one. *)
Definition ilit (c : N) : regex :=
  Chr (fun x => (x =? c)%N || (sre_lower x =? sre_lower c)%N
                || (sre_upper x =? sre_upper c)%N).
Definition iclass (p : N → bool) : regex :=
  Chr (fun x => p x || p (sre_lower x) || p (sre_upper x)).
Definition ilits (s : str) : regex := seqs (ilit <$> s).
End IgnoreCase.

(** ** Delimiter balancing, shared by the tokenizers *)

(** Does the scan from an opening delimiter, entered at [depth], reach
    depth 0?  [Some e]: at index [e - 1]; [None]: the text ends first. *)
Fixpoint balance (open close : N) (rest : str) (j : nat) (depth : Z)
    : option nat :=
  match rest with
  | [] => None
  | c :: t =>
      if (c =? open)%N then balance open close t (S j) (depth + 1)
      else if (c =? close)%N then
        let depth := (depth - 1)%Z in
        if (depth =? 0)%Z then Some (j + 1)
        else balance open close t (S j) depth
      else balance open close t (S j) depth
  end.

(** ** Keywords.py: the value decoder *)

Module Keywords.

(** [read_braced(s, i)], the loop from [j = i + 1] on [rest = s[j:]]. *)
Fixpoint read_braced_loop (n : nat) (rest : str) (j : nat) (depth : Z)
    (out : str) : str * nat :=
  match rest with
  | [] => (out, n)
  | c :: rest' =>
      if (c =? LBRACE)%N then
        read_braced_loop n rest' (S j) (depth + 1) (out ++ [c])
      else if (c =? RBRACE)%N then
        let depth := (depth - 1)%Z in
        if (depth =? 0)%Z then (out, j + 1)
        else read_braced_loop n rest' (S j) depth (out ++ [c])
      else read_braced_loop n rest' (S j) depth (out ++ [c])
  end.

Definition read_braced (s : str) (i : nat) : outcome (str * nat) :=
  match s !! i with
  | None => Raise IndexError
  | Some c =>
      if (c =? LBRACE)%N
      then Ret (read_braced_loop (length s) (drop (i + 1) s) (i + 1) 1 [])
      else Raise AssertionError
  end.

(** [read_quoted(s, i)]. *)
Fixpoint read_quoted_loop (n : nat) (rest : str) (j : nat) (esc : bool)
    (out : str) : str * nat :=
  match rest with
  | [] => (out, n)
  | c :: rest' =>
      if esc then read_quoted_loop n rest' (S j) false (out ++ [c])
      else if (c =? BACKSLASH)%N then read_quoted_loop n rest' (S j) true out
      else if (c =? DQUOTE)%N then (out, j + 1)
      else read_quoted_loop n rest' (S j) false (out ++ [c])
  end.

Definition read_quoted (s : str) (i : nat) : outcome (str * nat) :=
  match s !! i with
  | None => Raise IndexError
  | Some c =>
      if (c =? DQUOTE)%N
      then Ret (read_quoted_loop (length s) (drop (i + 1) s) (i + 1) false [])
      else Raise AssertionError
  end.

(** The [if]/[elif]/[else] of [read_value] that reads one part of a value
    at [s[i]]: braced, quoted or bare. *)
Definition read_part (s : str) (i : nat) : outcome (str * nat) :=
  if bool_decide (s !! i = Some LBRACE) then read_braced s i
  else if bool_decide (s !! i = Some DQUOTE) then read_quoted s i
  else
    let j := skip_while (fun c => negb (one_of ",#" c
                           || (c =? CR)%N || (c =? NL)%N)) s i in
    Ret (strip (slice s i j), j).

(** [read_value(s, i)].  One round of the outer [while] either leaves the
    loop or steps over a [#]; [fuel] bounds the number of rounds. *)
Fixpoint read_value_loop (fuel : nat) (s : str) (start i : nat)
    (parts : list str) (end_index : nat) : outcome (str * str * nat) :=
  let n := length s in
  let finish (parts : list str) (end_index : nat) :=
    Ret (strip (concat parts), slice s start end_index, end_index) in
  match fuel with
  | 0 => OutOfFuel
  | S fuel =>
      if negb (i <? n) then finish parts end_index
      else
        let i := skip_while isspace s i in
        if n <=? i then finish parts end_index
        else
          '(val, j) ← read_part s i;
          let parts := parts ++ [val] in
          let i := skip_while isspace s j in
          if (i <? n) && bool_decide (s !! i = Some HASH)
          then read_value_loop fuel s start (i + 1) parts end_index
          else if (i <? n) && bool_decide (s !! i = Some COMMA)
          then finish parts (i + 1)
          else finish parts i
  end.

Definition read_value (s : str) (i : nat) : outcome (str * str * nat) :=
  read_value_loop (S (length s - i)) s i i [] i.

(** [split_entries(bibtext)]: the pieces of a file, entries and the text
    between them. *)
Inductive piece_kind := NonEntry | Entry.

Fixpoint split_loop (fuel : nat) (bibtext : str) (i : nat)
    (pieces : list (piece_kind * str)) : outcome (list (piece_kind * str)) :=
  let n := length bibtext in
  match fuel with
  | 0 => OutOfFuel
  | S fuel =>
      if negb (i <? n) then Ret pieces
      else
        match find_char AT bibtext i with
        | None => Ret (pieces ++ [(NonEntry, drop i bibtext)])
        | Some at_ =>
            let pieces :=
              if i <? at_ then pieces ++ [(NonEntry, slice bibtext i at_)]
              else pieces in
            let j := skip_while (fun c => negb (one_of "{(" c)) bibtext
                       (at_ + 1) in
            match bibtext !! j with
            | None =>
                split_loop fuel bibtext j
                  (pieces ++ [(NonEntry, slice bibtext at_ j)])
            | Some open_char =>
                if negb (one_of "{(" open_char) then
                  split_loop fuel bibtext j
                    (pieces ++ [(NonEntry, slice bibtext at_ j)])
                else
                  let close_char :=
                    if (open_char =? LBRACE)%N then RBRACE else RPAREN in
                  match balance open_char close_char (drop j bibtext) j 0 with
                  | Some e =>
                      split_loop fuel bibtext e
                        (pieces ++ [(Entry, slice bibtext at_ e)])
                  | None =>
                      split_loop fuel bibtext n
                        (pieces ++ [(Entry, drop at_ bibtext)])
                  end
            end
        end
  end.

(** The loop resumed at [i] with [pieces] collected so far. *)
Definition split_from (bibtext : str) (i : nat)
    (pieces : list (piece_kind * str)) : outcome (list (piece_kind * str)) :=
  split_loop (S (length bibtext - i)) bibtext i pieces.

Definition split_entries (bibtext : str)
    : outcome (list (piece_kind * str)) :=
  split_from bibtext 0 [].

(** [re.match(r'@([A-Za-z]+)\s*([({])', entry_text, flags=re.S)] *)
Definition header_re : regex :=
  seqs [lit AT; Grp 1 (plus (Chr (fun c => AZ c || az c))); star ws;
        Grp 2 (Chr (one_of "({"))].

(** The loop of [parse_entry_header] that reads the citation key: where it
    stops and the characters it has collected. *)
Fixpoint header_loop (open_char close_char : N) (rest : str) (i : nat)
    (depth : Z) (citekey_chars : str) : nat * str :=
  match rest with
  | [] => (i, citekey_chars)
  | c :: t =>
      if (c =? open_char)%N then
        header_loop open_char close_char t (S i) (depth + 1) citekey_chars
      else if (c =? close_char)%N then (i, citekey_chars)
      else if (c =? COMMA)%N && (depth =? 1)%Z then (i + 1, citekey_chars)
      else
        header_loop open_char close_char t (S i) depth (citekey_chars ++ [c])
  end.

(** [parse_entry_header(entry_text)]:
    [(entry_type, citekey, body_inner, open_char, close_char)]. *)
Definition parse_entry_header (entry_text : str)
    : option str * option str * str * N * N :=
  match re_match header_re entry_text with
  | None => (None, None, entry_text, LBRACE, RBRACE)
  | Some m =>
      let entry_type := default [] (group entry_text m 1) in
      let open_char :=
        default 0%N (head (default [] (group entry_text m 2))) in
      let close_char := if (open_char =? LBRACE)%N then RBRACE else RPAREN in
      let start := m_end m in
      let '(i, citekey_chars) :=
        header_loop open_char close_char (drop start entry_text) start 1 [] in
      let citekey := strip citekey_chars in
      let body := drop i entry_text in
      let body_inner :=
        if endswith close_char body then take (length body - 1) body
        else body in
      (Some entry_type, Some citekey, body_inner, open_char, close_char)
  end.

(** The separators [parse_fields] steps over before a name: [" \t\r\n,"];
    and the class [[A-Za-z0-9_:\-]] of a name. *)
Definition field_sep (c : N) : bool :=
  (c =? SPACE)%N || (c =? 9)%N || (c =? CR)%N || (c =? NL)%N || (c =? COMMA)%N.
Definition name_char (c : N) : bool :=
  AZ c || az c || d09 c || one_of "_:-" c.

(** [parse_fields(body_text)]: the fields as [(name, val, raw_seg)].  Every
    round of the outer [while] moves [i] on; [fuel] bounds the rounds. *)
Fixpoint parse_fields_loop (fuel : nat) (body_text : str) (i : nat)
    (fields : list (str * str * str)) : outcome (list (str * str * str)) :=
  let n := length body_text in
  match fuel with
  | 0 => OutOfFuel
  | S fuel =>
      if negb (i <? n) then Ret fields
      else
        let i := skip_while field_sep body_text i in
        if n <=? i then Ret fields
        else
          let name_start := i in
          let i := skip_while name_char body_text i in
          let name := strip (slice body_text name_start i) in
          let i := skip_while isspace body_text i in
          if (n <=? i) || negb (bool_decide (body_text !! i = Some EQUALS))
          then
            let i := skip_while (fun c => negb (c =? COMMA)%N) body_text i in
            let i := if i <? n then i + 1 else i in
            parse_fields_loop fuel body_text i fields
          else
            let i := i + 1 in
            let i := skip_while isspace body_text i in
            '(val, _raw_seg, i) ← read_value body_text i;
            parse_fields_loop fuel body_text i
              (fields ++ [(name, val, _raw_seg)])
  end.

Definition parse_fields (body_text : str)
    : outcome (list (str * str * str)) :=
  parse_fields_loop (S (length body_text)) body_text 0 [].

(** [rebuild_entry(entry_type, citekey, fields, open_char, close_char)];
    the third component of a field is not used. *)
Definition field_line {R} (f : str * str * R) : str :=
  py "  " ++ f.1.1 ++ py " = {" ++ f.1.2 ++ py "},".

Definition rebuild_entry {R} (entry_type citekey : str)
    (fields : list (str * str * R)) (open_char close_char : N) : str :=
  join [NL]
    ([[AT] ++ entry_type ++ [open_char] ++ citekey ++ py ","]
     ++ (field_line <$> fields) ++ [[close_char]]).

(** A [dict] in the order of insertion: its items, the keys distinct.
    [d.get(k, [])] and [d[k] = v]. *)
Definition dict_get {V} (k : str) (d : list (str * list V)) : list V :=
  default [] (snd <$> head (filter (fun kv => kv.1 = k) d)).

Fixpoint dict_set {V} (k : str) (v : V) (d : list (str * V))
    : list (str * V) :=
  match d with
  | [] => [(k, v)]
  | (k', v') :: t =>
      if bool_decide (k' = k) then (k, v) :: t else (k', v') :: dict_set k v t
  end.

(** The value ["; ".join(hits) if hits else "NoMatch"] that
    [process_bib_text] writes into the field [searchWord]. *)
Definition search_val (hits : list str) : str :=
  match hits with [] => py "NoMatch" | _ => join (py "; ") hits end.

Definition SEARCH_FIELDS : list str :=
  [py "abstract"; py "title"; py "keywords"; py "note"; py "author_keywords"].

Section WithLib.
Context `{PyLib}.

(** [normalize(s)]: [' '.join((s or "").lower().split())] *)
Definition normalize (s : option str) : str :=
  join (py " ") (split_ws (str_lower (default [] s))).

(** The first loop of [build_aliases]: the keywords trimmed, without the
    empty ones and without those an earlier one equals in lower case. *)
Fixpoint clean_keywords (keywords : list str) (seen : gset str)
    (cleaned : list str) : gset str * list str :=
  match keywords with
  | [] => (seen, cleaned)
  | k :: rest =>
      let k2 := strip k in
      if bool_decide (k2 = []) then clean_keywords rest seen cleaned
      else if bool_decide (str_lower k2 ∈ seen)
      then clean_keywords rest seen cleaned
      else clean_keywords rest ({[str_lower k2]} ∪ seen) (cleaned ++ [k2])
  end.

(** The second loop: the keys of [alias_map] that are new. *)
Fixpoint add_alias_keys (keys : list str) (seen : gset str)
    (all_keys : list str) : gset str * list str :=
  match keys with
  | [] => (seen, all_keys)
  | k :: rest =>
      let k2 := strip k in
      if negb (bool_decide (k2 = []))
         && negb (bool_decide (str_lower k2 ∈ seen))
      then add_alias_keys rest ({[str_lower k2]} ∪ seen) (all_keys ++ [k2])
      else add_alias_keys rest seen all_keys
  end.

(** The inner loop of the third: the aliases of one key, trimmed, without
    the empty ones and without repetitions. *)
Fixpoint add_aliases (candidates : list str) (alias_list : list str)
    : list str :=
  match candidates with
  | [] => alias_list
  | a :: rest =>
      let a2 := strip a in
      if negb (bool_decide (a2 = [])) && negb (bool_decide (a2 ∈ alias_list))
      then add_aliases rest (alias_list ++ [a2])
      else add_aliases rest alias_list
  end.

(** [build_aliases(keywords, alias_map)]: [(aliases, cleaned)]. *)
Definition build_aliases (keywords : list str)
    (alias_map : list (str * list str))
    : list (str * list str) * list str :=
  let '(seen, cleaned) := clean_keywords keywords ∅ [] in
  let '(_, all_keys) := add_alias_keys (fst <$> alias_map) seen cleaned in
  let aliases :=
    foldl (fun aliases k =>
             dict_set k (add_aliases (dict_get k alias_map) [k]) aliases)
      [] all_keys in
  (aliases, cleaned).

(** The second loop of [match_keywords]: the hits without those an earlier
    one equals in lower case. *)
Fixpoint unique_hits (hits : list str) (seen : gset str) : list str :=
  match hits with
  | [] => []
  | h :: rest =>
      let key := str_lower h in
      if bool_decide (key ∈ seen) then unique_hits rest seen
      else h :: unique_hits rest ({[key]} ∪ seen)
  end.

(** [match_keywords(text, aliases)]: a keyword is a hit when the
    normalised text contains one of its normalised aliases. *)
Definition is_hit (t : str) (alias_list : list str) : bool :=
  existsb (fun a => contains (normalize (Some a)) t) alias_list.

Definition match_keywords (text : str) (aliases : list (str * list str))
    : list str :=
  let t := normalize (Some text) in
  let hits := fst <$> filter (fun ca => is_hit t ca.2 = true) aliases in
  unique_hits hits ∅.

(** The [for] loop of [process_bib_text] over the fields of an entry: the
    values to search and the index of the last [searchWord] field. *)
Fixpoint search_fields (fields : list (str * str * option str)) (i : nat)
    (search_values : list str) (idx_sw : option nat)
    : list str * option nat :=
  match fields with
  | [] => (search_values, idx_sw)
  | (name, val, _) :: rest =>
      let lname := str_lower name in
      if bool_decide (lname = py "searchword")
      then search_fields rest (S i) search_values (Some i)
      else if bool_decide (lname ∈ SEARCH_FIELDS)
      then search_fields rest (S i) (search_values ++ [val]) idx_sw
      else search_fields rest (S i) search_values idx_sw
  end.

(** What [process_bib_text] accumulates: [rebuilt_pieces], [per_kw] and
    [nomatch_entries]. *)
Record acc := Acc {
  rebuilt_pieces : list str;
  per_kw : gmap str (list str);
  nomatch_entries : list str;
}.

(** The body of [for kind, chunk in pieces]. *)
Definition process_piece (aliases : list (str * list str)) (a : acc)
    (piece : piece_kind * str) : outcome acc :=
  let '(kind, chunk) := piece in
  let unchanged :=
    Acc (rebuilt_pieces a ++ [chunk]) (per_kw a) (nomatch_entries a) in
  match kind with
  | NonEntry => Ret unchanged
  | Entry =>
      let '(etype, key, body, o, c) := parse_entry_header chunk in
      if bool_decide (default [] etype = []) then Ret unchanged
      else
        parsed ← parse_fields body;
        let fields := (fun f : str * str * str => (f.1, Some f.2)) <$> parsed in
        let '(search_values, idx_sw) := search_fields fields 0 [] None in
        let base_text :=
          join (py " ") (filter (fun v => v ≠ []) search_values) in
        let hits := match_keywords base_text aliases in
        let fields :=
          match idx_sw with
          | None => fields ++ [(py "searchWord", search_val hits, None)]
          | Some idx =>
              <[idx := (py "searchWord", search_val hits, None)]> fields
          end in
        let rebuilt :=
          rebuild_entry (default [] etype) (default [] key) fields o c in
        Ret (Acc (rebuilt_pieces a ++ [rebuilt])
               (match hits with
                | [] => per_kw a
                | _ =>
                    foldl (fun per_kw h =>
                             <[h := default [] (per_kw !! h) ++ [rebuilt]]>
                               per_kw)
                      (per_kw a) hits
                end)
               (match hits with
                | [] => nomatch_entries a ++ [rebuilt]
                | _ => nomatch_entries a
                end))
  end.

(** [process_bib_text(bibtext, aliases)]:
    [("".join(rebuilt_pieces), per_kw, nomatch_entries)]. *)
Definition process_bib_text (bibtext : str) (aliases : list (str * list str))
    : outcome (str * gmap str (list str) * list str) :=
  pieces ← split_entries bibtext;
  a ← foldl (fun r piece => a ← r; process_piece aliases a piece)
         (Ret (Acc [] ∅ [])) pieces;
  Ret (concat (rebuilt_pieces a), per_kw a, nomatch_entries a).

End WithLib.

End Keywords.

(** ** Add_type.py: the tokenizer *)

Module AddType.

(** [RE_ENTRY_HEAD], compiled with [re.A]: an [@], [\s*], group 1 (a letter,
    then letters, [_] and [-]), [\s*], group 2 (one of [{] and [(]). *)
Definition RE_ENTRY_HEAD : regex :=
  seqs [lit AT; star (Chr isspace_ascii);
        Grp 1 (seqs [Chr (fun c => AZ c || az c);
                     star (Chr (fun c => AZ c || az c || one_of "_-" c))]);
        star (Chr isspace_ascii); Grp 2 (Chr (one_of "{("))].

(** The balancing loop of [extract_bibtex_entries]: where it stops and the
    depth it stops with. *)
Fixpoint balance_loop (open_delim close_delim : N) (rest : str) (p : nat)
    (depth : Z) : nat * Z :=
  match rest with
  | [] => (p, depth)
  | ch :: t =>
      if (ch =? open_delim)%N then
        balance_loop open_delim close_delim t (S p) (depth + 1)
      else if (ch =? close_delim)%N then
        let depth := (depth - 1)%Z in
        if (depth =? 0)%Z then (p + 1, depth)
        else balance_loop open_delim close_delim t (S p) depth
      else balance_loop open_delim close_delim t (S p) depth
  end.

(** An entry of the result: [(entry_type, raw_entry, start, end)]. *)
Definition entry := (str * str * nat * nat)%type.

(** [m.group(2)] of a header match, its closing partner and [m.start(2)]. *)
Definition open_delim (text : str) (m : mobj) : N :=
  default 0%N (head (default [] (group text m 2))).
Definition close_delim (text : str) (m : mobj) : N :=
  if (open_delim text m =? LBRACE)%N then RBRACE else RPAREN.
Definition open_pos (m : mobj) : nat := default 0 (fst <$> m_groups m !! 2).

Fixpoint extract_loop (fuel : nat) (text : str) (i : nat)
    (entries : list entry) : outcome (list entry) :=
  match fuel with
  | 0 => OutOfFuel
  | S fuel =>
      match re_search RE_ENTRY_HEAD text i with
      | None => Ret entries
      | Some m =>
          let entry_type := default [] (group text m 1) in
          let k := open_pos m in
          let '(p, depth) :=
            balance_loop (open_delim text m) (close_delim text m)
              (drop k text) k 0 in
          if negb (depth =? 0)%Z then extract_loop fuel text (m_end m) entries
          else
            extract_loop fuel text p
              (entries ++ [(entry_type, slice text (m_start m) p,
                            m_start m, p)])
      end
  end.

(** The loop resumed at [i] with [entries] collected so far. *)
Definition extract_from (text : str) (i : nat) (entries : list entry)
    : outcome (list entry) :=
  extract_loop (S (length text - i)) text i entries.

Definition extract_bibtex_entries (text : str) : outcome (list entry) :=
  extract_from text 0 [].

(** [MAPPING], from the type of an entry to the value of its [type]
    field. *)
Definition MAPPING : list (str * str) :=
  [(py "article", py "article");
   (py "inproceedings", py "conference paper");
   (py "conference", py "conference paper");
   (py "proceedings", py "proceedings");
   (py "incollection", py "book-chapter");
   (py "inbook", py "book-chapter");
   (py "book", py "book");
   (py "phdthesis", py "thesis");
   (py "mastersthesis", py "thesis");
   (py "thesis", py "thesis");
   (py "techreport", py "report");
   (py "report", py "report");
   (py "manual", py "manual");
   (py "online", py "webpage");
   (py "www", py "webpage");
   (py "dataset", py "dataset");
   (py "software", py "software");
   (py "booklet", py "booklet");
   (py "unpublished", py "unpublished");
   (py "patent", py "patent");
   (py "misc", py "generic")].

(** [MAPPING.get(t)]. *)
Definition mapping_get (t : str) : option str :=
  snd <$> head (filter (fun kv => kv.1 = t) MAPPING).

(** [RE_INDENT_FIELD]: a line break, group 1 (a run of blanks and tabs),
    a letter, a run of [A-Za-z0-9_-], white space and [=]. *)
Definition RE_INDENT_FIELD : regex :=
  seqs [lit NL; Grp 1 (star (Chr (fun c => (c =? SPACE)%N || (c =? 9)%N)));
        Chr (fun c => AZ c || az c);
        star (Chr (fun c => AZ c || az c || d09 c || one_of "_-" c));
        star ws; lit EQUALS].

(** The line [type = {<value>}] that [insert_type_field] writes. *)
Definition type_line (type_value : str) : str :=
  py "type = {" ++ type_value ++ py "}".

(** [insert_type_field(raw_entry, type_value)] *)
Definition insert_type_field (raw_entry type_value : str) : str :=
  match re_search RE_ENTRY_HEAD raw_entry 0 with
  | None => raw_entry
  | Some head =>
      let open_pos := open_pos head in
      match find_char COMMA raw_entry (open_pos + 1) with
      | None =>
          let close_delim :=
            if bool_decide (raw_entry !! open_pos = Some LBRACE)
            then RBRACE else RPAREN in
          match rfind_char close_delim raw_entry with
          | None => raw_entry
          | Some close_pos =>
              take close_pos raw_entry
              ++ (py "," ++ [NL]) ++ type_line type_value ++ [NL]
              ++ drop close_pos raw_entry
          end
      | Some comma_pos =>
          let after := drop (comma_pos + 1) raw_entry in
          let indent :=
            match re_search RE_INDENT_FIELD after 0 with
            | Some m_ind => default [] (group after m_ind 1)
            | None => []
            end in
          let insertion :=
            [NL] ++ indent ++ type_line type_value ++ py "," in
          take (comma_pos + 1) raw_entry ++ insertion
          ++ drop (comma_pos + 1) raw_entry
      end
  end.

Section WithLib.
Context `{PyLib}.

(** [RE_TYPE_FIELD]: [(?im)(^|[,\s])type\b\s*=] *)
Definition RE_TYPE_FIELD : regex :=
  seqs [Grp 1 (Alt Bol (Chr (fun c => (c =? COMMA)%N || isspace c)));
        ilits (py "type"); Wordb is_word; star ws; lit EQUALS].

(** [has_type_field(raw_entry)]: is there a [type =] after the header? *)
Definition has_type_field (raw_entry : str) : bool :=
  match re_search RE_ENTRY_HEAD raw_entry 0 with
  | None => false
  | Some head =>
      let body := drop (m_end head) raw_entry in
      bool_decide (is_Some (re_search RE_TYPE_FIELD body 0))
  end.

(** [derive_type_value(entry_type)] *)
Definition derive_type_value (entry_type : option str) : str :=
  let t := str_lower (strip (default [] entry_type)) in
  match mapping_get t with
  | Some v => v
  | None => match t with [] => py "generic" | _ => t end
  end.

(** The body of the [for] loop of [process_text_add_type] on
    [(parts, cursor, changes)]. *)
Definition add_type_step (text : str) (st : list str * nat * nat)
    (e : entry) : list str * nat * nat :=
  let '(parts, cursor, changes) := st in
  let '(entry_type, raw_entry, start, end_) := e in
  let parts := parts ++ [slice text cursor start] in
  let etype := str_lower entry_type in
  if bool_decide (etype ∈ [py "comment"; py "preamble"; py "string"])
     || has_type_field raw_entry
  then (parts ++ [raw_entry], end_, changes)
  else
    let type_value := derive_type_value (Some etype) in
    let fixed := insert_type_field raw_entry type_value in
    (parts ++ [fixed], end_,
     if bool_decide (fixed ≠ raw_entry) then changes + 1 else changes).

(** [process_text_add_type(text)]: the new text and the number of entries
    changed. *)
Definition process_text_add_type (text : str) : outcome (str * nat) :=
  entries ← extract_bibtex_entries text;
  match entries with
  | [] => Ret (text, 0)
  | _ =>
      let '(parts, cursor, changes) :=
        foldl (add_type_step text) ([], 0, 0) entries in
      Ret (concat (parts ++ [drop cursor text]), changes)
  end.

End WithLib.

End AddType.

(** ** Unique.py: normalisation and the deduplication key *)

(** The tags of [build_dedupe_key], in the order of [strat_order]. *)
Inductive strategy := DOI | TITLE_YEAR | TITLE | ABSTRACT | FALLBACK.

#[global] Instance strategy_eq_dec : EqDecision strategy.
Proof. solve_decision. Defined.

Definition strat_order (s : strategy) : nat :=
  match s with
  | DOI => 0 | TITLE_YEAR => 1 | TITLE => 2 | ABSTRACT => 3 | FALLBACK => 4
  end.

Definition strat_of_order (n : nat) : strategy :=
  match n with
  | 0 => DOI | 1 => TITLE_YEAR | 2 => TITLE | 3 => ABSTRACT | _ => FALLBACK
  end.

#[global] Instance strategy_countable : Countable strategy.
Proof.
  apply (inj_countable' strat_order strat_of_order). by intros [].
Defined.

(** [if x:] for [x : str | None]. *)
Definition truthy (x : option str) : bool :=
  match x with Some (_ :: _) => true | _ => false end.

Module Unique.
Section WithLib.
Context `{PyLib}.

(** [re.compile(r'@(?P<type>[A-Za-z]+)\s*\{', re.M)] *)
Definition ENTRY_START_RE : regex :=
  seqs [lit AT; Grp 1 (plus (Chr (fun c => AZ c || az c))); star ws;
        lit LBRACE].

(** [re.compile(r'\b10\.\d{4,9}/\S+\b', re.I)] *)
Definition DOI_RE : regex :=
  seqs [Wordb is_word; ilits (py "10.");
        Rep true 4 (Some 9) (Chr is_decimal); ilit 47;
        plus (Chr (fun c => negb (isspace c))); Wordb is_word].

Fixpoint extract_loop (fuel : nat) (text : str) (i : nat)
    (entries : list str) : outcome (list str) :=
  let n := length text in
  match fuel with
  | 0 => OutOfFuel
  | S fuel =>
      match re_search ENTRY_START_RE text i with
      | None => Ret entries
      | Some m =>
          let start := m_start m in
          match find_char LBRACE text (m_end m - 1) with
          | None => Ret entries
          | Some brace_open =>
              match balance LBRACE RBRACE (drop brace_open text)
                      brace_open 0 with
              | Some end_ =>
                  extract_loop fuel text end_
                    (entries ++ [slice text start end_])
              | None =>
                  extract_loop fuel text n (entries ++ [slice text start n])
              end
          end
      end
  end.

(** The loop resumed at [i] with [entries] collected so far. *)
Definition extract_from (text : str) (i : nat) (entries : list str)
    : outcome (list str) :=
  extract_loop (S (length text - i)) text i entries.

Definition extract_entries (text : str) : outcome (list str) :=
  extract_from text 0 [].

(** [(?im)^\s*FIELD\s*=\s*\{(.*?)\}\s*,?] with [re.S] *)
Definition field_braced_re (field : str) : regex :=
  seqs [Bol; star ws; ilits field; star ws; ilit EQUALS; star ws;
        ilit LBRACE; Grp 1 (lazy_star any); ilit RBRACE; star ws;
        opt (ilit COMMA)].

(** [(?im)^\s*FIELD\s*=\s*"(.*?)"\s*,?] with [re.S] *)
Definition field_quoted_re (field : str) : regex :=
  seqs [Bol; star ws; ilits field; star ws; ilit EQUALS; star ws;
        ilit DQUOTE; Grp 1 (lazy_star any); ilit DQUOTE; star ws;
        opt (ilit COMMA)].

Definition get_field (entry_text field : str) : option str :=
  match re_search (field_braced_re field) entry_text 0 with
  | Some m => Some (strip (default [] (group entry_text m 1)))
  | None =>
      match re_search (field_quoted_re field) entry_text 0 with
      | Some m => Some (strip (default [] (group entry_text m 1)))
      | None => None
      end
  end.

(** [\\[a-zA-Z]+(\{[^{}]*\})?] *)
Definition latex_command_re : regex :=
  seqs [lit BACKSLASH; plus (Chr (fun c => az c || AZ c));
        opt (Grp 1 (seqs [lit LBRACE;
                          star (Chr (fun c => negb (one_of "{}" c)));
                          lit RBRACE]))].

Definition _strip_latex (s : str) : str :=
  let s := re_sub latex_command_re (py " ") s in
  replace (py "\%") (py "%")
    (replace (py "\/") (py "/") (replace (py "\&") (py "&") s)).

Definition _fold_accents (s : str) : str :=
  filter (fun ch => combining ch = false) (nfkd s).

(** The class of [re.sub(r'[\.,;:\-...]', ' ', s)] in [_norm_text]:
    ASCII punctuation but for the braces, and
    U+2013, U+2014, U+00B4, U+2019, U+201C, U+201D. *)
Definition punct (c : N) : bool :=
  one_of ".,;:-()[]" c || (c =? DQUOTE)%N || one_of "'`/\_~!?|+&^%$#@*=<>" c
  || bool_decide (c ∈ [8211; 8212; 180; 8217; 8220; 8221]%N).

Definition _norm_text (s : option str) : str :=
  match s with
  | None => []
  | Some s =>
      let s := html_unescape s in
      let s := unquote s in
      let s := re_sub (Alt (lit LBRACE) (lit RBRACE)) [] s in
      let s := re_sub (seqs [lit LT; star (Chr (fun c => negb (c =? GT)%N));
                             lit GT]) (py " ") s in
      let s := _strip_latex s in
      let s := _fold_accents s in
      let s := str_lower s in
      let s := re_sub (Chr punct) (py " ") s in
      strip (re_sub (plus ws) (py " ") s)
  end.

(** [(?:https?://)?(?:dx\.)?doi\.org/([^?\s]+)] with [re.I] *)
Definition doi_url_re : regex :=
  seqs [opt (seqs [ilits (py "http"); opt (ilit 115); ilits (py "://")]);
        opt (ilits (py "dx.")); ilits (py "doi.org/");
        Grp 1 (plus (Chr (fun c => negb ((c =? 63)%N || isspace c))))].

(** [^(https?://)?(dx\.)?doi\.org/] *)
Definition doi_prefix_re : regex :=
  seqs [Bos;
        opt (Grp 1 (seqs [lits "http"; opt (lit 115); lits "://"]));
        opt (Grp 2 (lits "dx.")); lits "doi.org/"].

(** [^\s*doi:\s*] *)
Definition doi_scheme_re : regex :=
  seqs [Bos; star ws; lits "doi:"; star ws].

Definition _normalize_doi (raw : option str) : option str :=
  if negb (truthy raw) then None
  else
    let raw := html_unescape (default [] raw) in
    let raw := unquote raw in
    let doi :=
      match re_search DOI_RE raw 0 with
      | Some m => default [] (group raw m 0)
      | None =>
          match re_search doi_url_re raw 0 with
          | Some m => default [] (group raw m 1)
          | None => raw
          end
      end in
    let doi := str_lower (strip doi) in
    let doi := rstrip_chars " .;," doi in
    let doi := re_sub doi_prefix_re [] doi in
    let doi := re_sub doi_scheme_re [] doi in
    let doi := replace (py " ") [] doi in
    if bool_decide (is_Some (re_match DOI_RE doi)) then Some doi else None.

Definition _find_normalized_doi (entry_text : str) : option str :=
  let doi_field := _normalize_doi (get_field entry_text (py "doi")) in
  if truthy doi_field then doi_field
  else _normalize_doi (get_field entry_text (py "url")).

(** [re.search(r'\d{4}', year)] *)
Definition year_re : regex := Rep true 4 (Some 4) (Chr is_decimal).

Definition build_dedupe_key (entry_text : str) : strategy * str :=
  let doi := _find_normalized_doi entry_text in
  if truthy doi then (DOI, default [] doi)
  else
    let title := get_field entry_text (py "title") in
    if truthy title then
      let t_norm := _norm_text title in
      let year := get_field entry_text (py "year") in
      match (if truthy year
             then re_search year_re (default [] year) 0 else None) with
      | Some y =>
          (TITLE_YEAR,
           t_norm ++ py "::" ++ default [] (group (default [] year) y 0))
      | None => (TITLE, t_norm)
      end
    else
      let abstract := get_field entry_text (py "abstract") in
      if truthy abstract then (ABSTRACT, _norm_text abstract)
      else (FALLBACK, _norm_text (Some entry_text)).

(** [split_filename_parts(fp)] *)
Definition or_unknown (s : str) : str :=
  match s with [] => py "unknown" | _ => s end.

Definition split_filename_parts (fp : str) : str * option str :=
  let base := (path_splitext (path_basename fp)).1 in
  match find_char 45 base 0 with
  | Some i =>
      (or_unknown (strip (take i base)),
       Some (or_unknown (strip (drop (i + 1) base))))
  | None => (or_unknown (strip base), None)
  end.

(** [after_header] of [has_source_field] and [detect_common_field_indent]:
    one past the first comma after the first brace, 0 when [index] raises
    [ValueError]. *)
Definition after_header (entry_text : str) : nat :=
  match find_char LBRACE entry_text 0 with
  | Some first_brace =>
      match find_char COMMA entry_text (first_brace + 1) with
      | Some comma => comma + 1
      | None => 0
      end
  | None => 0
  end.

(** [(?im)^\s*source\s*=] *)
Definition source_re : regex :=
  seqs [Bol; star ws; ilits (py "source"); star ws; ilit EQUALS].

Definition has_source_field (entry_text : str) : bool :=
  let body := drop (after_header entry_text) entry_text in
  bool_decide (is_Some (re_search source_re body 0)).

(** [collections.Counter(indents)]: the counts, in order of first
    occurrence. *)
Fixpoint counter_add (x : str) (counts : list (str * nat))
    : list (str * nat) :=
  match counts with
  | [] => [(x, 1)]
  | (y, c) :: t =>
      if bool_decide (x = y) then (y, S c) :: t else (y, c) :: counter_add x t
  end.

Definition Counter (l : list str) : list (str * nat) :=
  foldl (fun counts x => counter_add x counts) [] l.

(** [min(candidates, key=len)]: the first of the shortest. *)
Fixpoint min_by_len (best : str) (l : list str) : str :=
  match l with
  | [] => best
  | x :: t => min_by_len (if length x <? length best then x else best) t
  end.

(** The indentation of the field lines of the body: of every line that is
    not blank and has an [=]. *)
Definition field_indents (entry_text : str) : list str :=
  let last_brace :=
    default (length entry_text) (rfind_char RBRACE entry_text) in
  let body := slice entry_text (after_header entry_text) last_brace in
  omap (fun line =>
          if bool_decide (strip line = []) then None
          else if bool_decide (EQUALS ∈ line) then
            match re_match (seqs [Bos; Grp 1 (star ws)]) line with
            | Some m => Some (default [] (group line m 1))
            | None => Some []
            end
          else None)
       (splitlines body).

Definition detect_common_field_indent (entry_text : str) : str :=
  let indents := field_indents entry_text in
  match indents with
  | [] => []
  | _ =>
      let counts := Counter indents in
      let max_count := foldr Nat.max 0 (snd <$> counts) in
      let candidates :=
        fst <$> filter (fun ic => ic.2 = max_count) counts in
      match candidates with
      | [] => []                   (* [min] of an empty list: not reached *)
      | i :: rest => min_by_len i rest
      end
  end.

Definition append_fields (entry_text actual_search : str)
    (source_val : option str) : str :=
  let '(last_brace, closing) :=
    match rfind_char RBRACE entry_text with
    | None => (length entry_text, [])
    | Some i => (i, [RBRACE])
    end in
  let indent := detect_common_field_indent entry_text in
  let newline :=
    if bool_decide (NL ∈ entry_text) then [NL] else [CR; NL] in
  let to_insert := [] in
  let to_insert :=
    if truthy source_val && negb (has_source_field entry_text)
    then to_insert ++ indent ++ py "source = {" ++ default [] source_val
           ++ py "}," ++ newline
    else to_insert in
  let to_insert :=
    to_insert ++ indent ++ py "actualSearch = {" ++ actual_search
      ++ py "}" ++ newline in
  take last_brace entry_text ++ to_insert ++ closing
    ++ drop (last_brace + 1) entry_text.

Definition get_bibtex_id (entry_text : str) : str :=
  match find_char LBRACE entry_text 0 with
  | Some first_brace =>
      match find_char COMMA entry_text (first_brace + 1) with
      | Some comma => strip (slice entry_text (first_brace + 1) comma)
      | None => []
      end
  | None => []
  end.

(** One [item] of [main]. *)
Record item := Item {
  it_kept : bool;
  it_file : str;
  it_bib_id : str;
  it_title_raw : str;
  it_year : str;
  it_source : str;
  it_actualSearch : str;
  it_strategy : strategy;
  it_key : str;
  it_entry_text : str;
}.

(** The tables [main] fills: [groups], [seen_keys], [merged_entries]. *)
Record state := State {
  groups : gmap (strategy * str) (list item);
  seen_keys : gset (strategy * str);
  merged_entries : list str;
}.

Definition initial : state := State ∅ ∅ [].

(** The body of the inner [for] of [main]. *)
Definition process_entry (fp : str) (st : state) (entry_text : str) : state :=
  let '(actual_search, source_from_name) := split_filename_parts fp in
  let updated := append_fields entry_text actual_search source_from_name in
  let '(strategy, key) := build_dedupe_key updated in
  let title_raw := default [] (get_field updated (py "title")) in
  let year := default [] (get_field updated (py "year")) in
  let source_field :=
    if truthy (get_field updated (py "source"))
    then default [] (get_field updated (py "source"))
    else default [] source_from_name in
  let bib_id := get_bibtex_id updated in
  let item kept :=
    Item kept (path_basename fp) bib_id title_raw year source_field
      actual_search strategy key updated in
  let bucket := default [] (groups st !! (strategy, key)) in
  if bool_decide ((strategy, key) ∈ seen_keys st) then
    State (<[(strategy, key) := bucket ++ [item false]]> (groups st))
      (seen_keys st) (merged_entries st)
  else
    State (<[(strategy, key) := bucket ++ [item true]]> (groups st))
      ({[(strategy, key)]} ∪ seen_keys st)
      (merged_entries st ++ [updated]).

(** [sorted(glob.glob(...))]: the paths in code point order. *)
Definition sorted (paths : list str) : list str :=
  merge_sort (fun a b => Is_true (str_leb a b)) paths.

(** [main]: [found] is what [glob] lists and [read fp] the text of [fp]. *)
Definition main (found : list str) (read : str → str) : outcome state :=
  let bib_files := sorted found in
  raw_entries_per_file ←
    mapM (fun fp => entries ← extract_entries (read fp); Ret (fp, entries))
      bib_files;
  Ret (foldl (fun st '(fp, entries) => foldl (process_entry fp) st entries)
         initial raw_entries_per_file).

(** *** The cascade in the words of the specification

    Five strategies in priority order, each giving a key or none; the first
    that gives one decides. *)
Definition usable (x : option str) : option str :=
  match x with Some (c :: t) => Some (c :: t) | _ => None end.

Definition identifier_key (e : str) : option (strategy * str) :=
  match usable (_normalize_doi (get_field e (py "doi"))) with
  | Some doi => Some (DOI, doi)
  | None =>
      doi ← usable (_normalize_doi (get_field e (py "url"))); Some (DOI, doi)
  end.

Definition title_year_key (e : str) : option (strategy * str) :=
  title ← usable (get_field e (py "title"));
  year ← usable (get_field e (py "year"));
  y ← re_search year_re year 0;
  Some (TITLE_YEAR,
        _norm_text (Some title) ++ py "::" ++ default [] (group year y 0)).

Definition title_key (e : str) : option (strategy * str) :=
  title ← usable (get_field e (py "title"));
  Some (TITLE, _norm_text (Some title)).

Definition abstract_key (e : str) : option (strategy * str) :=
  abstract ← usable (get_field e (py "abstract"));
  Some (ABSTRACT, _norm_text (Some abstract)).

Definition fallback_key (e : str) : option (strategy * str) :=
  Some (FALLBACK, _norm_text (Some e)).

Definition cascade : list (str → option (strategy * str)) :=
  [identifier_key; title_year_key; title_key; abstract_key; fallback_key].

Definition first_usable (e : str) : option (strategy * str) :=
  head (omap (fun strategy_key => strategy_key e) cascade).

(** *** Counting indentations *)

(** How often [x] occurs in [l]. *)
Definition occurrences (x : str) (l : list str) : nat :=
  length (filter (x =.) l).

(** The count a [Counter] holds for [x]. *)
Fixpoint count_of (x : str) (counts : list (str * nat)) : option nat :=
  match counts with
  | [] => None
  | (y, c) :: t => if bool_decide (x = y) then Some c else count_of x t
  end.

(** The lines [append_fields] inserts. *)
Definition source_line (indent source_val newline : str) : str :=
  indent ++ py "source = {" ++ source_val ++ py "}," ++ newline.
Definition actual_search_line (indent actual_search newline : str) : str :=
  indent ++ py "actualSearch = {" ++ actual_search ++ py "}" ++ newline.

(** *** The order of processing and the earliest record of a bucket *)

(** The entries of a text ([extract_entries] always returns). *)
Definition entries_of (text : str) : list str :=
  match extract_entries text with Ret l => l | _ => [] end.

(** An entry of [fp] with the fields [main] appends to it. *)
Definition updated_of (fp entry_text : str) : str :=
  let '(actual_search, source_from_name) := split_filename_parts fp in
  append_fields entry_text actual_search source_from_name.

(** The records in the order of processing: the files in sorted order, the
    entries of a file from left to right. *)
Definition processing_order (found : list str) (read : str → str)
    : list str :=
  fp ← sorted found; updated_of fp <$> entries_of (read fp).

(** The records of [us] that no record before them shares the key with;
    [prev] holds the records already passed. *)
Fixpoint earliest_go (prev us : list str) : list str :=
  match us with
  | [] => []
  | u :: us' =>
      (if bool_decide (build_dedupe_key u ∈ build_dedupe_key <$> prev)
       then [] else [u]) ++ earliest_go (prev ++ [u]) us'
  end.

Definition earliest (us : list str) : list str := earliest_go [] us.

(** The [kept] marks of a bucket with one kept record, its first. *)
Definition first_kept (bucket : list item) : list bool :=
  match bucket with
  | [] => []
  | _ :: rest => true :: ((fun _ => false) <$> rest)
  end.

End WithLib.
End Unique.

(** ** Screening.py: the fields of an entry *)

(** [s.split(c)] for a one-character separator. *)
Fixpoint split_go (c : N) (rest cur : str) : list str :=
  match rest with
  | [] => [cur]
  | x :: t =>
      if (x =? c)%N then cur :: split_go c t [] else split_go c t (cur ++ [x])
  end.

Definition split_char (c : N) (s : str) : list str := split_go c s [].

(** A value of the dictionary [extract_all_fields] returns: a string, or the
    list under ['searchword_list']. *)
Inductive pyval := VStr (s : str) | VList (l : list str).

(** What [int] makes of text: the value of a decimal digit, fixed by the
    Unicode tables like the class [\d] that selects the digits. *)
Class PyInt := { decimal_value : N → Z }.

Module Screening.
Section WithLib.
Context `{PyLib}.

Definition normalize_value (v : str) : outcome str :=
  let v := strip v in
  match splitlines v with
  | [] => Raise IndexError
  | line :: _ =>
      let first_line := strip line in
      if (startswith LBRACE first_line && endswith RBRACE first_line)
         || (startswith DQUOTE first_line && endswith DQUOTE first_line)
      then Ret (strip (slice first_line 1 (length first_line - 1)))
      else Ret first_line
  end.

(** The pattern of [extract_all_fields], with [re.I], [re.M] and
    [re.DOTALL]: at the start of a line blanks, group 1 (one or more of
    [A-Za-z0-9_:-]), blanks, [=], blanks, and group 2: a quoted text, a
    braced text (either up to the first closing mark) or a run without
    comma and line break. *)
Definition blank : regex := Chr (fun c => (c =? SPACE)%N || (c =? 9)%N).

Definition field_re : regex :=
  seqs [Bol; star blank;
        Grp 1 (plus (iclass (fun c => AZ c || az c || d09 c
                                      || one_of "_:-" c)));
        star blank; ilit EQUALS; star blank;
        Grp 2 (Alt (seqs [ilit DQUOTE; lazy_star any; ilit DQUOTE])
              (Alt (seqs [ilit LBRACE; lazy_star any; ilit RBRACE])
                   (plus (Chr (fun c => negb ((c =? COMMA)%N || (c =? CR)%N
                                              || (c =? NL)%N))))))].

(** The occurrences of fields in an entry, in order: the lower-cased name
    and the raw value of every match. *)
Definition occurrences_of (entry_text : str) : list (str * str) :=
  (fun m => (str_lower (strip (default [] (group entry_text m 1))),
             default [] (group entry_text m 2)))
  <$> re_finditer field_re entry_text.

(** The [for] loop of [extract_all_fields]. *)
Fixpoint collect (occ : list (str * str)) (fields : gmap str pyval)
    : outcome (gmap str pyval) :=
  match occ with
  | [] => Ret fields
  | (name, raw) :: occ' =>
      if bool_decide (is_Some (fields !! name)) then collect occ' fields
      else
        value ← normalize_value raw;
        collect occ' (<[name := VStr value]> fields)
  end.

(** [[p.strip() for p in sw.split(';') if p.strip()]] *)
Definition searchword_list (sw : str) : list str :=
  filter (fun p => p ≠ []) (strip <$> split_char SEMI sw).

Definition extract_all_fields (entry_text : str)
    : outcome (gmap str pyval) :=
  fields ← collect (occurrences_of entry_text) ∅;
  let fields :=
    match fields !! py "language", fields !! py "langid" with
    | None, Some langid => <[py "language" := langid]> fields
    | _, _ => fields
    end in
  match fields !! py "searchword" with
  | Some (VStr sw) =>
      Ret (<[py "searchword_list" := VList (searchword_list sw)]> fields)
  | Some (VList _) => Raise AttributeError
  | None => Ret (<[py "searchword_list" := VList []]> fields)
  end.

(** [_entry_start_re], under [re.M]: at the start of a line white space,
    [@], group 1 (one or more letters), white space, [{], white space,
    group 2 (a run without comma), white space and a comma if there is
    one. *)
Definition _entry_start_re : regex :=
  seqs [Bol; star ws; lit AT; Grp 1 (plus (Chr (fun c => AZ c || az c)));
        star ws; lit LBRACE; star ws;
        Grp 2 (star (Chr (fun c => negb (c =? COMMA)%N)));
        star ws; opt (lit COMMA)].

(** [m.end(n)] of a group that took part in the match. *)
Definition group_end (m : mobj) (n : nat) : nat :=
  default 0 (snd <$> m_groups m !! n).

(** [iter_entries_with_raw(text)]: the triples it yields, in order. *)
Fixpoint iter_loop (fuel : nat) (text : str) (i : nat)
    (out : list (str * str * str)) : outcome (list (str * str * str)) :=
  match fuel with
  | 0 => OutOfFuel
  | S fuel =>
      if negb (i <? length text) then Ret out
      else
        match re_search _entry_start_re text i with
        | None => Ret out
        | Some m =>
            let start := m_start m in
            let etype := default [] (group text m 1) in
            match find_char LBRACE text (group_end m 1) with
            | None => iter_loop fuel text (m_end m) out
            | Some brace_pos =>
                match balance LBRACE RBRACE (drop brace_pos text)
                        brace_pos 0 with
                | Some end_ =>
                    iter_loop fuel text end_
                      (out ++ [(slice text start end_, etype,
                                default [] (group text m 2))])
                | None => Ret out
                end
            end
        end
  end.

Definition iter_entries_with_raw (text : str)
    : outcome (list (str * str * str)) :=
  iter_loop (S (length text)) text 0 [].

(** *** The filters

    A filter is a function of the entry type, the fields and the raw
    block, with the attributes [_mark] and [setattr] give it.  [run] is
    [None] where the call raises; [main] treats every exception of a
    filter alike. *)
Record filter_fn := Filter {
  run : str → gmap str pyval → str → option bool;
  label : str;
  bucket : str;
  allowed_types : option (list str);
  allowed_langs : option (list str);
}.

Definition _mark (f : str → gmap str pyval → str → option bool)
    (bucket label : str) : filter_fn :=
  Filter f label bucket None None.

(** [lambda e,fd,r: True] *)
Definition pass_all : str → gmap str pyval → str → option bool :=
  fun _ _ _ => Some true.

(** [sorted(allowed)] for a set of strings. *)
Definition sorted_set (allowed : gset str) : list str :=
  merge_sort (fun a b => Is_true (str_leb a b)) (elements allowed).

(** [fields.get(name, "").strip().lower() in allowed]; a list has no
    [strip]. *)
Definition value_in (name : str) (allowed : gset str)
    (fields : gmap str pyval) : option bool :=
  match fields !! name with
  | None => Some (bool_decide (str_lower (strip []) ∈ allowed))
  | Some (VStr s) => Some (bool_decide (str_lower (strip s) ∈ allowed))
  | Some (VList _) => None
  end.

Definition by_types (allowed : list str) : filter_fn :=
  let allowed : gset str :=
    list_to_set ((fun t => str_lower (strip t))
                 <$> filter (fun t => strip t ≠ []) allowed) in
  if bool_decide (allowed = ∅)
  then _mark pass_all (py "type") (py "by_types[ignored]")
  else
    let _f (etype : str) fields (raw : str) :=
      value_in (py "type") allowed fields in
    let f :=
      _mark _f (py "type")
        (py "by_types[type in {" ++ join (py ", ") (sorted_set allowed)
         ++ py "}]") in
    Filter (run f) (label f) (bucket f) (Some (sorted_set allowed))
      (allowed_langs f).

Definition by_language (langs : list str) : filter_fn :=
  let langs : gset str :=
    list_to_set ((fun l => str_lower (strip l))
                 <$> filter (fun l => strip l ≠ []) langs) in
  if bool_decide (langs = ∅)
  then _mark pass_all (py "language") (py "by_language[ignored]")
  else
    let _f (etype : str) (fields : gmap str pyval) (raw : str) :=
      match fields !! py "language" with
      | Some (VList _) => None
      | v =>
          let lang_val :=
            str_lower (strip (match v with Some (VStr s) => s | _ => [] end))
          in
          if bool_decide (lang_val = []) then Some true
          else Some (bool_decide (lang_val ∈ langs))
      end in
    let f :=
      _mark _f (py "language")
        (py "by_language[" ++ join (py ", ") (sorted_set langs) ++ py "]") in
    Filter (run f) (label f) (bucket f) (allowed_types f)
      (Some (sorted_set langs)).

Definition by_field_not_equal (field : str) (value : option str) : filter_fn :=
  let f := strip (str_lower field) in
  if bool_decide (f = []) || negb (bool_decide (is_Some value))
     || bool_decide (strip (default [] value) = [])
  then _mark pass_all
         (py "field:" ++ (if bool_decide (f = []) then py "unknown" else f))
         (py "by_field_not_equal[ignored]")
  else
    let v := default [] value in
    let _f (etype : str) (fields : gmap str pyval) (raw : str) :=
      match fields !! f with
      | Some (VStr s) => Some (negb (bool_decide (s = v)))
      | _ => Some true
      end in
    _mark _f (py "field:" ++ f)
      (py "by_field_not_equal[" ++ f ++ py "!=" ++ v ++ py "]").

Definition by_searchword_min_len (min_len : option Z) : filter_fn :=
  match min_len with
  | Some n =>
      if (n <=? 0)%Z
      then _mark pass_all (py "searchword")
             (py "by_searchword_min_len[ignored]")
      else
        let _f (etype : str) (fields : gmap str pyval) (raw : str) :=
          let len :=
            match fields !! py "searchword_list" with
            | Some (VStr s) => length s
            | Some (VList l) => length l
            | None => 0
            end in
          Some (n <=? Z.of_nat len)%Z in
        _mark _f (py "searchword")
          (py "by_searchword_min_len[" ++ py (pretty n) ++ py "]")
  | None =>
      _mark pass_all (py "searchword") (py "by_searchword_min_len[ignored]")
  end.

Section WithInt.
Context `{PyInt}.

(** [int(s)] for a run of decimal digits. *)
Definition int_of (s : str) : Z :=
  foldl (fun acc c => 10 * acc + decimal_value c)%Z 0%Z s.

Definition by_year_range (min_year max_year : Z) : filter_fn :=
  let _f (etype : str) (fields : gmap str pyval) (raw : str) :=
    match fields !! py "year" with
    | None | Some (VStr []) | Some (VList []) => Some false
    | Some (VList _) => None
    | Some (VStr y) =>
        match re_search (Rep true 4 (Some 4) (Chr is_decimal)) y 0 with
        | None => Some false
        | Some m =>
            let yi := int_of (default [] (group y m 0)) in
            Some ((min_year <=? yi) && (yi <=? max_year))%Z
        end
    end in
  _mark _f (py "year")
    (py "by_year_range[" ++ py (pretty min_year) ++ py "-"
     ++ py (pretty max_year) ++ py "]").

Definition active_filters : list filter_fn :=
  [by_year_range 2015 2026;
   by_types [py "article"];
   by_language [py "english"];
   by_searchword_min_len (Some 2%Z);
   by_field_not_equal (py "searchWord") (Some (py "NoMatch"))].

End WithInt.

(** The loop [for flt in filters] of [main]: the first filter that
    returns false or raises, [None] when [keep] stays true. *)
Fixpoint first_failed (filters : list filter_fn) (etype : str)
    (fields : gmap str pyval) (raw : str) : option filter_fn :=
  match filters with
  | [] => None
  | flt :: rest =>
      match run flt etype fields raw with
      | Some true => first_failed rest etype fields raw
      | _ => Some flt
      end
  end.

(** [_ensure_trailing_comma_on_line(line)]: the line break, the text
    before a [%], the comment from the [%] on, and a comma put behind the
    text where it does not end with one. *)
Definition _ensure_trailing_comma_on_line (line : str) : str :=
  let '(nl, core) :=
    if ends_with [CR; NL] line then ([CR; NL], take (length line - 2) line)
    else if ends_with [NL] line then ([NL], take (length line - 1) line)
    else ([], line) in
  let p := find_char PERCENT core 0 in
  let main := match p with Some p => take p core | None => core end in
  let comment := match p with Some p => drop p core | None => [] end in
  let main_r := rstrip main in
  if endswith COMMA main_r then main ++ comment ++ nl
  else main_r ++ py "," ++ comment ++ nl.

(** *** The first occurrence of a field *)

(** The raw value of the first occurrence of [name]. *)
Definition first_value (name : str) (occ : list (str * str)) : option str :=
  snd <$> head (filter (fun p => p.1 = name) occ).

(** The decoded form of a raw value ([normalize_value] where it returns). *)
Definition decoded (raw : str) : str :=
  match normalize_value raw with Ret v => v | _ => [] end.

End WithLib.
End Screening.

(** ** clean_ISSN.py: duplicates by ISSN and title *)

Module CleanISSN.
Section WithLib.
Context `{PyLib}.

(** The class [0-9xX] of [normalize_issn]. *)
Definition issn_char (c : N) : bool := d09 c || (c =? 120)%N || (c =? 88)%N.

Definition normalize_issn (raw : option str) : option str :=
  if negb (truthy raw) then None
  else
    let s := str_upper (re_sub (Chr (fun c => negb (issn_char c))) []
                          (default [] raw)) in
    if negb (length s =? 8) then None
    else Some (take 4 s ++ py "-" ++ drop 4 s).

Definition strip_braces_quotes (s : option str) : option str :=
  if negb (truthy s) then s
  else
    let s := strip (default [] s) in
    if (startswith LBRACE s && endswith RBRACE s)
       || (startswith DQUOTE s && endswith DQUOTE s)
    then Some (slice s 1 (length s - 1))
    else Some s.

Definition normalize_title (title : option str) : option str :=
  if negb (truthy title) then None
  else
    let t := default [] (strip_braces_quotes title) in
    let t := nfkd t in
    let t := filter (fun ch => combining ch = false) t in
    let t := replace (py "}") [] (replace (py "{") [] t) in
    let t := re_sub (Chr (fun c => negb (is_word c || isspace c))) (py " ") t in
    let t := str_lower t in
    let t := strip (re_sub (plus ws) (py " ") t) in
    if truthy (Some t) then Some t else None.

(** [(?im)^\s*FIELD\s*=\s*([{"].*?[}"])] with [re.DOTALL] *)
Definition field_re (field_name : str) : regex :=
  seqs [Bol; star ws; ilits field_name; star ws; ilit EQUALS; star ws;
        Grp 1 (seqs [Chr (fun c => (c =? LBRACE)%N || (c =? DQUOTE)%N);
                     lazy_star any;
                     Chr (fun c => (c =? RBRACE)%N || (c =? DQUOTE)%N)])].

Definition extract_field (entry_text field_name : str) : option str :=
  match re_search (field_re field_name) entry_text 0 with
  | Some m => group entry_text m 1
  | None => None
  end.

(** The key of an entry in the loop of
    [clean_bibtex_duplicates_with_report]: the pair of the normalised ISSN
    and title when both are there, [None] otherwise. *)
Definition entry_key (e : str) : option (str * str) :=
  let raw_issn := extract_field e (py "issn") in
  let raw_title := extract_field e (py "title") in
  let norm_issn :=
    normalize_issn (if truthy raw_issn then strip_braces_quotes raw_issn
                    else None) in
  let norm_title :=
    if truthy raw_title then normalize_title raw_title else None in
  if truthy norm_issn && truthy norm_title
  then Some (default [] norm_issn, default [] norm_title)
  else None.

(** [split_entries(bib_text)].  The inner [while]: from behind the opening
    brace, entered at depth 1, as long as there is text and the depth is
    positive. *)
Fixpoint depth_loop (rest : str) (j : nat) (depth : Z) : nat * Z :=
  match rest with
  | [] => (j, depth)
  | c :: t =>
      if (0 <? depth)%Z then
        depth_loop t (S j)
          (if (c =? LBRACE)%N then depth + 1
           else if (c =? RBRACE)%N then depth - 1 else depth)%Z
      else (j, depth)
  end.

Fixpoint split_loop (fuel : nat) (bib_text : str) (i : nat)
    (entries : list str) : outcome (list str) :=
  match fuel with
  | 0 => OutOfFuel
  | S fuel =>
      if negb (i <? length bib_text) then Ret entries
      else
        match find_char AT bib_text i with
        | None => Ret entries
        | Some at_ =>
            match find_char LBRACE bib_text at_ with
            | None => Ret entries
            | Some br =>
                let '(j, depth) :=
                  depth_loop (drop (br + 1) bib_text) (br + 1) 1 in
                if (depth =? 0)%Z
                then split_loop fuel bib_text j
                       (entries ++ [slice bib_text at_ j])
                else Ret entries
            end
        end
  end.

(** What the lookahead [(?=@\w+\s*\{)] of the fallback tests. *)
Definition entry_ahead_re : regex :=
  seqs [lit AT; plus (Chr is_word); star ws; lit LBRACE].

(** [re.split] on that lookahead: the text is cut before every position
    where it holds; [cur] is the piece being read. *)
Fixpoint split_ahead (bef : option N) (rest : str) (i : nat) (cur : str)
    : list str :=
  let here :=
    bool_decide (is_Some (match_at entry_ahead_re (Cursor bef rest i))) in
  match rest with
  | [] => if here then [cur; []] else [cur]
  | x :: t =>
      if here then cur :: split_ahead (Some x) t (S i) [x]
      else split_ahead (Some x) t (S i) (cur ++ [x])
  end.

Definition split_entries (bib_text : str) : outcome (list str) :=
  entries ← split_loop (S (length bib_text)) bib_text 0 [];
  if bool_decide (entries = []) then
    let parts := split_ahead None bib_text 0 [] in
    Ret (filter (fun p => strip p ≠ []) parts)
  else Ret entries.

(** What the loop over the entries of one file maintains. *)
Record state := State {
  seen : gset (str * str);
  kept_entries : list str;
  groups : gmap (str * str) (list (nat * bool * str));
  removed_count : nat;
}.

Definition initial : state := State ∅ [] ∅ 0.

(** The body of [for idx, e in enumerate(entries)]. *)
Definition step (st : state) (idx : nat) (e : str) : state :=
  let key := entry_key e in
  let removed :=
    match key with
    | Some k => bool_decide (k ∈ seen st)
    | None => false
    end in
  let seen' :=
    match key with
    | Some k => if removed then seen st else {[k]} ∪ seen st
    | None => seen st
    end in
  let removed_count' :=
    if removed then removed_count st + 1 else removed_count st in
  let kept_entries' :=
    if negb removed then kept_entries st ++ [e] else kept_entries st in
  let groups' :=
    match key with
    | Some k =>
        <[k := default [] (groups st !! k) ++ [(idx, removed, e)]]> (groups st)
    | None => groups st
    end in
  State seen' kept_entries' groups' removed_count'.

Fixpoint clean_loop (st : state) (idx : nat) (entries : list str) : state :=
  match entries with
  | [] => st
  | e :: entries' => clean_loop (step st idx e) (S idx) entries'
  end.

Definition clean (entries : list str) : state := clean_loop initial 0 entries.

(** The entries of a file that stay: those without a key, and those whose
    key no entry before them has; [prev] holds the entries already passed. *)
Fixpoint survivors_go (prev entries : list str) : list str :=
  match entries with
  | [] => []
  | e :: entries' =>
      (match entry_key e with
       | Some k =>
           if bool_decide (Some k ∈ entry_key <$> prev) then [] else [e]
       | None => [e]
       end) ++ survivors_go (prev ++ [e]) entries'
  end.

Definition survivors (entries : list str) : list str :=
  survivors_go [] entries.

End WithLib.
End CleanISSN.

(** ** Runs of white space

    What [re.sub(r'\s+', ' ', s)] leaves: [squeeze p rep in_run s]
    replaces every maximal run of [p]-characters of [s] by [rep]; [in_run]
    tells that the run at the head of [s] has been replaced already. *)
Fixpoint squeeze (p : N → bool) (rep : str) (in_run : bool) (s : str) : str :=
  match s with
  | [] => []
  | c :: t =>
      if p c then (if in_run then [] else rep) ++ squeeze p rep true t
      else c :: squeeze p rep false t
  end.

(** Every white space character of [s] is a single blank; [prev_ws] tells
    that the character before [s] is white space. *)
Fixpoint squeezed (prev_ws : bool) (s : str) : bool :=
  match s with
  | [] => true
  | c :: t =>
      if isspace c then (c =? SPACE)%N && negb prev_ws && squeezed true t
      else squeezed false t
  end.

(** ** The library on ASCII

    What the theorems on ASCII text use of the library: [html.unescape]
    and [unquote] return a string without [&], respectively [%], as it is;
    NFKD leaves ASCII alone and no ASCII character is a combining mark;
    [str.lower] maps ASCII to ASCII, letter by letter, and never yields an
    upper-case ASCII letter. *)
Definition is_ascii (c : N) : Prop := (c < 128)%N.

Class AsciiLib (L : PyLib) : Prop := {
  unescape_no_amp : ∀ s, AMP ∉ s → html_unescape s = s;
  unquote_no_percent : ∀ s, PERCENT ∉ s → unquote s = s;
  nfkd_ascii : ∀ s, Forall is_ascii s → nfkd s = s;
  combining_ascii : ∀ c, is_ascii c → combining c = false;
  lower_ascii : ∀ s, Forall is_ascii s →
    str_lower s = (fun c => if AZ c then (c + 32)%N else c) <$> s;
  lower_no_upper : ∀ s c, c ∈ str_lower s → AZ c = false;
}.

(** ** The library on Basic Latin

    An instance for running the scripts on concrete texts.  It is exact on
    strings of ASCII characters without [&] and [%], where [html.unescape]
    and [unquote] change nothing, and on the fullwidth forms U+FF01..U+FF5E,
    which NFKD maps to U+0021..U+007E; other code points are left as they
    are. *)
Definition ascii_lower (c : N) : N := if AZ c then (c + 32)%N else c.
Definition ascii_upper (c : N) : N := if az c then (c - 32)%N else c.

(** [posixpath.basename] and [posixpath.splitext] (the extension starts at
    the last dot of the last component, leading dots not counted). *)
Definition posix_basename (p : str) : str :=
  match rfind_char 47 p with
  | Some i => drop (i + 1) p
  | None => p
  end.

Definition posix_splitext (p : str) : str * str :=
  let sep := match rfind_char 47 p with Some i => i + 1 | None => 0 end in
  match rfind_char 46 p with
  | Some dot =>
      if (sep <=? dot)
         && negb (forallb (N.eqb 46) (slice p sep dot))
      then (take dot p, drop dot p) else (p, [])
  | None => (p, [])
  end.

#[global] Instance basic_latin : PyLib := {|
  html_unescape s := s;
  unquote s := s;
  nfkd s := (fun c => if in_range 65281 65374 c then (c - 65248)%N else c) <$> s;
  combining c := in_range 768 879 c;
  str_lower s := ascii_lower <$> s;
  str_upper s := ascii_upper <$> s;
  is_decimal c := d09 c;
  is_word c := az c || AZ c || d09 c || (c =? 95)%N;
  sre_lower := ascii_lower;
  sre_upper := ascii_upper;
  path_basename := posix_basename;
  path_splitext := posix_splitext;
|}.

#[global] Instance basic_latin_int : PyInt := {|
  decimal_value c := (Z.of_N c - 48)%Z;
|}.

(** ** Brace structure of a value *)

(** [levels k b]: [b] is brace-balanced and its deepest brace pair sits at
    nesting depth [k]. *)
Inductive levels : nat → str → Prop :=
| levels_nil : levels 0 []
| levels_chr k c s :
    c ≠ LBRACE → c ≠ RBRACE → levels k s → levels k (c :: s)
| levels_nest j k b s :
    levels j b → levels k s →
    levels (S j `max` k) (LBRACE :: b ++ RBRACE :: s).

(** Does the scan of [rest], entered at [depth], come back to depth 0? *)
Fixpoint closes (rest : str) (depth : Z) : bool :=
  match rest with
  | [] => false
  | c :: t =>
      if (c =? LBRACE)%N then closes t (depth + 1)
      else if (c =? RBRACE)%N then (depth - 1 =? 0)%Z || closes t (depth - 1)
      else closes t depth
  end.

(** Is there a double quote in [rest] that no backslash escapes? *)
Fixpoint quote_closes (rest : str) (esc : bool) : bool :=
  match rest with
  | [] => false
  | c :: t =>
      if esc then quote_closes t false
      else if (c =? BACKSLASH)%N then quote_closes t true
      else (c =? DQUOTE)%N || quote_closes t false
  end.

(** [rest] with every escaping backslash left out and the character it
    escapes kept. *)
Fixpoint unescaped (rest : str) (esc : bool) : str :=
  match rest with
  | [] => []
  | c :: t =>
      if esc then c :: unescaped t false
      else if (c =? BACKSLASH)%N then unescaped t true
      else c :: unescaped t false
  end.

(** ** Invariants and auxiliary predicates *)

(** [c'] is a cursor further on in the text of [c]. *)
Definition later (c c' : cursor) : Prop :=
  ∃ d, d ≤ length (ahead c) ∧ pos c' = pos c + d ∧ ahead c' = drop d (ahead c).

(** A successful match hands the result of its continuation on, called at
    a later cursor. *)
Definition invokes (f : kont → kont) : Prop :=
  ∀ k c g res, f k c g = Some res →
    ∃ c' g', later c c' ∧ k c' g' = Some res.

(** A pattern that needs a first character from [first] changes nothing in
    a text without such characters. *)
Definition starts_with (r : regex) (first : N → bool) : Prop :=
  ∀ bef rest i m, match_at r (Cursor bef rest i) = Some m →
    ∃ x, head rest = Some x ∧ first x = true.

(** Whatever is returned was balanced: its span ends where the scan from
    its opening delimiter came back to depth 0. *)
Definition balanced_entry (text : str) (e : AddType.entry) : Prop :=
  let '(_, raw, a, b) := e in
  raw = slice text a b
  ∧ ∃ o k, a < k < b ∧ text !! k = Some o ∧ one_of "{(" o = true
      ∧ AddType.balance_loop o (if (o =? LBRACE)%N then RBRACE else RPAREN)
          (drop k text) k 0 = (b, 0%Z).

(** What [main] maintains: [us] are the records processed so far. *)
Definition dedup_inv `{PyLib} (st : Unique.state) (us : list str) : Prop :=
  Unique.merged_entries st = Unique.earliest us
  ∧ (∀ sk, sk ∈ Unique.seen_keys st ↔ sk ∈ Unique.build_dedupe_key <$> us)
  ∧ ∀ sk, let bucket := default [] (Unique.groups st !! sk) in
      Unique.it_entry_text <$> bucket
      = filter (fun u => Unique.build_dedupe_key u = sk) us
      ∧ Forall (fun it => (Unique.it_strategy it, Unique.it_key it) = sk)
          bucket
      ∧ Unique.it_kept <$> bucket = Unique.first_kept bucket.

(** What the loop maintains: [prev] are the entries already passed. *)
Definition clean_inv `{PyLib} (st : CleanISSN.state) (prev : list str) : Prop :=
  CleanISSN.kept_entries st = CleanISSN.survivors prev
  ∧ (∀ k, k ∈ CleanISSN.seen st ↔ Some k ∈ CleanISSN.entry_key <$> prev)
  ∧ CleanISSN.removed_count st + length (CleanISSN.kept_entries st)
    = length prev.

(** The shape of a piece of [Keywords.split_entries]: an entry is an [@],
    a run without opening delimiter, an opening delimiter and the rest; the
    text between entries is not empty and either has no [@] or starts with
    one that no opening delimiter follows. *)
Definition piece_shape (piece : Keywords.piece_kind * str) : Prop :=
  let no_open := Forall (fun c => one_of "{(" c = false) in
  match piece.1 with
  | Keywords.Entry =>
      ∃ name o rest, piece.2 = AT :: name ++ o :: rest
        ∧ one_of "{(" o = true ∧ no_open name
  | Keywords.NonEntry =>
      piece.2 ≠ [] ∧ (AT ∉ piece.2 ∨ (head piece.2 = Some AT ∧ no_open piece.2))
  end.

(** The braces of [v] pair up: scanning [v] from depth 1 never comes back
    to depth 0 and ends at depth 1 again. *)
Fixpoint brace_depth (v : str) : Z :=
  match v with
  | [] => 0
  | c :: t =>
      ((if (c =? LBRACE)%N then 1 else if (c =? RBRACE)%N then -1 else 0)
       + brace_depth t)%Z
  end.

Definition balanced (v : str) : bool :=
  negb (closes v 1) && (brace_depth v =? 0)%Z.

(** A field [rebuild_entry] writes in a form [parse_fields] reads back: the
    name is made of name characters, the value is balanced and trimmed. *)
Definition plain_field {R} (f : str * str * R) : Prop :=
  f.1.1 ≠ [] ∧ Forall (fun c => Keywords.name_char c = true) f.1.1
  ∧ balanced f.1.2 = true ∧ strip f.1.2 = f.1.2.

(** [l] occurs in [e] as a run of consecutive characters. *)
Definition infix_of (l e : str) : Prop := ∃ u v, e = u ++ l ++ v.

(** The line [rebuild_entry] writes for the field [searchWord] with the
    value of [hits]. *)
Definition searchword_line (hits : list str) : str :=
  py "  searchWord = {" ++ Keywords.search_val hits ++ py "},".

(** The spans of the entries [es] follow each other from [i] to [j]
    without overlap, none of them empty, and each entry holds the text of
    its span and starts with [@]. *)
Fixpoint spans_from (text : str) (i : nat) (es : list AddType.entry)
    (j : nat) : Prop :=
  match es with
  | [] => i ≤ j
  | (_, raw, a, b) :: t =>
      i ≤ a ∧ a < b ∧ raw = slice text a b ∧ text !! a = Some AT
      ∧ spans_from text b t j
  end.

(** A pattern without capturing groups. *)
Fixpoint group_free (r : regex) : bool :=
  match r with
  | Seq r1 r2 | Alt r1 r2 => group_free r1 && group_free r2
  | Rep _ _ _ r => group_free r
  | Grp _ _ => false
  | _ => true
  end.

(** A successful match of a pattern hands its captures on unchanged. *)
Definition keeps_caps (f : kont → kont) : Prop :=
  ∀ k c g res, f k c g = Some res → ∃ c', later c c' ∧ k c' g = Some res.

(** The marks of a report group of clean_ISSN.py with one entry kept, its
    first, and all later ones removed. *)
Definition first_only (bucket : list (nat * bool * str)) : list bool :=
  match bucket with
  | [] => []
  | _ :: rest => false :: ((fun _ => true) <$> rest)
  end.

(** What the loop of clean_ISSN.py keeps true of [groups]; [prev] are the
    entries already passed. *)
Definition clean_groups_inv `{PyLib} (st : CleanISSN.state)
    (prev : list str) : Prop :=
  (∀ k, k ∈ CleanISSN.seen st ↔ Some k ∈ CleanISSN.entry_key <$> prev)
  ∧ ∀ k, let bucket := default [] (CleanISSN.groups st !! k) in
      snd <$> bucket = filter (fun e => CleanISSN.entry_key e = Some k) prev
      ∧ Forall (fun x => prev !! x.1.1 = Some x.2) bucket
      ∧ (fun x => x.1.2) <$> bucket = first_only bucket.

(** [nl] is the line break [_ensure_trailing_comma_on_line] splits off a
    line whose text without it is [core]. *)
Definition line_break_of (core nl : str) : Prop :=
  nl = [CR; NL] ∨ (nl = [NL] ∧ last core ≠ Some CR)
  ∨ (nl = [] ∧ last core ≠ Some NL).

(** The line [_ensure_trailing_comma_on_line] returns for the text
    [main], the comment [comment] and the line break [nl]. *)
Definition with_comma (main comment nl : str) : str :=
  if endswith COMMA (rstrip main) then main ++ comment ++ nl
  else rstrip main ++ [COMMA] ++ comment ++ nl.

(** The texts [es] lie in [text] between [i] and [j], one after the other
    without overlap, and none of them is empty. *)
Fixpoint chunks_from (text : str) (i : nat) (es : list str) (j : nat)
    : Prop :=
  match es with
  | [] => i ≤ j
  | e :: t =>
      ∃ a b, i ≤ a ∧ a < b ∧ e = slice text a b ∧ chunks_from text b t j
  end.

(** The braces of [body] balance at its last character and not before. *)
Definition closes_at_end (body : str) : Prop :=
  balance LBRACE RBRACE body 0 0 = Some (length body).

(** The braces of [body] never balance. *)
Definition never_closes (body : str) : Prop :=
  balance LBRACE RBRACE body 0 0 = None.

(** An entry of [Unique.extract_entries]: [@], the letters of the entry
    type, white space and a body that starts with a brace; the braces of
    the body balance at its last character, or never, and then the entry
    runs to the end of the text. *)
Definition unique_entry (text e : str) : Prop :=
  ∃ name w body,
    e = AT :: name ++ w ++ body
    ∧ name ≠ [] ∧ Forall (fun c => AZ c || az c = true) name
    ∧ Forall (fun c => isspace c = true) w
    ∧ head body = Some LBRACE
    ∧ (closes_at_end body ∨ (never_closes body ∧ e `suffix_of` text)).

(** An entry of the loop of [clean_ISSN.split_entries]: [@], a text
    without brace, and a body that starts with a brace and whose braces
    balance at its last character and not before. *)
Definition clean_entry (e : str) : Prop :=
  ∃ hd body,
    e = AT :: hd ++ body ∧ LBRACE ∉ hd ∧ head body = Some LBRACE
    ∧ closes_at_end body.

(** A triple of [Screening.iter_entries_with_raw] for the span from [a]
    to [b]: the raw block is the text of the span; the span starts at the
    start of a line; the block is white space, [@], the entry type (one or
    more letters), white space and a body that starts with a brace and
    whose braces balance at its last character and not before; the key
    has no comma. *)
Definition raw_item (text : str) (a b : nat) (x : str * str * str) : Prop :=
  let '(raw, etype, key) := x in
  raw = slice text a b
  ∧ (a = 0 ∨ text !! (a - 1) = Some NL)
  ∧ (∃ w w2 body,
       raw = w ++ AT :: etype ++ w2 ++ body
       ∧ Forall (fun c => isspace c = true) w
       ∧ Forall (fun c => isspace c = true) w2
       ∧ head body = Some LBRACE ∧ closes_at_end body)
  ∧ etype ≠ [] ∧ Forall (fun c => AZ c || az c = true) etype
  ∧ COMMA ∉ key.

(** The triples [out] have spans that follow each other from [i] to [j]
    without overlap. *)
Fixpoint raw_spans (text : str) (i : nat) (out : list (str * str * str))
    (j : nat) : Prop :=
  match out with
  | [] => i ≤ j
  | x :: t =>
      ∃ a b, i ≤ a ∧ a < b ∧ raw_item text a b x ∧ raw_spans text b t j
  end.

(** ** The library on folded text

    What [_norm_text] needs of the library to leave a normalised text
    alone, whatever its characters.  A folded character is a blank or a
    character of a lower-cased, accent-folded text.  [html.unescape] and
    [unquote] return a text without [&], respectively [%], as it is; a
    text of folded characters is in NFKD form and in lower case, and
    none of its characters is a combining mark. *)
Definition folded_char `{PyLib} (c : N) : Prop :=
  c = SPACE ∨ ∃ s, c ∈ str_lower (Unique._fold_accents s).

Class FoldLib (L : PyLib) : Prop := {
  fold_unescape : ∀ s, AMP ∉ s → html_unescape s = s;
  fold_unquote : ∀ s, PERCENT ∉ s → unquote s = s;
  fold_nfkd : ∀ s, Forall folded_char s → nfkd s = s;
  fold_combining : ∀ c, folded_char c → combining c = false;
  fold_lower : ∀ s, Forall folded_char s → str_lower s = s;
}.

(** * Properties *)

(** ** Basic facts on strings *)

Lemma take_while_length_le p s : length (take_while p s) ≤ length s.
Proof. induction s as [|c t IH]; simpl; [lia|]. destruct (p c); simpl; lia. Qed.

Lemma skip_while_ge p s i : i ≤ skip_while p s i.
Proof. unfold skip_while. lia. Qed.

Lemma skip_while_le p s i : i ≤ length s → skip_while p s i ≤ length s.
Proof.
  intros Hi. unfold skip_while.
  pose proof (take_while_length_le p (drop i s)) as H.
  rewrite length_drop in H. lia.
Qed.

Lemma skip_while_stay p s i c :
  s !! i = Some c → p c = false → skip_while p s i = i.
Proof.
  intros Hc Hp. unfold skip_while.
  rewrite (drop_S s c i Hc). simpl. rewrite Hp. simpl. lia.
Qed.

Lemma skip_while_end p s : skip_while p s (length s) = length s.
Proof. unfold skip_while. rewrite drop_all. simpl. lia. Qed.

Lemma slice_to_end s i : slice s i (length s) = drop i s.
Proof.
  unfold slice. apply take_ge. rewrite length_drop. lia.
Qed.

Lemma unescaped_no_backslash rest :
  BACKSLASH ∉ rest → unescaped rest false = rest.
Proof.
  induction rest as [|c t IH]; intros Hn; [done|]. simpl.
  apply not_elem_of_cons in Hn as [Hc Ht].
  destruct (N.eqb_spec c BACKSLASH) as [->|_]; [done|]. by rewrite IH.
Qed.

(** ** The matcher

    A match only moves forward: when [mtch r k] succeeds, the result is the
    one its continuation gave at a cursor further on in the same text. *)

Lemma later_refl c : later c c.
Proof. exists 0. rewrite drop_0. split; [lia|]. split; [lia|done]. Qed.

Lemma later_trans c1 c2 c3 : later c1 c2 → later c2 c3 → later c1 c3.
Proof.
  intros (d1 & Hd1 & Hp1 & Ha1) (d2 & Hd2 & Hp2 & Ha2).
  exists (d1 + d2). rewrite Ha1, length_drop in Hd2.
  split; [lia|]. split; [lia|]. by rewrite Ha2, Ha1, drop_drop.
Qed.

Lemma later_step c x t :
  ahead c = x :: t → later c (Cursor (Some x) t (S (pos c))).
Proof.
  intros Ha. exists 1. rewrite Ha. simpl. split; [lia|].
  split; [lia|]. by rewrite drop_0.
Qed.

Lemma rep_loop_invokes body greedy :
  invokes body →
  ∀ fuel lo hi, invokes (rep_loop body greedy fuel lo hi).
Proof.
  intros Hb fuel. induction fuel as [|fuel IH]; intros lo hi k c g res Hr;
    [done|].
  cbn [rep_loop] in Hr.
  set (again := if bool_decide (hi = Some 0) then None else body _ c g) in Hr.
  assert (again = Some res → ∃ c' g', later c c' ∧ k c' g' = Some res) as Ha.
  { unfold again. case_bool_decide; [done|]. intros Hbody.
    apply Hb in Hbody as (c1 & g1 & Hl1 & Hk1).
    destruct (pos c1 =? pos c); [done|].
    apply IH in Hk1 as (c2 & g2 & Hl2 & Hk2).
    exists c2, g2. split; [by eapply later_trans|done]. }
  destruct (0 <? lo); [by apply Ha|].
  destruct greedy.
  - destruct again as [r|]; [apply Ha; congruence|].
    exists c, g. split; [apply later_refl|done].
  - destruct (k c g) as [r|] eqn:Hk; [|by apply Ha].
    exists c, g. split; [apply later_refl|congruence].
Qed.

Lemma mtch_invokes r : invokes (mtch r).
Proof.
  induction r as [|p|r1 IH1 r2 IH2|r1 IH1 r2 IH2|greedy lo hi r IH|n r IH| | |w];
    intros k c g res Hm; cbn [mtch] in Hm.
  - exists c, g. split; [apply later_refl|done].
  - destruct (ahead c) as [|x t] eqn:Ha; [done|]. destruct (p x); [|done].
    eexists _, g. split; [by apply later_step|done].
  - apply IH1 in Hm as (c1 & g1 & Hl1 & Hm). apply IH2 in Hm as (c2 & g2 & Hl2 & Hk).
    exists c2, g2. split; [by eapply later_trans|done].
  - destruct (mtch r1 k c g) as [r|] eqn:H1.
    + apply IH1 in H1 as (c1 & g1 & ? & ?). exists c1, g1. split; [done|congruence].
    + by apply IH2 in Hm.
  - by apply (rep_loop_invokes _ _ IH) in Hm.
  - apply IH in Hm as (c1 & g1 & Hl & Hk). eauto.
  - case_bool_decide; [|done]. exists c, g. split; [apply later_refl|done].
  - destruct (_ || _); [|done]. exists c, g. split; [apply later_refl|done].
  - destruct (xorb _ _); [|done]. exists c, g. split; [apply later_refl|done].
Qed.

Lemma match_at_bounds r c m :
  match_at r c = Some m →
  m_start m = pos c ∧ pos c ≤ m_end m ≤ pos c + length (ahead c).
Proof.
  unfold match_at. destruct (mtch r accept c ∅) as [[e g]|] eqn:Hm; [|done].
  intros [= <-]. simpl. split; [done|].
  apply mtch_invokes in Hm as (c' & g' & (d & Hd & Hp & _) & [= <- _]). lia.
Qed.

(** A pattern that starts with a character never matches the empty
    string. *)
Lemma match_at_chr_nonempty p r c m :
  match_at (Seq (Chr p) r) c = Some m → pos c < m_end m.
Proof.
  unfold match_at. cbn [mtch]. destruct (ahead c) as [|x t]; [done|].
  destruct (p x); [|done].
  destruct (mtch r accept _ ∅) as [[e g]|] eqn:Hm; [|done].
  intros [= <-]. simpl.
  apply mtch_invokes in Hm as (c' & g' & (d & Hd & Hp & _) & [= <- _]).
  simpl in Hp. lia.
Qed.

Lemma search_go_found r bef rest i m :
  search_go r bef rest i = Some m →
  ∃ d bef', d ≤ length rest
    ∧ match_at r (Cursor bef' (drop d rest) (i + d)) = Some m.
Proof.
  revert bef i. induction rest as [|x t IH]; intros bef i Hs; cbn [search_go] in Hs.
  - destruct (match_at r _) eqn:Hm; [|done]. injection Hs as ->.
    exists 0, bef. rewrite Nat.add_0_r. by split.
  - destruct (match_at r _) eqn:Hm.
    + injection Hs as ->. exists 0, bef. rewrite Nat.add_0_r, drop_0.
      split; [simpl; lia|done].
    + apply IH in Hs as (d & bef' & Hd & Hm').
      exists (S d), bef'. split; [simpl; lia|].
      by replace (i + S d) with (S i + d) by lia.
Qed.

Lemma re_search_bounds r (s : str) i m :
  i ≤ length s →
  re_search r s i = Some m →
  i ≤ m_start m ∧ m_start m ≤ m_end m ≤ length s.
Proof.
  intros Hi. unfold re_search, cursor_at.
  rewrite Nat.min_l by done. cbn [before ahead pos]. intros Hs.
  apply search_go_found in Hs as (d & bef' & Hd & Hm).
  apply match_at_bounds in Hm. cbn [pos ahead] in Hm.
  rewrite !length_drop in Hm. rewrite length_drop in Hd. lia.
Qed.

Lemma re_search_chr_nonempty p r (s : str) i m :
  i ≤ length s →
  re_search (Seq (Chr p) r) s i = Some m → m_start m < m_end m.
Proof.
  intros Hi. unfold re_search, cursor_at.
  rewrite Nat.min_l by done. cbn [before ahead pos]. intros Hs.
  apply search_go_found in Hs as (d & bef' & Hd & Hm).
  pose proof (match_at_bounds _ _ _ Hm) as [-> _].
  by apply match_at_chr_nonempty in Hm.
Qed.

Lemma mtch_seq_invokes r1 r2 k c g res :
  mtch (Seq r1 r2) k c g = Some res →
  ∃ c' g', later c c' ∧ mtch r2 k c' g' = Some res.
Proof. cbn [mtch]. apply mtch_invokes. Qed.

Lemma mtch_chr_seq p r k c g res :
  mtch (Seq (Chr p) r) k c g = Some res →
  ∃ x t, ahead c = x :: t ∧ p x = true
         ∧ mtch r k (Cursor (Some x) t (S (pos c))) g = Some res.
Proof.
  cbn [mtch]. destruct (ahead c) as [|x t]; [done|].
  destruct (p x) eqn:Hp; [|done]. intros Hm. by exists x, t.
Qed.

Lemma re_search_at_end r p (s : str) :
  re_search (Seq (Chr p) r) s (length s) = None.
Proof.
  unfold re_search, cursor_at. rewrite Nat.min_id, drop_all.
  cbn [before ahead pos search_go]. unfold match_at. by cbn [mtch ahead].
Qed.

Lemma find_in_spec c rest i j :
  find_in c rest i = Some j → i ≤ j < i + length rest.
Proof.
  revert i. induction rest as [|x t IH]; intros i Hf; [done|].
  simpl in *. destruct (x =? c)%N.
  - injection Hf as <-. lia.
  - apply IH in Hf. lia.
Qed.

Lemma find_char_spec c (s : str) i j :
  find_char c s i = Some j → i ≤ j < length s.
Proof.
  unfold find_char. intros Hf. apply find_in_spec in Hf.
  rewrite length_drop in Hf. lia.
Qed.

Lemma balance_bounds o c rest j d e :
  balance o c rest j d = Some e → j < e ≤ j + length rest.
Proof.
  revert j d. induction rest as [|x t IH]; intros j d Hb; [done|].
  simpl in *. destruct (x =? o)%N.
  - apply IH in Hb. lia.
  - destruct (x =? c)%N.
    + destruct (d - 1 =? 0)%Z.
      * injection Hb as <-. lia.
      * apply IH in Hb. lia.
    + apply IH in Hb. lia.
Qed.

(** ** Add_type.py: [extract_bibtex_entries] *)

Module AddTypeFacts.
Import AddType.

Lemma balance_loop_bounds o c rest p d :
  p + 1 `min` length rest ≤ (balance_loop o c rest p d).1 ≤ p + length rest.
Proof.
  revert p d. induction rest as [|x t IH]; intros p d; [simpl; lia|].
  simpl. destruct (x =? o)%N.
  - specialize (IH (S p) (d + 1)%Z). lia.
  - destruct (x =? c)%N.
    + destruct (d - 1 =? 0)%Z; [simpl; lia|].
      specialize (IH (S p) (d - 1)%Z). lia.
    + specialize (IH (S p) d). lia.
Qed.

(** Group 2 of a header match is its last character, the opening
    delimiter. *)
Lemma entry_head_groups c m :
  match_at RE_ENTRY_HEAD c = Some m →
  pos c < m_end m - 1 ∧ m_groups m !! 2 = Some (m_end m - 1, m_end m)
  ∧ m_end m ≤ pos c + length (ahead c)
  ∧ ∃ o, ahead c !! (m_end m - 1 - pos c) = Some o ∧ one_of "{(" o = true.
Proof.
  unfold match_at.
  destruct (mtch RE_ENTRY_HEAD accept c ∅) as [[e g]|] eqn:Hm; [|done].
  intros [= <-]. cbn [m_end m_groups].
  unfold RE_ENTRY_HEAD, seqs in Hm. cbn [foldr] in Hm.
  apply mtch_chr_seq in Hm as (x0 & t0 & Ha0 & _ & Hm).
  set (c0 := Cursor (Some x0) t0 (S (pos c))) in Hm.
  assert (later c c0) as L0 by (by apply later_step).
  apply mtch_seq_invokes in Hm as (c2 & g2 & L2 & Hm).
  apply mtch_seq_invokes in Hm as (c3 & g3 & L3 & Hm).
  apply mtch_seq_invokes in Hm as (c4 & g4 & L4 & Hm).
  pose proof (later_trans _ _ _ (later_trans _ _ _ (later_trans _ _ _ L0 L2) L3) L4)
    as (d & Hd & Hp & Ha).
  destruct L0 as (d0 & _ & Hp0 & _). cbn [pos c0] in Hp0.
  destruct (later_trans _ _ _ (later_trans _ _ _ L2 L3) L4)
    as (d' & _ & Hp' & _).
  cbn [mtch] in Hm. destruct (ahead c4) as [|x t] eqn:Ha4; [done|].
  destruct (one_of "{(" x) eqn:Hx; [|done]. cbn [accept pos] in Hm.
  injection Hm as <- <-. rewrite Ha0 in *.
  assert (d < length (x0 :: t0)).
  { apply (f_equal length) in Ha. rewrite length_drop in Ha.
    simpl in Ha. simpl. lia. }
  unfold c0 in Hp'. cbn [pos] in Hp'.
  assert (1 ≤ d) by lia. cbn [length] in *.
  split; [lia|]. split; [|split; [lia|]].
  - rewrite lookup_insert_eq. do 2 f_equal. lia.
  - exists x. split; [|done].
    replace (S (pos c4) - 1 - pos c) with d by lia.
    by rewrite <- (Nat.add_0_r d), <- lookup_drop, <- Ha.
Qed.

Lemma re_search_head (text : str) i m :
  i ≤ length text →
  re_search RE_ENTRY_HEAD text i = Some m →
  i ≤ m_start m ∧ m_start m < m_end m - 1 ∧ m_end m ≤ length text
  ∧ open_pos m = m_end m - 1
  ∧ text !! open_pos m = Some (open_delim text m)
  ∧ one_of "{(" (open_delim text m) = true.
Proof.
  intros Hi Hs. pose proof (re_search_bounds _ _ _ _ Hi Hs) as Hb.
  revert Hs. unfold re_search, cursor_at.
  rewrite Nat.min_l by done. cbn [before ahead pos]. intros Hs.
  apply search_go_found in Hs as (d & bef' & Hd & Hm).
  pose proof (match_at_bounds _ _ _ Hm) as [Hst _]. cbn [pos] in Hst.
  apply entry_head_groups in Hm as (Hlt & Hg & _ & o & Ho & Hoo).
  cbn [pos ahead] in Hlt, Ho.
  rewrite lookup_drop, lookup_drop in Ho.
  replace (i + (d + (m_end m - 1 - (i + d)))) with (m_end m - 1) in Ho by lia.
  assert (open_delim text m = o) as Hod.
  { unfold open_delim, group. rewrite Hg. cbn [fmap option_fmap option_map].
    unfold slice. replace (m_end m - (m_end m - 1)) with 1 by lia.
    rewrite (drop_S _ _ _ Ho). done. }
  unfold open_pos. rewrite Hg, Hod. cbn [fmap option_fmap option_map fst].
  replace (default 0 (Some (m_end m - 1))) with (m_end m - 1) by done.
  repeat split; (done || lia).
Qed.

Lemma extract_loop_fuel fuel fuel' text i es l :
  extract_loop fuel text i es = Ret l → fuel ≤ fuel' →
  extract_loop fuel' text i es = Ret l.
Proof.
  revert fuel' i es. induction fuel as [|fuel IH]; intros fuel' i es Hr Hle;
    [done|].
  destruct fuel' as [|fuel']; [lia|]. cbn [extract_loop] in *.
  destruct (re_search RE_ENTRY_HEAD text i) as [m|]; [|done].
  destruct (balance_loop _ _ _ _ _) as [p depth].
  destruct (negb (depth =? 0)%Z); apply IH; (done || lia).
Qed.

Lemma extract_loop_returns fuel text i es :
  i ≤ length text → length text - i < fuel →
  ∃ l, extract_loop fuel text i es = Ret l.
Proof.
  revert i es. induction fuel as [|fuel IH]; intros i es Hi Hf; [lia|].
  cbn [extract_loop].
  destruct (re_search RE_ENTRY_HEAD text i) as [m|] eqn:Hs; [|eauto].
  apply re_search_head in Hs as (H1 & H2 & H3 & Hk & _); [|done].
  pose proof (balance_loop_bounds (open_delim text m) (close_delim text m)
                (drop (open_pos m) text) (open_pos m) 0) as Hb.
  rewrite length_drop in Hb.
  destruct (balance_loop _ _ _ _ _) as [p depth]. cbn [fst] in Hb.
  destruct (negb (depth =? 0)%Z); apply IH; lia.
Qed.

Lemma extract_from_returns text i es :
  i ≤ length text → ∃ l, extract_from text i es = Ret l.
Proof. intros Hi. apply extract_loop_returns; [done|lia]. Qed.

(** An unbalanced candidate is left out and the scan goes on from the end
    of its header. *)
Lemma extract_from_skip (text : str) i es m :
  i ≤ length text →
  re_search RE_ENTRY_HEAD text i = Some m →
  (balance_loop (open_delim text m) (close_delim text m)
     (drop (open_pos m) text) (open_pos m) 0).2 ≠ 0%Z →
  extract_from text i es = extract_from text (m_end m) es.
Proof.
  intros Hi Hs Hd.
  pose proof (re_search_head _ _ _ Hi Hs) as (H1 & H2 & H3 & _).
  destruct (extract_from_returns text (m_end m) es) as [l Hl]; [lia|].
  rewrite Hl. unfold extract_from in *. cbn [extract_loop]. rewrite Hs.
  destruct (balance_loop _ _ _ _ _) as [p depth]. simpl in Hd.
  replace (depth =? 0)%Z with false by lia. cbn [negb].
  eapply extract_loop_fuel; [exact Hl|lia].
Qed.

Lemma extract_loop_balanced fuel text i es l :
  Forall (balanced_entry text) es →
  extract_loop fuel text i es = Ret l →
  Forall (balanced_entry text) l.
Proof.
  revert i es. induction fuel as [|fuel IH]; intros i es Hes Hr; [done|].
  cbn [extract_loop] in Hr.
  destruct (decide (i ≤ length text)) as [Hi|Hi].
  2: { assert (re_search RE_ENTRY_HEAD text i
               = re_search RE_ENTRY_HEAD text (length text)) as Heq.
       { unfold re_search, cursor_at. by rewrite Nat.min_r, Nat.min_id by lia. }
       rewrite Heq in Hr.
       rewrite (re_search_at_end _ _ text : re_search RE_ENTRY_HEAD _ _ = _)
         in Hr.
       by injection Hr as <-. }
  destruct (re_search RE_ENTRY_HEAD text i) as [m|] eqn:Hs.
  2: { by injection Hr as <-. }
  pose proof (re_search_head _ _ _ Hi Hs) as (H1 & H2 & H3 & Hk & Ho & Hoo).
  pose proof (balance_loop_bounds (open_delim text m) (close_delim text m)
                (drop (open_pos m) text) (open_pos m) 0) as Hbd.
  rewrite length_drop in Hbd.
  destruct (balance_loop _ _ _ _ _) as [p depth] eqn:Hb. cbn [fst] in Hbd.
  destruct (depth =? 0)%Z eqn:Hd; cbn [negb] in Hr.
  - apply Z.eqb_eq in Hd as ->. eapply IH; [|exact Hr].
    apply Forall_app. split; [done|]. apply Forall_singleton.
    split; [done|]. exists (open_delim text m), (open_pos m).
    split; [lia|]. split; [done|]. split; [done|exact Hb].
  - by eapply IH.
Qed.

End AddTypeFacts.

(** ** Unique.py and Keywords.py: [extract_entries], [split_entries] *)

Module SplitFacts.

Lemma re_search_start (text : str) i m :
  i ≤ length text →
  re_search Unique.ENTRY_START_RE text i = Some m →
  i ≤ m_start m ∧ m_start m < m_end m ≤ length text.
Proof.
  intros Hi Hs. pose proof (re_search_bounds _ _ _ _ Hi Hs).
  pose proof (re_search_chr_nonempty _ _ _ _ _ Hi Hs). lia.
Qed.

Lemma unique_extract_loop_returns fuel text i es :
  i ≤ length text → length text - i < fuel →
  ∃ l, Unique.extract_loop fuel text i es = Ret l.
Proof.
  revert i es. induction fuel as [|fuel IH]; intros i es Hi Hf; [lia|].
  cbn [Unique.extract_loop].
  destruct (re_search Unique.ENTRY_START_RE text i) as [m|] eqn:Hs; [|eauto].
  apply re_search_start in Hs as (H1 & H2); [|done].
  destruct (find_char LBRACE text (m_end m - 1)) as [bo|] eqn:Hf'; [|eauto].
  apply find_char_spec in Hf'.
  destruct (balance _ _ _ _ _) as [e|] eqn:Hb.
  - apply balance_bounds in Hb. rewrite length_drop in Hb. apply IH; lia.
  - apply IH; lia.
Qed.

Lemma extract_from_unbalanced (text : str) i es m bo :
  i ≤ length text →
  re_search Unique.ENTRY_START_RE text i = Some m →
  find_char LBRACE text (m_end m - 1) = Some bo →
  balance LBRACE RBRACE (drop bo text) bo 0 = None →
  Unique.extract_from text i es = Ret (es ++ [drop (m_start m) text]).
Proof.
  intros Hi Hs Hf Hb. pose proof (re_search_start _ _ _ Hi Hs) as [H1 H2].
  unfold Unique.extract_from. cbn [Unique.extract_loop].
  rewrite Hs, Hf, Hb.
  destruct (length text - i) as [|fuel] eqn:Hn; [lia|].
  cbn [Unique.extract_loop].
  rewrite (re_search_at_end _ _ text
             : re_search Unique.ENTRY_START_RE _ _ = _).
  by rewrite slice_to_end.
Qed.

Lemma split_loop_returns fuel text i ps :
  i ≤ length text → length text - i < fuel →
  ∃ l, Keywords.split_loop fuel text i ps = Ret l.
Proof.
  revert i ps. induction fuel as [|fuel IH]; intros i ps Hi Hf; [lia|].
  cbn [Keywords.split_loop].
  destruct (i <? length text) eqn:Hlt; cbn [negb]; [|eauto].
  apply Nat.ltb_lt in Hlt.
  destruct (find_char AT text i) as [at_|] eqn:Hat; [|eauto].
  apply find_char_spec in Hat.
  set (j := skip_while _ text (at_ + 1)).
  pose proof (skip_while_ge (fun c => negb (one_of "{(" c)) text (at_ + 1)).
  pose proof (skip_while_le (fun c => negb (one_of "{(" c)) text (at_ + 1)).
  fold j in H, H0.
  destruct (text !! j) as [o|]; [|apply IH; lia].
  destruct (negb (one_of "{(" o)); [apply IH; lia|].
  destruct (balance _ _ _ _ _) as [e|] eqn:Hb.
  - apply balance_bounds in Hb. rewrite length_drop in Hb. apply IH; lia.
  - apply IH; lia.
Qed.

Lemma split_from_unbalanced (text : str) i ps at_ o :
  find_char AT text i = Some at_ →
  let j := skip_while (fun c => negb (one_of "{(" c)) text (at_ + 1) in
  text !! j = Some o → one_of "{(" o = true →
  balance o (if (o =? LBRACE)%N then RBRACE else RPAREN) (drop j text) j 0
  = None →
  Keywords.split_from text i ps
  = Ret ((if i <? at_ then ps ++ [(Keywords.NonEntry, slice text i at_)]
          else ps) ++ [(Keywords.Entry, drop at_ text)]).
Proof.
  intros Hat j Hj Ho Hb. pose proof (find_char_spec _ _ _ _ Hat) as H1.
  unfold Keywords.split_from. cbn [Keywords.split_loop].
  replace (i <? length text) with true by (symmetry; apply Nat.ltb_lt; lia).
  cbn [negb]. rewrite Hat. fold j. rewrite Hj, Ho. cbn [negb]. rewrite Hb.
  destruct (length text - i) as [|fuel] eqn:Hn; [lia|].
  cbn [Keywords.split_loop]. by rewrite Nat.ltb_irrefl.
Qed.

End SplitFacts.

(** ** The tokenizers on a candidate that never balances *)

(** C3 (as amended): no tokenizer raises, whatever the text.
    [Add_type.extract_bibtex_entries] returns balanced entries only: a
    candidate whose delimiters never balance is left out and the scan goes on
    from the end of its header, so later candidates are still found.
    [Unique.extract_entries] and [Keywords.split_entries] return such a
    candidate as an entry that runs to the end of the input, which ends the
    scan. *)
Theorem tokenizers_on_unbalanced (text : str) :
  (∃ l1 l2 l3,
     AddType.extract_bibtex_entries text = Ret l1
     ∧ Forall (balanced_entry text) l1
     ∧ Unique.extract_entries text = Ret l2
     ∧ Keywords.split_entries text = Ret l3)
  ∧ (∀ i es m,
       i ≤ length text →
       re_search AddType.RE_ENTRY_HEAD text i = Some m →
       (AddType.balance_loop (AddType.open_delim text m)
          (AddType.close_delim text m)
          (drop (AddType.open_pos m) text) (AddType.open_pos m) 0).2 ≠ 0%Z →
       AddType.extract_from text i es = AddType.extract_from text (m_end m) es)
  ∧ (∀ i es m brace_open,
       i ≤ length text →
       re_search Unique.ENTRY_START_RE text i = Some m →
       find_char LBRACE text (m_end m - 1) = Some brace_open →
       balance LBRACE RBRACE (drop brace_open text) brace_open 0 = None →
       Unique.extract_from text i es = Ret (es ++ [drop (m_start m) text]))
  ∧ (∀ i pieces at_ open_char,
       find_char AT text i = Some at_ →
       let j := skip_while (fun c => negb (one_of "{(" c)) text (at_ + 1) in
       text !! j = Some open_char → one_of "{(" open_char = true →
       balance open_char
         (if (open_char =? LBRACE)%N then RBRACE else RPAREN)
         (drop j text) j 0 = None →
       Keywords.split_from text i pieces
       = Ret ((if i <? at_
               then pieces ++ [(Keywords.NonEntry, slice text i at_)]
               else pieces) ++ [(Keywords.Entry, drop at_ text)])).
Proof.
  split; [|split; [|split]].
  - destruct (AddTypeFacts.extract_from_returns text 0 []) as [l1 H1]; [lia|].
    destruct (SplitFacts.unique_extract_loop_returns (S (length text - 0)) text 0 [])
      as [l2 H2]; [lia..|].
    destruct (SplitFacts.split_loop_returns (S (length text - 0)) text 0 [])
      as [l3 H3]; [lia..|].
    exists l1, l2, l3. split; [done|]. split; [|done].
    by eapply (AddTypeFacts.extract_loop_balanced _ text 0 []).
  - intros. by apply AddTypeFacts.extract_from_skip.
  - intros. by eapply SplitFacts.extract_from_unbalanced.
  - intros i ps at_ o Hat j Hj Ho Hb.
    by apply (SplitFacts.split_from_unbalanced text i ps at_ o).
Qed.

Lemma tokenizers_on_unbalanced_witness :
  let text := py "x @a{b @c{d}" in
  AddType.extract_from text 0 [] = AddType.extract_from text 5 []
  ∧ Unique.extract_from text 0 [] = Ret [py "@a{b @c{d}"]
  ∧ Keywords.split_from text 0 []
    = Ret [(Keywords.NonEntry, py "x "); (Keywords.Entry, py "@a{b @c{d}")].
Proof.
  intros text.
  destruct (tokenizers_on_unbalanced text) as (_ & Ha & Hu & Hk).
  split; [|split].
  - refine (Ha 0 [] (Mobj 2 5 _) _ _ _).
    + simpl. lia.
    + vm_compute. reflexivity.
    + vm_compute. discriminate.
  - refine (Hu 0 [] (Mobj 2 5 _) 4 _ _ _ _).
    + simpl. lia.
    + vm_compute. reflexivity.
    + reflexivity.
    + reflexivity.
  - refine (Hk 0 [] 2 LBRACE _ _ _ _); reflexivity.
Defined.

(** [Unique.extract_entries] on a text whose only candidate never balances:
    the candidate is returned. *)
Lemma extract_entries_returns_unbalanced :
  let text := py "@a{b" in
  balance LBRACE RBRACE (drop 2 text) 2 0 = None
  ∧ Unique.extract_entries text = Ret [text].
Proof. vm_compute. by split. Qed.

(** ** Keywords.py: [read_braced], [read_quoted], [read_value] *)

Module KeywordsFacts.
Import Keywords.

Lemma read_braced_loop_levels k b :
  levels k b →
  ∀ n tail j depth out, (0 < depth)%Z →
    read_braced_loop n (b ++ tail) j depth out
    = read_braced_loop n tail (j + length b) depth (out ++ b).
Proof.
  induction 1 as [|k c s Hl Hr _ IH|j' k b s _ IHb _ IHs];
    intros n tail j depth out Hd.
  - simpl. by rewrite Nat.add_0_r, app_nil_r.
  - simpl. destruct (N.eqb_spec c LBRACE) as [?|_]; [done|].
    destruct (N.eqb_spec c RBRACE) as [?|_]; [done|].
    rewrite IH by done. f_equal; [lia|]. by rewrite <- app_assoc.
  - cbn [app read_braced_loop]. rewrite N.eqb_refl.
    rewrite <- app_assoc. rewrite IHb by lia.
    cbn [app read_braced_loop].
    replace (depth + 1 - 1 =? 0)%Z with false by lia.
    cbn [N.eqb Pos.eqb]. rewrite IHs by lia.
    replace (depth + 1 - 1)%Z with depth by lia.
    f_equal; [simpl; rewrite length_app; simpl; lia|].
    by rewrite <- !app_assoc.
Qed.

Lemma read_braced_loop_open n rest j depth out :
  closes rest depth = false →
  read_braced_loop n rest j depth out = (out ++ rest, n).
Proof.
  revert j depth out. induction rest as [|c t IH]; intros j depth out Hc.
  - simpl. by rewrite app_nil_r.
  - simpl in *. destruct (c =? LBRACE)%N.
    + rewrite IH by done. by rewrite <- app_assoc.
    + destruct (c =? RBRACE)%N.
      * apply orb_false_iff in Hc as [-> Hc]. rewrite IH by done.
        by rewrite <- app_assoc.
      * rewrite IH by done. by rewrite <- app_assoc.
Qed.

Lemma read_quoted_loop_open n rest j esc out :
  quote_closes rest esc = false →
  read_quoted_loop n rest j esc out = (out ++ unescaped rest esc, n).
Proof.
  revert j esc out. induction rest as [|c t IH]; intros j esc out Hc.
  - simpl. by rewrite app_nil_r.
  - simpl in *. destruct esc.
    + rewrite IH by done. by rewrite <- app_assoc.
    + destruct (c =? BACKSLASH)%N; [by rewrite IH|].
      apply orb_false_iff in Hc as [-> Hc]. rewrite IH by done.
      by rewrite <- app_assoc.
Qed.

Lemma read_braced_loop_pos n rest j depth out :
  j + length rest = n → j ≤ (read_braced_loop n rest j depth out).2 ≤ n.
Proof.
  revert j depth out. induction rest as [|c t IH]; intros j depth out Hn.
  - simpl in *. lia.
  - simpl in *. destruct (c =? LBRACE)%N.
    + specialize (IH (S j) (depth + 1)%Z (out ++ [c])). lia.
    + destruct (c =? RBRACE)%N.
      * destruct (depth - 1 =? 0)%Z; simpl; [lia|].
        specialize (IH (S j) (depth - 1)%Z (out ++ [c])). lia.
      * specialize (IH (S j) depth (out ++ [c])). lia.
Qed.

Lemma read_quoted_loop_pos n rest j esc out :
  j + length rest = n → j ≤ (read_quoted_loop n rest j esc out).2 ≤ n.
Proof.
  revert j esc out. induction rest as [|c t IH]; intros j esc out Hn.
  - simpl in *. lia.
  - simpl in *. destruct esc.
    + specialize (IH (S j) false (out ++ [c])). lia.
    + destruct (c =? BACKSLASH)%N.
      * specialize (IH (S j) true out). lia.
      * destruct (c =? DQUOTE)%N; simpl; [lia|].
        specialize (IH (S j) false (out ++ [c])). lia.
Qed.

Lemma read_braced_at (s : str) (i : nat) :
  s !! i = Some LBRACE →
  ∃ v j, read_braced s i = Ret (v, j) ∧ i < j ≤ length s.
Proof.
  intros Hi. unfold read_braced. rewrite Hi. simpl.
  pose proof (lookup_lt_Some _ _ _ Hi) as Hlt.
  pose proof (read_braced_loop_pos (length s) (drop (i + 1) s) (i + 1) 1 [])
    as Hp.
  rewrite length_drop in Hp.
  destruct (read_braced_loop _ _ _ _ _) as [v j]. exists v, j.
  split; [done|]. simpl in Hp. lia.
Qed.

Lemma read_quoted_at (s : str) (i : nat) :
  s !! i = Some DQUOTE →
  ∃ v j, read_quoted s i = Ret (v, j) ∧ i < j ≤ length s.
Proof.
  intros Hi. unfold read_quoted. rewrite Hi. simpl.
  pose proof (lookup_lt_Some _ _ _ Hi) as Hlt.
  pose proof (read_quoted_loop_pos (length s) (drop (i + 1) s) (i + 1)
                false []) as Hp.
  rewrite length_drop in Hp.
  destruct (read_quoted_loop _ _ _ _ _) as [v j]. exists v, j.
  split; [done|]. simpl in Hp. lia.
Qed.

Lemma read_part_returns s i :
  ∃ v j, read_part s i = Ret (v, j) ∧ i ≤ j.
Proof.
  unfold read_part. case_bool_decide as Hb.
  - destruct (read_braced_at s i Hb) as (v & j & -> & ?).
    exists v, j. split; [done|lia].
  - case_bool_decide as Hq.
    + destruct (read_quoted_at s i Hq) as (v & j & -> & ?).
      exists v, j. split; [done|lia].
    + eexists _, _. split; [done|]. apply skip_while_ge.
Qed.

(** The outer loop of [read_value] returns whenever its fuel exceeds the
    text still ahead. *)
Lemma read_value_loop_returns fuel s start i parts e :
  length s - i < fuel →
  ∃ r, read_value_loop fuel s start i parts e = Ret r.
Proof.
  revert i parts e. induction fuel as [|fuel IH]; intros i parts e Hf; [lia|].
  cbn [read_value_loop].
  destruct (i <? length s) eqn:Hi; simpl; [|eauto].
  apply Nat.ltb_lt in Hi.
  pose proof (skip_while_ge isspace s i) as Hge.
  set (i1 := skip_while isspace s i) in *.
  destruct (length s <=? i1) eqn:Hi1; [eauto|].
  apply Nat.leb_gt in Hi1.
  destruct (read_part_returns s i1) as (v & j & -> & Hj).
  cbn [mbind outcome_bind].
  pose proof (skip_while_ge isspace s j) as Hge2.
  set (i2 := skip_while isspace s j) in *.
  destruct (i2 <? length s) eqn:Hlt; simpl; [|eauto].
  apply Nat.ltb_lt in Hlt.
  case_bool_decide; [apply IH; lia|].
  case_bool_decide; eauto.
Qed.

Lemma read_braced_unterminated (s : str) (i : nat) :
  s !! i = Some LBRACE → closes (drop (i + 1) s) 1 = false →
  read_braced s i = Ret (drop (i + 1) s, length s).
Proof.
  intros Hi Hc. unfold read_braced. rewrite Hi. simpl.
  by rewrite read_braced_loop_open.
Qed.

Lemma read_quoted_unterminated (s : str) (i : nat) :
  s !! i = Some DQUOTE → quote_closes (drop (i + 1) s) false = false →
  read_quoted s i = Ret (unescaped (drop (i + 1) s) false, length s).
Proof.
  intros Hi Hc. unfold read_quoted. rewrite Hi. simpl.
  by rewrite read_quoted_loop_open.
Qed.

(** [read_value] on a value that [read_part] reads up to the end of [s]. *)
Lemma read_value_to_end (s : str) (i : nat) (c : N) (v : str) :
  s !! i = Some c → isspace c = false →
  read_part s i = Ret (v, length s) →
  read_value s i = Ret (strip v, drop i s, length s).
Proof.
  intros Hi Hc Hp. pose proof (lookup_lt_Some _ _ _ Hi) as Hlt.
  unfold read_value. cbn [read_value_loop].
  replace (i <? length s) with true by (symmetry; by apply Nat.ltb_lt).
  cbn [negb]. rewrite (skip_while_stay _ _ _ _ Hi Hc).
  replace (length s <=? i) with false by (symmetry; apply Nat.leb_gt; lia).
  rewrite Hp. cbn [mbind outcome_bind]. rewrite skip_while_end.
  rewrite Nat.ltb_irrefl. cbn [andb app concat].
  by rewrite app_nil_r, slice_to_end.
Qed.

(** C6 (as amended): a braced value with [k] levels of nested braces is
    decoded by [read_braced] to the text between its outermost pair,
    every inner level kept as it stands, and the position returned is the
    one just after the closing brace. *)
Theorem read_braced_preserves_nesting (k : nat) (b pre rest : str) :
  levels k b →
  read_braced (pre ++ LBRACE :: b ++ RBRACE :: rest) (length pre)
  = Ret (b, length pre + length b + 2).
Proof.
  intros Hl. unfold read_braced.
  rewrite list_lookup_middle by done. cbn [N.eqb Pos.eqb].
  rewrite (drop_app_add' pre _ (length pre) 1) by done. cbn [drop].
  rewrite drop_0, (read_braced_loop_levels k b Hl) by lia.
  cbn [read_braced_loop N.eqb Pos.eqb app Z.sub Z.add Z.opp Z.eqb Z.pos_sub].
  do 2 f_equal. lia.
Qed.

Lemma read_braced_preserves_nesting_witness :
  levels 2 (py "a{b{c}}d")
  ∧ read_braced (py "x = {a{b{c}}d}, y") 4 = Ret (py "a{b{c}}d", 14).
Proof.
  assert (levels 2 (py "a{b{c}}d")) as Hl.
  { apply levels_chr; [done..|].
    apply (levels_nest 1 0 (py "b{c}") (py "d")).
    - apply levels_chr; [done..|].
      apply (levels_nest 0 0 (py "c") []).
      + apply levels_chr; [done..|]. constructor.
      + constructor.
    - apply levels_chr; [done..|]. constructor. }
  split; [exact Hl|].
  exact (read_braced_preserves_nesting 2 (py "a{b{c}}d") (py "x = ")
           (py ", y") Hl).
Defined.

(** C7 (as amended): [read_value] returns for every text and position and
    never raises.  At or past the end of the text it returns the empty
    value.  A braced value whose brace is never closed is read by
    [read_braced] as all the text after the brace, up to the end of the
    input; a quoted value without a closing quote is read by [read_quoted]
    as the text after the quote with each escaping backslash left out, up to
    the end of the input; [read_value] returns either of them trimmed. *)
Theorem read_value_total (s : str) (i : nat) :
  (∃ text raw e, read_value s i = Ret (text, raw, e))
  ∧ (length s ≤ i → read_value s i = Ret ([], [], i))
  ∧ (s !! i = Some LBRACE → closes (drop (i + 1) s) 1 = false →
     read_braced s i = Ret (drop (i + 1) s, length s)
     ∧ read_value s i = Ret (strip (drop (i + 1) s), drop i s, length s))
  ∧ (s !! i = Some DQUOTE → quote_closes (drop (i + 1) s) false = false →
     read_quoted s i = Ret (unescaped (drop (i + 1) s) false, length s)
     ∧ read_value s i
       = Ret (strip (unescaped (drop (i + 1) s) false), drop i s, length s)).
Proof.
  split; [|split; [|split]].
  - destruct (read_value_loop_returns (S (length s - i)) s i i [] i)
      as [[[text raw] e] Hr]; [lia|]. by exists text, raw, e.
  - intros Hi. unfold read_value. cbn [read_value_loop].
    replace (i <? length s) with false by (symmetry; apply Nat.ltb_ge; lia).
    cbn [negb concat]. unfold slice. by rewrite Nat.sub_diag.
  - intros Hi Hc. pose proof (read_braced_unterminated s i Hi Hc) as Hb.
    split; [done|]. apply (read_value_to_end s i LBRACE); [done..|].
    unfold read_part. by rewrite bool_decide_eq_true_2.
  - intros Hi Hc. pose proof (read_quoted_unterminated s i Hi Hc) as Hq.
    split; [done|]. apply (read_value_to_end s i DQUOTE); [done..|].
    unfold read_part. rewrite bool_decide_eq_false_2 by congruence.
    by rewrite bool_decide_eq_true_2.
Qed.

Lemma read_value_total_witness :
  read_value (py "{a b ") 0 = Ret (py "a b", py "{a b ", 5)
  ∧ read_quoted (DQUOTE :: py "a\b") 0 = Ret (py "ab", 4)
  ∧ read_value (py "x") 1 = Ret ([], [], 1).
Proof.
  split; [|split].
  - destruct (read_value_total (py "{a b ") 0) as (_ & _ & Hb & _).
    destruct Hb as [_ Hv]; [reflexivity..|]. exact Hv.
  - destruct (read_value_total (DQUOTE :: py "a\b") 0) as (_ & _ & _ & Hq).
    destruct Hq as [Hv _]; [reflexivity..|]. exact Hv.
  - destruct (read_value_total (py "x") 1) as (_ & He & _).
    apply He. simpl. lia.
Defined.

(** A quoted value that is never closed and holds a backslash: the closing
    quote never appears, yet the decoded text is not the text that
    remains. *)
Lemma read_quoted_drops_backslash :
  let s := DQUOTE :: py "a\b" in
  quote_closes (drop 1 s) false = false
  ∧ read_quoted s 0 = Ret (py "ab", 4)
  ∧ py "ab" ≠ drop 1 s.
Proof. vm_compute. split; [done|]. split; [done|]. discriminate. Qed.

End KeywordsFacts.

(** ** Unique.py: [get_field] *)

Module UniqueFacts.

(** [get_field] on a value with one level of nested braces: the value ends
    at the first closing brace, the inner pair is cut. *)
Lemma get_field_cuts_nested :
  let entry := py "@a{k,
  title = {A {B} C},
}" in
  levels 1 (py "A {B} C")
  ∧ Unique.get_field entry (py "title") = Some (py "A {B")
  ∧ Unique.get_field entry (py "title") ≠ Some (py "A {B} C").
Proof.
  split; [|split; [vm_compute; reflexivity|vm_compute; discriminate]].
  do 2 (apply levels_chr; [done..|]).
  apply (levels_nest 0 0 (py "B") (py " C")).
  - apply levels_chr; [done..|]. constructor.
  - do 2 (apply levels_chr; [done..|]). constructor.
Qed.

Section Cascade.
Context `{PyLib}.

Lemma truthy_usable (x : option str) :
  (truthy x = true ∧ Unique.usable x = x ∧ ∃ v, x = Some v ∧ v ≠ [])
  ∨ (truthy x = false ∧ Unique.usable x = None).
Proof.
  destruct x as [[|c t]|]; simpl; [by right| |by right].
  left. split; [done|]. split; [done|]. by exists (c :: t).
Qed.

Lemma normalize_doi_nonempty raw doi :
  Unique._normalize_doi raw = Some doi → doi ≠ [].
Proof.
  unfold Unique._normalize_doi. destruct (negb (truthy raw)); [done|].
  cbv zeta.
  match goal with
  | |- context [re_match Unique.DOI_RE ?d] => generalize d
  end.
  intros d. case_bool_decide as Hm; [|done]. intros [= <-] ->.
  by destruct Hm as [m Hm].
Qed.

Lemma find_normalized_doi_truthy e doi :
  Unique._find_normalized_doi e = Some doi →
  truthy (Unique._find_normalized_doi e) = true.
Proof.
  intros Hd. rewrite Hd. unfold Unique._find_normalized_doi in Hd.
  destruct (truthy (Unique._normalize_doi _)) eqn:Ht.
  - by rewrite Hd in Ht.
  - apply normalize_doi_nonempty in Hd. by destruct doi.
Qed.

Lemma head_omap_cons {A B} (f : A → option B) (x : A) (l : list A) :
  head (omap f (x :: l))
  = match f x with Some r => Some r | None => head (omap f l) end.
Proof. cbn [omap list_omap]. by destruct (f x). Qed.

Lemma build_dedupe_key_refines e :
  Unique.first_usable e = Some (Unique.build_dedupe_key e).
Proof.
  unfold Unique.first_usable, Unique.cascade, Unique.build_dedupe_key,
    Unique._find_normalized_doi.
  rewrite head_omap_cons. unfold Unique.identifier_key.
  destruct (truthy_usable (Unique._normalize_doi
              (Unique.get_field e (py "doi"))))
    as [(-> & -> & v & Hv & ?)|(-> & ->)].
  { rewrite Hv. by destruct v. }
  destruct (truthy_usable (Unique._normalize_doi
              (Unique.get_field e (py "url"))))
    as [(-> & -> & v & -> & ?)|(-> & ->)].
  { by destruct v. }
  cbn [mbind option_bind].
  rewrite head_omap_cons. unfold Unique.title_year_key.
  destruct (truthy_usable (Unique.get_field e (py "title")))
    as [(-> & Hu & t & Ht & ?)|(-> & Hu)].
  - rewrite Hu, Ht. cbn [mbind option_bind default].
    destruct (truthy_usable (Unique.get_field e (py "year")))
      as [(-> & -> & y & -> & ?)|(-> & ->)].
    + cbn [mbind option_bind default]. unfold id.
      destruct (re_search Unique.year_re y 0); cbn [mbind option_bind];
        [done|].
      rewrite head_omap_cons. unfold Unique.title_key.
      by rewrite <- Ht, Hu, Ht.
    + cbn [mbind option_bind]. rewrite head_omap_cons.
      unfold Unique.title_key. by rewrite <- Ht, Hu, Ht.
  - rewrite Hu. cbn [mbind option_bind]. rewrite head_omap_cons.
    unfold Unique.title_key. rewrite Hu. cbn [mbind option_bind].
    rewrite head_omap_cons. unfold Unique.abstract_key.
    destruct (truthy_usable (Unique.get_field e (py "abstract")))
      as [(-> & -> & a & -> & ?)|(-> & ->)]; [done|].
    cbn [mbind option_bind]. by rewrite head_omap_cons.
Qed.

(** C1: the key of a record is the key of the first strategy of the cascade
    (identifier, title and year, title, abstract, fallback) that gives one,
    and two records with the same normalised DOI get the same
    [(DOI, doi)] pair, whatever their other fields. *)
Theorem build_dedupe_key_cascade e1 e2 doi :
  Unique.first_usable e1 = Some (Unique.build_dedupe_key e1)
  ∧ (Unique._find_normalized_doi e1 = Some doi →
     Unique._find_normalized_doi e2 = Some doi →
     Unique.build_dedupe_key e1 = (DOI, doi)
     ∧ Unique.build_dedupe_key e2 = (DOI, doi)).
Proof.
  split; [apply build_dedupe_key_refines|].
  intros H1 H2. unfold Unique.build_dedupe_key.
  rewrite (find_normalized_doi_truthy _ _ H1),
    (find_normalized_doi_truthy _ _ H2). by rewrite H1, H2.
Qed.

End Cascade.

Lemma build_dedupe_key_cascade_witness :
  let e1 := py "@article{a,
  title = {Shells},
  doi = {10.1000/XYZ123}
}" in
  let e2 := py "@misc{b,
  title = {Another title},
  url = {https://doi.org/10.1000/xyz123.}
}" in
  Unique.build_dedupe_key e1 = (DOI, py "10.1000/xyz123")
  ∧ Unique.build_dedupe_key e2 = (DOI, py "10.1000/xyz123").
Proof.
  intros e1 e2.
  apply (build_dedupe_key_cascade e1 e2 (py "10.1000/xyz123"));
    vm_compute; reflexivity.
Defined.

(** C5: [_normalize_doi] on [https://doi.org/10.1000/XYZ123.] returns
    [10.1000/xyz123], with the resolver prefix and the final period gone and
    the letters in lower case, and the value returned has the shape of
    [DOI_RE]. *)
Theorem normalize_doi_example :
  Unique._normalize_doi (Some (py "https://doi.org/10.1000/XYZ123."))
  = Some (py "10.1000/xyz123")
  ∧ is_Some (re_match Unique.DOI_RE (py "10.1000/xyz123")).
Proof. split; [vm_compute; reflexivity|]. vm_compute. eauto. Qed.

(** The records of the specification's title-and-year example fall into one
    bucket. *)
Example title_year_same_bucket :
  Unique.build_dedupe_key (py "@a{x,
  title = {Parametric Design of Shells},
  year = {2021}
}") = (TITLE_YEAR, py "parametric design of shells::2021")
  ∧ Unique.build_dedupe_key (py "@b{y,
  title = {Parametric design of shells!},
  year = {2021},
}") = (TITLE_YEAR, py "parametric design of shells::2021").
Proof. vm_compute. by split. Qed.

(** ** Unique.py: [append_fields] *)

Lemma rfind_in_spec c rest i j :
  rfind_in c rest i = Some j → i ≤ j ∧ rest !! (j - i) = Some c.
Proof.
  revert i. induction rest as [|x t IH]; intros i Hr; [done|].
  simpl in Hr. destruct (rfind_in c t (S i)) as [j'|] eqn:Hj.
  - injection Hr as ->. apply IH in Hj as [Hle Hl]. split; [lia|].
    replace (j - i) with (S (j - S i)) by lia. done.
  - destruct (N.eqb_spec x c) as [->|]; [|done]. injection Hr as ->.
    split; [lia|]. by rewrite Nat.sub_diag.
Qed.

Lemma rfind_char_spec c (s : str) j :
  rfind_char c s = Some j → s !! j = Some c.
Proof.
  intros Hr. apply rfind_in_spec in Hr as [_ Hl].
  by rewrite Nat.sub_0_r in Hl.
Qed.

Section Counting.

Lemma count_of_counter_add x y counts :
  Unique.count_of y (Unique.counter_add x counts)
  = if bool_decide (y = x)
    then Some (S (default 0 (Unique.count_of x counts)))
    else Unique.count_of y counts.
Proof.
  induction counts as [|[z c] t IH].
  - cbn. by destruct (decide (y = x)) as [->|?];
      [rewrite !bool_decide_eq_true_2|rewrite !bool_decide_eq_false_2].
  - cbn [Unique.counter_add Unique.count_of].
    destruct (decide (x = z)) as [->|Hxz].
    + rewrite (bool_decide_eq_true_2 (z = z)) by done.
      cbn [Unique.count_of]. destruct (decide (y = z)) as [->|Hyz].
      * by rewrite !bool_decide_eq_true_2.
      * by rewrite !bool_decide_eq_false_2.
    + rewrite (bool_decide_eq_false_2 (x = z)) by done.
      cbn [Unique.count_of]. rewrite IH.
      destruct (decide (y = z)) as [->|Hyz].
      * rewrite (bool_decide_eq_true_2 (z = z)) by done.
        by rewrite bool_decide_eq_false_2.
      * by rewrite (bool_decide_eq_false_2 (y = z)).
Qed.

Lemma keys_counter_add x counts :
  (Unique.counter_add x counts).*1
  = if bool_decide (x ∈ counts.*1) then counts.*1 else counts.*1 ++ [x].
Proof.
  induction counts as [|[z c] t IH]; [done|].
  cbn [Unique.counter_add]. rewrite fmap_cons. cbn [fst].
  destruct (decide (x = z)) as [->|Hne].
  - rewrite !bool_decide_eq_true_2; [done|by left|done].
  - rewrite (bool_decide_eq_false_2 (x = z)) by done.
    rewrite fmap_cons, IH. cbn [fst].
    destruct (decide (x ∈ t.*1)) as [Hin|Hin].
    + rewrite !bool_decide_eq_true_2; [done|by right|done].
    + rewrite !bool_decide_eq_false_2; [done| |done].
      by intros [?|?]%elem_of_cons.
Qed.

Lemma occurrences_snoc x y l :
  Unique.occurrences y (l ++ [x])
  = Unique.occurrences y l + (if bool_decide (y = x) then 1 else 0).
Proof.
  unfold Unique.occurrences. rewrite filter_app, length_app. f_equal.
  rewrite filter_cons, filter_nil. case_bool_decide; by destruct (decide _).
Qed.

Lemma Counter_spec l :
  NoDup (Unique.Counter l).*1
  ∧ ∀ y, Unique.count_of y (Unique.Counter l)
         = if Unique.occurrences y l is 0 then None
           else Some (Unique.occurrences y l).
Proof.
  unfold Unique.Counter. induction l as [|x l [IHn IHc]] using rev_ind.
  - split; [constructor|done].
  - rewrite foldl_app. cbn [foldl]. split.
    + rewrite keys_counter_add. case_bool_decide as Hin; [done|].
      apply NoDup_app. split; [done|]. split; [|apply NoDup_singleton].
      intros z Hz Hzx. apply list_elem_of_singleton in Hzx. by subst.
    + intros y. rewrite count_of_counter_add, occurrences_snoc.
      case_bool_decide as Hyx.
      * subst. rewrite IHc.
        destruct (Unique.occurrences x l) eqn:Ho; simpl; [done|].
        by replace (n + 1) with (S n) by lia.
      * rewrite IHc, Nat.add_0_r. done.
Qed.

Lemma count_of_elem counts x n :
  NoDup counts.*1 → (x, n) ∈ counts ↔ Unique.count_of x counts = Some n.
Proof.
  induction counts as [|[z c] t IH]; simpl; intros Hnd.
  - split; [by intros ?%elem_of_nil|done].
  - apply NoDup_cons in Hnd as [Hz Hnd]. rewrite elem_of_cons, IH by done.
    case_bool_decide as Hxz.
    + subst. split; [intros [[= ->]|Hc]; [done|]|intros [= ->]; by left].
      exfalso. apply Hz. apply IH in Hc; [|done].
      apply list_elem_of_fmap. by exists (z, n).
    + split; [intros [[= -> ->]|Hc]; done|by right].
Qed.

Lemma max_count_spec (counts : list (str * nat)) :
  (∀ x n, (x, n) ∈ counts → n ≤ foldr Nat.max 0 counts.*2)
  ∧ (counts ≠ [] → ∃ x, (x, foldr Nat.max 0 counts.*2) ∈ counts).
Proof.
  induction counts as [|[z c] t [IH1 IH2]].
  - split; [by intros ?? ?%elem_of_nil|done].
  - rewrite fmap_cons. cbn [foldr snd]. split.
    + intros x n [[= -> ->]|Hin]%elem_of_cons; [lia|].
      apply IH1 in Hin. lia.
    + intros _. destruct (decide (foldr Nat.max 0 t.*2 ≤ c)) as [Hle|Hgt].
      * exists z. rewrite Nat.max_l by done. by left.
      * destruct t as [|p t]; [cbn in Hgt; lia|].
        destruct IH2 as [x Hx]; [done|]. exists x.
        rewrite Nat.max_r by lia. by right.
Qed.

Lemma min_by_len_spec best l :
  Unique.min_by_len best l ∈ best :: l
  ∧ ∀ x, x ∈ best :: l → length (Unique.min_by_len best l) ≤ length x.
Proof.
  revert best. induction l as [|y l IH]; intros best; simpl.
  - split; [by left|]. intros x ?%list_elem_of_singleton. by subst.
  - destruct (IH (if length y <? length best then y else best)) as [Hin Hle].
    split.
    + apply elem_of_cons in Hin as [->|Hin]; [|set_solver].
      destruct (length y <? length best); set_solver.
    + intros x Hx.
      assert (length (if length y <? length best then y else best)
              ≤ length best `min` length y) as Hb.
      { destruct (Nat.ltb_spec (length y) (length best)); lia. }
      pose proof (Hle _ (ltac:(by left))) as H0.
      apply elem_of_cons in Hx as [->|[->|Hx]%elem_of_cons]; [lia..|].
      apply Hle. by right.
Qed.

(** The detected indentation is a majority vote: it is the indentation of
    some field line, no indentation occurs more often, and those that occur
    as often are not shorter. *)
Lemma detect_common_field_indent_majority e :
  let indents := Unique.field_indents e in
  let indent := Unique.detect_common_field_indent e in
  (indents = [] → indent = [])
  ∧ (indents ≠ [] →
     indent ∈ indents
     ∧ ∀ x, x ∈ indents →
         Unique.occurrences x indents ≤ Unique.occurrences indent indents
         ∧ (Unique.occurrences x indents = Unique.occurrences indent indents
            → length indent ≤ length x)).
Proof.
  cbv zeta. unfold Unique.detect_common_field_indent.
  generalize (Unique.field_indents e). intros l.
  split; [by intros ->|]. intros Hne.
  destruct l as [|x0 l0] eqn:Hl; [done|]. rewrite <- Hl in *. clear Hne.
  destruct (Counter_spec l) as [Hnd Hc].
  set (counts := Unique.Counter l) in *.
  set (mx := foldr Nat.max 0 counts.*2).
  destruct (max_count_spec counts) as [Hmax Hex].
  assert (∀ y, y ∈ l ↔ 0 < Unique.occurrences y l) as Hocc.
  { intros y. unfold Unique.occurrences. split.
    - intros Hin. assert (y ∈ filter (y =.) l) as Hf
        by (by apply list_elem_of_filter).
      destruct (filter (y =.) l); [by apply elem_of_nil in Hf|simpl; lia].
    - intros Hpos. destruct (filter (y =.) l) as [|z t] eqn:Hf;
        [simpl in Hpos; lia|].
      assert (z ∈ filter (y =.) l) as Hz by (rewrite Hf; by left).
      apply list_elem_of_filter in Hz as [-> ?]. done. }
  assert (∀ y n, (y, n) ∈ counts ↔ n = Unique.occurrences y l ∧ y ∈ l)
    as Hin.
  { intros y n. rewrite count_of_elem, Hc, Hocc by done.
    destruct (Unique.occurrences y l); split; try done.
    - intros [? ?]. lia.
    - intros [= <-]. split; [done|lia].
    - by intros [-> _]. }
  assert (counts ≠ []) as Hcne.
  { intros Hnil. assert ((x0, Unique.occurrences x0 l) ∈ counts) as Hx0.
    { apply Hin. split; [done|]. rewrite Hl. by left. }
    rewrite Hnil in Hx0. by apply elem_of_nil in Hx0. }
  destruct (Hex Hcne) as [xm Hxm]. fold mx in Hxm, Hmax.
  set (cands := (filter (fun ic : str * nat => ic.2 = mx) counts).*1).
  assert (∀ y, y ∈ cands ↔ y ∈ l ∧ Unique.occurrences y l = mx) as Hcand.
  { intros y. unfold cands. rewrite list_elem_of_fmap. split.
    - intros ([y' n] & -> & [Hn Hyn]%list_elem_of_filter). simpl in *.
      apply Hin in Hyn as [-> ?]. done.
    - intros [Hy Ho]. exists (y, mx). split; [done|].
      apply list_elem_of_filter. split; [done|]. apply Hin. done. }
  destruct cands as [|c0 crest] eqn:Hcs.
  { exfalso. assert (xm ∈ []) as Hbad; [|by apply elem_of_nil in Hbad].
    apply Hcand. apply Hin in Hxm as [-> ?]. done. }
  destruct (min_by_len_spec c0 crest) as [Hmin Hlen].
  apply Hcand in Hmin as [Hmin1 Hmin2]. split; [done|].
  intros x Hx. rewrite Hmin2. split.
  - apply (Hmax x). apply Hin. done.
  - intros Heq. apply Hlen. apply Hcand. done.
Qed.

End Counting.

Section Append.
Context `{PyLib}.

(** C8 (as amended): [append_fields] leaves the record as it is but for
    the lines it inserts just before the last closing brace (at the end when
    there is none).  It always inserts one [actualSearch] line, whether or
    not the record has such a field; before it, one [source] line when a
    source value is given and no line of the body starts with [source =]
    (in any letter case), and none otherwise.  Each inserted line starts
    with [detect_common_field_indent], the majority vote over the field
    lines of the body, and ends with the newline of the record. *)
Theorem append_fields_inserts (e a : str) (s : option str) :
  let at_ := default (length e) (rfind_char RBRACE e) in
  let indent := Unique.detect_common_field_indent e in
  let newline := if bool_decide (NL ∈ e) then [NL] else [CR; NL] in
  let indents := Unique.field_indents e in
  Unique.append_fields e a s
  = take at_ e
    ++ (if truthy s && negb (Unique.has_source_field e)
        then Unique.source_line indent (default [] s) newline else [])
    ++ Unique.actual_search_line indent a newline
    ++ drop at_ e
  ∧ (Unique.has_source_field e = true →
     Unique.append_fields e a s
     = take at_ e ++ Unique.actual_search_line indent a newline ++ drop at_ e)
  ∧ (indents = [] → indent = [])
  ∧ (indents ≠ [] →
     indent ∈ indents
     ∧ ∀ x, x ∈ indents →
         Unique.occurrences x indents ≤ Unique.occurrences indent indents
         ∧ (Unique.occurrences x indents = Unique.occurrences indent indents
            → length indent ≤ length x)).
Proof.
  cbv zeta.
  assert (Unique.append_fields e a s
    = take (default (length e) (rfind_char RBRACE e)) e
      ++ (if truthy s && negb (Unique.has_source_field e)
          then Unique.source_line (Unique.detect_common_field_indent e)
                 (default [] s) (if bool_decide (NL ∈ e) then [NL] else [CR; NL])
          else [])
      ++ Unique.actual_search_line (Unique.detect_common_field_indent e) a
           (if bool_decide (NL ∈ e) then [NL] else [CR; NL])
      ++ drop (default (length e) (rfind_char RBRACE e)) e) as Heq.
  { unfold Unique.append_fields, Unique.source_line,
      Unique.actual_search_line.
    destruct (rfind_char RBRACE e) as [i|] eqn:Hr; cbn [default].
    - apply rfind_char_spec in Hr. unfold id.
      rewrite (drop_S e RBRACE i Hr), Nat.add_1_r.
      destruct (truthy s && negb (Unique.has_source_field e));
        by rewrite <- ?app_assoc.
    - unfold id. rewrite drop_all, (drop_ge e (length e + 1)) by lia.
      destruct (truthy s && negb (Unique.has_source_field e));
        by rewrite <- ?app_assoc. }
  split; [exact Heq|]. split.
  - intros Hs. rewrite Heq, Hs. by rewrite andb_false_r.
  - apply detect_common_field_indent_majority.
Qed.

End Append.

Lemma append_fields_inserts_witness :
  let e := py "@a{k,
  title = {T},
  Source = {scopus},
 note = {n}
}" in
  Unique.has_source_field e = true
  ∧ Unique.field_indents e = [py "  "; py "  "; py " "]
  ∧ Unique.detect_common_field_indent e = py "  "
  ∧ Unique.append_fields e (py "q1") (Some (py "wos")) = py "@a{k,
  title = {T},
  Source = {scopus},
 note = {n}
  actualSearch = {q1}
}".
Proof.
  intros e.
  destruct (append_fields_inserts e (py "q1") (Some (py "wos")))
    as (_ & Hs & _ & Hm).
  split; [reflexivity|]. split; [reflexivity|]. split; [reflexivity|].
  rewrite Hs; reflexivity.
Defined.

(** A record that already has an [actualSearch] field: appending is not a
    no-op, a second [actualSearch] line is inserted. *)
Lemma append_fields_repeats_actual_search :
  let e := py "@a{k,
  actualSearch = {old}
}" in
  Unique.get_field e (py "actualsearch") = Some (py "old")
  ∧ Unique.append_fields e (py "new") None = py "@a{k,
  actualSearch = {old}
  actualSearch = {new}
}"
  ∧ Unique.append_fields e (py "new") None ≠ e.
Proof.
  vm_compute. split; [done|]. split; [done|]. discriminate.
Qed.

(** ** Unique.py: the deduplication pass of [main] *)

Section Dedup.
Context `{PyLib}.

Lemma default_Some {A} (d x : A) : default d (Some x) = x.
Proof. done. Qed.

Lemma str_leb_total : Total (fun a b : str => Is_true (str_leb a b)).
Proof.
  intros a. induction a as [|x a IH]; intros [|y b]; simpl; auto.
  destruct (N.ltb_spec x y), (N.ltb_spec y x); simpl; auto; lia.
Qed.

Lemma extract_entries_of (text : str) :
  Unique.extract_entries text = Ret (Unique.entries_of text).
Proof.
  unfold Unique.entries_of.
  destruct (SplitFacts.unique_extract_loop_returns
              (S (length text - 0)) text 0 []) as [l Hl]; [lia..|].
  unfold Unique.extract_entries, Unique.extract_from. by rewrite Hl.
Qed.

Lemma mapM_entries (read : str → str) (files : list str) :
  mapM (fun fp => entries ← Unique.extract_entries (read fp); Ret (fp, entries))
    files
  = Ret ((fun fp => (fp, Unique.entries_of (read fp))) <$> files).
Proof.
  induction files as [|fp files IH]; [done|].
  cbn [mapM fmap list_fmap]. fold (@mapM outcome _ _ str (str * list str)).
  rewrite extract_entries_of. cbn [mbind outcome_bind].
  by rewrite IH.
Qed.

Lemma foldl_files (read : str → str) (st : Unique.state) (files : list str) :
  foldl (fun st '(fp, entries) => foldl (Unique.process_entry fp) st entries)
    st ((fun fp => (fp, Unique.entries_of (read fp))) <$> files)
  = foldl (fun st '(fp, e) => Unique.process_entry fp st e) st
      (fp ← files; (fun e => (fp, e)) <$> Unique.entries_of (read fp)).
Proof.
  revert st. induction files as [|fp files IH]; intros st; [done|].
  cbn [fmap list_fmap foldl mbind list_bind]. rewrite foldl_app, <- IH.
  f_equal. generalize (Unique.entries_of (read fp)). intros es. revert st.
  induction es as [|e es IHes]; intros st; [done|]. simpl. apply IHes.
Qed.

Lemma earliest_go_snoc (prev us : list str) (u : str) :
  Unique.earliest_go prev (us ++ [u])
  = Unique.earliest_go prev us
    ++ (if bool_decide (Unique.build_dedupe_key u
                          ∈ Unique.build_dedupe_key <$> (prev ++ us))
        then [] else [u]).
Proof.
  revert prev. induction us as [|v us IH]; intros prev.
  - simpl. by rewrite !app_nil_r.
  - cbn [app Unique.earliest_go]. rewrite IH, <- !app_assoc. done.
Qed.

Lemma dedup_inv_initial : dedup_inv Unique.initial [].
Proof.
  split; [done|]. split; [intros sk; set_solver|].
  intros sk. simpl. rewrite lookup_empty. simpl. by split.
Qed.

Lemma first_kept_snoc (bucket : list Unique.item) it :
  bucket ≠ [] →
  Unique.first_kept (bucket ++ [it]) = Unique.first_kept bucket ++ [false].
Proof.
  destruct bucket as [|x rest]; [done|]. intros _. simpl.
  by rewrite fmap_app.
Qed.

Lemma dedup_inv_step (fp : str) (st : Unique.state) (us : list str) (e : str) :
  dedup_inv st us →
  dedup_inv (Unique.process_entry fp st e) (us ++ [Unique.updated_of fp e]).
Proof.
  intros (Hm & Hs & Hg). unfold Unique.process_entry, Unique.updated_of.
  destruct (Unique.split_filename_parts fp) as [actual_search source_from_name].
  set (u := Unique.append_fields e actual_search source_from_name).
  destruct (Unique.build_dedupe_key u) as [s k] eqn:Hk.
  assert (∀ sk, filter (fun u => Unique.build_dedupe_key u = sk) (us ++ [u])
                = filter (fun u => Unique.build_dedupe_key u = sk) us
                  ++ (if decide ((s, k) = sk) then [u] else [])) as Hf.
  { intros sk. rewrite filter_app. f_equal.
    rewrite filter_cons, filter_nil, Hk. by destruct (decide _). }
  case_bool_decide as Hseen.
  - split; [|split]; cbn [Unique.merged_entries Unique.seen_keys Unique.groups].
    + unfold Unique.earliest. rewrite earliest_go_snoc. cbn [app].
      rewrite bool_decide_eq_true_2, app_nil_r; [done|].
      rewrite Hk. by apply Hs.
    + intros sk. rewrite Hs, fmap_app. cbn [fmap list_fmap]. rewrite Hk.
      apply Hs in Hseen. set_solver.
    + intros sk. cbv zeta. rewrite Hf.
      destruct (decide ((s, k) = sk)) as [<-|Hne].
      * rewrite lookup_insert_eq, default_Some.
        destruct (Hg (s, k)) as (Ht & Hall & Hkept).
        rewrite fmap_app, Ht. split; [done|]. split.
        { apply Forall_app. split; [done|]. by apply Forall_singleton. }
        rewrite fmap_app, Hkept, first_kept_snoc; [done|].
        intros Hnil. rewrite Hnil in Ht. cbn in Ht.
        apply Hs in Hseen. apply list_elem_of_fmap in Hseen as (v & Hv & Hin).
        assert (v ∈ filter (fun u => Unique.build_dedupe_key u = (s, k)) us)
          as Hvf by (by apply list_elem_of_filter).
        rewrite <- Ht in Hvf. by apply elem_of_nil in Hvf.
      * rewrite lookup_insert_ne by done. rewrite app_nil_r. apply Hg.
  - split; [|split]; cbn [Unique.merged_entries Unique.seen_keys Unique.groups].
    + unfold Unique.earliest. rewrite earliest_go_snoc. cbn [app].
      rewrite bool_decide_eq_false_2; [by rewrite Hm|].
      rewrite Hk. by rewrite <- Hs.
    + intros sk. rewrite fmap_app. cbn [fmap list_fmap]. rewrite Hk.
      specialize (Hs sk). set_solver.
    + intros sk. cbv zeta. rewrite Hf.
      destruct (decide ((s, k) = sk)) as [<-|Hne].
      * rewrite lookup_insert_eq, default_Some.
        destruct (Hg (s, k)) as (Ht & Hall & Hkept).
        assert (default [] (Unique.groups st !! (s, k)) = []) as Hnil.
        { destruct (default [] (Unique.groups st !! (s, k))) as [|it b] eqn:Hb;
            [done|]. exfalso. apply Hseen. apply Hs.
          assert (Unique.it_entry_text it
                  ∈ filter (fun u => Unique.build_dedupe_key u = (s, k)) us)
            as Hin by (rewrite <- Ht; set_solver).
          apply list_elem_of_filter in Hin as [Hke Hin].
          apply list_elem_of_fmap. by exists (Unique.it_entry_text it). }
        rewrite Hnil in *. cbn in Ht. rewrite <- Ht. cbn.
        split; [done|]. split; [|done]. by apply Forall_singleton.
      * rewrite lookup_insert_ne by done. rewrite app_nil_r. apply Hg.
Qed.

Lemma dedup_inv_foldl (jobs : list (str * str)) :
  dedup_inv
    (foldl (fun st '(fp, e) => Unique.process_entry fp st e) Unique.initial
       jobs)
    ((fun '(fp, e) => Unique.updated_of fp e) <$> jobs).
Proof.
  induction jobs as [|[fp e] jobs IH] using rev_ind.
  - apply dedup_inv_initial.
  - rewrite foldl_app, fmap_app. cbn [foldl fmap list_fmap].
    by apply dedup_inv_step.
Qed.

Lemma processing_order_jobs (found : list str) (read : str → str) :
  Unique.processing_order found read
  = (fun '(fp, e) => Unique.updated_of fp e)
    <$> (fp ← Unique.sorted found;
         (fun e => (fp, e)) <$> Unique.entries_of (read fp)).
Proof.
  unfold Unique.processing_order. generalize (Unique.sorted found).
  intros files. induction files as [|fp files IH]; [done|].
  cbn [mbind list_bind]. rewrite fmap_app, <- IH. f_equal.
  rewrite <- list_fmap_compose. done.
Qed.

(** C2: [main] returns, having processed the files in sorted order and the
    entries of each file from left to right.  Every bucket then lists, in
    that order, the records that produced its [(strategy, key)] pair; the
    first of them is the one record marked kept and all later ones are marked
    dropped; and [merged_entries] holds exactly the records that no earlier
    record shares the pair with. *)
Theorem main_keeps_earliest (found : list str) (read : str → str) :
  ∃ st, Unique.main found read = Ret st
    ∧ Sorted (fun a b : str => Is_true (str_leb a b)) (Unique.sorted found)
    ∧ Unique.sorted found ≡ₚ found
    ∧ let us := Unique.processing_order found read in
      Unique.merged_entries st = Unique.earliest us
      ∧ ∀ sk, let bucket := default [] (Unique.groups st !! sk) in
          Unique.it_entry_text <$> bucket
          = filter (fun u => Unique.build_dedupe_key u = sk) us
          ∧ Forall (fun it => (Unique.it_strategy it, Unique.it_key it) = sk)
              bucket
          ∧ Unique.it_kept <$> bucket = Unique.first_kept bucket.
Proof.
  eexists. split.
  { unfold Unique.main. rewrite mapM_entries. cbn [mbind outcome_bind].
    reflexivity. }
  split. { apply (@Sorted_merge_sort _ _ _ str_leb_total). }
  split. { apply merge_sort_Permutation. }
  cbv zeta. rewrite foldl_files, processing_order_jobs.
  destruct (dedup_inv_foldl
              (fp ← Unique.sorted found;
               (fun e => (fp, e)) <$> Unique.entries_of (read fp)))
    as (Hm & _ & Hg).
  split; [exact Hm|exact Hg].
Qed.

End Dedup.

End UniqueFacts.

(** ** Screening.py: [extract_all_fields] *)

Module ScreeningFacts.
Section Fields.
Context `{PyLib}.

Lemma first_value_cons (name n raw : str) (occ : list (str * str)) :
  Screening.first_value name ((n, raw) :: occ)
  = if decide (n = name) then Some raw else Screening.first_value name occ.
Proof.
  unfold Screening.first_value. rewrite filter_cons. cbn [fst].
  by destruct (decide (n = name)).
Qed.

Lemma decoded_ret (raw v : str) :
  Screening.normalize_value raw = Ret v → Screening.decoded raw = v.
Proof. unfold Screening.decoded. by intros ->. Qed.

(** The loop keeps what the dictionary holds and adds, for every other
    name, the decoded value of its first occurrence. *)
Lemma collect_spec (occ : list (str * str)) (f0 f : gmap str pyval) :
  Screening.collect occ f0 = Ret f →
  ∀ name, f !! name
          = match f0 !! name with
            | Some v => Some v
            | None => (VStr ∘ Screening.decoded)
                      <$> Screening.first_value name occ
            end.
Proof.
  revert f0. induction occ as [|[n raw] occ IH]; intros f0 Hc name.
  - injection Hc as <-. by destruct (f0 !! name).
  - cbn [Screening.collect] in Hc. rewrite first_value_cons.
    case_bool_decide as Hin.
    + rewrite (IH _ Hc). destruct (decide (n = name)) as [->|]; [|done].
      by destruct Hin as [v ->].
    + destruct (Screening.normalize_value raw) as [v| |] eqn:Hv; [|done..].
      cbn [mbind outcome_bind] in Hc. rewrite (IH _ Hc).
      destruct (decide (n = name)) as [->|Hne].
      * rewrite lookup_insert_eq.
        apply eq_None_not_Some in Hin. rewrite Hin. cbn.
        by rewrite (decoded_ret _ _ Hv).
      * by rewrite lookup_insert_ne.
Qed.

Lemma collect_returns (occ : list (str * str)) (f0 : gmap str pyval) :
  (∀ name raw, f0 !! name = None →
     Screening.first_value name occ = Some raw →
     ∃ v, Screening.normalize_value raw = Ret v) →
  ∃ f, Screening.collect occ f0 = Ret f.
Proof.
  revert f0. induction occ as [|[n raw] occ IH]; intros f0 Hok; [by eexists|].
  cbn [Screening.collect]. case_bool_decide as Hin.
  - apply IH. intros name raw' Hn Hf. apply (Hok name raw' Hn).
    rewrite first_value_cons. destruct (decide (n = name)) as [->|]; [|done].
    destruct Hin as [v Hv]. congruence.
  - apply eq_None_not_Some in Hin.
    destruct (Hok n raw Hin) as [v ->].
    { rewrite first_value_cons. by destruct (decide (n = n)). }
    cbn [mbind outcome_bind]. apply IH. intros name raw' Hn Hf.
    destruct (decide (n = name)) as [->|Hne].
    + by rewrite lookup_insert_eq in Hn.
    + rewrite lookup_insert_ne in Hn by done. apply (Hok name raw' Hn).
      rewrite first_value_cons. by destruct (decide (n = name)).
Qed.

(** C9 (as amended), for [Screening.extract_all_fields] and
    [Unique.get_field].  Where [extract_all_fields] returns (it does when
    the first occurrence of every field has a value that is not blank), a
    name other than [language] and [searchword_list] is mapped to the
    decoded value of its first occurrence, names compared in lower case, and
    is absent from the dictionary when it does not occur; later occurrences
    are ignored.  [language] falls back on the first [langid].
    [searchword_list] holds the trimmed, non-empty pieces of the
    [searchword] value between semicolons, in order, and the empty list when
    there is no [searchword].  [get_field] returns [None] exactly when
    neither of its patterns matches, and prefers the first braced occurrence
    to any quoted one. *)
Theorem field_query (e : str) :
  let occ := Screening.occurrences_of e in
  let first name := Screening.first_value name occ in
  ((∀ name raw, first name = Some raw →
      ∃ v, Screening.normalize_value raw = Ret v) →
   ∃ fields, Screening.extract_all_fields e = Ret fields)
  ∧ (∀ fields, Screening.extract_all_fields e = Ret fields →
     (∀ name, name ≠ py "language" → name ≠ py "searchword_list" →
        fields !! name = (VStr ∘ Screening.decoded) <$> first name)
     ∧ fields !! py "language"
       = (VStr ∘ Screening.decoded)
         <$> (match first (py "language") with
              | Some raw => Some raw
              | None => first (py "langid")
              end)
     ∧ fields !! py "searchword_list"
       = Some (VList (from_option
                        (Screening.searchword_list ∘ Screening.decoded) []
                        (first (py "searchword")))))
  ∧ (∀ field,
       (Unique.get_field e field = None
        ↔ re_search (Unique.field_braced_re field) e 0 = None
          ∧ re_search (Unique.field_quoted_re field) e 0 = None)
       ∧ ∀ m, re_search (Unique.field_braced_re field) e 0 = Some m →
              Unique.get_field e field
              = Some (strip (default [] (group e m 1)))).
Proof.
  cbv zeta. unfold Screening.extract_all_fields.
  assert (py "searchword" ≠ py "language") as Hn1 by done.
  assert (py "language" ≠ py "searchword_list") as Hn2 by done.
  assert (py "searchword" ≠ py "searchword_list") as Hn3 by done.
  generalize dependent (py "searchword_list"). intros SL.
  generalize dependent (py "searchword"). intros SW.
  generalize dependent (py "langid"). intros LI.
  generalize dependent (py "language"). intros LA. intros Hn1 Hn2 Hn3.
  split; [|split].
  - intros Hok.
    destruct (collect_returns (Screening.occurrences_of e) ∅) as [f Hf].
    { intros name raw _. apply Hok. }
    pose proof (collect_spec _ _ _ Hf) as Hl.
    rewrite Hf. cbn [mbind outcome_bind].
    set (f' := match f !! LA, f !! LI with
               | None, Some langid => <[LA := langid]> f
               | _, _ => f
               end).
    assert (f' !! SW = f !! SW) as ->.
    { unfold f'. destruct (f !! LA); [done|].
      destruct (f !! LI); [|done]. by rewrite lookup_insert_ne. }
    rewrite Hl, lookup_empty.
    destruct (Screening.first_value _ _); cbn; eauto.
  - intros fields.
    destruct (Screening.collect _ ∅) as [f| |] eqn:Hf; [|done..].
    cbn [mbind outcome_bind].
    pose proof (collect_spec _ _ _ Hf) as Hl.
    assert (∀ name, f !! name
                    = (VStr ∘ Screening.decoded)
                      <$> Screening.first_value name
                            (Screening.occurrences_of e)) as Hl'.
    { intros name. by rewrite Hl, lookup_empty. }
    clear Hl. set (f' := match f !! LA, f !! LI with
               | None, Some langid => <[LA := langid]> f
               | _, _ => f
               end).
    assert (∀ name, name ≠ LA → f' !! name = f !! name) as Hf'.
    { intros name Hn. unfold f'. destruct (f !! LA); [done|].
      destruct (f !! LI); [|done]. by rewrite lookup_insert_ne. }
    assert (f' !! LA
            = (VStr ∘ Screening.decoded)
              <$> (match Screening.first_value LA
                           (Screening.occurrences_of e) with
                   | Some raw => Some raw
                   | None => Screening.first_value LI
                               (Screening.occurrences_of e)
                   end)) as Hlang.
    { unfold f'. rewrite !Hl'.
      destruct (Screening.first_value LA _) eqn:H1; cbn.
      - by rewrite Hl', H1.
      - destruct (Screening.first_value LI _) eqn:H2; cbn.
        + by rewrite lookup_insert_eq.
        + by rewrite Hl', H1. }
    rewrite (Hf' SW) by done. rewrite Hl'.
    assert (∀ v, fields = <[SL := v]> f' →
      (∀ name, name ≠ LA → name ≠ SL →
         fields !! name
         = (VStr ∘ Screening.decoded)
           <$> Screening.first_value name (Screening.occurrences_of e))
      ∧ fields !! LA
        = (VStr ∘ Screening.decoded)
          <$> (match Screening.first_value LA
                       (Screening.occurrences_of e) with
               | Some raw => Some raw
               | None => Screening.first_value LI
                           (Screening.occurrences_of e)
               end)
      ∧ fields !! SL = Some v) as Hfin.
    { intros v ->. split; [|split].
      - intros name H1 H2. by rewrite lookup_insert_ne, Hf', Hl'.
      - by rewrite lookup_insert_ne.
      - by rewrite lookup_insert_eq. }
    destruct (Screening.first_value SW _); cbn;
      intros [= <-]; by apply Hfin.
  - intros field. unfold Unique.get_field. split.
    + destruct (re_search (Unique.field_braced_re field) e 0);
        [by split; [|intros [? ?]]|].
      destruct (re_search (Unique.field_quoted_re field) e 0);
        [by split; [|intros [? ?]]|done].
    + by intros m ->.
Qed.

Lemma first_value_Forall (P : str → Prop) (occ : list (str * str)) :
  Forall (fun p => P p.2) occ →
  ∀ name raw, Screening.first_value name occ = Some raw → P raw.
Proof.
  induction 1 as [|[n r] occ Hp _ IH]; intros name raw; [done|].
  rewrite first_value_cons. destruct (decide (n = name)); [|by apply IH].
  by intros [= <-].
Qed.

End Fields.

Lemma field_query_witness :
  let e := py "@article{k,
  Title = {First},
  title = {Second},
  searchWord = {a; b ;; c},
  langid = english
}" in
  ∃ fields,
    Screening.extract_all_fields e = Ret fields
    ∧ fields !! py "title" = Some (VStr (py "First"))
    ∧ fields !! py "year" = None
    ∧ fields !! py "language" = Some (VStr (py "english"))
    ∧ fields !! py "searchword_list"
      = Some (VList [py "a"; py "b"; py "c"])
    ∧ Unique.get_field e (py "TITLE") = Some (py "First").
Proof.
  intros e. destruct (field_query e) as (Hret & Hlook & Hget).
  destruct Hret as [fields Hf].
  { let l := eval vm_compute in (Screening.occurrences_of e) in
    change (Screening.occurrences_of e) with l.
    apply (first_value_Forall
             (fun raw => ∃ v, Screening.normalize_value raw = Ret v)).
    repeat (constructor; [eexists; vm_compute; reflexivity|]).
    constructor. }
  destruct (Hlook fields Hf) as (Hn & Hl & Hs).
  exists fields. split; [exact Hf|].
  split; [rewrite Hn by done; vm_compute; reflexivity|].
  split; [rewrite Hn by done; vm_compute; reflexivity|].
  split; [rewrite Hl; vm_compute; reflexivity|].
  split; [rewrite Hs; vm_compute; reflexivity|].
  destruct (Hget (py "TITLE")) as [_ Hb].
  assert (∃ m, re_search (Unique.field_braced_re (py "TITLE")) e 0 = Some m
               ∧ strip (default [] (group e m 1)) = py "First")
    as (m & Hm & Hg) by (eexists; split; vm_compute; reflexivity).
  by rewrite (Hb m Hm), Hg.
Defined.

(** A record whose first [title] is quoted and whose second is braced:
    [extract_all_fields] gives the first, [get_field] the second. *)
Lemma get_field_prefers_braced :
  let e := py "@a{k,
  title = " ++ [DQUOTE] ++ py "A" ++ [DQUOTE] ++ py ",
  title = {B}
}" in
  (∃ fields, Screening.extract_all_fields e = Ret fields
             ∧ fields !! py "title" = Some (VStr (py "A")))
  ∧ Unique.get_field e (py "title") = Some (py "B")
  ∧ Unique.get_field e (py "title") ≠ Some (py "A").
Proof.
  split; [|split].
  - eexists. split; vm_compute; reflexivity.
  - vm_compute. reflexivity.
  - vm_compute. discriminate.
Qed.

End ScreeningFacts.

(** ** Substitution with simple patterns *)

Lemma match_at_chr p bef rest i :
  match_at (Chr p) (Cursor bef rest i)
  = match rest with
    | x :: _ => if p x then Some (Mobj i (S i) ∅) else None
    | [] => None
    end.
Proof.
  unfold match_at. cbn [mtch ahead pos]. destruct rest as [|x t]; [done|].
  by destruct (p x).
Qed.

(** [re.sub] with a one-character class: every character of the class is
    replaced, the others stay. *)
Lemma sub_go_chr p rep (rest : str) bef i :
  sub_go (Chr p) rep bef rest i 0
  = rest ≫= (fun c => if p c then rep else [c]).
Proof.
  revert bef i. induction rest as [|x t IH]; intros bef i; cbn [sub_go].
  - by rewrite match_at_chr.
  - rewrite match_at_chr. cbn [mbind list_bind]. destruct (p x).
    + cbn [m_end].
      replace (S i =? i) with false by (symmetry; apply Nat.eqb_neq; lia).
      replace (S i - i - 1) with 0 by lia. cbn [app]. by rewrite IH.
    + cbn [app]. by rewrite IH.
Qed.

Lemma re_sub_chr p rep (s : str) :
  re_sub (Chr p) rep s = s ≫= (fun c => if p c then rep else [c]).
Proof. apply sub_go_chr. Qed.

Lemma sub_go_no_match r first rep (rest : str) bef i :
  starts_with r first → Forall (fun c => first c = false) rest →
  sub_go r rep bef rest i 0 = rest.
Proof.
  intros Hr. revert bef i.
  induction rest as [|x t IH]; intros bef i Hall; cbn [sub_go].
  - destruct (match_at r _) as [m|] eqn:Hm; [|done].
    by apply Hr in Hm as (x & ? & _).
  - apply Forall_cons in Hall as [Hx Ht].
    destruct (match_at r _) as [m|] eqn:Hm.
    + apply Hr in Hm as (y & [= <-] & Hy). congruence.
    + by rewrite IH.
Qed.

Lemma re_sub_no_match r first rep (s : str) :
  starts_with r first → Forall (fun c => first c = false) s →
  re_sub r rep s = s.
Proof. apply sub_go_no_match. Qed.

Lemma starts_with_chr p : starts_with (Chr p) p.
Proof.
  intros bef rest i m. rewrite match_at_chr. destruct rest as [|x t]; [done|].
  destruct (p x) eqn:Hp; [|done]. intros _. by exists x.
Qed.

Lemma starts_with_seq p r : starts_with (Seq (Chr p) r) p.
Proof.
  intros bef rest i m. unfold match_at. cbn [mtch ahead pos].
  destruct rest as [|x t]; [done|]. destruct (p x) eqn:Hp; [|done].
  intros _. by exists x.
Qed.

Lemma starts_with_alt p q :
  starts_with (Alt (Chr p) (Chr q)) (fun c => p c || q c).
Proof.
  intros bef rest i m. unfold match_at. cbn [mtch ahead pos].
  destruct rest as [|x t]; [done|].
  destruct (p x) eqn:Hp.
  { intros _. exists x. by rewrite Hp. }
  destruct (q x) eqn:Hq; [|done].
  intros _. exists x. by rewrite Hp, Hq.
Qed.

(** Greedy repetition of a class, with nothing to match after it, takes
    the whole run of the class. *)
Lemma rep_loop_chr_star p fuel rest bef i g :
  length rest < fuel →
  rep_loop (mtch (Chr p)) true fuel 0 None accept (Cursor bef rest i) g
  = Some (i + length (take_while p rest), g).
Proof.
  revert rest bef i. induction fuel as [|fuel IH]; intros rest bef i Hf; [lia|].
  cbn [rep_loop mtch ahead pos Nat.ltb Nat.leb bool_decide decide_rel].
  rewrite bool_decide_eq_false_2 by done.
  destruct rest as [|x t]; cbn [take_while length].
  - cbn [accept pos]. by rewrite Nat.add_0_r.
  - destruct (p x); cbn [length].
    + replace (S i =? i) with false by (symmetry; apply Nat.eqb_neq; lia).
      cbn [pred fmap option_fmap option_map]. rewrite IH by (simpl in Hf; lia).
      do 2 f_equal. lia.
    + cbn [accept pos]. by rewrite Nat.add_0_r.
Qed.

Lemma rep_loop_chr_plus p fuel rest bef i g :
  length rest < fuel →
  rep_loop (mtch (Chr p)) true fuel 1 None accept (Cursor bef rest i) g
  = match rest with
    | x :: t => if p x then Some (S i + length (take_while p t), g) else None
    | [] => None
    end.
Proof.
  destruct fuel as [|fuel]; intros Hf; [lia|].
  cbn [rep_loop mtch ahead pos Nat.ltb Nat.leb].
  rewrite bool_decide_eq_false_2 by done.
  destruct rest as [|x t]; [done|]. destruct (p x); [|done].
  replace (S i =? i) with false by (symmetry; apply Nat.eqb_neq; lia).
  cbn [pred fmap option_fmap option_map].
  by rewrite (rep_loop_chr_star p) by (simpl in Hf; lia).
Qed.

Lemma match_at_plus_chr p bef rest i :
  match_at (plus (Chr p)) (Cursor bef rest i)
  = match rest with
    | x :: t =>
        if p x then Some (Mobj i (S i + length (take_while p t)) ∅) else None
    | [] => None
    end.
Proof.
  unfold match_at, plus.
  change (mtch (Rep true 1 None (Chr p)) accept (Cursor bef rest i) ∅)
    with (rep_loop (mtch (Chr p)) true (S (length rest)) 1 None accept
            (Cursor bef rest i) ∅).
  rewrite rep_loop_chr_plus by lia.
  destruct rest as [|x t]; [done|]. by destruct (p x).
Qed.

(** [re.sub] with [c+] for a class [c]: every maximal run is replaced. *)
Lemma sub_go_plus_chr p rep (rest : str) :
  ∀ bef i,
    sub_go (plus (Chr p)) rep bef rest i 0 = squeeze p rep false rest
    ∧ sub_go (plus (Chr p)) rep bef rest i (length (take_while p rest))
      = squeeze p rep true rest.
Proof.
  induction rest as [|x t IH]; intros bef i.
  - cbn [sub_go take_while length squeeze]. by rewrite match_at_plus_chr.
  - destruct (IH (Some x) (S i)) as [IH0 IH1]. split.
    + cbn [sub_go squeeze]. rewrite match_at_plus_chr. destruct (p x).
      * cbn [m_end].
        replace (S i + length (take_while p t) =? i) with false
          by (symmetry; apply Nat.eqb_neq; lia).
        replace (S i + length (take_while p t) - i - 1)
          with (length (take_while p t)) by lia.
        cbn [app]. by rewrite IH1.
      * by rewrite IH0.
    + cbn [take_while squeeze]. destruct (p x) eqn:Hp.
      * cbn [length sub_go app]. by rewrite IH1.
      * cbn [length sub_go]. rewrite match_at_plus_chr, Hp. by rewrite IH0.
Qed.

Lemma re_sub_plus_chr p rep (s : str) :
  re_sub (plus (Chr p)) rep s = squeeze p rep false s.
Proof. apply sub_go_plus_chr. Qed.

(** ** clean_ISSN.py: the duplicate pass *)

Module CleanFacts.
Section Clean.
Context `{PyLib}.

Lemma survivors_go_snoc (prev es : list str) (e : str) :
  CleanISSN.survivors_go prev (es ++ [e])
  = CleanISSN.survivors_go prev es
    ++ match CleanISSN.entry_key e with
       | Some k =>
           if bool_decide (Some k ∈ CleanISSN.entry_key <$> (prev ++ es))
           then [] else [e]
       | None => [e]
       end.
Proof.
  revert prev. induction es as [|x es IH]; intros prev.
  - cbn [app CleanISSN.survivors_go]. by rewrite !app_nil_r.
  - cbn [app CleanISSN.survivors_go]. by rewrite IH, <- !app_assoc.
Qed.

Lemma clean_inv_step (st : CleanISSN.state) (prev : list str) idx e :
  clean_inv st prev → clean_inv (CleanISSN.step st idx e) (prev ++ [e]).
Proof.
  intros (Hk & Hs & Hc). unfold CleanISSN.step, clean_inv, CleanISSN.survivors.
  rewrite survivors_go_snoc, length_app. cbn [app length].
  assert (∀ k', Some k' ∈ CleanISSN.entry_key <$> prev ++ [e]
                ↔ k' ∈ CleanISSN.seen st ∨ CleanISSN.entry_key e = Some k')
    as Hmem.
  { intros k'. rewrite fmap_app, elem_of_app, Hs.
    cbn [fmap list_fmap]. rewrite list_elem_of_singleton. naive_solver. }
  destruct (CleanISSN.entry_key e) as [k|] eqn:Hkey;
    cbn [CleanISSN.kept_entries CleanISSN.seen CleanISSN.removed_count].
  - destruct (decide (k ∈ CleanISSN.seen st)) as [Hin|Hin].
    + rewrite (bool_decide_eq_true_2 _ Hin). cbn [negb].
      rewrite bool_decide_eq_true_2 by (by apply Hs).
      rewrite app_nil_r. split; [done|]. split; [|lia].
      intros k'. rewrite Hmem. split; [by left|].
      by intros [?|[= ->]].
    + rewrite (bool_decide_eq_false_2 _ Hin). cbn [negb].
      rewrite bool_decide_eq_false_2 by (by rewrite <- Hs).
      rewrite length_app. cbn [length]. split; [by rewrite Hk|].
      split; [|lia]. intros k'.
      rewrite Hmem, elem_of_union, elem_of_singleton.
      split; [intros [->|?]; [by right|by left]|].
      intros [?|[= ->]]; [by right|by left].
  - cbn [negb]. rewrite length_app. cbn [length]. split; [by rewrite Hk|].
    split; [|lia]. intros k'. rewrite Hmem.
    split; [by left|]. by intros [?|?].
Qed.

Lemma clean_loop_inv (entries : list str) :
  ∀ st prev idx, clean_inv st prev →
    clean_inv (CleanISSN.clean_loop st idx entries) (prev ++ entries).
Proof.
  induction entries as [|e entries IH]; intros st prev idx Hinv.
  - by rewrite app_nil_r.
  - cbn [CleanISSN.clean_loop].
    replace (prev ++ e :: entries) with ((prev ++ [e]) ++ entries)
      by (by rewrite <- app_assoc).
    apply IH. by apply clean_inv_step.
Qed.

Lemma survivors_go_keyless (prev entries : list str) e :
  e ∈ entries → CleanISSN.entry_key e = None →
  e ∈ CleanISSN.survivors_go prev entries.
Proof.
  revert prev. induction entries as [|x entries IH]; intros prev Hin Hk.
  - by apply elem_of_nil in Hin.
  - cbn [CleanISSN.survivors_go].
    apply elem_of_cons in Hin as [<-|Hin].
    + rewrite Hk. set_solver.
    + apply elem_of_app. right. by apply IH.
Qed.

Lemma bind_filter (p : N → bool) (s : str) :
  s ≫= (fun c => if negb (p c) then [] else [c]) = filter (fun c => p c) s.
Proof.
  induction s as [|c t IH]; [done|]. cbn [mbind list_bind].
  rewrite filter_cons, IH.
  destruct (p c); cbn [negb app]; by case_decide.
Qed.

(** C10: in the loop over the entries of one file, the entries kept are
    those that have no (ISSN, title) key or whose key no earlier entry of
    the file has; the others are counted as removed.  An entry has a key
    only when its ISSN normalises, that is when exactly 8 characters of
    [0-9xX] remain, which are returned as [XXXX-XXXX], and its normalised
    title is not empty; an entry without a key is in the cleaned output. *)
Theorem clean_removes_only_repeats (entries : list str) :
  let st := CleanISSN.clean entries in
  CleanISSN.kept_entries st = CleanISSN.survivors entries
  ∧ CleanISSN.removed_count st
    = length entries - length (CleanISSN.kept_entries st)
  ∧ (∀ e, e ∈ entries → CleanISSN.entry_key e = None →
       e ∈ CleanISSN.kept_entries st)
  ∧ (∀ e issn title, CleanISSN.entry_key e = Some (issn, title) →
       issn ≠ [] ∧ title ≠ []
       ∧ ∃ raw_issn raw_title,
           CleanISSN.normalize_issn raw_issn = Some issn
           ∧ CleanISSN.normalize_title raw_title = Some title)
  ∧ (∀ raw issn, CleanISSN.normalize_issn raw = Some issn →
       let kept := filter (fun c => CleanISSN.issn_char c) (default [] raw) in
       let d := str_upper kept in
       length d = 8 ∧ issn = take 4 d ++ py "-" ++ drop 4 d
       ∧ ((∀ t, length (str_upper t) = length t) → length kept = 8)).
Proof.
  cbv zeta.
  destruct (clean_loop_inv entries CleanISSN.initial [] 0) as (Hk & Hs & Hc).
  { split; [done|]. split; [|done]. intros k. set_solver. }
  cbn [app] in *. fold (CleanISSN.clean entries) in *.
  split; [exact Hk|]. split; [lia|]. split; [|split].
  - intros e Hin Hkey. rewrite Hk. by apply survivors_go_keyless.
  - intros e issn title. unfold CleanISSN.entry_key.
    remember (CleanISSN.normalize_issn
                (if truthy (CleanISSN.extract_field e (py "issn"))
                 then CleanISSN.strip_braces_quotes
                        (CleanISSN.extract_field e (py "issn"))
                 else None)) as ni eqn:Hni.
    remember (if truthy (CleanISSN.extract_field e (py "title"))
              then CleanISSN.normalize_title
                     (CleanISSN.extract_field e (py "title"))
              else None) as nt eqn:Hnt.
    destruct ni as [[|c i]|]; [done| |done].
    destruct nt as [[|c' t]|]; [done| |done].
    cbn [truthy andb default]. intros [= <- <-].
    split; [done|]. split; [done|]. eexists _, _. split; [by rewrite <- Hni|].
    destruct (truthy (CleanISSN.extract_field e (py "title"))); [|done].
    by rewrite <- Hnt.
  - intros raw issn. unfold CleanISSN.normalize_issn.
    destruct (negb (truthy raw)); [done|].
    rewrite re_sub_chr, bind_filter.
    destruct (Nat.eqb_spec (length (str_upper (filter
                (fun c => CleanISSN.issn_char c) (default [] raw)))) 8)
      as [Hl|Hl]; cbn [negb]; [|done].
    intros [= <-]. split; [done|]. split; [done|].
    intros Hup. by rewrite <- Hup.
Qed.

End Clean.

Lemma clean_removes_only_repeats_witness :
  let e1 := py "@article{a,
  title = {Shell Design},
  issn = {1234-567x}
}" in
  let e2 := py "@article{b,
  issn = {1234 567X},
  title = {Shell design!}
}" in
  let e3 := py "@article{c,
  title = {Shell Design},
  issn = {1234-567}
}" in
  CleanISSN.entry_key e1 = Some (py "1234-567X", py "shell design")
  ∧ CleanISSN.entry_key e2 = Some (py "1234-567X", py "shell design")
  ∧ CleanISSN.entry_key e3 = None
  ∧ e3 ∈ CleanISSN.kept_entries (CleanISSN.clean [e1; e2; e3; e3])
  ∧ CleanISSN.kept_entries (CleanISSN.clean [e1; e2; e3; e3]) = [e1; e3; e3]
  ∧ CleanISSN.removed_count (CleanISSN.clean [e1; e2; e3; e3]) = 1
  ∧ length (filter (fun c => CleanISSN.issn_char c) (py "1234 567X")) = 8.
Proof.
  intros e1 e2 e3.
  destruct (clean_removes_only_repeats [e1; e2; e3; e3])
    as (Hk & Hc & Hkeep & Hkey & Hissn).
  split; [vm_compute; reflexivity|]. split; [vm_compute; reflexivity|].
  split; [vm_compute; reflexivity|].
  split.
  { apply Hkeep; [|vm_compute; reflexivity].
    apply elem_of_cons. right. apply elem_of_cons. right. by left. }
  split; [rewrite Hk; vm_compute; reflexivity|].
  split; [rewrite Hc, Hk; vm_compute; reflexivity|].
  apply (Hissn (Some (py "1234 567X")) (py "1234-567X"));
    [vm_compute; reflexivity|].
  intros t. apply length_fmap.
Defined.

End CleanFacts.

(** ** Unique.py: [_norm_text] *)

Module NormFacts.

Lemma take_drop_while p (s : str) : take_while p s ++ drop_while p s = s.
Proof.
  induction s as [|c t IH]; [done|]. simpl. destruct (p c); [|done].
  simpl. by rewrite IH.
Qed.

Lemma drop_while_length_le p (s : str) : length (drop_while p s) ≤ length s.
Proof. induction s as [|c t IH]; simpl; [lia|]. destruct (p c); simpl; lia. Qed.

Lemma drop_while_idem p (s : str) :
  drop_while p (drop_while p s) = drop_while p s.
Proof.
  induction s as [|c t IH]; [done|]. simpl. destruct (p c) eqn:Hp; [done|].
  simpl. by rewrite Hp.
Qed.

Lemma drop_while_fix p c (t : str) :
  drop_while p (c :: t) = c :: t → p c = false.
Proof.
  simpl. destruct (p c); [|done]. intros Heq.
  pose proof (drop_while_length_le p t) as Hl. rewrite Heq in Hl.
  simpl in Hl. lia.
Qed.

Lemma drop_while_elem p (s : str) c : c ∈ drop_while p s → c ∈ s.
Proof.
  intros Hin. rewrite <- (take_drop_while p s). apply elem_of_app. by right.
Qed.

(** [rstrip] cuts a suffix off. *)
Lemma rstrip_prefix (s : str) : ∃ w, s = rstrip s ++ w.
Proof.
  exists (reverse (take_while isspace (reverse s))). unfold rstrip.
  rewrite <- reverse_app, take_drop_while. by rewrite reverse_involutive.
Qed.

Lemma rstrip_idem (s : str) : rstrip (rstrip s) = rstrip s.
Proof.
  unfold rstrip. by rewrite reverse_involutive, drop_while_idem.
Qed.

Lemma lstrip_rstrip (u : str) : lstrip u = u → lstrip (rstrip u) = rstrip u.
Proof.
  intros Hu. destruct (rstrip_prefix u) as [w Hw].
  destruct (rstrip u) as [|c t] eqn:Hr; [done|].
  rewrite Hw in Hu. apply drop_while_fix in Hu.
  unfold lstrip. simpl. by rewrite Hu.
Qed.

Lemma strip_elem (s : str) c : c ∈ strip s → c ∈ s.
Proof.
  unfold strip. intros Hin. apply (drop_while_elem isspace).
  fold (lstrip s). destruct (rstrip_prefix (lstrip s)) as [w Hw].
  rewrite Hw. apply elem_of_app. by left.
Qed.

Lemma squeeze_elem p rep b (s : str) c :
  c ∈ squeeze p rep b s → c ∈ rep ∨ c ∈ s.
Proof.
  revert b. induction s as [|x t IH]; intros b; simpl.
  - by intros ?%elem_of_nil.
  - destruct (p x).
    + intros [Hin|Hin]%elem_of_app.
      * destruct b; [by apply elem_of_nil in Hin|by left].
      * apply IH in Hin as [?|?]; [by left|right; by right].
    + intros [->|Hin]%elem_of_cons; [right; by left|].
      apply IH in Hin as [?|?]; [by left|right; by right].
Qed.

Lemma squeezed_squeeze (s : str) :
  squeezed false (squeeze isspace (py " ") false s) = true
  ∧ ∀ b, squeezed b (squeeze isspace (py " ") true s) = true.
Proof.
  induction s as [|x t [IH0 IH1]]; [done|]. cbn [squeeze].
  destruct (isspace x) eqn:Hx.
  - split; [|intros b; apply IH1].
    change (py " " ++ squeeze isspace (py " ") true t)
      with (SPACE :: squeeze isspace (py " ") true t).
    cbn [squeezed]. change (isspace SPACE) with true. cbn. apply IH1.
  - cbn [squeezed]. by rewrite Hx.
Qed.

Lemma squeeze_squeezed b (y : str) :
  squeezed b y = true → squeeze isspace (py " ") b y = y.
Proof.
  revert b. induction y as [|c t IH]; intros b; [done|].
  cbn [squeezed squeeze]. destruct (isspace c).
  - intros [[Hc Hb]%andb_true_iff Ht]%andb_true_iff.
    apply N.eqb_eq in Hc as ->. apply negb_true_iff in Hb as ->.
    by rewrite (IH true Ht).
  - intros Ht. by rewrite (IH false Ht).
Qed.

Lemma squeezed_drop_while b (s : str) :
  squeezed b s = true → squeezed false (drop_while isspace s) = true.
Proof.
  revert b. induction s as [|c t IH]; intros b; [done|].
  cbn [squeezed drop_while]. destruct (isspace c) eqn:Hc.
  - intros [_ Ht]%andb_true_iff. by apply (IH true).
  - intros Ht. cbn [squeezed]. by rewrite Hc.
Qed.

Lemma squeezed_prefix b (s1 s2 : str) :
  squeezed b (s1 ++ s2) = true → squeezed b s1 = true.
Proof.
  revert b. induction s1 as [|c t IH]; intros b; [done|].
  cbn [app squeezed]. destruct (isspace c).
  - intros [Hcb Ht]%andb_true_iff. rewrite Hcb. by apply IH.
  - apply IH.
Qed.

(** The text [re.sub(r'\s+', ' ', s).strip()] returns is a fixed point of
    that operation. *)
Lemma strip_squeeze_idem (z : str) :
  let y := strip (squeeze isspace (py " ") false z) in
  strip (squeeze isspace (py " ") false y) = y.
Proof.
  cbv zeta. set (u := lstrip (squeeze isspace (py " ") false z)).
  assert (squeezed false u = true) as Hu.
  { apply (squeezed_drop_while false), squeezed_squeeze. }
  assert (lstrip u = u) as Hlu by apply drop_while_idem.
  unfold strip at 2. fold u.
  assert (squeezed false (rstrip u) = true) as Hy.
  { destruct (rstrip_prefix u) as [w Hw]. rewrite Hw in Hu.
    by apply squeezed_prefix in Hu. }
  rewrite (squeeze_squeezed _ _ Hy). unfold strip.
  by rewrite (lstrip_rstrip u Hlu), rstrip_idem.
Qed.

Lemma replace_go_absent old new c (old' rest : str) :
  old = c :: old' → c ∉ rest → replace_go old new rest 0 = rest.
Proof.
  intros ->. induction rest as [|x t IH]; intros Hn; [done|].
  apply not_elem_of_cons in Hn as [Hx Ht]. cbn [replace_go].
  rewrite bool_decide_eq_false_2.
  - by rewrite IH.
  - intros [k Hk]. cbn [app] in Hk. injection Hk as Hxc _. by subst.
Qed.

Lemma filter_all {A} (P : A → Prop) `{∀ x, Decision (P x)} (l : list A) :
  Forall P l → filter P l = l.
Proof.
  induction 1 as [|x l Hx _ IH]; [done|].
  by rewrite filter_cons, decide_True, IH.
Qed.

Lemma fmap_id_on {A} (f : A → A) (l : list A) :
  Forall (fun x => f x = x) l → f <$> l = l.
Proof.
  induction 1 as [|x l Hx _ IH]; [done|]. cbn. by rewrite Hx, IH.
Qed.

Section Idempotence.
Context `{L : PyLib} {HA : AsciiLib L}.

(** No character of a normalised text is in the punctuation class or an
    upper-case ASCII letter. *)
Lemma norm_text_chars x c :
  c ∈ Unique._norm_text (Some x) → Unique.punct c = false ∧ AZ c = false.
Proof.
  unfold Unique._norm_text, ws. intros Hin%strip_elem.
  rewrite re_sub_plus_chr in Hin. apply squeeze_elem in Hin as [Hin|Hin].
  - change (py " ") with [SPACE] in Hin.
    by apply list_elem_of_singleton in Hin as ->.
  - rewrite re_sub_chr in Hin.
    apply list_elem_of_bind in Hin as (c0 & Hc & Hc0).
    destruct (Unique.punct c0) eqn:Hp.
    + change (py " ") with [SPACE] in Hc.
      by apply list_elem_of_singleton in Hc as ->.
    + apply list_elem_of_singleton in Hc as ->. split; [done|].
      by apply lower_no_upper in Hc0.
Qed.

End Idempotence.

(** The instance on Basic Latin has the ASCII properties. *)
Lemma basic_latin_ascii : AsciiLib basic_latin.
Proof.
  split.
  - done.
  - done.
  - intros s Hs. cbn. apply fmap_id_on. eapply Forall_impl; [exact Hs|].
    intros c Hc. unfold is_ascii in Hc. unfold in_range.
    replace (65281 <=? c)%N with false by (symmetry; apply N.leb_gt; lia).
    done.
  - intros c Hc. unfold is_ascii in Hc. cbn. unfold in_range.
    replace (768 <=? c)%N with false by (symmetry; apply N.leb_gt; lia).
    done.
  - done.
  - intros s c. cbn. intros (c0 & -> & _)%list_elem_of_fmap.
    unfold ascii_lower, AZ, in_range.
    destruct (N.leb_spec 65 c0), (N.leb_spec c0 90); cbn [andb];
      apply andb_false_iff;
      rewrite ?N.leb_gt; lia.
Qed.

(** The fullwidth left brace U+FF5B: accent folding turns it into [{]
    after the braces have been removed, and only a second pass removes
    it. *)
Lemma norm_text_not_idempotent :
  let x := [65371%N] in
  Unique._norm_text (Some x) = py "{"
  ∧ Unique._norm_text (Some (Unique._norm_text (Some x))) = []
  ∧ Unique._norm_text (Some (Unique._norm_text (Some x)))
    ≠ Unique._norm_text (Some x).
Proof.
  vm_compute. split; [done|]. split; [done|]. discriminate.
Qed.

End NormFacts.

(** ** Runs of characters and positions in a text *)

(** Both sides of an equation between lists, with [++] nested to the
    right. *)
Ltac assoc_eq :=
  repeat progress (try rewrite <- !app_assoc; cbn [app]); done.

Lemma take_slice (s : str) a b : a ≤ b → take a s ++ slice s a b = take b s.
Proof.
  intros Hab. unfold slice. rewrite take_take_drop. f_equal. lia.
Qed.

Lemma take_while_Forall p (s : str) :
  Forall (fun c => p c = true) (take_while p s).
Proof.
  induction s as [|c t IH]; simpl; [done|].
  destruct (p c) eqn:Hp; [|done]. by constructor.
Qed.

Lemma take_while_stop p (s : str) x :
  s !! length (take_while p s) = Some x → p x = false.
Proof.
  induction s as [|c t IH]; simpl; [done|].
  destruct (p c) eqn:Hp; simpl; [done|]. by intros [= <-].
Qed.

Lemma skip_while_slice p (s : str) i :
  slice s i (skip_while p s i) = take_while p (drop i s).
Proof.
  unfold slice, skip_while.
  replace (i + length (take_while p (drop i s)) - i)
    with (length (take_while p (drop i s))) by lia.
  induction (drop i s) as [|c t IH]; simpl; [done|].
  destruct (p c); simpl; [by rewrite IH|done].
Qed.

Lemma skip_while_stop p (s : str) i x :
  s !! skip_while p s i = Some x → p x = false.
Proof.
  unfold skip_while. rewrite <- lookup_drop. apply take_while_stop.
Qed.

Lemma find_in_lookup c rest i j :
  find_in c rest i = Some j →
  rest !! (j - i) = Some c ∧ c ∉ take (j - i) rest.
Proof.
  revert i. induction rest as [|x t IH]; intros i Hf; [done|].
  simpl in Hf. destruct (N.eqb_spec x c) as [->|Hx].
  - injection Hf as <-. rewrite Nat.sub_diag. split; [done|]. simpl.
    apply not_elem_of_nil.
  - pose proof (find_in_spec _ _ _ _ Hf) as Hj.
    apply IH in Hf as [Hl Hn].
    replace (j - i) with (S (j - S i)) by lia. split; [done|].
    simpl. apply not_elem_of_cons. split; [congruence|done].
Qed.

Lemma find_in_none c rest i : find_in c rest i = None → c ∉ rest.
Proof.
  revert i. induction rest as [|x t IH]; intros i Hf; [apply not_elem_of_nil|].
  simpl in Hf. destruct (N.eqb_spec x c) as [->|Hx]; [done|].
  apply not_elem_of_cons. split; [congruence|by eapply IH].
Qed.

Lemma find_char_lookup c (s : str) i j :
  find_char c s i = Some j → s !! j = Some c ∧ c ∉ slice s i j.
Proof.
  unfold find_char, slice. intros Hf.
  pose proof (find_in_spec _ _ _ _ Hf) as Hj.
  apply find_in_lookup in Hf as [Hl Hn]. rewrite lookup_drop in Hl.
  replace (i + (j - i)) with j in Hl by lia. done.
Qed.

Lemma take_while_run p (w rest : str) :
  Forall (fun c => p c = true) w →
  (∀ x, head rest = Some x → p x = false) →
  take_while p (w ++ rest) = w.
Proof.
  intros Hw Hr. induction Hw as [|c w Hc _ IH]; simpl.
  - destruct rest as [|x t]; [done|]. simpl. by rewrite (Hr x).
  - by rewrite Hc, IH.
Qed.

Lemma skip_while_run p (s pre w rest : str) :
  s = pre ++ w ++ rest →
  Forall (fun c => p c = true) w →
  (∀ x, head rest = Some x → p x = false) →
  skip_while p s (length pre) = length pre + length w.
Proof.
  intros -> Hw Hr. unfold skip_while.
  by rewrite drop_app_length, take_while_run.
Qed.

Lemma slice_run (s pre w rest : str) :
  s = pre ++ w ++ rest →
  slice s (length pre) (length pre + length w) = w.
Proof.
  intros ->. unfold slice. rewrite drop_app_length.
  replace (length pre + length w - length pre) with (length w) by lia.
  by rewrite take_app_length.
Qed.

Lemma lookup_run (s pre rest : str) x :
  s = pre ++ x :: rest → s !! length pre = Some x.
Proof. intros ->. apply list_lookup_middle. done. Qed.

Lemma strip_nonspace (s : str) :
  Forall (fun c => isspace c = false) s → strip s = s.
Proof.
  intros Hs. unfold strip, lstrip, rstrip.
  assert (∀ t : str, Forall (fun c => isspace c = false) t →
            drop_while isspace t = t) as Hd.
  { intros t Ht. destruct Ht as [|c t Hc _]; [done|]. simpl. by rewrite Hc. }
  rewrite (Hd s Hs), Hd, reverse_involutive; [done|].
  by apply Forall_reverse.
Qed.

Lemma skip_while_at p (s pre w rest : str) i :
  s = pre ++ w ++ rest → i = length pre →
  Forall (fun c => p c = true) w →
  (∀ x, head rest = Some x → p x = false) →
  skip_while p s i = i + length w.
Proof. intros Hs -> Hw Hr. by eapply skip_while_run. Qed.

Lemma slice_at (s pre w rest : str) i j :
  s = pre ++ w ++ rest → i = length pre → j = i + length w →
  slice s i j = w.
Proof. intros Hs -> ->. by eapply slice_run. Qed.

Lemma lookup_at (s pre rest : str) x i :
  s = pre ++ x :: rest → i = length pre → s !! i = Some x.
Proof. intros Hs ->. by eapply lookup_run. Qed.

(** Greedy repetition of a class before a pattern that matches right
    after the run of the class: the run is taken whole. *)
Lemma rep_loop_chr_run p k (w : str) :
  Forall (fun c => p c = true) w →
  ∀ fuel lo rest bef i g res,
    length (w ++ rest) < fuel → lo ≤ length w →
    (∀ x, head rest = Some x → p x = false) →
    k (Cursor (from_option Some bef (last w)) rest (i + length w)) g
    = Some res →
    rep_loop (mtch (Chr p)) true fuel lo None k (Cursor bef (w ++ rest) i) g
    = Some res.
Proof.
  induction 1 as [|x w Hx _ IH]; intros fuel lo rest bef i g res Hf Hlo Hr Hk;
    (destruct fuel as [|fuel]; [simpl in Hf; lia|]).
  - cbn [length] in Hlo. replace lo with 0 by lia.
    cbn [rep_loop mtch ahead pos app Nat.ltb Nat.leb].
    rewrite bool_decide_eq_false_2 by done.
    cbn [last from_option length] in Hk. rewrite Nat.add_0_r in Hk.
    destruct rest as [|y t]; [done|]. by rewrite (Hr y).
  - cbn [rep_loop mtch ahead pos app].
    rewrite bool_decide_eq_false_2 by done. rewrite Hx.
    cbn [pos]. replace (S i =? i) with false
      by (symmetry; apply Nat.eqb_neq; lia).
    cbn [fmap option_fmap option_map].
    pose proof (IH fuel (pred lo) rest (Some x) (S i) g res) as IH'.
    cbn [mtch] in IH'. rewrite IH'.
    + by destruct (0 <? lo).
    + simpl in Hf. lia.
    + simpl in Hlo. lia.
    + done.
    + rewrite last_cons in Hk. cbn [length] in Hk.
      replace (S i + length w) with (i + S (length w)) by lia.
      by destruct (last w).
Qed.

Lemma join_cons sep (x : str) (t : list str) :
  t ≠ [] → join sep (x :: t) = x ++ sep ++ join sep t.
Proof. by destruct t. Qed.

Lemma join_lines (first : str) (ls : list str) (final : str) :
  join [NL] ([first] ++ ls ++ [final])
  = first ++ concat ((fun l => NL :: l) <$> ls) ++ NL :: final.
Proof.
  revert first. induction ls as [|l ls IH]; intros first; [done|].
  cbn [app]. rewrite join_cons by done.
  change (l :: ls ++ [final]) with ([l] ++ ls ++ [final]). rewrite IH.
  cbn [fmap list_fmap concat app]. by rewrite <- !app_assoc.
Qed.

(** *** Captures *)

Lemma rep_loop_keeps_caps body greedy :
  keeps_caps body →
  ∀ fuel lo hi, keeps_caps (rep_loop body greedy fuel lo hi).
Proof.
  intros Hb fuel. induction fuel as [|fuel IH]; intros lo hi k c g res Hr;
    [done|].
  cbn [rep_loop] in Hr.
  set (again := if bool_decide (hi = Some 0) then None else body _ c g) in Hr.
  assert (again = Some res → ∃ c', later c c' ∧ k c' g = Some res) as Ha.
  { unfold again. case_bool_decide; [done|]. intros Hbody.
    apply Hb in Hbody as (c1 & Hl1 & Hk1).
    destruct (pos c1 =? pos c); [done|].
    apply IH in Hk1 as (c2 & Hl2 & Hk2).
    exists c2. split; [by eapply later_trans|done]. }
  destruct (0 <? lo); [by apply Ha|].
  destruct greedy.
  - destruct again as [r|]; [apply Ha; congruence|].
    exists c. split; [apply later_refl|done].
  - destruct (k c g) as [r|] eqn:Hk; [|by apply Ha].
    exists c. split; [apply later_refl|congruence].
Qed.

Lemma mtch_keeps_caps r : group_free r = true → keeps_caps (mtch r).
Proof.
  induction r as [|p|r1 IH1 r2 IH2|r1 IH1 r2 IH2|greedy lo hi r IH|n r IH| | |w];
    intros Hg k c g res Hm; cbn [mtch group_free] in *.
  - exists c. split; [apply later_refl|done].
  - destruct (ahead c) as [|x t] eqn:Ha; [done|]. destruct (p x); [|done].
    eexists. split; [by apply later_step|done].
  - apply andb_true_iff in Hg as [Hg1 Hg2].
    apply (IH1 Hg1) in Hm as (c1 & Hl1 & Hm).
    apply (IH2 Hg2) in Hm as (c2 & Hl2 & Hk).
    exists c2. split; [by eapply later_trans|done].
  - apply andb_true_iff in Hg as [Hg1 Hg2].
    destruct (mtch r1 k c g) as [r|] eqn:H1.
    + apply (IH1 Hg1) in H1 as (c1 & ? & ?). exists c1.
      split; [done|congruence].
    + by apply (IH2 Hg2) in Hm.
  - by apply (rep_loop_keeps_caps _ _ (IH Hg)) in Hm.
  - done.
  - case_bool_decide; [|done]. exists c. split; [apply later_refl|done].
  - destruct (_ || _); [|done]. exists c. split; [apply later_refl|done].
  - destruct (xorb _ _); [|done]. exists c. split; [apply later_refl|done].
Qed.

(** A repetition of a class reads a run of the class and goes on behind
    it. *)
Lemma rep_loop_chr_reads p greedy fuel :
  ∀ lo hi k c g res,
    rep_loop (mtch (Chr p)) greedy fuel lo hi k c g = Some res →
    ∃ w rest bef, ahead c = w ++ rest ∧ Forall (fun x => p x = true) w
      ∧ k (Cursor bef rest (pos c + length w)) g = Some res.
Proof.
  induction fuel as [|fuel IH]; intros lo hi k c g res Hr; [done|].
  cbn [rep_loop] in Hr.
  set (again := if bool_decide (hi = Some 0) then None
                else mtch (Chr p) _ c g) in Hr.
  assert (again = Some res →
          ∃ w rest bef, ahead c = w ++ rest ∧ Forall (fun x => p x = true) w
            ∧ k (Cursor bef rest (pos c + length w)) g = Some res) as Ha.
  { unfold again. case_bool_decide; [done|]. cbn [mtch].
    destruct (ahead c) as [|x t] eqn:Hc; [done|].
    destruct (p x) eqn:Hp; [|done]. cbn [pos].
    destruct (S (pos c) =? pos c); [done|]. intros Hk.
    apply IH in Hk as (w & rest & bef & Hw & Hall & Hk). cbn [ahead pos] in *.
    exists (x :: w), rest, bef. rewrite Hw. split; [done|].
    split; [by constructor|].
    by replace (pos c + length (x :: w)) with (S (pos c) + length w)
      by (simpl; lia). }
  assert (k c g = Some res →
          ∃ w rest bef, ahead c = w ++ rest ∧ Forall (fun x => p x = true) w
            ∧ k (Cursor bef rest (pos c + length w)) g = Some res) as Hk0.
  { intros Hk. exists [], (ahead c), (before c). split; [done|].
    split; [done|]. cbn [length]. rewrite Nat.add_0_r. by destruct c. }
  destruct (0 <? lo); [by apply Ha|].
  destruct greedy.
  - destruct again as [r|]; [apply Ha; congruence|by apply Hk0].
  - destruct (k c g) as [r|] eqn:Hk; [|by apply Ha].
    apply Hk0. congruence.
Qed.

(** ** Keywords.py: the pieces of a file *)

Module KeywordsProps.
Import Keywords.

(** The loop keeps the pieces it has read equal to the text it has passed,
    each of them of the shape of its kind. *)
Lemma split_loop_inv fuel (text : str) i ps l :
  i ≤ length text →
  concat (snd <$> ps) = take i text → Forall piece_shape ps →
  split_loop fuel text i ps = Ret l →
  concat (snd <$> l) = text ∧ Forall piece_shape l.
Proof.
  revert i ps. induction fuel as [|fuel IH]; intros i ps Hi Hc Hs Hr; [done|].
  cbn [split_loop] in Hr.
  destruct (i <? length text) eqn:Hlt; cbn [negb] in Hr.
  2: { apply Nat.ltb_ge in Hlt. injection Hr as <-.
       rewrite Hc, take_ge by lia. done. }
  apply Nat.ltb_lt in Hlt.
  assert (∀ (qs : list (piece_kind * str)) q,
            concat (snd <$> (qs ++ [q])) = concat (snd <$> qs) ++ q.2) as Hsnoc.
  { intros qs q. rewrite fmap_app, concat_app. simpl. by rewrite app_nil_r. }
  destruct (find_char AT text i) as [at_|] eqn:Hat.
  2: { injection Hr as <-. split.
       - rewrite Hsnoc, Hc. simpl. by rewrite take_drop.
       - apply Forall_app. split; [done|]. apply Forall_singleton.
         split; simpl.
         + intros Hd. apply (f_equal length) in Hd.
           rewrite length_drop in Hd. simpl in Hd. lia.
         + left. by eapply find_in_none. }
  pose proof (find_char_spec _ _ _ _ Hat) as Hab.
  apply find_char_lookup in Hat as [Hat Hno].
  set (ps' := if i <? at_ then ps ++ [(NonEntry, slice text i at_)] else ps)
    in Hr.
  assert (concat (snd <$> ps') = take at_ text ∧ Forall piece_shape ps')
    as [Hc' Hs'].
  { unfold ps'. destruct (i <? at_) eqn:Hia.
    - apply Nat.ltb_lt in Hia. split.
      + rewrite Hsnoc, Hc. simpl. apply take_slice. lia.
      + apply Forall_app. split; [done|]. apply Forall_singleton.
        split; simpl; [|by left].
        intros Hd. apply (f_equal length) in Hd. unfold slice in Hd.
        rewrite length_take, length_drop in Hd. simpl in Hd. lia.
    - apply Nat.ltb_ge in Hia. by replace at_ with i by lia. }
  clearbody ps'. clear Hc Hs ps.
  set (j := skip_while (fun c => negb (one_of "{(" c)) text (at_ + 1)) in Hr.
  pose proof (skip_while_ge (fun c => negb (one_of "{(" c)) text (at_ + 1))
    as Hj1.
  pose proof (skip_while_le (fun c => negb (one_of "{(" c)) text (at_ + 1))
    as Hj2.
  pose proof (skip_while_slice (fun c => negb (one_of "{(" c)) text (at_ + 1))
    as Hj3.
  pose proof (take_while_Forall (fun c => negb (one_of "{(" c))
                (drop (at_ + 1) text)) as Hj4.
  rewrite <- Hj3 in Hj4. fold j in Hj1, Hj2, Hj3, Hj4.
  assert (Forall (fun c => one_of "{(" c = false) (slice text (at_ + 1) j))
    as Hname.
  { eapply Forall_impl; [exact Hj4|]. intros c. simpl.
    by destruct (one_of "{(" c). }
  assert (∀ e, at_ + 1 ≤ e →
            slice text at_ e = AT :: slice text (at_ + 1) e) as Hcons.
  { intros e He. unfold slice. rewrite (drop_S _ _ _ Hat).
    replace (e - at_) with (S (e - (at_ + 1))) by lia.
    by replace (at_ + 1) with (S at_) by lia. }
  assert (∀ e, at_ + 1 ≤ e → e ≤ length text →
            piece_shape (NonEntry, slice text at_ e)
            ∨ ¬ Forall (fun c => one_of "{(" c = false)
                  (slice text (at_ + 1) e)) as Htail.
  { intros e He Hen.
    destruct (decide (Forall (fun c => one_of "{(" c = false)
                        (slice text (at_ + 1) e))) as [Hall|]; [left|by right].
    rewrite Hcons by done. split; simpl; [done|]. right. split; [done|].
    constructor; [done|exact Hall]. }
  destruct (text !! j) as [o|] eqn:Ho.
  2: { apply lookup_ge_None in Ho. eapply IH; [| | |exact Hr]; [lia| |].
       - rewrite Hsnoc, Hc'. simpl. apply take_slice. lia.
       - apply Forall_app. split; [done|]. apply Forall_singleton.
         by destruct (Htail j) as [?|?]; [lia..| |]. }
  pose proof (skip_while_stop _ _ _ _ Ho) as Hoo. apply negb_false_iff in Hoo.
  rewrite Hoo in Hr. cbn [negb] in Hr.
  pose proof (lookup_lt_Some _ _ _ Ho) as Hjn.
  assert (∀ e, j < e → e ≤ length text →
            piece_shape (Entry, slice text at_ e)) as Hentry.
  { intros e He Hen. exists (slice text (at_ + 1) j), o, (slice text (j + 1) e).
    split; [|done]. rewrite Hcons by lia. f_equal. unfold slice.
    replace (e - (at_ + 1)) with ((j - (at_ + 1)) + (e - j)) by lia.
    rewrite <- take_take_drop, drop_drop. f_equal.
    replace (at_ + 1 + (j - (at_ + 1))) with j by lia.
    rewrite (drop_S _ _ _ Ho). replace (e - j) with (S (e - (j + 1))) by lia.
    by replace (j + 1) with (S j) by lia. }
  destruct (balance _ _ _ _ _) as [e|] eqn:Hb.
  - apply balance_bounds in Hb. rewrite length_drop in Hb.
    eapply IH; [| | |exact Hr]; [lia| |].
    + rewrite Hsnoc, Hc'. simpl. apply take_slice. lia.
    + apply Forall_app. split; [done|]. apply Forall_singleton.
      apply Hentry; lia.
  - eapply IH; [| | |exact Hr]; [lia| |].
    + rewrite Hsnoc, Hc'. simpl. by rewrite take_drop, take_ge by lia.
    + apply Forall_app. split; [done|]. apply Forall_singleton.
      rewrite <- slice_to_end. apply Hentry; lia.
Qed.

(** X1: [split_entries] returns for every text, and the pieces it returns,
    put together in order, are the text: nothing is lost and nothing is
    added. *)
Theorem split_entries_lossless (bibtext : str) :
  ∃ pieces, split_entries bibtext = Ret pieces
    ∧ concat (snd <$> pieces) = bibtext.
Proof.
  destruct (SplitFacts.split_loop_returns (S (length bibtext - 0)) bibtext 0 [])
    as [l Hl]; [lia..|].
  exists l. split; [exact Hl|].
  by eapply (split_loop_inv _ bibtext 0 []); [lia| | |exact Hl].
Qed.

(** X2: every piece [split_entries] labels an entry starts with [@] and
    holds the opening brace or parenthesis that follows it; a piece between
    entries is never empty, and either has no [@] at all or is an [@] no
    opening delimiter follows. *)
Theorem split_entries_shape (bibtext : str) :
  ∃ pieces, split_entries bibtext = Ret pieces ∧ Forall piece_shape pieces.
Proof.
  destruct (SplitFacts.split_loop_returns (S (length bibtext - 0)) bibtext 0 [])
    as [l Hl]; [lia..|].
  exists l. split; [exact Hl|].
  by eapply (split_loop_inv _ bibtext 0 []); [lia| | |exact Hl].
Qed.

(** *** [parse_fields] *)

Lemma name_char_other c :
  name_char c = true → isspace c = false ∧ field_sep c = false.
Proof.
  unfold name_char, AZ, az, d09, in_range, one_of. intros Hc.
  assert ((48 ≤ c ≤ 57 ∨ 65 ≤ c ≤ 90 ∨ 97 ≤ c ≤ 122 ∨ c = 95 ∨ c = 58
           ∨ c = 45)%N) as Hr.
  { repeat (apply orb_true_iff in Hc as [Hc|Hc]).
    - apply andb_true_iff in Hc as [?%N.leb_le ?%N.leb_le]. lia.
    - apply andb_true_iff in Hc as [?%N.leb_le ?%N.leb_le]. lia.
    - apply andb_true_iff in Hc as [?%N.leb_le ?%N.leb_le]. lia.
    - apply bool_decide_eq_true in Hc. vm_compute py in Hc.
      set_unfold. lia. }
  clear Hc. unfold isspace, field_sep, in_range.
  split; repeat (apply orb_false_iff; split);
    first [apply N.eqb_neq; lia
          | apply andb_false_iff;
            destruct (N.leb_spec 9 c), (N.leb_spec c 13), (N.leb_spec 28 c),
              (N.leb_spec c 32), (N.leb_spec 8192 c), (N.leb_spec c 8202);
            (by left) || (by right) || lia].
Qed.

Lemma read_value_loop_end fuel (s : str) start i parts e0 v raw e :
  e0 ≤ i →
  read_value_loop fuel s start i parts e0 = Ret (v, raw, e) → e0 ≤ e.
Proof.
  revert i parts. induction fuel as [|fuel IH]; intros i parts Hi Hr; [done|].
  cbn [read_value_loop] in Hr.
  destruct (i <? length s) eqn:Hlt; cbn [negb] in Hr;
    [|by injection Hr as _ _ <-].
  pose proof (skip_while_ge isspace s i) as Hge.
  set (i1 := skip_while isspace s i) in *.
  destruct (length s <=? i1); [by injection Hr as _ _ <-|].
  destruct (KeywordsFacts.read_part_returns s i1) as (val & j & Hp & Hj).
  rewrite Hp in Hr. cbn [mbind outcome_bind] in Hr.
  pose proof (skip_while_ge isspace s j) as Hge2.
  set (i2 := skip_while isspace s j) in *.
  destruct ((i2 <? length s) && bool_decide (s !! i2 = Some HASH)).
  { eapply IH; [|exact Hr]. lia. }
  destruct ((i2 <? length s) && bool_decide (s !! i2 = Some COMMA));
    injection Hr as _ _ <-; lia.
Qed.

Lemma read_value_returns (s : str) i :
  ∃ v raw e, read_value s i = Ret (v, raw, e) ∧ i ≤ e.
Proof.
  destruct (KeywordsFacts.read_value_loop_returns (S (length s - i)) s i i [] i)
    as [[[v raw] e] Hr]; [lia|].
  exists v, raw, e. split; [exact Hr|].
  by eapply (read_value_loop_end _ s i i [] i).
Qed.

Lemma parse_fields_loop_returns fuel (body : str) i fields :
  length body - i < fuel →
  ∃ l, parse_fields_loop fuel body i fields = Ret l.
Proof.
  revert i fields. induction fuel as [|fuel IH]; intros i fields Hf; [lia|].
  cbn [parse_fields_loop].
  destruct (i <? length body) eqn:Hlt; cbn [negb]; [|eauto].
  apply Nat.ltb_lt in Hlt.
  pose proof (skip_while_ge field_sep body i) as H1.
  set (i1 := skip_while field_sep body i) in *.
  destruct (length body <=? i1) eqn:Hn1; [eauto|]. apply Nat.leb_gt in Hn1.
  pose proof (skip_while_ge name_char body i1) as H2.
  set (i2 := skip_while name_char body i1) in *.
  pose proof (skip_while_ge isspace body i2) as H3.
  set (i3 := skip_while isspace body i2) in *.
  destruct ((length body <=? i3)
            || negb (bool_decide (body !! i3 = Some EQUALS))) eqn:Heq.
  - pose proof (skip_while_ge (fun c => negb (c =? COMMA)%N) body i3) as H4.
    set (i4 := skip_while _ body i3) in *.
    destruct (i4 <? length body) eqn:H5; [apply IH; lia|].
    apply Nat.ltb_ge in H5. apply IH. lia.
  - pose proof (skip_while_ge isspace body (i3 + 1)) as H4.
    set (i4 := skip_while isspace body (i3 + 1)) in *.
    destruct (read_value_returns body i4) as (v & raw & e & -> & He).
    cbn [mbind outcome_bind]. apply IH. lia.
Qed.

Lemma parse_fields_loop_names fuel (body : str) i fields l :
  Forall (fun f => Forall (fun c => name_char c = true) f.1.1) fields →
  parse_fields_loop fuel body i fields = Ret l →
  Forall (fun f => Forall (fun c => name_char c = true) f.1.1) l.
Proof.
  revert i fields. induction fuel as [|fuel IH]; intros i fields Hf Hr; [done|].
  cbn [parse_fields_loop] in Hr.
  destruct (i <? length body); cbn [negb] in Hr; [|by injection Hr as <-].
  set (i1 := skip_while field_sep body i) in *.
  destruct (length body <=? i1); [by injection Hr as <-|].
  pose proof (skip_while_slice name_char body i1) as Hname.
  set (i2 := skip_while name_char body i1) in *.
  set (i3 := skip_while isspace body i2) in *.
  destruct ((length body <=? i3)
            || negb (bool_decide (body !! i3 = Some EQUALS))).
  { by eapply IH. }
  destruct (read_value_returns body (skip_while isspace body (i3 + 1)))
    as (v & raw & e & Hv & _).
  rewrite Hv in Hr. cbn [mbind outcome_bind] in Hr.
  eapply IH; [|exact Hr]. apply Forall_app. split; [done|].
  apply Forall_singleton. cbn [fst]. rewrite Hname.
  pose proof (take_while_Forall name_char (drop i1 body)) as Hall.
  rewrite strip_nonspace; [done|].
  eapply Forall_impl; [exact Hall|]. intros c Hc. by apply name_char_other.
Qed.

(** X3: [parse_fields] returns a list of fields for every text; it neither
    raises nor loops, however broken the body is; and the name of every
    field it returns is made of the characters [A-Za-z0-9_:-] only. *)
Theorem parse_fields_total (body_text : str) :
  ∃ fields, parse_fields body_text = Ret fields
    ∧ Forall (fun f => Forall (fun c => name_char c = true) f.1.1) fields.
Proof.
  destruct (parse_fields_loop_returns (S (length body_text)) body_text 0 [])
    as [l Hl]; [lia|].
  exists l. split; [exact Hl|].
  by eapply (parse_fields_loop_names _ body_text 0 []).
Qed.

(** *** [rebuild_entry] read back *)

Lemma read_braced_loop_balanced (v : str) :
  ∀ n tail j depth out, closes v depth = false →
    read_braced_loop n (v ++ tail) j depth out
    = read_braced_loop n tail (j + length v) (depth + brace_depth v)
        (out ++ v).
Proof.
  induction v as [|c v IH]; intros n tail j depth out Hc.
  - simpl. by rewrite Nat.add_0_r, Z.add_0_r, app_nil_r.
  - cbn [app read_braced_loop closes brace_depth length] in *.
    destruct (c =? LBRACE)%N.
    + rewrite IH by done. f_equal; try lia. by rewrite <- app_assoc.
    + destruct (c =? RBRACE)%N.
      * apply orb_false_iff in Hc as [Hz Hc]. rewrite Hz.
        rewrite IH by done. f_equal; try lia. by rewrite <- app_assoc.
      * rewrite IH by done. f_equal; try lia. by rewrite <- app_assoc.
Qed.

Lemma read_braced_run (s pre v rest : str) :
  s = pre ++ LBRACE :: v ++ RBRACE :: rest → balanced v = true →
  read_braced s (length pre) = Ret (v, length pre + length v + 2).
Proof.
  intros Hs Hb. apply andb_true_iff in Hb as [Hc Hd].
  apply negb_true_iff in Hc. apply Z.eqb_eq in Hd.
  unfold read_braced. rewrite (lookup_run s pre (v ++ RBRACE :: rest) LBRACE Hs).
  cbn [N.eqb Pos.eqb]. f_equal.
  replace (drop (length pre + 1) s) with (v ++ RBRACE :: rest).
  2: { subst s. by rewrite drop_app_add. }
  rewrite read_braced_loop_balanced by done. rewrite Hd.
  cbn [read_braced_loop N.eqb Pos.eqb Z.add Z.sub Z.eqb Z.opp Z.pos_sub].
  cbn. f_equal. lia.
Qed.

Lemma read_value_braced (s pre v rest : str) i :
  s = pre ++ LBRACE :: v ++ RBRACE :: COMMA :: rest → i = length pre →
  balanced v = true →
  read_value s i
  = Ret (strip v, LBRACE :: v ++ [RBRACE; COMMA], i + length v + 3).
Proof.
  intros Hs -> Hb.
  assert (length s = length pre + length v + 3 + length rest) as Hn.
  { subst s. rewrite length_app. simpl. rewrite length_app. simpl. lia. }
  pose proof (lookup_run s pre _ _ Hs) as Ho.
  assert (s !! (length pre + length v + 2) = Some COMMA) as Hcomma.
  { apply (lookup_at s (pre ++ LBRACE :: v ++ [RBRACE]) rest).
    - subst s. rewrite <- !app_assoc. simpl. by rewrite <- !app_assoc.
    - rewrite length_app. simpl. rewrite length_app. simpl. lia. }
  unfold read_value. cbn [read_value_loop].
  replace (length pre <? length s) with true
    by (symmetry; apply Nat.ltb_lt; lia).
  cbn [negb]. rewrite (skip_while_stay _ _ _ _ Ho) by done.
  replace (length s <=? length pre) with false
    by (symmetry; apply Nat.leb_gt; lia).
  unfold read_part. rewrite bool_decide_eq_true_2 by done.
  rewrite (read_braced_run s pre v (COMMA :: rest)) by done.
  cbn [mbind outcome_bind].
  rewrite (skip_while_stay _ _ _ _ Hcomma) by done.
  replace (length pre + length v + 2 <? length s) with true
    by (symmetry; apply Nat.ltb_lt; lia).
  rewrite Hcomma. rewrite bool_decide_eq_false_2 by done.
  rewrite bool_decide_eq_true_2 by done. cbn [andb app concat].
  rewrite app_nil_r. do 2 f_equal; [|lia]. f_equal.
  apply (slice_at s pre _ rest); [|done|].
  - subst s. simpl. rewrite <- !app_assoc. done.
  - simpl. rewrite length_app. simpl. lia.
Qed.

(** The fields [rebuild_entry] has written, read back one line a round. *)
Lemma parse_fields_loop_rebuilt {R} (fields : list (str * str * R)) :
  Forall plain_field fields →
  ∀ fuel pre acc,
    length (concat ((fun f => NL :: field_line f) <$> fields)) + 1 < fuel →
    parse_fields_loop fuel
      (pre ++ concat ((fun f => NL :: field_line f) <$> fields) ++ [NL])
      (length pre) acc
    = Ret (acc ++ ((fun f => (f.1.1, f.1.2, LBRACE :: f.1.2 ++ [RBRACE; COMMA]))
                     <$> fields)).
Proof.
  induction 1 as [|f fs Hf _ IH]; intros fuel pre acc Hfuel;
    (destruct fuel as [|fuel]; [lia|]).
  - cbn [fmap list_fmap concat app]. rewrite app_nil_r.
    set (s := pre ++ [NL]).
    assert (length s = length pre + 1) as Hn
      by (unfold s; rewrite length_app; simpl; lia).
    cbn [parse_fields_loop].
    replace (length pre <? length s) with true
      by (symmetry; apply Nat.ltb_lt; lia).
    cbn [negb].
    rewrite (skip_while_at field_sep s pre [NL] [] (length pre));
      [|by unfold s|done|by repeat constructor|done].
    replace (length s <=? length pre + length [NL]) with true
      by (symmetry; apply Nat.leb_le; simpl; lia).
    done.
  - destruct f as [[name v] r].
    destruct Hf as (Hne & Hname & Hbal & Hstrip). cbn [fst snd] in *.
    cbn [fmap list_fmap concat] in *. fold (@fmap list _) in *.
    set (REST := concat ((fun f => NL :: field_line f) <$> fs) ++ [NL]) in *.
    set (i := length pre).
    set (s := pre ++ (_ ++ _) ++ [NL]).
    assert (s = pre ++ [NL; SPACE; SPACE] ++ name ++ [SPACE; EQUALS; SPACE]
                  ++ LBRACE :: v ++ RBRACE :: COMMA :: REST) as Es.
    { assert (field_line (name, v, r)
              = [SPACE; SPACE] ++ name ++ [SPACE; EQUALS; SPACE; LBRACE]
                ++ v ++ [RBRACE; COMMA]) as Hfl by reflexivity.
      unfold s, REST. rewrite Hfl. assoc_eq. }
    clearbody s.
    assert (length s = i + 3 + length name + 3 + length v + 3 + length REST)
      as Hn.
    { rewrite Es. rewrite !length_app. simpl. rewrite !length_app. simpl.
      unfold i. lia. }
    destruct name as [|x name']; [done|]. set (name := x :: name') in *.
    pose proof (Forall_inv Hname) as Hx.
    cbn [parse_fields_loop].
    replace (i <? length s) with true by (symmetry; apply Nat.ltb_lt; lia).
    cbn [negb].
    rewrite (skip_while_at field_sep s pre [NL; SPACE; SPACE]
               (name ++ [SPACE; EQUALS; SPACE]
                ++ LBRACE :: v ++ RBRACE :: COMMA :: REST) i);
      [|done|done|by repeat constructor
       |intros y [= <-]; by apply name_char_other].
    cbn [length].
    replace (length s <=? i + 3) with false
      by (symmetry; apply Nat.leb_gt; lia).
    rewrite (skip_while_at name_char s (pre ++ [NL; SPACE; SPACE]) name
               ([SPACE; EQUALS; SPACE]
                ++ LBRACE :: v ++ RBRACE :: COMMA :: REST) (i + 3));
      [|rewrite Es; assoc_eq|rewrite length_app; simpl; lia
       |done|by intros y [= <-]].
    rewrite (slice_at s (pre ++ [NL; SPACE; SPACE]) name
               ([SPACE; EQUALS; SPACE]
                ++ LBRACE :: v ++ RBRACE :: COMMA :: REST));
      [|rewrite Es; assoc_eq|rewrite length_app; simpl; lia|done].
    rewrite strip_nonspace.
    2: { eapply Forall_impl; [exact Hname|]. intros c Hc.
         by apply name_char_other. }
    rewrite (skip_while_at isspace s (pre ++ [NL; SPACE; SPACE] ++ name)
               [SPACE]
               ([EQUALS; SPACE] ++ LBRACE :: v ++ RBRACE :: COMMA :: REST)
               (i + 3 + length name));
      [|rewrite Es; assoc_eq
       |rewrite !length_app; simpl; rewrite ?length_app; simpl; lia
       |by repeat constructor|by intros y [= <-]].
    cbn [length].
    replace (length s <=? i + 3 + length name + 1) with false
      by (symmetry; apply Nat.leb_gt; lia).
    rewrite (lookup_at s (pre ++ [NL; SPACE; SPACE] ++ name ++ [SPACE])
               ([SPACE] ++ LBRACE :: v ++ RBRACE :: COMMA :: REST) EQUALS
               (i + 3 + length name + 1));
      [|rewrite Es; assoc_eq
       |rewrite !length_app; simpl; rewrite ?length_app; simpl; lia].
    rewrite bool_decide_eq_true_2 by done. cbn [negb orb].
    rewrite (skip_while_at isspace s
               (pre ++ [NL; SPACE; SPACE] ++ name ++ [SPACE; EQUALS])
               [SPACE] (LBRACE :: v ++ RBRACE :: COMMA :: REST)
               (i + 3 + length name + 1 + 1));
      [|rewrite Es; assoc_eq
       |rewrite !length_app; simpl; rewrite ?length_app; simpl; lia
       |by repeat constructor|by intros y [= <-]].
    cbn [length].
    rewrite (read_value_braced s
               (pre ++ [NL; SPACE; SPACE] ++ name ++ [SPACE; EQUALS; SPACE])
               v REST);
      [|rewrite Es; assoc_eq
       |rewrite !length_app; simpl; rewrite ?length_app; simpl; lia
       |done].
    cbn [mbind outcome_bind]. rewrite Hstrip.
    assert (s = (pre ++ [NL; SPACE; SPACE] ++ name ++ [SPACE; EQUALS; SPACE]
                 ++ LBRACE :: v ++ [RBRACE; COMMA]) ++ REST) as Es'.
    { rewrite Es. assoc_eq. }
    rewrite Es' at 1.
    replace (i + 3 + length name + 1 + 1 + 1 + length v + 3)
      with (length (pre ++ [NL; SPACE; SPACE] ++ name
                    ++ [SPACE; EQUALS; SPACE]
                    ++ LBRACE :: v ++ [RBRACE; COMMA])).
    2: { rewrite !length_app. simpl. rewrite !length_app. simpl.
         unfold i. lia. }
    unfold REST. rewrite IH.
    + by rewrite <- app_assoc.
    + rewrite !length_app in Hfuel. simpl in Hfuel. lia.
Qed.

Lemma header_match (ty rest : str) o :
  Forall (fun c => AZ c || az c = true) ty → ty ≠ [] →
  one_of "({" o = true →
  re_match header_re (AT :: ty ++ o :: rest)
  = Some (Mobj 0 (length ty + 2)
            (<[2 := (length ty + 1, length ty + 2)]>
               (<[1 := (1, length ty + 1)]> ∅))).
Proof.
  intros Hty Hne Ho.
  assert (AZ o || az o = false ∧ isspace o = false) as [Hol Hos].
  { apply bool_decide_eq_true in Ho. vm_compute py in Ho.
    set_unfold. by destruct Ho as [->|[->|[]]]. }
  unfold re_match, match_at, cursor_at, header_re, seqs, lit, plus, star, ws.
  cbn [foldr mtch ahead pos before Nat.min length drop].
  cbn [N.eqb Pos.eqb].
  rewrite (rep_loop_chr_run _ _ ty Hty _ 1 (o :: rest) (Some AT) 1 ∅
             (length ty + 2,
              <[2 := (length ty + 1, length ty + 2)]>
                (<[1 := (1, length ty + 1)]> ∅))); [done|lia| | |].
  - destruct ty; [done|]. simpl. lia.
  - by intros x [= <-].
  - cbn [pos ahead].
    apply (rep_loop_chr_run isspace _ [] (Forall_nil_2 _) _ 0 (o :: rest));
      [simpl; lia|done| |].
    + by intros x [= <-].
    + cbn [mtch ahead pos app last from_option length]. rewrite Ho.
      cbn [accept pos].
      replace (1 + length ty + 0) with (length ty + 1) by lia.
      replace (S (length ty + 1)) with (length ty + 2) by lia.
      by replace (1 + length ty) with (length ty + 1) by lia.
Qed.

Lemma header_loop_key o c (key rest : str) :
  o ≠ COMMA → c ≠ COMMA →
  Forall (fun x => x ≠ o ∧ x ≠ c ∧ x ≠ COMMA) key →
  ∀ i acc,
    header_loop o c (key ++ COMMA :: rest) i 1 acc
    = (i + length key + 1, acc ++ key).
Proof.
  intros Ho Hc. induction 1 as [|x key (Hxo & Hxc & Hxk) _ IH]; intros i acc.
  - cbn [app header_loop length].
    destruct (N.eqb_spec COMMA o) as [?|_]; [done|].
    destruct (N.eqb_spec COMMA c) as [?|_]; [done|].
    cbn [N.eqb Pos.eqb Z.eqb andb]. rewrite app_nil_r. f_equal. lia.
  - cbn [app header_loop length].
    destruct (N.eqb_spec x o) as [?|_]; [done|].
    destruct (N.eqb_spec x c) as [?|_]; [done|].
    destruct (N.eqb_spec x COMMA) as [?|_]; [done|].
    cbn [andb]. rewrite IH. f_equal; [lia|]. by rewrite <- app_assoc.
Qed.

(** X4: what [rebuild_entry] writes, [parse_entry_header] and
    [parse_fields] read back.  For an entry type of letters, a key without
    delimiters and commas, and fields whose names are made of name
    characters and whose values are trimmed and balanced in their braces,
    the header of the rebuilt entry gives the type, the trimmed key and the
    delimiters back, and the fields of its body are the names and values
    that were written, in order, each with the raw segment [{value},]. *)
Theorem rebuild_entry_read_back {R} (ty key : str)
    (fields : list (str * str * R)) (o : N) :
  let c := if (o =? LBRACE)%N then RBRACE else RPAREN in
  ty ≠ [] → Forall (fun x => AZ x || az x = true) ty →
  one_of "({" o = true →
  Forall (fun x => x ≠ o ∧ x ≠ c ∧ x ≠ COMMA) key →
  Forall plain_field fields →
  ∃ body,
    parse_entry_header (rebuild_entry ty key fields o c)
    = (Some ty, Some (strip key), body, o, c)
    ∧ parse_fields body
      = Ret ((fun f => (f.1.1, f.1.2, LBRACE :: f.1.2 ++ [RBRACE; COMMA]))
               <$> fields).
Proof.
  intros c Hne Hty Ho Hkey Hfields.
  set (lines := concat ((fun f => NL :: field_line f) <$> fields)).
  exists (lines ++ [NL]).
  assert (o ≠ COMMA ∧ c ≠ COMMA) as [Hoc Hcc].
  { apply bool_decide_eq_true in Ho. vm_compute py in Ho. unfold c.
    set_unfold. by destruct Ho as [->|[->|[]]]. }
  assert (rebuild_entry ty key fields o c
          = AT :: ty ++ o :: key ++ COMMA :: lines ++ [NL; c]) as ->.
  { unfold rebuild_entry. rewrite join_lines.
    rewrite <- list_fmap_compose. unfold compose. fold lines.
    change (py ",") with [COMMA]. assoc_eq. }
  unfold parse_entry_header.
  rewrite header_match by done.
  cbn [m_end m_groups group].
  rewrite !lookup_insert_eq. rewrite lookup_insert_ne by done.
  rewrite lookup_insert_eq. cbn [fmap option_fmap option_map default id].
  replace (slice (AT :: ty ++ o :: key ++ COMMA :: lines ++ [NL; c])
             1 (length ty + 1)) with ty.
  2: { symmetry.
       apply (slice_at _ [AT] ty (o :: key ++ COMMA :: lines ++ [NL; c]));
         [done|done|simpl; lia]. }
  replace (slice (AT :: ty ++ o :: key ++ COMMA :: lines ++ [NL; c])
             (length ty + 1) (length ty + 2)) with [o].
  2: { symmetry.
       apply (slice_at _ (AT :: ty) [o] (key ++ COMMA :: lines ++ [NL; c]));
         [assoc_eq|simpl; lia|simpl; lia]. }
  cbn [head default id]. fold c.
  replace (drop (length ty + 2)
             (AT :: ty ++ o :: key ++ COMMA :: lines ++ [NL; c]))
    with (key ++ COMMA :: lines ++ [NL; c]).
  2: { change (AT :: ty ++ o :: key ++ COMMA :: lines ++ [NL; c])
         with ((AT :: ty) ++ o :: key ++ COMMA :: lines ++ [NL; c]).
       replace (length ty + 2) with (length (AT :: ty) + 1) by (simpl; lia).
       by rewrite drop_app_add. }
  rewrite header_loop_key by done. cbn [app].
  replace (drop (length ty + 2 + length key + 1)
             (AT :: ty ++ o :: key ++ COMMA :: lines ++ [NL; c]))
    with (lines ++ [NL; c]).
  2: { replace (AT :: ty ++ o :: key ++ COMMA :: lines ++ [NL; c])
         with ((AT :: ty ++ o :: key ++ [COMMA]) ++ lines ++ [NL; c])
         by assoc_eq.
       replace (length ty + 2 + length key + 1)
         with (length (AT :: ty ++ o :: key ++ [COMMA])).
       - by rewrite drop_app_length.
       - simpl. rewrite length_app. simpl. rewrite length_app. simpl. lia. }
  assert (endswith c (lines ++ [NL; c]) = true) as ->.
  { apply bool_decide_eq_true.
    change (lines ++ [NL; c]) with (lines ++ [NL] ++ [c]).
    rewrite (app_assoc lines [NL] [c]). apply last_snoc. }
  replace (take (length (lines ++ [NL; c]) - 1) (lines ++ [NL; c]))
    with (lines ++ [NL]).
  2: { change (lines ++ [NL; c]) with (lines ++ [NL] ++ [c]).
       rewrite (app_assoc lines [NL] [c]).
       rewrite (length_app _ [c]). simpl.
       replace (length (lines ++ [NL]) + 1 - 1) with (length (lines ++ [NL]))
         by lia.
       by rewrite take_app_length. }
  split; [done|].
  unfold parse_fields.
  apply (parse_fields_loop_rebuilt fields Hfields _ [] []).
  unfold lines. rewrite length_app. simpl. lia.
Qed.

Lemma rebuild_entry_read_back_witness :
  let fields : list (str * str * option str) :=
    [(py "title", py "A {B} c", None); (py "year", py "2020", None)] in
  ∃ body,
    parse_entry_header
      (rebuild_entry (py "article") (py "smith2020") fields LBRACE RBRACE)
    = (Some (py "article"), Some (strip (py "smith2020")), body,
       LBRACE, RBRACE)
    ∧ parse_fields body
      = Ret ((fun f => (f.1.1, f.1.2, LBRACE :: f.1.2 ++ [RBRACE; COMMA]))
               <$> fields).
Proof.
  intros fields.
  apply (rebuild_entry_read_back (py "article") (py "smith2020") fields
           LBRACE).
  - done.
  - repeat (constructor; [reflexivity|]). constructor.
  - reflexivity.
  - repeat (constructor; [by vm_compute|]). constructor.
  - repeat (constructor;
            [split; [done|split;
               [repeat (constructor; [reflexivity|]); constructor
               |split; reflexivity]]|]).
    constructor.
Defined.

(** *** [normalize] *)

Lemma split_ws_go_spec (rest : str) :
  ∀ cur, Forall (fun c => isspace c = false) cur →
    Forall (fun w => w ≠ [] ∧ Forall (fun c => isspace c = false) w)
      (split_ws_go rest cur)
    ∧ concat (split_ws_go rest cur)
      = cur ++ filter (fun c => isspace c = false) rest.
Proof.
  induction rest as [|c t IH]; intros cur Hcur; cbn [split_ws_go].
  - destruct cur as [|x cur']; [done|]. simpl. rewrite !app_nil_r.
    split; [|done]. apply Forall_singleton. by split.
  - destruct (isspace c) eqn:Hc.
    + destruct (IH [] (Forall_nil_2 _)) as [IH1 IH2].
      rewrite filter_cons_False by congruence.
      destruct cur as [|x cur']; [done|]. split.
      * apply Forall_app. split; [|done]. apply Forall_singleton. by split.
      * rewrite concat_app, IH2. simpl. by rewrite app_nil_r.
    + destruct (IH (cur ++ [c])) as [IH1 IH2].
      { apply Forall_app. split; [done|]. by apply Forall_singleton. }
      rewrite filter_cons_True by done. split; [done|].
      by rewrite IH2, <- app_assoc.
Qed.

Lemma squeezed_word (w rest : str) b :
  Forall (fun c => isspace c = false) w → w ≠ [] →
  squeezed b (w ++ rest) = squeezed false rest.
Proof.
  intros Hw. revert b. induction Hw as [|c w Hc Hw IH]; intros b Hne; [done|].
  cbn [app squeezed]. rewrite Hc. destruct w as [|c' w']; [done|].
  by apply IH.
Qed.

Lemma join_words (ws : list str) :
  Forall (fun w => w ≠ [] ∧ Forall (fun c => isspace c = false) w) ws →
  squeezed true (join [SPACE] ws) = true
  ∧ (ws ≠ [] → ∃ x, last (join [SPACE] ws) = Some x ∧ isspace x = false)
  ∧ (∀ x, head (join [SPACE] ws) = Some x → isspace x = false)
  ∧ filter (fun c => isspace c = false) (join [SPACE] ws) = concat ws.
Proof.
  induction 1 as [|w ws [Hne Hw] Hws (IH1 & IH2 & IH3 & IH4)]; [done|].
  assert (∀ x, head w = Some x → isspace x = false) as Hhead.
  { intros x Hx. destruct Hw as [|c w Hc _]; [done|]. by injection Hx as <-. }
  assert (∃ x, last w = Some x ∧ isspace x = false) as Hlast.
  { destruct (last w) as [x|] eqn:Hl; [|by apply last_None in Hl].
    exists x. split; [done|]. apply last_Some in Hl as [w' ->].
    apply Forall_app in Hw as [_ Hx]. exact (Forall_inv Hx). }
  assert (filter (fun c => isspace c = false) w = w) as Hfw.
  { clear -Hw. induction Hw as [|c w Hc _ IH]; [done|].
    by rewrite filter_cons_True, IH. }
  destruct ws as [|w2 ws].
  { cbn [join concat]. rewrite app_nil_r.
    rewrite <- (app_nil_r w) at 1. rewrite squeezed_word by done.
    by repeat split. }
  rewrite join_cons by done.
  destruct (IH2 ltac:(done)) as (y & Hy & Hys).
  repeat split.
  - rewrite squeezed_word by done. cbn [app squeezed]. exact IH1.
  - intros _. exists y. split; [|done].
    rewrite app_assoc. destruct (join [SPACE] (w2 :: ws)) as [|j J] eqn:HJ;
      [done|].
    rewrite <- HJ in *. clear HJ. apply last_Some in Hy as [J' ->].
    rewrite app_assoc. apply last_snoc.
  - intros x Hx. apply Hhead. by destruct w.
  - rewrite filter_app, Hfw. cbn [app]. rewrite filter_cons_False by done.
    by rewrite IH4.
Qed.

Lemma strip_ends (s : str) :
  (∀ x, head s = Some x → isspace x = false) →
  (∀ x, last s = Some x → isspace x = false) →
  strip s = s.
Proof.
  intros Hh Hl.
  assert (∀ t : str, (∀ x, head t = Some x → isspace x = false) →
            drop_while isspace t = t) as Hd.
  { intros [|c t] Ht; [done|]. simpl. by rewrite (Ht c). }
  unfold strip, lstrip, rstrip. rewrite (Hd s Hh), Hd.
  - apply reverse_involutive.
  - intros x. rewrite head_reverse. apply Hl.
Qed.

Section Normalize.
Context `{PyLib}.

(** X5: the text [normalize] returns is a list of words with one blank
    between them: every white space character in it is a single blank that
    follows a character other than white space, there is none at either
    end, and the other characters are those of the lower-cased input, in
    order. *)
Theorem normalize_shape (s : option str) :
  let t := normalize s in
  squeezed true t = true
  ∧ strip t = t
  ∧ filter (fun c => isspace c = false) t
    = filter (fun c => isspace c = false) (str_lower (default [] s)).
Proof.
  cbv zeta. unfold normalize, split_ws. change (py " ") with [SPACE].
  destruct (split_ws_go_spec (str_lower (default [] s)) [] (Forall_nil_2 _))
    as [Hw Hc].
  destruct (join_words _ Hw) as (J1 & J2 & J3 & J4).
  split; [done|]. split; [|by rewrite J4, Hc].
  apply strip_ends; [done|]. intros x Hx.
  destruct (split_ws_go (str_lower (default [] s)) []) as [|w ws]; [done|].
  destruct (J2 ltac:(done)) as (y & Hy & Hys). congruence.
Qed.

End Normalize.

(** *** [build_aliases] and [match_keywords] *)

Section Aliases.
Context `{PyLib}.

Lemma clean_keywords_spec (keywords : list str) :
  ∀ seen cleaned,
    NoDup (str_lower <$> cleaned) →
    (∀ x, x ∈ seen ↔ x ∈ str_lower <$> cleaned) →
    let r := clean_keywords keywords seen cleaned in
    NoDup (str_lower <$> r.2)
    ∧ (∀ x, x ∈ r.1 ↔ x ∈ str_lower <$> r.2)
    ∧ cleaned `prefix_of` r.2
    ∧ (∀ k, k ∈ keywords → strip k ≠ [] →
         str_lower (strip k) ∈ str_lower <$> r.2)
    ∧ (∀ k, k ∈ r.2 → k ∈ cleaned ∨ (k ≠ [] ∧ k ∈ strip <$> keywords)).
Proof.
  induction keywords as [|k rest IH]; intros seen cleaned Hnd Hseen.
  { cbn. repeat split; try done; try apply Hseen.
    - intros k Hk. by apply elem_of_nil in Hk.
    - by left. }
  cbn [clean_keywords]. cbv zeta.
  assert (∀ r : gset str * list str,
            (∀ k', k' ∈ rest → strip k' ≠ [] →
               str_lower (strip k') ∈ str_lower <$> r.2) →
            str_lower (strip k) ∈ str_lower <$> r.2 ∨ strip k = [] →
            ∀ k', k' ∈ k :: rest → strip k' ≠ [] →
              str_lower (strip k') ∈ str_lower <$> r.2) as Hall.
  { intros r Hr Hk k' Hin Hne. apply elem_of_cons in Hin as [->|Hin].
    - by destruct Hk.
    - by apply Hr. }
  assert (∀ (r : list str) (c : list str),
            (∀ k', k' ∈ r → k' ∈ c ∨ (k' ≠ [] ∧ k' ∈ strip <$> rest)) →
            ∀ k', k' ∈ r →
              k' ∈ c ∨ (k' ≠ [] ∧ k' ∈ strip <$> k :: rest)) as Hfrom.
  { intros r c Hr k' Hin. destruct (Hr k' Hin) as [?|[? ?]]; [by left|].
    right. split; [done|]. rewrite fmap_cons. by apply elem_of_cons; right. }
  case_bool_decide as Hk2.
  { destruct (IH seen cleaned Hnd Hseen) as (I1 & I2 & I3 & I4 & I5).
    repeat split; try done; try apply I2.
    - apply Hall; [done|by right].
    - by apply Hfrom. }
  case_bool_decide as Hin.
  { destruct (IH seen cleaned Hnd Hseen) as (I1 & I2 & I3 & I4 & I5).
    repeat split; try done; try apply I2.
    - apply Hall; [done|]. left. apply Hseen in Hin.
      destruct I3 as [tl ->]. rewrite fmap_app. apply elem_of_app. by left.
    - by apply Hfrom. }
  destruct (IH ({[str_lower (strip k)]} ∪ seen) (cleaned ++ [strip k]))
    as (I1 & I2 & I3 & I4 & I5).
  { rewrite fmap_app. apply NoDup_app. split; [done|]. split.
    - intros x Hx Hx'. apply list_elem_of_singleton in Hx' as ->.
      by apply Hseen in Hx.
    - apply NoDup_singleton. }
  { intros x. rewrite fmap_app, elem_of_app, elem_of_union, Hseen.
    rewrite elem_of_singleton. cbn. rewrite list_elem_of_singleton. tauto. }
  repeat split; try done; try apply I2.
  - etrans; [|exact I3]. by apply prefix_app_r.
  - apply Hall; [done|]. left. destruct I3 as [tl ->].
    rewrite !fmap_app. apply elem_of_app. left. apply elem_of_app. right.
    cbn. apply list_elem_of_singleton. done.
  - intros k' Hk'. destruct (I5 k' Hk') as [Hc|[? ?]].
    + apply elem_of_app in Hc as [?|Hc]; [by left|].
      apply list_elem_of_singleton in Hc as ->. right. split; [done|].
      rewrite fmap_cons. apply elem_of_cons. by left.
    + right. split; [done|]. rewrite fmap_cons. by apply elem_of_cons; right.
Qed.

(** The second loop adds keys by the rule of the first. *)
Lemma add_alias_keys_clean (keys : list str) :
  ∀ seen all_keys,
    add_alias_keys keys seen all_keys = clean_keywords keys seen all_keys.
Proof.
  induction keys as [|k rest IH]; intros seen all_keys; [done|].
  cbn [add_alias_keys clean_keywords]. cbv zeta.
  case_bool_decide; cbn [negb andb]; [done|].
  by case_bool_decide; cbn [negb].
Qed.

Lemma dict_set_fresh {V} (k : str) (v : V) (d : list (str * V)) :
  k ∉ d.*1 → dict_set k v d = d ++ [(k, v)].
Proof.
  induction d as [|[k' v'] d IH]; intros Hk; [done|].
  rewrite fmap_cons in Hk. apply not_elem_of_cons in Hk as [Hne Hk].
  cbn [dict_set app]. rewrite bool_decide_eq_false_2 by done.
  by rewrite IH.
Qed.

Lemma foldl_dict_set {V} (f : str → V) (keys : list str) :
  ∀ d, NoDup (d.*1 ++ keys) →
    foldl (fun d k => dict_set k (f k) d) d keys
    = d ++ ((fun k => (k, f k)) <$> keys).
Proof.
  induction keys as [|k keys IH]; intros d Hnd; cbn [foldl fmap list_fmap].
  { by rewrite app_nil_r. }
  apply NoDup_app in Hnd as (Hd & Hdk & Hk).
  apply NoDup_cons in Hk as [Hk Hks].
  rewrite dict_set_fresh.
  2: { intros Hin. apply (Hdk k Hin). by left. }
  rewrite IH.
  - by rewrite <- app_assoc.
  - rewrite fmap_app. cbn. rewrite <- app_assoc. cbn.
    apply NoDup_app. split; [done|]. split; [|by constructor].
    intros x Hx. by apply Hdk.
Qed.

Lemma add_aliases_spec (candidates : list str) :
  ∀ alias_list, NoDup alias_list → Forall (fun a => a ≠ []) alias_list →
    let r := add_aliases candidates alias_list in
    alias_list `prefix_of` r ∧ NoDup r ∧ Forall (fun a => a ≠ []) r
    ∧ (∀ a, a ∈ candidates → strip a ≠ [] → strip a ∈ r)
    ∧ (∀ a, a ∈ r → a ∈ alias_list ∨ a ∈ strip <$> candidates).
Proof.
  induction candidates as [|a rest IH]; intros al Hnd Hne.
  { cbn. repeat split; try done.
    - intros a Ha. by apply elem_of_nil in Ha.
    - by left. }
  cbn [add_aliases]. cbv zeta.
  destruct (negb (bool_decide (strip a = []))
            && negb (bool_decide (strip a ∈ al))) eqn:Hc.
  - apply andb_true_iff in Hc as [Ha1 Ha2].
    apply negb_true_iff, bool_decide_eq_false in Ha1, Ha2.
    destruct (IH (al ++ [strip a])) as (I1 & I2 & I3 & I4 & I5).
    { apply NoDup_app. split; [done|]. split; [|apply NoDup_singleton].
      intros x Hx Hx'. apply list_elem_of_singleton in Hx' as ->. done. }
    { apply Forall_app. split; [done|]. by apply Forall_singleton. }
    repeat split; try done.
    + etrans; [|exact I1]. by apply prefix_app_r.
    + intros a' Hin Hs. apply elem_of_cons in Hin as [->|Hin]; [|by apply I4].
      destruct I1 as [tl ->]. apply elem_of_app. left. apply elem_of_app.
      right. by apply list_elem_of_singleton.
    + intros a' Hin. destruct (I5 a' Hin) as [Hl|Hr].
      * apply elem_of_app in Hl as [?|Hl]; [by left|].
        apply list_elem_of_singleton in Hl as ->. right. rewrite fmap_cons.
        by apply elem_of_cons; left.
      * right. rewrite fmap_cons. by apply elem_of_cons; right.
  - destruct (IH al Hnd Hne) as (I1 & I2 & I3 & I4 & I5).
    repeat split; try done.
    + intros a' Hin Hs. apply elem_of_cons in Hin as [->|Hin]; [|by apply I4].
      apply andb_false_iff in Hc as [Hc|Hc];
        apply negb_false_iff, bool_decide_eq_true in Hc; [done|].
      destruct I1 as [tl ->]. apply elem_of_app. by left.
    + intros a' Hin. destruct (I5 a' Hin) as [Hl|Hr]; [by left|].
      right. rewrite fmap_cons. by apply elem_of_cons; right.
Qed.

(** What [build_aliases] returns. *)
Lemma build_aliases_facts (keywords : list str)
    (alias_map : list (str * list str)) :
  let aliases := (build_aliases keywords alias_map).1 in
  let cleaned := (build_aliases keywords alias_map).2 in
  NoDup (str_lower <$> aliases.*1)
  ∧ cleaned `prefix_of` aliases.*1
  ∧ Forall (fun k => k ≠ [] ∧ k ∈ strip <$> keywords) cleaned
  ∧ (∀ k, k ∈ keywords → strip k ≠ [] →
       str_lower (strip k) ∈ str_lower <$> cleaned)
  ∧ Forall (fun ka =>
              head ka.2 = Some ka.1 ∧ NoDup ka.2
              ∧ Forall (fun a => a ≠ []) ka.2
              ∧ ∀ a, a ∈ dict_get ka.1 alias_map → strip a ≠ [] →
                     strip a ∈ ka.2) aliases
  ∧ Forall (fun k => k ≠ [] ∧ k ∈ strip <$> keywords ++ alias_map.*1)
      aliases.*1.
Proof.
  cbv zeta. unfold build_aliases.
  destruct (clean_keywords_spec keywords ∅ []) as (C1 & C2 & C3 & C4 & C5).
  { constructor. }
  { intros x. cbn. split; [set_solver|]. intros Hx. by apply elem_of_nil in Hx. }
  destruct (clean_keywords keywords ∅ []) as [seen cleaned] eqn:Hck.
  cbn [fst snd] in *. rewrite add_alias_keys_clean.
  destruct (clean_keywords_spec alias_map.*1 seen cleaned C1 C2)
    as (A1 & A2 & A3 & A4 & A5).
  destruct (clean_keywords alias_map.*1 seen cleaned) as [seen' all_keys].
  cbn [fst snd] in *.
  assert (∀ k, k ∈ all_keys → k ≠ []) as Hne.
  { intros k Hk. destruct (A5 k Hk) as [Hc|[? _]]; [|done].
    destruct (C5 k Hc) as [Hc'|[? _]]; [|done]. by apply elem_of_nil in Hc'. }
  rewrite (foldl_dict_set
             (fun k => add_aliases (dict_get k alias_map) [k]) all_keys []).
  2: { cbn. by apply NoDup_fmap_1 in A1. }
  cbn [app].
  assert (((fun k => (k, add_aliases (dict_get k alias_map) [k]))
             <$> all_keys).*1 = all_keys) as Hkeys.
  { rewrite <- list_fmap_compose. rewrite <- (list_fmap_id all_keys) at 2.
    by apply list_fmap_ext. }
  rewrite Hkeys.
  repeat split; try done.
  - apply Forall_forall. intros k Hk. destruct (C5 k Hk) as [Hc|?]; [|done].
    by apply elem_of_nil in Hc.
  - apply Forall_forall. intros ka Hka.
    apply list_elem_of_fmap in Hka as (k & -> & Hk). cbn [fst snd].
    destruct (add_aliases_spec (dict_get k alias_map) [k])
      as (I1 & I2 & I3 & I4 & I5).
    { apply NoDup_singleton. }
    { apply Forall_singleton. by apply Hne. }
    repeat split; try done. by destruct I1 as [tl ->].
  - apply Forall_forall. intros k Hk. split; [by apply Hne|].
    rewrite fmap_app. apply elem_of_app.
    destruct (A5 k Hk) as [Hc|[_ ?]]; [|by right].
    destruct (C5 k Hc) as [Hc'|[_ ?]]; [|by left]. by apply elem_of_nil in Hc'.
Qed.

(** X6: the dictionary [build_aliases] returns has no two keys that are
    equal in lower case; its first keys are the keywords returned as
    [cleaned], in order; every keyword that is not blank is there, trimmed,
    or has an earlier keyword equal to it in lower case; the aliases of a
    key start with the key itself, hold no alias twice and none that is
    empty, and hold every alias of [alias_map] for that key that is not
    blank, trimmed; and every key is a keyword or a key of [alias_map],
    trimmed, and is not empty. *)
Theorem build_aliases_spec (keywords : list str)
    (alias_map : list (str * list str)) :
  let aliases := (build_aliases keywords alias_map).1 in
  let cleaned := (build_aliases keywords alias_map).2 in
  NoDup (str_lower <$> aliases.*1)
  ∧ cleaned `prefix_of` aliases.*1
  ∧ Forall (fun k => k ≠ [] ∧ k ∈ strip <$> keywords) cleaned
  ∧ (∀ k, k ∈ keywords → strip k ≠ [] →
       str_lower (strip k) ∈ str_lower <$> cleaned)
  ∧ Forall (fun ka =>
              head ka.2 = Some ka.1 ∧ NoDup ka.2
              ∧ Forall (fun a => a ≠ []) ka.2
              ∧ ∀ a, a ∈ dict_get ka.1 alias_map → strip a ≠ [] →
                     strip a ∈ ka.2) aliases
  ∧ Forall (fun k => k ≠ [] ∧ k ∈ strip <$> keywords ++ alias_map.*1)
      aliases.*1.
Proof. apply build_aliases_facts. Qed.

Lemma unique_hits_spec (hits : list str) :
  ∀ seen,
    NoDup (str_lower <$> unique_hits hits seen)
    ∧ (∀ h, h ∈ unique_hits hits seen → h ∈ hits ∧ str_lower h ∉ seen)
    ∧ (∀ h, h ∈ hits →
         str_lower h ∈ seen
         ∨ str_lower h ∈ str_lower <$> unique_hits hits seen)
    ∧ (NoDup (str_lower <$> hits) → (∀ h, h ∈ hits → str_lower h ∉ seen) →
       unique_hits hits seen = hits).
Proof.
  induction hits as [|h rest IH]; intros seen.
  { cbn. split; [constructor|]. split; [|split; [|done]].
    - intros h Hh. by apply elem_of_nil in Hh.
    - intros h Hh. by apply elem_of_nil in Hh. }
  cbn [unique_hits]. cbv zeta. case_bool_decide as Hin.
  - destruct (IH seen) as (I1 & I2 & I3 & I4).
    split; [done|]. split; [|split].
    + intros h' Hh'. apply I2 in Hh' as [? ?]. split; [|done].
      by apply elem_of_cons; right.
    + intros h' Hh'. apply elem_of_cons in Hh' as [->|Hh']; [by left|].
      by apply I3.
    + intros _ Hall. exfalso. apply (Hall h); [by left|done].
  - destruct (IH ({[str_lower h]} ∪ seen)) as (I1 & I2 & I3 & I4).
    split; [|split; [|split]].
    + rewrite fmap_cons. apply NoDup_cons. split; [|done].
      intros Hx. apply list_elem_of_fmap in Hx as (h' & Heq & Hh').
      apply I2 in Hh' as [_ Hn]. apply Hn. rewrite <- Heq. set_solver.
    + intros h' Hh'. apply elem_of_cons in Hh' as [->|Hh'].
      { split; [by left|done]. }
      apply I2 in Hh' as [? Hn]. split; [by apply elem_of_cons; right|].
      set_solver.
    + intros h' Hh'. rewrite fmap_cons.
      apply elem_of_cons in Hh' as [->|Hh'].
      { right. by left. }
      destruct (I3 h' Hh') as [Hs|Hr].
      * apply elem_of_union in Hs as [Hs|Hs]; [|by left].
        apply elem_of_singleton in Hs. right. rewrite Hs. by left.
      * right. by apply elem_of_cons; right.
    + intros Hnd Hall. rewrite fmap_cons in Hnd.
      apply NoDup_cons in Hnd as [Hh Hnd]. f_equal. apply I4; [done|].
      intros h' Hh'. apply not_elem_of_union. split.
      * intros Heq%elem_of_singleton. apply Hh. rewrite <- Heq.
        by apply list_elem_of_fmap_2.
      * apply Hall. by apply elem_of_cons; right.
Qed.

(** X7: the hits of [match_keywords] are keys of the dictionary with an
    alias whose normalised form occurs in the normalised text; no two of
    them are equal in lower case; and every key with such an alias is a hit
    or equals, in lower case, a hit that comes before it. *)
Theorem match_keywords_spec (text : str) (aliases : list (str * list str)) :
  let t := normalize (Some text) in
  let hits := match_keywords text aliases in
  NoDup (str_lower <$> hits)
  ∧ (∀ h, h ∈ hits → ∃ al, (h, al) ∈ aliases ∧ is_hit t al = true)
  ∧ (∀ k al, (k, al) ∈ aliases → is_hit t al = true →
       str_lower k ∈ str_lower <$> hits).
Proof.
  cbv zeta. unfold match_keywords.
  set (t := normalize (Some text)).
  set (found := filter (fun ca => is_hit t ca.2 = true) aliases).
  destruct (unique_hits_spec found.*1 ∅) as (U1 & U2 & U3 & _).
  split; [done|]. split.
  - intros h Hh. apply U2 in Hh as [Hh _].
    apply list_elem_of_fmap in Hh as ([k al] & -> & Hin).
    apply list_elem_of_filter in Hin as [Hhit Hin]. by exists al.
  - intros k al Hin Hhit. destruct (U3 k) as [Hs|?]; [|set_solver|done].
    apply list_elem_of_fmap. exists (k, al). split; [done|].
    by apply list_elem_of_filter.
Qed.

Lemma match_keywords_filter (text : str) (keywords : list str)
    (alias_map : list (str * list str)) :
  let aliases := (build_aliases keywords alias_map).1 in
  match_keywords text aliases
  = (filter (fun ca => is_hit (normalize (Some text)) ca.2 = true)
       aliases).*1.
Proof.
  cbv zeta.
  destruct (build_aliases_facts keywords alias_map) as (B1 & _).
  unfold match_keywords.
  destruct (unique_hits_spec
              (filter (fun ca => is_hit (normalize (Some text)) ca.2 = true)
                 (build_aliases keywords alias_map).1).*1 ∅)
    as (_ & _ & _ & U4).
  apply U4; [|set_solver].
  eapply sublist_NoDup; [exact B1|].
  apply fmap_sublist, fmap_sublist, sublist_filter.
Qed.

(** X8: with the dictionary of [build_aliases], the hits of
    [match_keywords] are exactly the keys that have an alias occurring in
    the text, in the order of the dictionary; and a key whose own
    normalised form occurs in the normalised text is a hit. *)
Theorem match_keywords_built (text : str) (keywords : list str)
    (alias_map : list (str * list str)) :
  let aliases := (build_aliases keywords alias_map).1 in
  let t := normalize (Some text) in
  match_keywords text aliases
  = (filter (fun ca => is_hit t ca.2 = true) aliases).*1
  ∧ ∀ k, k ∈ aliases.*1 → contains (normalize (Some k)) t = true →
         k ∈ match_keywords text aliases.
Proof.
  cbv zeta.
  destruct (build_aliases_facts keywords alias_map) as (B1 & _ & _ & _ & B5 & _).
  set (aliases := (build_aliases keywords alias_map).1) in *.
  set (t := normalize (Some text)).
  assert (match_keywords text aliases
          = (filter (fun ca => is_hit t ca.2 = true) aliases).*1) as Heq
    by apply match_keywords_filter.
  split; [done|]. intros k Hk Hc. rewrite Heq.
  apply list_elem_of_fmap in Hk as ([k' al] & -> & Hin). cbn [fst] in *.
  apply list_elem_of_fmap. exists (k', al). split; [done|].
  apply list_elem_of_filter. split; [|done]. cbn [snd].
  rewrite Forall_forall in B5. destruct (B5 _ Hin) as (Hhead & _).
  cbn [fst snd] in Hhead. destruct al as [|a al]; [done|].
  injection Hhead as ->. unfold is_hit. cbn [existsb]. fold t.
  by rewrite Hc.
Qed.

(** *** [process_bib_text] *)

Lemma join_infix sep (ls : list str) (l : str) :
  l ∈ ls → infix_of l (join sep ls).
Proof.
  induction ls as [|x ls IH]; intros Hin; [by apply elem_of_nil in Hin|].
  destruct ls as [|y ls].
  { apply list_elem_of_singleton in Hin as ->. exists [], []. cbn [join app].
    by rewrite app_nil_r. }
  rewrite join_cons by done. apply elem_of_cons in Hin as [->|Hin].
  - by exists [], (sep ++ join sep (y :: ls)).
  - destruct (IH Hin) as (u & v & ->). exists (x ++ sep ++ u), v.
    by rewrite <- !app_assoc.
Qed.

Lemma rebuild_entry_line {R} (ty key : str) (fields : list (str * str * R))
    o c f :
  f ∈ fields → infix_of (field_line f) (rebuild_entry ty key fields o c).
Proof.
  intros Hf. apply join_infix. apply elem_of_app. right. apply elem_of_app.
  left. by apply list_elem_of_fmap_2.
Qed.

Lemma search_fields_idx (fields : list (str * str * option str)) :
  ∀ i vals idx vals' j,
    search_fields fields i vals idx = (vals', Some j) →
    idx = Some j ∨ i ≤ j < i + length fields.
Proof.
  induction fields as [|[[name val] raw] fields IH];
    intros i vals idx vals' j Hs; cbn [search_fields] in Hs.
  - injection Hs as _ ->. by left.
  - cbv zeta in Hs. cbn [length]. case_bool_decide.
    + apply IH in Hs as [[= ->]|?]; right; lia.
    + case_bool_decide; apply IH in Hs as [?|?]; (by left) || (right; lia).
Qed.

Lemma per_kw_fold (r : str) (hits : list str) :
  ∀ (m : gmap str (list str)) h e,
    e ∈ default []
          (foldl (fun per_kw h => <[h := default [] (per_kw !! h) ++ [r]]> per_kw)
             m hits !! h) →
    e ∈ default [] (m !! h) ∨ (e = r ∧ h ∈ hits).
Proof.
  induction hits as [|h' hits IH]; intros m h e He; cbn [foldl] in He.
  { by left. }
  apply IH in He as [He|[-> Hh]].
  - destruct (decide (h' = h)) as [->|Hne].
    + rewrite lookup_insert_eq in He. cbn [default] in He.
      apply elem_of_app in He as [?|He]; [by left|].
      apply list_elem_of_singleton in He as ->. right. split; [done|].
      by left.
    + rewrite lookup_insert_ne in He by done. by left.
  - right. split; [done|]. by apply elem_of_cons; right.
Qed.

(** One piece: it is copied or rebuilt, and a rebuilt entry is filed with
    the line that tells why. *)
Lemma process_piece_spec (aliases : list (str * list str)) (a : acc)
    (piece : piece_kind * str) :
  ∃ a' r, process_piece aliases a piece = Ret a'
    ∧ rebuilt_pieces a' = rebuilt_pieces a ++ [r]
    ∧ (piece.1 = NonEntry →
       r = piece.2 ∧ per_kw a' = per_kw a
       ∧ nomatch_entries a' = nomatch_entries a)
    ∧ (∀ e, e ∈ nomatch_entries a' →
         e ∈ nomatch_entries a ∨ (e = r ∧ infix_of (searchword_line []) e))
    ∧ (∀ h e, e ∈ default [] (per_kw a' !! h) →
         e ∈ default [] (per_kw a !! h)
         ∨ (e = r ∧ ∃ hits, h ∈ hits ∧ infix_of (searchword_line hits) e)).
Proof.
  destruct piece as [kind chunk]. unfold process_piece.
  assert (∃ a' r,
            Ret (Acc (rebuilt_pieces a ++ [chunk]) (per_kw a)
                   (nomatch_entries a)) = Ret a'
            ∧ rebuilt_pieces a' = rebuilt_pieces a ++ [r]
            ∧ ((kind, chunk).1 = NonEntry →
               r = (kind, chunk).2 ∧ per_kw a' = per_kw a
               ∧ nomatch_entries a' = nomatch_entries a)
            ∧ (∀ e, e ∈ nomatch_entries a' →
                 e ∈ nomatch_entries a
                 ∨ (e = r ∧ infix_of (searchword_line []) e))
            ∧ (∀ h e, e ∈ default [] (per_kw a' !! h) →
                 e ∈ default [] (per_kw a !! h)
                 ∨ (e = r
                    ∧ ∃ hits, h ∈ hits ∧ infix_of (searchword_line hits) e)))
    as Hsame.
  { eexists _, chunk. split; [done|]. cbn. repeat split; by left. }
  destruct kind; [done|].
  destruct (parse_entry_header chunk) as [[[[etype key] body] o] c].
  case_bool_decide as Het; [done|]. clear Hsame.
  destruct (parse_fields_loop_returns (S (length body)) body 0 [])
    as [parsed Hp]; [lia|].
  unfold parse_fields. rewrite Hp. cbn [mbind outcome_bind].
  set (fields := (fun f : str * str * str => (f.1, Some f.2)) <$> parsed).
  destruct (search_fields fields 0 [] None) as [search_values idx_sw] eqn:Hsf.
  set (hits := match_keywords _ aliases).
  set (fields' := match idx_sw with
                  | Some idx => _
                  | None => _
                  end).
  set (r := rebuild_entry (default [] etype) (default [] key) fields' o c).
  assert (infix_of (searchword_line hits) r) as Hline.
  { apply (rebuild_entry_line _ _ fields' o c
             (py "searchWord", search_val hits, None)).
    unfold fields'. destruct idx_sw as [idx|].
    - apply search_fields_idx in Hsf as [?|Hidx]; [done|].
      eapply list_elem_of_lookup_2. apply list_lookup_insert_eq. lia.
    - apply elem_of_app. right. by apply list_elem_of_singleton. }
  eexists _, r. split; [done|]. cbn [rebuilt_pieces per_kw nomatch_entries].
  split; [done|]. split; [done|]. split.
  - intros e He. destruct hits as [|h0 hits0] eqn:Hh; [|by left].
    apply elem_of_app in He as [?|He]; [by left|].
    apply list_elem_of_singleton in He as ->. by right.
  - intros h e He. destruct hits as [|h0 hits0] eqn:Hh; [by left|].
    rewrite <- Hh in *. apply per_kw_fold in He as [?|[-> Hin]]; [by left|].
    right. split; [done|]. by exists hits.
Qed.

Lemma fold_pieces (aliases : list (str * list str))
    (pieces : list (piece_kind * str)) :
  ∀ a, ∃ a' rs,
    foldl (fun r piece => a ← r; process_piece aliases a piece) (Ret a) pieces
    = Ret a'
    ∧ rebuilt_pieces a' = rebuilt_pieces a ++ rs
    ∧ length rs = length pieces
    ∧ (∀ i chunk, pieces !! i = Some (NonEntry, chunk) → rs !! i = Some chunk)
    ∧ (∀ e, e ∈ nomatch_entries a' →
         e ∈ nomatch_entries a ∨ (e ∈ rs ∧ infix_of (searchword_line []) e))
    ∧ (∀ h e, e ∈ default [] (per_kw a' !! h) →
         e ∈ default [] (per_kw a !! h)
         ∨ (e ∈ rs ∧ ∃ hits, h ∈ hits ∧ infix_of (searchword_line hits) e))
    ∧ (Forall (fun p => p.1 = NonEntry) pieces →
       per_kw a' = per_kw a ∧ nomatch_entries a' = nomatch_entries a
       ∧ rs = pieces.*2).
Proof.
  induction pieces as [|p ps IH]; intros a.
  { exists a, []. cbn. rewrite app_nil_r. repeat split; try done; by left. }
  destruct (process_piece_spec aliases a p) as (a1 & r & Hp & P1 & P2 & P3 & P4).
  destruct (IH a1) as (a' & rs & Hf & F1 & F2 & F3 & F4 & F5 & F6).
  exists a', (r :: rs). cbn [foldl mbind outcome_bind]. rewrite Hp.
  split; [done|]. split; [by rewrite F1, P1, <- app_assoc|].
  split; [simpl; lia|]. split; [|split; [|split]].
  - intros [|i] chunk Hi; cbn in Hi |- *; [|by apply F3].
    injection Hi as ->. f_equal. by apply P2.
  - intros e He. destruct (F4 e He) as [Ho|[? ?]].
    + destruct (P3 e Ho) as [?|[-> ?]]; [by left|]. right. split; [|done].
      by left.
    + right. split; [|done]. by apply elem_of_cons; right.
  - intros h e He. destruct (F5 h e He) as [Ho|[? ?]].
    + destruct (P4 h e Ho) as [?|[-> ?]]; [by left|]. right. split; [|done].
      by left.
    + right. split; [|done]. by apply elem_of_cons; right.
  - intros Hall. apply Forall_cons in Hall as [Hp1 Hps].
    destruct (P2 Hp1) as (-> & Q1 & Q2).
    destruct (F6 Hps) as (G1 & G2 & ->).
    split; [congruence|]. split; [congruence|done].
Qed.

(** X10: [process_bib_text] returns for every text.  The pieces of its
    output are as many as the pieces of the input; a piece that is not an
    entry is copied as it is, at its place.  Every entry filed under
    [NoMatch] is a rebuilt entry of the output with the line
    [searchWord = {NoMatch},], and every entry filed under a keyword is a
    rebuilt entry of the output whose [searchWord] line lists hits that
    this keyword is one of.  A text without [@] comes back unchanged, with
    nothing filed. *)
Theorem process_bib_text_files (bibtext : str)
    (aliases : list (str * list str)) :
  ∃ pieces a,
    split_entries bibtext = Ret pieces
    ∧ process_bib_text bibtext aliases
      = Ret (concat (rebuilt_pieces a), per_kw a, nomatch_entries a)
    ∧ length (rebuilt_pieces a) = length pieces
    ∧ (∀ i chunk, pieces !! i = Some (NonEntry, chunk) →
         rebuilt_pieces a !! i = Some chunk)
    ∧ (∀ e, e ∈ nomatch_entries a →
         e ∈ rebuilt_pieces a ∧ infix_of (searchword_line []) e)
    ∧ (∀ h e, e ∈ default [] (per_kw a !! h) →
         e ∈ rebuilt_pieces a
         ∧ ∃ hits, h ∈ hits ∧ infix_of (searchword_line hits) e)
    ∧ (AT ∉ bibtext →
       concat (rebuilt_pieces a) = bibtext ∧ per_kw a = ∅
       ∧ nomatch_entries a = []).
Proof.
  destruct (SplitFacts.split_loop_returns (S (length bibtext - 0)) bibtext 0 [])
    as [pieces Hs]; [lia..|].
  destruct (split_loop_inv (S (length bibtext - 0)) bibtext 0 [] pieces)
    as [Hcat Hshape]; [lia|done|done|exact Hs|].
  destruct (fold_pieces aliases pieces (Acc [] ∅ []))
    as (a & rs & Hf & F1 & F2 & F3 & F4 & F5 & F6).
  cbn [rebuilt_pieces per_kw nomatch_entries app] in *.
  exists pieces, a. split; [exact Hs|].
  unfold process_bib_text, split_entries, split_from. rewrite Hs.
  cbn [mbind outcome_bind]. rewrite Hf. cbn [mbind outcome_bind].
  split; [done|]. rewrite F1. split; [done|]. split; [done|].
  split; [|split].
  - intros e He. destruct (F4 e He) as [Hn|?]; [|done].
    by apply elem_of_nil in Hn.
  - intros h e He. destruct (F5 h e He) as [Hn|?]; [|done].
    rewrite lookup_empty in Hn. by apply elem_of_nil in Hn.
  - intros Hat. destruct F6 as (-> & -> & ->); [|done].
    apply Forall_forall. intros [kind chunk] Hin. cbn [fst].
    destruct kind; [done|]. exfalso. apply Hat.
    rewrite Forall_forall in Hshape. destruct (Hshape _ Hin)
      as (name & o & rest & Hchunk & _). cbn [snd] in Hchunk.
    rewrite <- Hcat. apply list_elem_of_In, in_concat. exists chunk. split.
    + apply list_elem_of_In, list_elem_of_fmap. by exists (Entry, chunk).
    + apply list_elem_of_In. rewrite Hchunk. by left.
Qed.

End Aliases.

End KeywordsProps.

(** ** Keywords.py and Screening.py: the field [searchWord] *)

Module SearchWordProps.

Lemma split_go_last c (w : str) :
  c ∉ w → ∀ cur, split_go c w cur = [cur ++ w].
Proof.
  induction w as [|x w IH]; intros Hc cur; cbn [split_go].
  - by rewrite app_nil_r.
  - apply not_elem_of_cons in Hc as [Hx Hw].
    destruct (N.eqb_spec x c) as [?|_]; [congruence|].
    rewrite IH by done. by rewrite <- app_assoc.
Qed.

Lemma split_go_sep c (w rest : str) :
  c ∉ w → ∀ cur,
    split_go c (w ++ c :: rest) cur = (cur ++ w) :: split_go c rest [].
Proof.
  induction w as [|x w IH]; intros Hc cur; cbn [split_go app].
  - by rewrite N.eqb_refl, app_nil_r.
  - apply not_elem_of_cons in Hc as [Hx Hw].
    destruct (N.eqb_spec x c) as [?|_]; [congruence|].
    rewrite IH by done. by rewrite <- app_assoc.
Qed.

Lemma split_go_joined (t : list str) :
  Forall (fun h => SEMI ∉ h) t →
  ∀ h cur, SEMI ∉ h →
    split_go SEMI (join [SEMI; SPACE] (h :: t)) cur
    = (cur ++ h) :: ((fun w => SPACE :: w) <$> t).
Proof.
  induction 1 as [|h2 t Hh2 _ IH]; intros h cur Hh.
  - cbn [join]. by apply split_go_last.
  - rewrite join_cons by done. cbn [app].
    rewrite split_go_sep by done. f_equal.
    cbn [split_go N.eqb Pos.eqb app]. rewrite IH by done. done.
Qed.

Lemma strip_idem (s : str) : strip (strip s) = strip s.
Proof.
  unfold strip.
  rewrite (NormFacts.lstrip_rstrip (lstrip s))
    by apply NormFacts.drop_while_idem.
  apply NormFacts.rstrip_idem.
Qed.

(** What [searchword_list] makes of the value [search_val] writes. *)
Lemma searchword_list_search_val (hits : list str) :
  Forall (fun h => h ≠ [] ∧ strip h = h ∧ SEMI ∉ h) hits →
  Screening.searchword_list (Keywords.search_val hits)
  = match hits with [] => [py "NoMatch"] | _ => hits end.
Proof.
  intros Hhits. destruct hits as [|h t]; [done|].
  unfold Keywords.search_val, Screening.searchword_list, split_char.
  change (py "; ") with [SEMI; SPACE].
  apply Forall_cons in Hhits as [(Hne & Hs & Hsemi) Ht].
  rewrite split_go_joined; [|by eapply Forall_impl; [exact Ht|]; intros ? (_ & _ & ?)|done].
  cbn [app fmap list_fmap]. rewrite Hs. rewrite filter_cons_True by done.
  f_equal. fold (@fmap list _). rewrite <- list_fmap_compose.
  clear -Ht. induction Ht as [|h2 t (Hne & Hs & _) _ IH]; [done|].
  cbn [fmap list_fmap compose]. fold (@fmap list _).
  assert (strip (SPACE :: h2) = h2) as -> by (rewrite <- Hs at 2; done).
  rewrite filter_cons_True by done. f_equal. exact IH.
Qed.

Section RoundTrip.
Context `{PyLib}.

(** X9: the list Screening.py derives from the field [searchWord] is the
    list of hits Keywords.py wrote into it.  For keywords and dictionary
    keys without [;], [searchword_list] applied to the value that
    [process_bib_text] writes for the hits of [match_keywords] gives these
    hits back, in order; for no hit at all the value is [NoMatch] and the
    list has this one word. *)
Theorem searchword_round_trip (text : str) (keywords : list str)
    (alias_map : list (str * list str)) :
  (∀ k, k ∈ keywords ++ alias_map.*1 → SEMI ∉ k) →
  let hits :=
    Keywords.match_keywords text
      (Keywords.build_aliases keywords alias_map).1 in
  Screening.searchword_list (Keywords.search_val hits)
  = match hits with [] => [py "NoMatch"] | _ => hits end.
Proof.
  intros Hsemi hits. apply searchword_list_search_val.
  destruct (KeywordsProps.build_aliases_facts keywords alias_map)
    as (_ & _ & _ & _ & _ & Hkeys).
  pose proof (KeywordsProps.match_keywords_filter text keywords alias_map)
    as Heq.
  apply Forall_forall. intros h Hh. unfold hits in Hh. rewrite Heq in Hh.
  apply list_elem_of_fmap in Hh as (ka & -> & Hka).
  apply list_elem_of_filter in Hka as [_ Hka].
  rewrite Forall_forall in Hkeys.
  destruct (Hkeys ka.1) as [Hne Hin]; [by apply list_elem_of_fmap_2|].
  apply list_elem_of_fmap in Hin as (k & Hk & Hin).
  split; [done|]. rewrite Hk. split; [apply strip_idem|].
  intros Hc. apply NormFacts.strip_elem in Hc. by apply (Hsemi k).
Qed.

End RoundTrip.

Lemma searchword_round_trip_witness :
  let keywords := [py "BIM"; py "AI"] in
  let alias_map := [(py "AI", [py "machine learning"])] in
  let hits :=
    Keywords.match_keywords (py "Bim and  Machine learning")
      (Keywords.build_aliases keywords alias_map).1 in
  hits = [py "BIM"; py "AI"]
  ∧ Screening.searchword_list (Keywords.search_val hits)
    = match hits with [] => [py "NoMatch"] | _ => hits end.
Proof.
  intros keywords alias_map hits. split; [vm_compute; reflexivity|].
  apply (searchword_round_trip (py "Bim and  Machine learning") keywords
           alias_map).
  apply (Forall_forall (fun k => SEMI ∉ k)).
  apply (bool_decide_unpack _). vm_compute. exact I.
Defined.

End SearchWordProps.

(** ** Add_type.py: the spans of the entries and the inserted field *)

Module AddTypeProps.
Import AddType.

Lemma spans_from_weaken (text : str) (es : list entry) :
  ∀ i c j, spans_from text i es c → c ≤ j → spans_from text i es j.
Proof.
  induction es as [|[[[ty raw] a] b] es IH]; intros i c j Hs Hle;
    cbn [spans_from] in *; [lia|].
  destruct Hs as (? & ? & ? & ? & Hs). repeat split; try done.
  by eapply IH.
Qed.

Lemma spans_from_snoc (text : str) (es : list entry) ty raw a b :
  ∀ i c j, spans_from text i es c → c ≤ a → a < b →
    raw = slice text a b → text !! a = Some AT → b ≤ j →
    spans_from text i (es ++ [(ty, raw, a, b)]) j.
Proof.
  induction es as [|[[[ty' raw'] a'] b'] es IH];
    intros i c j Hs Hca Hab Hraw Hat Hbj; cbn [spans_from app] in *.
  - repeat split; (done || lia).
  - destruct Hs as (? & ? & ? & ? & Hs). repeat split; try done.
    by eapply IH.
Qed.

Lemma spans_from_le (text : str) (es : list entry) :
  ∀ i j, spans_from text i es j → i ≤ j.
Proof.
  induction es as [|[[[ty raw] a] b] es IH]; intros i j Hs;
    cbn [spans_from] in *; [done|].
  destruct Hs as (? & ? & _ & _ & Hs). apply IH in Hs. lia.
Qed.

(** A header starts with [@]. *)
Lemma re_search_head_at (text : str) i m :
  i ≤ length text →
  re_search RE_ENTRY_HEAD text i = Some m → text !! m_start m = Some AT.
Proof.
  intros Hi. unfold re_search, cursor_at.
  rewrite Nat.min_l by done. cbn [before ahead pos]. intros Hs.
  apply search_go_found in Hs as (d & bef' & Hd & Hm).
  pose proof (match_at_bounds _ _ _ Hm) as [-> _]. cbn [pos].
  apply (starts_with_seq (N.eqb AT)) in Hm as (x & Hx & Hxa).
  apply N.eqb_eq in Hxa as <-. rewrite drop_drop in Hx.
  rewrite <- (Nat.add_0_r (i + d)), <- lookup_drop.
  by destruct (drop (i + d) text).
Qed.

Lemma extract_loop_spans fuel (text : str) i es l :
  i ≤ length text → spans_from text 0 es i →
  extract_loop fuel text i es = Ret l →
  spans_from text 0 l (length text).
Proof.
  revert i es. induction fuel as [|fuel IH]; intros i es Hi Hes Hr; [done|].
  cbn [extract_loop] in Hr.
  destruct (re_search RE_ENTRY_HEAD text i) as [m|] eqn:Hs.
  2: { injection Hr as <-. by eapply spans_from_weaken. }
  pose proof (re_search_head_at _ _ _ Hi Hs) as Hat.
  pose proof (AddTypeFacts.re_search_head _ _ _ Hi Hs)
    as (H1 & H2 & H3 & Hk & Ho & Hoo).
  pose proof (AddTypeFacts.balance_loop_bounds (open_delim text m)
                (close_delim text m) (drop (open_pos m) text) (open_pos m) 0)
    as Hbd.
  rewrite length_drop in Hbd.
  destruct (balance_loop _ _ _ _ _) as [p depth] eqn:Hb. cbn [fst] in Hbd.
  destruct (depth =? 0)%Z; cbn [negb] in Hr.
  - eapply IH; [| |exact Hr]; [lia|].
    eapply spans_from_snoc; [exact Hes|..]; (done || lia).
  - eapply IH; [| |exact Hr]; [lia|]. eapply spans_from_weaken; [done|lia].
Qed.

(** X11: [extract_bibtex_entries] returns for every text, and the entries
    it returns lie in the text one after the other: each starts at or
    after the end of the one before, is not empty, starts with [@], holds
    exactly the text of its span, and the last ends within the text. *)
Theorem extract_bibtex_entries_spans (text : str) :
  ∃ entries, extract_bibtex_entries text = Ret entries
    ∧ spans_from text 0 entries (length text).
Proof.
  destruct (AddTypeFacts.extract_from_returns text 0 []) as [l Hl]; [lia|].
  exists l. split; [exact Hl|].
  eapply (extract_loop_spans _ text 0 []); [lia|simpl; lia|exact Hl].
Qed.

(** *** [insert_type_field] *)

(** The indentation [insert_type_field] copies is a run of blanks and
    tabs. *)
Lemma indent_blank (after : str) m :
  re_search RE_INDENT_FIELD after 0 = Some m →
  ∃ w, group after m 1 = Some w
    ∧ Forall (fun c => (c =? SPACE)%N || (c =? 9)%N = true) w.
Proof.
  unfold re_search, cursor_at. cbn [Nat.min before ahead pos drop]. intros Hs.
  apply search_go_found in Hs as (d & bef' & Hd & Hm). cbn [Nat.add] in Hm.
  revert Hm. unfold match_at.
  destruct (mtch RE_INDENT_FIELD accept _ ∅) as [[e g]|] eqn:Hm; [|done].
  intros [= <-]. unfold RE_INDENT_FIELD, seqs in Hm. cbn [foldr] in Hm.
  apply mtch_chr_seq in Hm as (x & t & Hxt & _ & Hm). cbn [ahead pos] in *.
  set (B := fun c : N => (c =? SPACE)%N || (c =? 9)%N) in *.
  set (REST := Seq (Chr (fun c => AZ c || az c)) _) in Hm.
  set (c1 := Cursor (Some x) t (S d)) in Hm.
  assert (mtch (Seq (Grp 1 (star (Chr B))) REST) accept c1 ∅
          = rep_loop (mtch (Chr B)) true (S (length (ahead c1))) 0 None
              (fun c' g' => mtch REST accept c' (<[1 := (pos c1, pos c')]> g'))
              c1 ∅) as Heq by reflexivity.
  rewrite Heq in Hm. clear Heq.
  apply rep_loop_chr_reads in Hm as (w & rest & bef & Hw & Hall & Hm).
  cbn [pos ahead c1] in Hw, Hm.
  apply (mtch_keeps_caps REST) in Hm as (c' & _ & Hacc); [|done].
  injection Hacc as _ <-.
  exists w. split; [|done]. unfold group. cbn [m_groups].
  rewrite lookup_insert_eq. cbn [fmap option_fmap option_map]. f_equal.
  unfold slice. rewrite drop_0 in Hxt. replace (drop (S d) after) with t.
  2: { replace (S d) with (d + 1) by lia. by rewrite <- drop_drop, Hxt. }
  replace (S (d + length w) - S d) with (length w) by lia.
  rewrite Hw. by rewrite take_app_length.
Qed.

(** What [insert_type_field] does to an entry. *)
Lemma insert_type_field_cases (raw v : str) :
  insert_type_field raw v = raw
  ∨ (∃ k indent,
       raw !! k = Some COMMA
       ∧ Forall (fun c => (c =? SPACE)%N || (c =? 9)%N = true) indent
       ∧ insert_type_field raw v
         = take (k + 1) raw ++ ([NL] ++ indent ++ type_line v ++ py ",")
           ++ drop (k + 1) raw)
  ∨ (∃ k c,
       raw !! k = Some c ∧ (c = RBRACE ∨ c = RPAREN)
       ∧ insert_type_field raw v
         = take k raw ++ (py "," ++ [NL] ++ type_line v ++ [NL])
           ++ drop k raw).
Proof.
  unfold insert_type_field.
  destruct (re_search RE_ENTRY_HEAD raw 0) as [head|]; [|by left].
  destruct (find_char COMMA raw (open_pos head + 1)) as [comma_pos|] eqn:Hc.
  - right. left. apply find_char_lookup in Hc as [Hc _].
    destruct (re_search RE_INDENT_FIELD (drop (comma_pos + 1) raw) 0)
      as [m_ind|] eqn:Hi.
    + destruct (indent_blank _ _ Hi) as (w & -> & Hw).
      exists comma_pos, w. by rewrite <- !app_assoc.
    + exists comma_pos, []. by rewrite <- !app_assoc.
  - set (close := if bool_decide (raw !! open_pos head = Some LBRACE)
                  then RBRACE else RPAREN).
    destruct (rfind_char close raw) as [close_pos|] eqn:Hr; [|by left].
    right. right. exists close_pos, close.
    split; [|split].
    + apply UniqueFacts.rfind_char_spec in Hr. apply Hr.
    + unfold close. case_bool_decide; [by left|by right].
    + by rewrite <- !app_assoc.
Qed.

(** X12: [insert_type_field] only inserts.  It returns the entry as it
    is, or the entry with a new line [type = {value},] put right after the
    a comma of the entry, indented by a (possibly empty) run of blanks and
    tabs, or the entry with [,] and a line [type = {value}] put right
    before one of its closing delimiters.  No character of the entry is
    removed or reordered. *)
Theorem insert_type_field_inserts (raw_entry type_value : str) :
  insert_type_field raw_entry type_value = raw_entry
  ∨ (∃ k indent,
       raw_entry !! k = Some COMMA
       ∧ Forall (fun c => (c =? SPACE)%N || (c =? 9)%N = true) indent
       ∧ insert_type_field raw_entry type_value
         = take (k + 1) raw_entry
           ++ ([NL] ++ indent ++ type_line type_value ++ py ",")
           ++ drop (k + 1) raw_entry)
  ∨ (∃ k c,
       raw_entry !! k = Some c ∧ (c = RBRACE ∨ c = RPAREN)
       ∧ insert_type_field raw_entry type_value
         = take k raw_entry
           ++ (py "," ++ [NL] ++ type_line type_value ++ [NL])
           ++ drop k raw_entry).
Proof. apply insert_type_field_cases. Qed.

(** *** [process_text_add_type] *)

Lemma insert_type_field_length (raw v : str) :
  length raw ≤ length (insert_type_field raw v)
  ∧ (insert_type_field raw v ≠ raw →
     length raw < length (insert_type_field raw v)).
Proof.
  destruct (insert_type_field_cases raw v)
    as [->|[(k & indent & Hk & _ & ->)|(k & c & Hk & _ & ->)]].
  - split; [lia|done].
  - apply lookup_lt_Some in Hk.
    rewrite !length_app, length_take, length_drop. simpl. lia.
  - apply lookup_lt_Some in Hk.
    rewrite !length_app, length_take, length_drop. simpl. lia.
Qed.

Section Process.
Context `{PyLib}.

Lemma add_type_fold (text : str) (entries : list entry) :
  ∀ parts cursor changes,
    spans_from text cursor entries (length text) →
    ∃ parts' cursor' changes',
      foldl (add_type_step text) (parts, cursor, changes) entries
      = (parts', cursor', changes')
      ∧ cursor' ≤ length text
      ∧ changes ≤ changes' ≤ changes + length entries
      ∧ (cursor + changes ≤ length (concat parts) →
         cursor' + changes' ≤ length (concat parts'))
      ∧ (changes' = 0 → concat parts = take cursor text →
         concat parts' = take cursor' text).
Proof.
  induction entries as [|[[[ty raw] a] b] entries IH];
    intros parts cursor changes Hs; cbn [spans_from] in Hs.
  { exists parts, cursor, changes. cbn. repeat split; (done || lia). }
  destruct Hs as (Hca & Hab & Hraw & _ & Hs).
  pose proof (spans_from_le _ _ _ _ Hs) as Hbn.
  cbn [foldl]. unfold add_type_step at 2.
  set (parts1 := parts ++ [slice text cursor a]).
  assert (length (concat parts1) = length (concat parts) + (a - cursor))
    as Hl1.
  { unfold parts1. rewrite concat_app, length_app. simpl.
    rewrite app_nil_r. unfold slice. rewrite length_take, length_drop. lia. }
  assert (length raw = b - a) as Hlraw.
  { rewrite Hraw. unfold slice. rewrite length_take, length_drop. lia. }
  assert (concat parts = take cursor text →
          concat (parts1 ++ [raw]) = take b text) as Hsame.
  { intros Hc. unfold parts1. rewrite !concat_app. simpl.
    rewrite !app_nil_r, Hc, Hraw. rewrite take_slice by lia.
    apply take_slice. lia. }
  assert (∀ x, length (concat (parts1 ++ [x]))
               = length (concat parts) + (a - cursor) + length x) as Hlx.
  { intros x. rewrite concat_app, length_app. simpl. rewrite app_nil_r. lia. }
  destruct (bool_decide _ || has_type_field raw).
  - destruct (IH (parts1 ++ [raw]) b changes Hs)
      as (parts' & cursor' & changes' & -> & I1 & I2 & I3 & I4).
    exists parts', cursor', changes'. split; [done|]. split; [done|].
    split; [simpl; lia|]. split.
    + intros Hlen. apply I3. rewrite Hlx. lia.
    + intros Hz Hc. apply I4; [done|]. by apply Hsame.
  - set (fixed := insert_type_field raw _).
    destruct (insert_type_field_length raw
                (derive_type_value (Some (str_lower ty)))) as [Hle Hlt].
    fold fixed in Hle, Hlt.
    case_bool_decide as Hne.
    + destruct (IH (parts1 ++ [fixed]) b (changes + 1) Hs)
        as (parts' & cursor' & changes' & -> & I1 & I2 & I3 & I4).
      exists parts', cursor', changes'. split; [done|]. split; [done|].
      split; [simpl; lia|]. split.
      * intros Hlen. apply I3. rewrite Hlx. specialize (Hlt Hne). lia.
      * intros Hz. lia.
    + destruct (IH (parts1 ++ [fixed]) b changes Hs)
        as (parts' & cursor' & changes' & -> & I1 & I2 & I3 & I4).
      exists parts', cursor', changes'. split; [done|]. split; [done|].
      split; [simpl; lia|]. split.
      * intros Hlen. apply I3. rewrite Hlx. lia.
      * intros Hz Hc. apply I4; [done|]. rewrite Hne. by apply Hsame.
Qed.

(** X13: [process_text_add_type] returns for every text.  The text it
    returns is the input with fields inserted and nothing else changed:
    it is never shorter, it is at least as much longer as entries are
    counted as changed, and it equals the input exactly when that count is
    zero.  The count never exceeds the number of entries found. *)
Theorem process_text_add_type_counts (text : str) :
  ∃ entries out changes,
    extract_bibtex_entries text = Ret entries
    ∧ process_text_add_type text = Ret (out, changes)
    ∧ changes ≤ length entries
    ∧ length text + changes ≤ length out
    ∧ (changes = 0 ↔ out = text).
Proof.
  destruct (AddTypeFacts.extract_from_returns text 0 []) as [l Hl]; [lia|].
  pose proof (extract_loop_spans _ text 0 [] l ltac:(lia) ltac:(simpl; lia) Hl)
    as Hs.
  exists l. unfold process_text_add_type, extract_bibtex_entries.
  rewrite Hl. cbn [mbind outcome_bind].
  destruct (add_type_fold text l [] 0 0 Hs)
    as (parts & cursor & changes & Hf & F1 & F2 & F3 & F4).
  destruct l as [|e l'] eqn:Hl'.
  { exists text, 0. repeat split; (done || simpl; lia). }
  rewrite <- Hl' in *. rewrite Hf.
  exists (concat (parts ++ [drop cursor text])), changes.
  split; [done|]. split; [done|]. split; [lia|].
  assert (length (concat (parts ++ [drop cursor text]))
          = length (concat parts) + (length text - cursor)) as Hlen.
  { rewrite concat_app, length_app. simpl. by rewrite app_nil_r, length_drop. }
  specialize (F3 ltac:(simpl; lia)).
  split; [lia|]. split.
  - intros Hz. rewrite concat_app. simpl. rewrite app_nil_r.
    rewrite F4 by done. apply take_drop.
  - intros Heq. rewrite Heq in Hlen. lia.
Qed.

End Process.

End AddTypeProps.

(** ** clean_ISSN.py: the report groups and the normalised ISSN *)

Module CleanProps.
Section Groups.
Context `{PyLib}.

Lemma first_only_snoc (bucket : list (nat * bool * str)) x :
  first_only (bucket ++ [x])
  = first_only bucket ++ [bool_decide (bucket ≠ [])].
Proof.
  destruct bucket as [|y rest]; [done|].
  cbn [app first_only]. rewrite fmap_app. done.
Qed.

Lemma clean_groups_inv_step (st : CleanISSN.state) (prev : list str) e :
  clean_groups_inv st prev →
  clean_groups_inv (CleanISSN.step st (length prev) e) (prev ++ [e]).
Proof.
  intros [Hseen Hgroups]. unfold CleanISSN.step.
  assert (∀ k', Some k' ∈ CleanISSN.entry_key <$> prev ++ [e]
                ↔ k' ∈ CleanISSN.seen st ∨ CleanISSN.entry_key e = Some k')
    as Hmem.
  { intros k'. rewrite fmap_app, elem_of_app, Hseen.
    cbn [fmap list_fmap]. rewrite list_elem_of_singleton. naive_solver. }
  assert (∀ bucket : list (nat * bool * str),
            Forall (fun x => prev !! x.1.1 = Some x.2) bucket →
            Forall (fun x => (prev ++ [e]) !! x.1.1 = Some x.2) bucket)
    as Hlook.
  { intros bucket Hb. eapply Forall_impl; [exact Hb|]. intros x Hx.
    by apply lookup_app_l_Some. }
  destruct (CleanISSN.entry_key e) as [k0|] eqn:Hkey; split;
    cbn [CleanISSN.seen CleanISSN.groups].
  - intros k'. rewrite Hmem. case_bool_decide as Hin.
    + split; [by left|]. by intros [?|[= <-]].
    + rewrite elem_of_union, elem_of_singleton.
      split; [intros [->|?]; [by right|by left]|].
      intros [?|[= ->]]; [by right|by left].
  - intros k. destruct (Hgroups k0) as (G1 & G2 & G3).
    destruct (decide (k = k0)) as [->|Hne].
    + rewrite lookup_insert_eq, UniqueFacts.default_Some. cbv zeta.
      rewrite !fmap_app, filter_app, G1. cbn [fmap list_fmap].
      rewrite filter_cons_True by done. split; [done|]. split.
      * apply Forall_app. split; [by apply Hlook|].
        apply Forall_singleton. cbn [fst snd].
        by apply list_lookup_middle.
      * rewrite first_only_snoc, G3. do 2 f_equal. cbn [fst snd].
        apply bool_decide_ext. rewrite Hseen.
        split.
        -- intros Hin Hb. rewrite Hb in G1. cbn in G1.
           apply list_elem_of_fmap in Hin as (e' & He' & Hin).
           assert (e' ∈ filter (fun e => CleanISSN.entry_key e = Some k0) prev)
             as Hf by (by apply list_elem_of_filter).
           rewrite <- G1 in Hf. by apply elem_of_nil in Hf.
        -- intros Hb. destruct (default [] (CleanISSN.groups st !! k0))
             as [|x rest] eqn:Hd; [done|].
           cbn [fmap list_fmap] in G1.
           assert (x.2 ∈ filter (fun e => CleanISSN.entry_key e = Some k0)
                           prev) as Hf by (rewrite <- G1; by left).
           apply list_elem_of_filter in Hf as [Hk Hin].
           rewrite <- Hk. by apply list_elem_of_fmap_2.
    + rewrite lookup_insert_ne by done. destruct (Hgroups k) as (G1' & G2' & G3').
      cbv zeta. rewrite filter_app. cbn [filter].
      rewrite filter_cons_False by congruence.
      rewrite filter_nil, app_nil_r. split; [done|]. split; [|done].
      by apply Hlook.
  - intros k'. rewrite Hmem. split; [by left|]. by intros [?|?].
  - intros k. destruct (Hgroups k) as (G1 & G2 & G3). cbv zeta.
    rewrite filter_app, filter_cons_False by congruence.
    rewrite filter_nil, app_nil_r. split; [done|]. split; [|done].
    by apply Hlook.
Qed.

Lemma clean_groups_loop (entries : list str) :
  ∀ st prev, clean_groups_inv st prev →
    clean_groups_inv (CleanISSN.clean_loop st (length prev) entries)
      (prev ++ entries).
Proof.
  induction entries as [|e entries IH]; intros st prev Hinv.
  - by rewrite app_nil_r.
  - cbn [CleanISSN.clean_loop].
    replace (prev ++ e :: entries) with ((prev ++ [e]) ++ entries)
      by (by rewrite <- app_assoc).
    replace (S (length prev)) with (length (prev ++ [e]))
      by (rewrite length_app; simpl; lia).
    apply IH. by apply clean_groups_inv_step.
Qed.

(** X14: the report groups of the duplicate pass of clean_ISSN.py.  The
    group of a key lists, in the order of the file, exactly the entries
    with this key, each with its index among the entries; its first item
    is marked kept and every later one removed.  So a group has a removed
    item, and is shown in the report, exactly when it has two entries or
    more. *)
Theorem clean_groups (entries : list str) (k : str * str) :
  let bucket := default [] (CleanISSN.groups (CleanISSN.clean entries) !! k) in
  snd <$> bucket = filter (fun e => CleanISSN.entry_key e = Some k) entries
  ∧ Forall (fun x => entries !! x.1.1 = Some x.2) bucket
  ∧ (fun x => x.1.2) <$> bucket = first_only bucket
  ∧ (existsb (fun x => x.1.2) bucket = true ↔ 2 ≤ length bucket).
Proof.
  assert (clean_groups_inv CleanISSN.initial []) as Hinit.
  { split; [intros k'; cbn; split; [set_solver|]|].
    - intros Hk. by apply elem_of_nil in Hk.
    - intros k'. cbn. rewrite lookup_empty. done. }
  pose proof (clean_groups_loop entries _ _ Hinit) as [_ Hg].
  cbn [app length] in Hg. destruct (Hg k) as (G1 & G2 & G3).
  cbv zeta. fold (CleanISSN.clean entries) in G1, G2, G3.
  split; [done|]. split; [done|]. split; [done|].
  destruct (default [] (CleanISSN.groups (CleanISSN.clean entries) !! k))
    as [|x rest]; [cbn; split; [done|lia]|].
  cbn [fmap list_fmap first_only] in G3. injection G3 as Hx Hrest.
  cbn [existsb length]. rewrite Hx. cbn [orb].
  destruct rest as [|y rest]; [cbn; split; [done|lia]|].
  cbn [fmap list_fmap] in Hrest. injection Hrest as Hy _.
  cbn [existsb length]. rewrite Hy. cbn. split; [lia|done].
Qed.

(** *** [normalize_issn] *)

Lemma issn_char_cases c :
  CleanISSN.issn_char c = true → ((48 ≤ c ≤ 57) ∨ c = 120 ∨ c = 88)%N.
Proof.
  unfold CleanISSN.issn_char, d09, in_range. intros Hc.
  repeat (apply orb_true_iff in Hc as [Hc|Hc]).
  - apply andb_true_iff in Hc as [?%N.leb_le ?%N.leb_le]. lia.
  - apply N.eqb_eq in Hc. lia.
  - apply N.eqb_eq in Hc. lia.
Qed.

Lemma issn_char_digit c :
  (48 ≤ c ≤ 57)%N → CleanISSN.issn_char c = true.
Proof.
  intros Hc. unfold CleanISSN.issn_char, d09, in_range.
  replace (48 <=? c)%N with true by (symmetry; apply N.leb_le; lia).
  by replace (c <=? 57)%N with true by (symmetry; apply N.leb_le; lia).
Qed.

(** X15: a normalised ISSN is a fixed point.  Where [str.upper] maps the
    characters [0-9xX] one by one, [x] to [X] and the others to
    themselves, whatever [normalize_issn] returns has nine characters,
    eight digits or [X] with a hyphen in the middle, and is returned as it
    is when it is normalised again. *)
Theorem normalize_issn_fixed (raw : option str) (issn : str) :
  (∀ s, Forall (fun c => CleanISSN.issn_char c = true) s →
        str_upper s = (fun c => if (c =? 120)%N then 88%N else c) <$> s) →
  CleanISSN.normalize_issn raw = Some issn →
  length issn = 9 ∧ issn !! 4 = Some 45%N
  ∧ Forall (fun c => (48 ≤ c ≤ 57 ∨ c = 88 ∨ c = 45)%N) issn
  ∧ CleanISSN.normalize_issn (Some issn) = Some issn.
Proof.
  intros Hup. unfold CleanISSN.normalize_issn at 1.
  change (py "-") with [45%N].
  destruct (negb (truthy raw)); [done|].
  rewrite re_sub_chr, CleanFacts.bind_filter.
  set (kept := filter (fun c => CleanISSN.issn_char c) (default [] raw)).
  assert (Forall (fun c => CleanISSN.issn_char c = true) kept) as Hkept.
  { apply Forall_forall. intros c Hc.
    apply list_elem_of_filter in Hc as [Hc _]. by apply Is_true_true. }
  rewrite (Hup kept Hkept).
  set (d := (fun c => if (c =? 120)%N then 88%N else c) <$> kept).
  assert (Forall (fun c => (48 ≤ c ≤ 57 ∨ c = 88)%N) d) as Hd.
  { unfold d. apply Forall_fmap. eapply Forall_impl; [exact Hkept|].
    intros c Hc. cbn. apply issn_char_cases in Hc.
    destruct (N.eqb_spec c 120); lia. }
  destruct (length d =? 8) eqn:Hlen; cbn [negb]; [|done].
  apply Nat.eqb_eq in Hlen. intros [= <-].
  assert (Forall (fun c => CleanISSN.issn_char c = true) d) as Hdi.
  { eapply Forall_impl; [exact Hd|]. intros c [Hc| ->]; [|done].
    by apply issn_char_digit. }
  assert (filter (fun c => CleanISSN.issn_char c) d = d) as Hfd.
  { apply NormFacts.filter_all. eapply Forall_impl; [exact Hdi|].
    intros c Hc. by apply Is_true_true. }
  assert ((fun c => if (c =? 120)%N then 88%N else c) <$> d = d) as Hud.
  { apply NormFacts.fmap_id_on. eapply Forall_impl; [exact Hd|].
    intros c Hc. cbv beta in Hc. destruct (N.eqb_spec c 120); [lia|done]. }
  change (take 4 d ++ 45%N :: drop 4 d)
    with (take 4 d ++ [45%N] ++ drop 4 d).
  split; [|split; [|split]].
  - rewrite !length_app, length_take, length_drop. cbn [length]. lia.
  - rewrite lookup_app_r by (rewrite length_take; lia).
    rewrite length_take.
    by replace (4 - 4 `min` length d) with 0 by lia.
  - apply Forall_app. split.
    + apply Forall_take. eapply Forall_impl; [exact Hd|].
      intros c Hc. cbv beta in Hc |- *. lia.
    + apply Forall_app. split; [apply Forall_singleton; lia|].
      apply Forall_drop. eapply Forall_impl; [exact Hd|].
      intros c Hc. cbv beta in Hc |- *. lia.
  - unfold CleanISSN.normalize_issn. change (py "-") with [45%N].
    assert (truthy (Some (take 4 d ++ [45%N] ++ drop 4 d)) = true) as ->.
    { destruct d as [|c d']; [done|]. done. }
    cbn [negb]. rewrite UniqueFacts.default_Some.
    rewrite re_sub_chr, CleanFacts.bind_filter.
    assert (filter (fun c => CleanISSN.issn_char c)
              (take 4 d ++ [45%N] ++ drop 4 d) = d) as Hf.
    { rewrite !filter_app.
      assert (filter (fun c => CleanISSN.issn_char c) [45%N] = []) as ->
        by done.
      cbn [app]. rewrite <- filter_app, take_drop. exact Hfd. }
    rewrite Hf, (Hup d Hdi), Hud.
    by replace (length d =? 8) with true by (symmetry; by apply Nat.eqb_eq).
Qed.

End Groups.

Lemma basic_latin_upper_issn (s : str) :
  Forall (fun c => CleanISSN.issn_char c = true) s →
  @str_upper basic_latin s = (fun c => if (c =? 120)%N then 88%N else c) <$> s.
Proof.
  intros Hs. cbn. apply Forall_fmap_ext. eapply Forall_impl; [exact Hs|].
  intros c Hc. cbn. apply issn_char_cases in Hc. unfold ascii_upper, az, in_range.
  destruct Hc as [Hc|[->| ->]]; [|done|done].
  replace (97 <=? c)%N with false by (symmetry; apply N.leb_gt; lia).
  cbn [andb]. destruct (N.eqb_spec c 120); [lia|done].
Qed.

Lemma normalize_issn_fixed_witness :
  @CleanISSN.normalize_issn basic_latin (Some (py "ISSN 1234-567x"))
  = Some (py "1234-567X")
  ∧ @CleanISSN.normalize_issn basic_latin (Some (py "1234-567X"))
    = Some (py "1234-567X").
Proof.
  split; [vm_compute; reflexivity|].
  apply (normalize_issn_fixed (Some (py "ISSN 1234-567x")) (py "1234-567X")
           basic_latin_upper_issn).
  vm_compute. reflexivity.
Defined.

End CleanProps.

Module ScreeningProps.
Import Screening.

(** *** [_ensure_trailing_comma_on_line] *)

Lemma rstrip_split (s : str) :
  ∃ w, s = rstrip s ++ w ∧ Forall (fun c => isspace c = true) w.
Proof.
  exists (reverse (take_while isspace (reverse s))). split.
  - unfold rstrip.
    rewrite <- reverse_app, NormFacts.take_drop_while.
    by rewrite reverse_involutive.
  - apply Forall_reverse, take_while_Forall.
Qed.

Lemma rstrip_snoc (s : str) c : isspace c = false → rstrip (s ++ [c]) = s ++ [c].
Proof.
  intros Hc. unfold rstrip. rewrite reverse_app. cbn [reverse app].
  change (reverse [c]) with [c]. cbn [app drop_while]. rewrite Hc.
  by rewrite reverse_cons, reverse_involutive.
Qed.

Lemma ends_with_app (suffix s : str) : ends_with suffix (s ++ suffix) = true.
Proof. apply bool_decide_eq_true. by exists s. Qed.

Lemma ends_with_last (suffix s : str) c :
  ends_with (suffix ++ [c]) s = true → last s = Some c.
Proof.
  intros [k ->]%bool_decide_eq_true. by rewrite app_assoc, last_snoc.
Qed.

Lemma find_char_parts (core : str) :
  ∃ main comment,
    core = main ++ comment ∧ PERCENT ∉ main
    ∧ (comment = [] ∨ head comment = Some PERCENT)
    ∧ match find_char PERCENT core 0 with
      | Some p => take p core | None => core end = main
    ∧ match find_char PERCENT core 0 with
      | Some p => drop p core | None => [] end = comment.
Proof.
  destruct (find_char PERCENT core 0) as [p|] eqn:Hf.
  - exists (take p core), (drop p core).
    apply find_char_lookup in Hf as [Hl Hn].
    unfold slice in Hn. rewrite drop_0, Nat.sub_0_r in Hn.
    split; [by rewrite take_drop|]. split; [done|]. split; [|done].
    right. by rewrite (drop_S _ _ _ Hl).
  - exists core, []. unfold find_char in Hf. rewrite drop_0 in Hf.
    apply find_in_none in Hf. rewrite app_nil_r. by repeat split; [|left].
Qed.

Lemma find_char_of_parts (main comment : str) :
  PERCENT ∉ main → (comment = [] ∨ head comment = Some PERCENT) →
  match find_char PERCENT (main ++ comment) 0 with
  | Some p => take p (main ++ comment) | None => main ++ comment end = main
  ∧ match find_char PERCENT (main ++ comment) 0 with
    | Some p => drop p (main ++ comment) | None => [] end = comment.
Proof.
  intros Hm Hc. unfold find_char. rewrite drop_0.
  assert (∀ i, find_in PERCENT (main ++ comment) i
               = match comment with
                 | [] => None | _ => Some (i + length main) end) as Hf.
  { induction main as [|x t IH]; intros i.
    - cbn [app length]. rewrite Nat.add_0_r.
      destruct Hc as [->|Hh]; [done|].
      destruct comment as [|y u]; [done|]. injection Hh as ->. done.
    - apply not_elem_of_cons in Hm as [Hx Ht]. cbn [app find_in length].
      destruct (N.eqb_spec x PERCENT) as [->|_]; [done|].
      rewrite (IH Ht). destruct comment; [done|]. f_equal. lia. }
  rewrite (Hf 0). destruct comment as [|y u].
  - by rewrite app_nil_r.
  - cbn [Nat.add]. by rewrite take_app_length, drop_app_length.
Qed.

Lemma comma_parts (line : str) :
  ∃ main comment nl,
    line = main ++ comment ++ nl ∧ line_break_of (main ++ comment) nl
    ∧ PERCENT ∉ main ∧ (comment = [] ∨ head comment = Some PERCENT)
    ∧ _ensure_trailing_comma_on_line line = with_comma main comment nl.
Proof.
  assert (∃ core nl, line = core ++ nl ∧ line_break_of core nl
            ∧ (if ends_with [CR; NL] line
               then ([CR; NL], take (length line - 2) line)
               else if ends_with [NL] line
                    then ([NL], take (length line - 1) line)
                    else ([], line)) = (nl, core))
    as (core & nl & Hl & Hnl & Hsplit).
  { destruct (ends_with [CR; NL] line) eqn:H2.
    { apply bool_decide_eq_true in H2 as [k ->].
      exists k, [CR; NL]. split; [done|]. split; [by left|].
      rewrite length_app. cbn [length].
      replace (length k + 2 - 2) with (length k) by lia.
      by rewrite take_app_length. }
    destruct (ends_with [NL] line) eqn:H1.
    { apply bool_decide_eq_true in H1 as [k ->].
      exists k, [NL]. split; [done|]. split.
      - right. left. split; [done|]. intros Hk.
        apply last_Some in Hk as [k' ->].
        rewrite <- app_assoc, ends_with_app in H2. done.
      - rewrite length_app. cbn [length].
        replace (length k + 1 - 1) with (length k) by lia.
        by rewrite take_app_length. }
    exists line, []. rewrite app_nil_r. split; [done|]. split; [|done].
    right. right. split; [done|]. intros Hk.
    apply last_Some in Hk as [k' ->]. by rewrite ends_with_app in H1. }
  destruct (find_char_parts core) as (main & comment & Hc & Hm & Hcm & Hp1 & Hp2).
  exists main, comment, nl. rewrite <- Hc.
  split; [by rewrite Hl, Hc, app_assoc|]. split; [done|].
  split; [done|]. split; [done|].
  unfold _ensure_trailing_comma_on_line. rewrite Hsplit, Hp1, Hp2. done.
Qed.

Lemma comma_of_parts (main comment nl : str) :
  line_break_of (main ++ comment) nl → PERCENT ∉ main →
  (comment = [] ∨ head comment = Some PERCENT) →
  _ensure_trailing_comma_on_line (main ++ comment ++ nl)
  = with_comma main comment nl.
Proof.
  intros Hnl Hm Hc. set (core := main ++ comment) in *.
  assert ((if ends_with [CR; NL] (core ++ nl)
           then ([CR; NL], take (length (core ++ nl) - 2) (core ++ nl))
           else if ends_with [NL] (core ++ nl)
                then ([NL], take (length (core ++ nl) - 1) (core ++ nl))
                else ([], core ++ nl)) = (nl, core)) as Hsplit.
  { destruct Hnl as [->|[[-> Hl]|[-> Hl]]].
    - rewrite ends_with_app, length_app. cbn [length].
      replace (length core + 2 - 2) with (length core) by lia.
      by rewrite take_app_length.
    - destruct (ends_with [CR; NL] (core ++ [NL])) eqn:H2.
      { apply bool_decide_eq_true in H2 as [k Hk].
        change [CR; NL] with ([CR] ++ [NL]) in Hk. rewrite app_assoc in Hk.
        apply app_inj_tail in Hk as [-> _]. by rewrite last_snoc in Hl. }
      rewrite ends_with_app, length_app. cbn [length].
      replace (length core + 1 - 1) with (length core) by lia.
      by rewrite take_app_length.
    - rewrite app_nil_r.
      destruct (ends_with [CR; NL] core) eqn:H2.
      { by apply (ends_with_last [CR]) in H2. }
      destruct (ends_with [NL] core) eqn:H1.
      { by apply (ends_with_last []) in H1. }
      done. }
  destruct (find_char_of_parts main comment Hm Hc) as [Hp1 Hp2].
  fold core in Hp1, Hp2.
  unfold _ensure_trailing_comma_on_line.
  replace (main ++ comment ++ nl) with (core ++ nl)
    by (unfold core; by rewrite app_assoc).
  rewrite Hsplit, Hp1, Hp2. done.
Qed.

(** X16: [_ensure_trailing_comma_on_line] is idempotent: a second pass
    returns what the first returned.  A pass returns the line as it is, or
    the line with one run of white space (possibly empty) that no [%]
    precedes replaced by a comma. *)
Theorem ensure_trailing_comma_idem (line : str) :
  let out := _ensure_trailing_comma_on_line line in
  _ensure_trailing_comma_on_line out = out
  ∧ (out = line
     ∨ ∃ main w rest,
         line = main ++ w ++ rest ∧ Forall (fun c => isspace c = true) w
         ∧ PERCENT ∉ main ∧ out = main ++ [COMMA] ++ rest).
Proof.
  cbv zeta.
  destruct (comma_parts line) as (main & comment & nl & Hl & Hnl & Hm & Hc & ->).
  unfold with_comma. destruct (endswith COMMA (rstrip main)) eqn:He.
  { rewrite <- Hl. split; [|by left].
    rewrite Hl at 1. rewrite (comma_of_parts _ _ _ Hnl Hm Hc).
    unfold with_comma. by rewrite He, Hl. }
  destruct (rstrip_split main) as (w & Hw & Hws).
  assert (PERCENT ∉ rstrip main) as Hm'.
  { intros Hin. apply Hm. rewrite Hw. apply elem_of_app. by left. }
  split.
  - change (rstrip main ++ [COMMA] ++ comment ++ nl)
      with (rstrip main ++ [COMMA] ++ (comment ++ nl)).
    rewrite (app_assoc (rstrip main)).
    rewrite comma_of_parts.
    + unfold with_comma. rewrite rstrip_snoc by done.
      unfold endswith. rewrite last_snoc.
      by rewrite bool_decide_eq_true_2.
    + destruct Hnl as [->|[[-> Hl']|[-> Hl']]]; [by left|right; left|right; right];
        (split; [done|]); intros Hk; apply Hl';
        (destruct comment as [|y u] using rev_ind;
         [rewrite app_nil_r, last_snoc in Hk; done|]);
        rewrite app_assoc, last_snoc in *; done.
    + intros [Hin|Hin%list_elem_of_singleton]%elem_of_app; [done|done].
    + done.
  - right. exists (rstrip main), w, (comment ++ nl).
    split; [|done]. rewrite Hl. rewrite Hw at 1. by rewrite <- !app_assoc.
Qed.

End ScreeningProps.

Module FieldProps.
Import Screening.

(** *** [normalize_value] and the failure of [extract_all_fields] *)

Lemma splitlines_go_nonempty (rest cur : str) b :
  cur ≠ [] → splitlines_go rest cur b ≠ [].
Proof.
  revert cur b. induction rest as [|c t IH]; intros cur b Hc.
  - by destruct cur.
  - cbn [splitlines_go]. destruct (b && (c =? NL)%N); [by apply IH|].
    destruct (is_linebreak c); [done|]. apply IH. by destruct cur.
Qed.

Lemma splitlines_go_lines (rest cur : str) b :
  Forall (fun c => is_linebreak c = false) cur →
  Forall (Forall (fun c => is_linebreak c = false)) (splitlines_go rest cur b).
Proof.
  revert cur b. induction rest as [|c t IH]; intros cur b Hc.
  - destruct cur; [done|]. by apply Forall_singleton.
  - cbn [splitlines_go]. destruct (b && (c =? NL)%N); [by apply IH|].
    destruct (is_linebreak c) eqn:Hl.
    + constructor; [done|]. by apply IH.
    + apply IH. apply Forall_app. split; [done|]. by apply Forall_singleton.
Qed.

Lemma splitlines_go_elem (rest cur : str) b l c :
  l ∈ splitlines_go rest cur b → c ∈ l → c ∈ cur ∨ c ∈ rest.
Proof.
  revert cur b. induction rest as [|x t IH]; intros cur b Hl Hc.
  - destruct cur; [by apply elem_of_nil in Hl|].
    apply list_elem_of_singleton in Hl as ->. by left.
  - cbn [splitlines_go] in Hl. destruct (b && (x =? NL)%N).
    { destruct (IH _ _ Hl Hc); [by left|right; by right]. }
    destruct (is_linebreak x).
    + apply elem_of_cons in Hl as [->|Hl]; [by left|].
      destruct (IH _ _ Hl Hc) as [Hn|Hr]; [by apply elem_of_nil in Hn|].
      right. by right.
    + destruct (IH _ _ Hl Hc) as [Hn|Hr]; [|right; by right].
      apply elem_of_app in Hn as [Hn|Hn%list_elem_of_singleton]; [by left|].
      right. subst. by left.
Qed.

Section Fields.
Context `{PyLib}.

Lemma normalize_value_cases (v : str) :
  (strip v = [] ∧ normalize_value v = Raise IndexError)
  ∨ (strip v ≠ [] ∧ ∃ r, normalize_value v = Ret r ∧ strip r = r
       ∧ Forall (fun c => is_linebreak c = false) r
       ∧ ∀ c, c ∈ r → c ∈ v).
Proof.
  unfold normalize_value. destruct (strip v) as [|x t] eqn:Hv.
  { left. done. }
  right. split; [done|]. rewrite <- Hv.
  pose proof (splitlines_go_lines (strip v) [] false (Forall_nil_2 _)) as Hls.
  fold (splitlines (strip v)) in Hls.
  destruct (splitlines (strip v)) as [|line ls] eqn:Hs.
  { exfalso. revert Hs. unfold splitlines. rewrite Hv. cbn [splitlines_go andb].
    destruct (is_linebreak x); [done|]. by apply splitlines_go_nonempty. }
  apply Forall_inv in Hls.
  assert (∀ c, c ∈ line → c ∈ v) as Hin.
  { intros c Hc. apply NormFacts.strip_elem.
    destruct (splitlines_go_elem (strip v) [] false line c) as [Hn|Hr];
      [unfold splitlines in Hs; rewrite Hs; by left|done| |done].
    by apply elem_of_nil in Hn. }
  assert (∀ r, (∀ c, c ∈ r → c ∈ strip line) →
            Forall (fun c => is_linebreak c = false) r
            ∧ ∀ c, c ∈ r → c ∈ v) as Hsub.
  { intros r Hr. split.
    - apply Forall_forall. intros c Hc.
      apply Hr, NormFacts.strip_elem in Hc.
      by apply (proj1 (Forall_forall _ _) Hls).
    - intros c Hc. by apply Hin, NormFacts.strip_elem, Hr. }
  destruct (_ || _).
  - eexists. split; [done|]. split; [apply SearchWordProps.strip_idem|].
    apply Hsub. intros c Hc%NormFacts.strip_elem.
    unfold slice in Hc. by apply subseteq_take, subseteq_drop in Hc.
  - eexists. split; [done|]. split; [apply SearchWordProps.strip_idem|].
    by apply Hsub.
Qed.

(** X17: [normalize_value] raises [IndexError] exactly for a value of
    white space only (the empty one among them), through the list
    [splitlines] returns then having no first line.  For every other
    value it returns a text that is trimmed, has no line break and
    consists of characters of the value. *)
Theorem normalize_value_blank (v : str) :
  match normalize_value v with
  | Ret r =>
      strip v ≠ [] ∧ strip r = r
      ∧ Forall (fun c => is_linebreak c = false) r ∧ ∀ c, c ∈ r → c ∈ v
  | Raise e => e = IndexError ∧ strip v = []
  | OutOfFuel => False
  end.
Proof.
  destruct (normalize_value_cases v) as [[Hv ->]|(Hv & r & -> & Hr)]; done.
Qed.

Lemma collect_outcome (occ : list (str * str)) :
  ∀ f0 : gmap str pyval,
    match collect occ f0 with
    | Ret f =>
        ∀ name raw, f0 !! name = None → first_value name occ = Some raw →
                    strip raw ≠ []
    | Raise ex =>
        ex = IndexError
        ∧ ∃ name raw, f0 !! name = None ∧ first_value name occ = Some raw
            ∧ strip raw = []
    | OutOfFuel => False
    end.
Proof.
  induction occ as [|[n raw] occ IH]; intros f0; [done|].
  cbn [collect]. case_bool_decide as Hin.
  - specialize (IH f0). destruct (collect occ f0) as [f|ex|].
    + intros name raw' Hn. rewrite ScreeningFacts.first_value_cons.
      destruct (decide (n = name)) as [->|_]; [|by apply IH].
      destruct Hin as [v Hv]. congruence.
    + destruct IH as (-> & name & raw' & Hn & Hf & Hb). split; [done|].
      exists name, raw'. rewrite ScreeningFacts.first_value_cons.
      destruct (decide (n = name)) as [->|_]; [|done].
      destruct Hin as [v Hv]. congruence.
    + done.
  - apply eq_None_not_Some in Hin.
    destruct (normalize_value_cases raw) as [[Hb ->]|(Hb & v & -> & _)].
    + cbn [mbind outcome_bind]. split; [done|]. exists n, raw.
      rewrite ScreeningFacts.first_value_cons.
      by destruct (decide (n = n)).
    + cbn [mbind outcome_bind]. specialize (IH (<[n := VStr v]> f0)).
      destruct (collect occ _) as [f|ex|].
      * intros name raw' Hn. rewrite ScreeningFacts.first_value_cons.
        destruct (decide (n = name)) as [->|Hne]; [by intros [= <-]|].
        apply IH. by rewrite lookup_insert_ne.
      * destruct IH as (-> & name & raw' & Hn & Hf & Hb'). split; [done|].
        destruct (decide (n = name)) as [->|Hne];
          [by rewrite lookup_insert_eq in Hn|].
        rewrite lookup_insert_ne in Hn by done.
        exists name, raw'. rewrite ScreeningFacts.first_value_cons.
        by destruct (decide (n = name)).
      * done.
Qed.

(** X18: [extract_all_fields] returns or raises [IndexError], and it
    raises exactly when the first occurrence of some field has a value of
    white space only. *)
Theorem extract_all_fields_raises (e : str) :
  let occ := occurrences_of e in
  match extract_all_fields e with
  | Ret fields =>
      ∀ name raw, first_value name occ = Some raw → strip raw ≠ []
  | Raise ex =>
      ex = IndexError
      ∧ ∃ name raw, first_value name occ = Some raw ∧ strip raw = []
  | OutOfFuel => False
  end.
Proof.
  cbv zeta. unfold extract_all_fields.
  assert (py "searchword" ≠ py "language") as Hn1 by done.
  generalize dependent (py "searchword_list"). intros SL.
  generalize dependent (py "searchword"). intros SW.
  generalize dependent (py "langid"). intros LI.
  generalize dependent (py "language"). intros LA. intros Hn1.
  pose proof (collect_outcome (occurrences_of e) ∅) as Hc.
  destruct (collect (occurrences_of e) ∅) as [f|ex|] eqn:Hf.
  - cbn [mbind outcome_bind].
    pose proof (ScreeningFacts.collect_spec _ _ _ Hf) as Hl.
    set (f' := match f !! LA, f !! LI with
               | None, Some langid => <[LA := langid]> f
               | _, _ => f
               end).
    assert (f' !! SW = f !! SW) as ->.
    { unfold f'. destruct (f !! LA); [done|].
      destruct (f !! LI); [|done]. by rewrite lookup_insert_ne. }
    rewrite Hl, lookup_empty.
    destruct (first_value SW _); cbn; intros name raw; by apply Hc.
  - cbn [mbind outcome_bind]. destruct Hc as (-> & name & raw & _ & ? & ?).
    eauto.
  - done.
Qed.

End Fields.

(** A field line with nothing behind the [=] is enough. *)
Example extract_all_fields_blank_value :
  @extract_all_fields basic_latin (py "@a{k," ++ [NL] ++ py "  note = ," ++ [NL] ++ py "}")
  = Raise IndexError.
Proof. vm_compute. reflexivity. Qed.

End FieldProps.

(** ** The spans of the tokenizers *)

(** A repetition of a class reads a run of the class with at least the
    least number of characters. *)
Lemma rep_loop_chr_reads_lo p greedy fuel :
  ∀ lo hi k c g res,
    rep_loop (mtch (Chr p)) greedy fuel lo hi k c g = Some res →
    ∃ w rest bef, ahead c = w ++ rest ∧ Forall (fun x => p x = true) w
      ∧ lo ≤ length w
      ∧ k (Cursor bef rest (pos c + length w)) g = Some res.
Proof.
  induction fuel as [|fuel IH]; intros lo hi k c g res Hr; [done|].
  cbn [rep_loop] in Hr.
  set (again := if bool_decide (hi = Some 0) then None
                else mtch (Chr p) _ c g) in Hr.
  assert (again = Some res →
          ∃ w rest bef, ahead c = w ++ rest ∧ Forall (fun x => p x = true) w
            ∧ lo ≤ length w
            ∧ k (Cursor bef rest (pos c + length w)) g = Some res) as Ha.
  { unfold again. case_bool_decide; [done|]. cbn [mtch].
    destruct (ahead c) as [|x t] eqn:Hc; [done|].
    destruct (p x) eqn:Hp; [|done]. cbn [pos].
    destruct (S (pos c) =? pos c); [done|]. intros Hk.
    apply IH in Hk as (w & rest & bef & Hw & Hall & Hlo & Hk).
    cbn [ahead pos] in *.
    exists (x :: w), rest, bef. rewrite Hw. split; [done|].
    split; [by constructor|]. split; [simpl; lia|].
    by replace (pos c + length (x :: w)) with (S (pos c) + length w)
      by (simpl; lia). }
  destruct (0 <? lo) eqn:Hlo; [by apply Ha|]. apply Nat.ltb_ge in Hlo.
  assert (k c g = Some res →
          ∃ w rest bef, ahead c = w ++ rest ∧ Forall (fun x => p x = true) w
            ∧ lo ≤ length w
            ∧ k (Cursor bef rest (pos c + length w)) g = Some res) as Hk0.
  { intros Hk. exists [], (ahead c), (before c). split; [done|].
    split; [done|]. split; [simpl; lia|].
    cbn [length]. rewrite Nat.add_0_r. by destruct c. }
  destruct greedy.
  - destruct again as [r|]; [apply Ha; congruence|by apply Hk0].
  - destruct (k c g) as [r|] eqn:Hk; [|by apply Ha].
    apply Hk0. congruence.
Qed.

(** The scan for the closing brace does not depend on where it starts
    counting, and stops at the first return to depth 0. *)
Lemma balance_shift o c (rest : str) :
  ∀ j d, balance o c rest j d = (fun e => j + e) <$> balance o c rest 0 d.
Proof.
  induction rest as [|x t IH]; intros j d; [done|]. cbn [balance].
  destruct (x =? o)%N.
  { rewrite (IH (S j)), (IH 1). destruct (balance o c t 0 _); [|done].
    cbn. f_equal. lia. }
  destruct (x =? c)%N.
  - destruct (d - 1 =? 0)%Z; [cbn; f_equal; lia|].
    rewrite (IH (S j)), (IH 1). destruct (balance o c t 0 _); [|done].
    cbn. f_equal. lia.
  - rewrite (IH (S j)), (IH 1). destruct (balance o c t 0 _); [|done].
    cbn. f_equal. lia.
Qed.

Lemma balance_take o c (rest : str) :
  ∀ d e, balance o c rest 0 d = Some e →
    e ≤ length rest ∧ balance o c (take e rest) 0 d = Some e.
Proof.
  induction rest as [|x t IH]; intros d e Hb; [done|]. cbn [balance] in Hb.
  assert (∀ d', balance o c t 1 d' = Some e →
            e ≤ length (x :: t) ∧ ∃ e', e = S e'
              ∧ balance o c (take e' t) 1 d' = Some e) as Hstep.
  { intros d' Hb'. rewrite balance_shift in Hb'.
    destruct (balance o c t 0 d') as [e'|] eqn:He'; [|done].
    injection Hb' as <-. apply IH in He' as [Hle He'].
    split; [simpl; lia|]. exists e'. split; [done|].
    by rewrite balance_shift, He'. }
  destruct (x =? o)%N eqn:Ho.
  { apply Hstep in Hb as (Hle & e' & -> & Hb). split; [done|].
    cbn [take balance]. by rewrite Ho. }
  destruct (x =? c)%N eqn:Hc.
  - destruct (d - 1 =? 0)%Z eqn:Hd.
    + injection Hb as <-. split; [simpl; lia|].
      cbn [take balance Nat.add]. by rewrite Ho, Hc, Hd.
    + apply Hstep in Hb as (Hle & e' & -> & Hb). split; [done|].
      cbn [take balance]. by rewrite Ho, Hc, Hd.
  - apply Hstep in Hb as (Hle & e' & -> & Hb). split; [done|].
    cbn [take balance]. by rewrite Ho, Hc.
Qed.

(** The scan from a brace of the text, seen from the entry. *)
Lemma balance_closes (text : str) k e :
  balance LBRACE RBRACE (drop k text) k 0 = Some e →
  k < e ≤ length text ∧ closes_at_end (slice text k e).
Proof.
  intros Hb. pose proof (balance_bounds _ _ _ _ _ _ Hb) as Hbd.
  rewrite length_drop in Hbd. split; [lia|].
  rewrite balance_shift in Hb.
  destruct (balance _ _ (drop k text) 0 0) as [e'|] eqn:He; [|done].
  injection Hb as <-. apply balance_take in He as [Hle He].
  unfold closes_at_end, slice. replace (k + e' - k) with e' by lia.
  rewrite He. f_equal. rewrite length_take. rewrite length_drop in *. lia.
Qed.

Lemma balance_never (text : str) k :
  balance LBRACE RBRACE (drop k text) k 0 = None →
  never_closes (drop k text).
Proof.
  unfold never_closes. rewrite balance_shift.
  by destruct (balance _ _ (drop k text) 0 0).
Qed.

Lemma find_char_here c (s : str) i : s !! i = Some c → find_char c s i = Some i.
Proof.
  intros Hl. unfold find_char. rewrite (drop_S _ _ _ Hl). cbn [find_in].
  by rewrite N.eqb_refl.
Qed.

Lemma chunks_from_weaken (text : str) (es : list str) :
  ∀ i c j, chunks_from text i es c → c ≤ j → chunks_from text i es j.
Proof.
  induction es as [|e es IH]; intros i c j Hs Hle; cbn [chunks_from] in *;
    [lia|].
  destruct Hs as (a & b & ? & ? & ? & Hs). exists a, b.
  repeat split; try done. by eapply IH.
Qed.

Lemma chunks_from_snoc (text : str) (es : list str) a b :
  ∀ i c j, chunks_from text i es c → c ≤ a → a < b → b ≤ j →
    chunks_from text i (es ++ [slice text a b]) j.
Proof.
  induction es as [|e es IH]; intros i c j Hs Hca Hab Hbj;
    cbn [chunks_from app] in *.
  - exists a, b. repeat split; (done || lia).
  - destruct Hs as (a' & b' & ? & ? & ? & Hs). exists a', b'.
    repeat split; try done. by eapply IH.
Qed.

Module UniqueProps.
Import Unique.

(** A header of [ENTRY_START_RE]: [@], letters, white space, [{]. *)
Lemma entry_start_shape c m :
  match_at ENTRY_START_RE c = Some m →
  ∃ name w rest,
    ahead c = AT :: name ++ w ++ LBRACE :: rest
    ∧ name ≠ [] ∧ Forall (fun x => AZ x || az x = true) name
    ∧ Forall (fun x => isspace x = true) w
    ∧ m_start m = pos c
    ∧ m_end m = pos c + 1 + length name + length w + 1.
Proof.
  unfold match_at.
  destruct (mtch ENTRY_START_RE accept c ∅) as [[e g]|] eqn:Hm; [|done].
  intros [= <-]. cbn [m_start m_end].
  unfold ENTRY_START_RE, seqs in Hm. cbn [foldr] in Hm.
  apply mtch_chr_seq in Hm as (x0 & t0 & Ha0 & Hx0 & Hm).
  apply N.eqb_eq in Hx0 as <-.
  cbn [mtch] in Hm.
  apply (rep_loop_chr_reads_lo (fun c => AZ c || az c)) in Hm
    as (name & r1 & b1 & Hr1 & Hname & Hlo & Hm).
  cbn [ahead pos] in Hr1, Hm.
  apply (rep_loop_chr_reads_lo isspace) in Hm
    as (w & r2 & b2 & Hr2 & Hw & _ & Hm).
  cbn [ahead pos] in Hr2, Hm.
  unfold lit in Hm. cbn [mtch ahead pos] in Hm.
  destruct r2 as [|x rest]; [done|].
  destruct (N.eqb_spec LBRACE x) as [<-|]; [|done].
  cbn [accept pos] in Hm. injection Hm as <- _.
  exists name, w, rest. rewrite Ha0, Hr1, Hr2.
  split; [done|]. split; [intros ->; simpl in Hlo; lia|].
  split; [done|]. split; [done|]. split; [done|]. lia.
Qed.

Lemma re_search_start_shape (text : str) i m :
  i ≤ length text →
  re_search ENTRY_START_RE text i = Some m →
  ∃ name w,
    drop (m_start m) text = AT :: name ++ w ++ drop (m_end m - 1) text
    ∧ text !! (m_end m - 1) = Some LBRACE
    ∧ name ≠ [] ∧ Forall (fun x => AZ x || az x = true) name
    ∧ Forall (fun x => isspace x = true) w
    ∧ i ≤ m_start m
    ∧ m_end m = m_start m + 1 + length name + length w + 1.
Proof.
  intros Hi. unfold re_search, cursor_at.
  rewrite Nat.min_l by done. cbn [before ahead pos]. intros Hs.
  apply search_go_found in Hs as (d & bef' & Hd & Hm).
  apply entry_start_shape in Hm
    as (name & w & rest & Ha & Hn & Hname & Hw & Hst & He).
  cbn [ahead pos] in Ha, Hst, He. rewrite drop_drop in Ha.
  exists name, w. rewrite Hst, He.
  replace (i + d + 1 + length name + length w + 1 - 1)
    with (i + d + length (AT :: name ++ w)) by (simpl; rewrite length_app; lia).
  assert (drop (i + d + length (AT :: name ++ w)) text = LBRACE :: rest) as Hdr.
  { rewrite <- drop_drop, Ha.
    change (AT :: name ++ w ++ LBRACE :: rest)
      with ((AT :: name) ++ w ++ LBRACE :: rest).
    rewrite app_assoc. apply drop_app_length. }
  rewrite Hdr. split; [done|]. split.
  { rewrite <- (Nat.add_0_r (_ + length _)), <- lookup_drop. by rewrite Hdr. }
  repeat split; (done || lia).
Qed.

Lemma extract_loop_chunks fuel (text : str) i es l :
  i ≤ length text → chunks_from text 0 es i → Forall (unique_entry text) es →
  extract_loop fuel text i es = Ret l →
  chunks_from text 0 l (length text) ∧ Forall (unique_entry text) l.
Proof.
  revert i es. induction fuel as [|fuel IH]; intros i es Hi Hes Hall Hr; [done|].
  cbn [extract_loop] in Hr.
  destruct (re_search ENTRY_START_RE text i) as [m|] eqn:Hs.
  2: { injection Hr as <-. split; [by eapply chunks_from_weaken|done]. }
  pose proof (SplitFacts.re_search_start _ _ _ Hi Hs) as (_ & H2).
  apply re_search_start_shape in Hs
    as (name & w & Hdr & Hb & Hn & Hname & Hw & H1 & He); [|done].
  rewrite (find_char_here _ _ _ Hb) in Hr.
  assert (∀ e, m_end m - 1 < e → e ≤ length text →
               slice text (m_start m) e
               = AT :: name ++ w ++ slice text (m_end m - 1) e) as Hsl.
  { intros e H3 H4. unfold slice.
    assert (drop (m_start m) text
            = (AT :: name ++ w) ++ drop (m_end m - 1) text) as ->
      by (rewrite Hdr; cbn [app]; by rewrite <- app_assoc).
    replace (e - m_start m)
      with (length (AT :: name ++ w) + (e - (m_end m - 1)))
      by (simpl; rewrite length_app; lia).
    rewrite take_app_add. cbn [app]. by rewrite <- app_assoc. }
  destruct (balance _ _ _ _ _) as [e|] eqn:Hbal.
  - apply balance_closes in Hbal as [Hbd Hcl].
    eapply IH; [| | |exact Hr]; [lia| |].
    + eapply chunks_from_snoc; [exact Hes|lia..].
    + apply Forall_app. split; [done|]. apply Forall_singleton.
      exists name, w, (slice text (m_end m - 1) e).
      split; [apply Hsl; lia|]. split; [done|]. split; [done|].
      split; [done|]. split; [|by left].
      unfold slice. rewrite (drop_S _ _ _ Hb).
      by replace (e - (m_end m - 1)) with (S (e - m_end m)) by lia.
  - apply balance_never in Hbal.
    eapply IH; [| | |exact Hr]; [lia| |].
    + eapply chunks_from_snoc; [exact Hes|lia..].
    + apply Forall_app. split; [done|]. apply Forall_singleton.
      exists name, w, (drop (m_end m - 1) text).
      rewrite slice_to_end. split; [done|]. split; [done|]. split; [done|].
      split; [done|]. split; [by rewrite (drop_S _ _ _ Hb)|].
      right. split; [done|]. apply suffix_drop.
Qed.

(** X19: [extract_entries] returns for every text.  The entries it returns
    lie in the text one after the other without overlap, in the order of
    the list.  Each is [@], the letters of an entry type, white space and
    a body that starts with a brace; the braces of the body balance at its
    last character and not before, or they never balance and the entry
    runs to the end of the text. *)
Theorem extract_entries_chunks (text : str) :
  ∃ entries,
    extract_entries text = Ret entries
    ∧ chunks_from text 0 entries (length text)
    ∧ Forall (unique_entry text) entries.
Proof.
  destruct (SplitFacts.unique_extract_loop_returns
              (S (length text - 0)) text 0 []) as [l Hl]; [lia..|].
  exists l. split; [exact Hl|].
  eapply (extract_loop_chunks _ text 0 []); [lia|simpl; lia|done|exact Hl].
Qed.

End UniqueProps.

Module CleanSplitProps.
Import CleanISSN.

(** *** [split_entries] *)

(** The inner loop is the scan for the closing brace. *)
Lemma depth_loop_balance (rest : str) :
  ∀ j d, (0 < d)%Z →
    match balance LBRACE RBRACE rest j d with
    | Some e => depth_loop rest j d = (e, 0%Z)
    | None => (depth_loop rest j d).2 ≠ 0%Z
    end.
Proof.
  induction rest as [|c t IH]; intros j d Hd; cbn [balance depth_loop].
  { cbn. lia. }
  replace (0 <? d)%Z with true by (symmetry; apply Z.ltb_lt; lia).
  destruct (c =? LBRACE)%N; [apply IH; lia|].
  destruct (c =? RBRACE)%N; [|by apply IH].
  destruct (Z.eqb_spec (d - 1) 0) as [->|Hne]; [|apply IH; lia].
  replace (j + 1) with (S j) by lia. by destruct t.
Qed.

Lemma split_loop_chunks fuel (text : str) i es :
  i ≤ length text → length text - i < fuel →
  chunks_from text 0 es i → Forall clean_entry es →
  ∃ l, split_loop fuel text i es = Ret l
    ∧ chunks_from text 0 l (length text) ∧ Forall clean_entry l.
Proof.
  revert i es. induction fuel as [|fuel IH]; intros i es Hi Hf Hes Hall; [lia|].
  cbn [split_loop].
  assert (∃ l, Ret es = Ret l ∧ chunks_from text 0 l (length text)
               ∧ Forall clean_entry l) as Hstop.
  { exists es. split; [done|]. split; [by eapply chunks_from_weaken|done]. }
  destruct (i <? length text) eqn:Hlt; cbn [negb]; [|done].
  destruct (find_char AT text i) as [at_|] eqn:Hat; [|done].
  pose proof (find_char_spec _ _ _ _ Hat) as Hatb.
  apply find_char_lookup in Hat as [Hat _].
  destruct (find_char LBRACE text at_) as [br|] eqn:Hbr; [|done].
  pose proof (find_char_spec _ _ _ _ Hbr) as Hbrb.
  apply find_char_lookup in Hbr as [Hbr Hno].
  assert (at_ < br) as Hlt'.
  { destruct (decide (at_ = br)) as [->|]; [|lia]. congruence. }
  pose proof (depth_loop_balance (drop (br + 1) text) (br + 1) 1 ltac:(lia))
    as Hd.
  assert (balance LBRACE RBRACE (drop br text) br 0
          = balance LBRACE RBRACE (drop (br + 1) text) (br + 1) 1) as Hb1.
  { rewrite (drop_S _ _ _ Hbr). cbn [balance]. rewrite N.eqb_refl.
    by replace (S br) with (br + 1) by lia. }
  rewrite <- Hb1 in Hd.
  destruct (balance LBRACE RBRACE (drop br text) br 0) as [e|] eqn:Hbal.
  2: { destruct (depth_loop _ _ _) as [j depth]. cbn [snd] in Hd.
       by destruct (Z.eqb_spec depth 0). }
  rewrite Hd. cbn [Z.eqb].
  apply balance_closes in Hbal as [Hbd Hcl].
  apply IH; [lia|lia| |].
  - eapply chunks_from_snoc; [exact Hes|lia..].
  - apply Forall_app. split; [done|]. apply Forall_singleton.
    exists (slice text (at_ + 1) br), (slice text br e).
    split; [|split; [|split; [|done]]].
    + unfold slice. rewrite (drop_S _ _ _ Hat).
      replace (e - at_) with (S ((br - (at_ + 1)) + (e - br))) by lia.
      cbn [take]. f_equal. replace (S at_) with (at_ + 1) by lia.
      rewrite <- (take_drop (br - (at_ + 1)) (drop (at_ + 1) text)) at 1.
      rewrite take_app_add'; [|rewrite length_take, length_drop; lia].
      f_equal. rewrite drop_drop. f_equal. f_equal. lia.
    + intros Hin. apply Hno. unfold slice in *.
      rewrite (drop_S _ _ _ Hat).
      replace (br - at_) with (S (br - (at_ + 1))) by lia.
      cbn [take]. right. by replace (S at_) with (at_ + 1) by lia.
    + unfold slice. rewrite (drop_S _ _ _ Hbr).
      by replace (e - br) with (S (e - S br)) by lia.
Qed.

Lemma split_ahead_spec `{PyLib} (rest : str) :
  ∀ bef i cur, ∃ p0 ps,
    split_ahead bef rest i cur = (cur ++ p0) :: ps
    ∧ p0 ++ concat ps = rest
    ∧ Forall (fun p => head p = Some AT) ps.
Proof.
  induction rest as [|x t IH]; intros bef i cur; cbn [split_ahead].
  - rewrite bool_decide_eq_false_2.
    + exists [], []. by rewrite app_nil_r.
    + unfold match_at. cbn. by intros [? ?].
  - case_bool_decide as Hh.
    + destruct Hh as [m Hm].
      apply (starts_with_seq (N.eqb AT)) in Hm as (y & [= <-] & <-%N.eqb_eq).
      destruct (IH (Some AT) (S i) [AT]) as (p0 & ps & -> & <- & Hps).
      exists [], (([AT] ++ p0) :: ps). rewrite app_nil_r.
      split; [done|]. split; [done|]. by constructor.
    + destruct (IH (Some x) (S i) (cur ++ [x])) as (p0 & ps & -> & <- & Hps).
      exists (x :: p0), ps. split; [by rewrite <- app_assoc|]. done.
Qed.

Section Split.
Context `{PyLib}.

(** X20: [clean_ISSN.split_entries] returns for every text.  Its loop
    collects entries that lie in the text one after the other without
    overlap, each an [@], a text without brace and a body in braces that
    balance at its last character and not before.  When the loop has
    collected one entry or more these are the result.  When it has
    collected none, the text is cut into parts before every
    [@word{]: the parts put together give the text again, every part but
    the first starts with [@], and the result holds the parts that are
    not blank. *)
Theorem split_entries_chunks (text : str) :
  ∃ found entries,
    split_loop (S (length text)) text 0 [] = Ret found
    ∧ split_entries text = Ret entries
    ∧ chunks_from text 0 found (length text) ∧ Forall clean_entry found
    ∧ (found ≠ [] → entries = found)
    ∧ (found = [] →
       ∃ parts, concat parts = text
         ∧ Forall (fun p => head p = Some AT) (tail parts)
         ∧ entries = filter (fun p => strip p ≠ []) parts).
Proof.
  destruct (split_loop_chunks (S (length text)) text 0 [])
    as (found & Hf & Hch & Hall); [lia|lia|simpl; lia|done|].
  exists found. unfold split_entries. rewrite Hf. cbn [mbind outcome_bind].
  case_bool_decide as Hnil.
  - eexists. split; [done|]. split; [done|]. split; [done|]. split; [done|].
    split; [done|]. intros _.
    destruct (split_ahead_spec text None 0 []) as (p0 & ps & Hs & Hc & Hps).
    exists (split_ahead None text 0 []). rewrite Hs.
    split; [by cbn [concat app]|]. done.
  - exists found. by repeat split.
Qed.

End Split.
End CleanSplitProps.

(** Where a search finds its match, and the character before it. *)
Lemma search_go_found_at r bef rest i m :
  search_go r bef rest i = Some m →
  ∃ d, d ≤ length rest
    ∧ match_at r (Cursor (match d with 0 => bef | S d' => rest !! d' end)
                    (drop d rest) (i + d)) = Some m.
Proof.
  revert bef i. induction rest as [|x t IH]; intros bef i Hs;
    cbn [search_go] in Hs.
  - destruct (match_at r _) eqn:Hm; [|done]. injection Hs as ->.
    exists 0. rewrite Nat.add_0_r. by split.
  - destruct (match_at r _) eqn:Hm.
    + injection Hs as ->. exists 0. rewrite Nat.add_0_r, drop_0.
      split; [simpl; lia|done].
    + apply IH in Hs as (d & Hd & Hm').
      exists (S d). split; [simpl; lia|].
      replace (i + S d) with (S i + d) by lia. cbn [drop].
      destruct d as [|d']; [done|]. done.
Qed.

Lemma re_search_found_at r (text : str) i m :
  i ≤ length text →
  re_search r text i = Some m →
  ∃ a, i ≤ a ≤ length text
    ∧ match_at r (Cursor (match a with 0 => None | S a' => text !! a' end)
                    (drop a text) a) = Some m.
Proof.
  intros Hi. unfold re_search, cursor_at.
  rewrite Nat.min_l by done. cbn [before ahead pos]. intros Hs.
  apply search_go_found_at in Hs as (d & Hd & Hm).
  rewrite length_drop in Hd. rewrite drop_drop in Hm.
  exists (i + d). split; [lia|].
  destruct d as [|d'].
  - by rewrite Nat.add_0_r in *.
  - rewrite lookup_drop in Hm.
    by replace (i + S d') with (S (i + d')) in * by lia.
Qed.

Lemma find_char_run c (s w rest : str) i :
  drop i s = w ++ c :: rest → c ∉ w → find_char c s i = Some (i + length w).
Proof.
  intros Hd Hw. unfold find_char. rewrite Hd. clear Hd.
  revert i. induction w as [|x w IH]; intros i; cbn [app find_in length].
  - by rewrite N.eqb_refl, Nat.add_0_r.
  - apply not_elem_of_cons in Hw as [Hx Hw].
    destruct (N.eqb_spec x c) as [->|_]; [done|].
    rewrite (IH Hw). f_equal. lia.
Qed.

Module IterProps.
Import Screening.

(** A header of [_entry_start_re] and its groups. *)
Lemma entry_start_groups c m :
  match_at _entry_start_re c = Some m →
  (before c = None ∨ before c = Some NL)
  ∧ ∃ w name w2 rest,
      ahead c = w ++ AT :: name ++ w2 ++ LBRACE :: rest
      ∧ Forall (fun x => isspace x = true) w
      ∧ name ≠ [] ∧ Forall (fun x => AZ x || az x = true) name
      ∧ Forall (fun x => isspace x = true) w2
      ∧ m_start m = pos c
      ∧ m_groups m !! 1
        = Some (pos c + length w + 1, pos c + length w + 1 + length name)
      ∧ ∃ pre key rest2,
          ahead c = pre ++ key ++ rest2
          ∧ Forall (fun x => negb (x =? COMMA)%N = true) key
          ∧ m_groups m !! 2
            = Some (pos c + length pre, pos c + length pre + length key).
Proof.
  unfold match_at.
  destruct (mtch _entry_start_re accept c ∅) as [[e g]|] eqn:Hm; [|done].
  intros [= <-]. cbn [m_start m_end m_groups].
  unfold _entry_start_re, seqs in Hm. cbn [foldr] in Hm.
  cbn [mtch] in Hm.
  destruct (bool_decide (before c = None) || bool_decide (before c = Some NL))
    eqn:Hbol; [|done].
  split.
  { apply orb_true_iff in Hbol as [Hb|Hb]; apply bool_decide_eq_true in Hb;
      [by left|by right]. }
  apply (rep_loop_chr_reads_lo isspace) in Hm
    as (w & r0 & b0 & Hr0 & Hw & _ & Hm).
  unfold lit in Hm at 1. cbn [mtch ahead pos] in Hm.
  destruct r0 as [|x0 r0']; [done|].
  destruct (N.eqb_spec AT x0) as [<-|]; [|done].
  apply (rep_loop_chr_reads_lo (fun c => AZ c || az c)) in Hm
    as (name & r1 & b1 & Hr1 & Hname & Hlo & Hm).
  cbn [ahead pos] in Hr1, Hm.
  apply (rep_loop_chr_reads_lo isspace) in Hm
    as (w2 & r2 & b2 & Hr2 & Hw2 & _ & Hm).
  cbn [ahead pos] in Hr2, Hm.
  unfold lit in Hm at 1. cbn [mtch ahead pos] in Hm.
  destruct r2 as [|x2 rest]; [done|].
  destruct (N.eqb_spec LBRACE x2) as [<-|]; [|done].
  apply (rep_loop_chr_reads_lo isspace) in Hm
    as (w3 & r3 & b3 & Hr3 & Hw3 & _ & Hm).
  cbn [ahead pos] in Hr3, Hm.
  apply (rep_loop_chr_reads_lo (fun c => negb (c =? COMMA)%N)) in Hm
    as (key & r4 & b4 & Hr4 & Hkey & _ & Hm).
  cbn [ahead pos] in Hr4, Hm.
  apply (mtch_keeps_caps (Seq (star ws) (opt (lit COMMA))) eq_refl accept)
    in Hm as (c' & _ & Hacc).
  cbn [accept] in Hacc. injection Hacc as _ <-.
  exists w, name, w2, rest. rewrite Hr0, Hr1, Hr2.
  split; [done|]. split; [done|].
  split; [intros ->; simpl in Hlo; lia|]. split; [done|]. split; [done|].
  split; [done|]. split.
  { rewrite lookup_insert_ne by done. rewrite lookup_insert_eq.
    do 2 f_equal; lia. }
  exists (w ++ AT :: name ++ w2 ++ LBRACE :: w3), key, r4.
  split; [|split; [done|]].
  - rewrite Hr3, Hr4. assoc_eq.
  - rewrite lookup_insert_eq. rewrite !length_app. cbn [length].
    rewrite !length_app. cbn [length]. do 2 f_equal; lia.
Qed.

Lemma raw_spans_weaken (text : str) (out : list (str * str * str)) :
  ∀ i c j, raw_spans text i out c → c ≤ j → raw_spans text i out j.
Proof.
  induction out as [|x out IH]; intros i c j Hs Hle; cbn [raw_spans] in *;
    [lia|].
  destruct Hs as (a & b & ? & ? & ? & Hs). exists a, b.
  repeat split; try done. by eapply IH.
Qed.

Lemma raw_spans_snoc (text : str) (out : list (str * str * str)) x a b :
  ∀ i c j, raw_spans text i out c → c ≤ a → a < b → b ≤ j →
    raw_item text a b x → raw_spans text i (out ++ [x]) j.
Proof.
  induction out as [|y out IH]; intros i c j Hs Hca Hab Hbj Hx;
    cbn [raw_spans app] in *.
  - exists a, b. repeat split; (done || lia).
  - destruct Hs as (a' & b' & ? & ? & ? & Hs). exists a', b'.
    repeat split; try done. by eapply IH.
Qed.

Lemma iter_loop_spans fuel (text : str) i out :
  i ≤ length text → length text - i < fuel → raw_spans text 0 out i →
  ∃ l, iter_loop fuel text i out = Ret l
    ∧ raw_spans text 0 l (length text).
Proof.
  revert i out. induction fuel as [|fuel IH]; intros i out Hi Hf Hout; [lia|].
  cbn [iter_loop].
  assert (∃ l, Ret out = Ret l ∧ raw_spans text 0 l (length text)) as Hstop.
  { exists out. split; [done|]. by eapply raw_spans_weaken. }
  destruct (i <? length text) eqn:Hlt; cbn [negb]; [|done].
  destruct (re_search _entry_start_re text i) as [m|] eqn:Hs; [|done].
  apply re_search_found_at in Hs as (a & Ha & Hm); [|done].
  apply entry_start_groups in Hm
    as (Hbol & w & name & w2 & rest & Hah & Hw & Hn & Hname & Hw2 & Hst
        & Hg1 & pre & key & rest2 & Hah2 & Hkey & Hg2).
  cbn [before ahead pos] in Hbol, Hah, Hst, Hg1, Hah2, Hg2.
  assert (text = take a text ++ drop a text) as Ht by (by rewrite take_drop).
  assert (length (take a text) = a) as Hla by (rewrite length_take; lia).
  set (p1 := a + length w + 1) in *.
  set (br := p1 + length name + length w2).
  assert (text = (take a text ++ w ++ [AT] ++ name) ++ w2 ++ LBRACE :: rest)
    as Ht2.
  { rewrite Ht at 1. rewrite Hah. assoc_eq. }
  assert (length (take a text ++ w ++ [AT] ++ name) = p1 + length name)
    as Hl2.
  { rewrite !length_app, Hla. cbn [length]. unfold p1. lia. }
  unfold group_end. rewrite Hg1.
  cbn [fmap option_fmap option_map snd default id].
  assert (drop (p1 + length name) text = w2 ++ LBRACE :: rest) as Hdr.
  { rewrite Ht2 at 1. rewrite <- Hl2. apply drop_app_length. }
  rewrite (find_char_run _ _ _ _ _ Hdr).
  2: { intros Hin. by apply (proj1 (Forall_forall _ _) Hw2) in Hin. }
  fold br.
  assert (text !! br = Some LBRACE) as Hbr.
  { apply (lookup_at text ((take a text ++ w ++ [AT] ++ name) ++ w2) rest).
    - rewrite Ht2 at 1. assoc_eq.
    - rewrite length_app, Hl2. done. }
  destruct (balance _ _ _ _ _) as [e|] eqn:Hbal; [|done].
  apply balance_closes in Hbal as [Hbd Hcl].
  apply IH; [lia|lia|].
  eapply (raw_spans_snoc text out _ a e); [exact Hout|unfold br, p1 in *; lia..|].
  rewrite Hst. unfold raw_item.
  assert (slice text a e
          = w ++ AT :: name ++ w2 ++ slice text br e) as Hraw.
  { unfold slice. rewrite Hah.
    replace (e - a)
      with (length (w ++ [AT] ++ name ++ w2) + (e - br))
      by (rewrite !length_app; cbn [length]; unfold br, p1 in *; lia).
    replace (w ++ AT :: name ++ w2 ++ LBRACE :: rest)
      with ((w ++ [AT] ++ name ++ w2) ++ LBRACE :: rest) by assoc_eq.
    rewrite take_app_add.
    assert (drop br text = LBRACE :: rest) as ->.
    { unfold br. rewrite <- drop_drop, Hdr. by rewrite drop_app_length. }
    assoc_eq. }
  split; [done|]. split.
  { destruct a as [|a']; [by left|]. right.
    replace (S a' - 1) with a' by lia.
    destruct Hbol as [Hb|Hb]; [|done].
    apply lookup_ge_None in Hb. lia. }
  split.
  { exists w, w2, (slice text br e). rewrite Hraw.
    unfold group. rewrite Hg1. cbn [fmap option_fmap option_map default id].
    rewrite (slice_at text (take a text ++ w ++ [AT]) name
               (w2 ++ LBRACE :: rest) p1 (p1 + length name)).
    - split; [done|]. split; [done|]. split; [done|]. split; [|done].
      unfold slice. rewrite (drop_S _ _ _ Hbr).
      by replace (e - br) with (S (e - S br)) by lia.
    - rewrite Ht at 1. rewrite Hah. assoc_eq.
    - rewrite !length_app, Hla. cbn [length]. unfold p1. lia.
    - done. }
  unfold group. rewrite Hg1, Hg2.
  cbn [fmap option_fmap option_map default id].
  rewrite (slice_at text (take a text ++ w ++ [AT]) name
             (w2 ++ LBRACE :: rest) p1 (p1 + length name)).
  2: { rewrite Ht at 1. rewrite Hah. assoc_eq. }
  2: { rewrite !length_app, Hla. cbn [length]. unfold p1. lia. }
  2: done.
  rewrite (slice_at text (take a text ++ pre) key rest2
             (a + length pre) (a + length pre + length key)).
  2: { rewrite Ht at 1. rewrite Hah2. assoc_eq. }
  2: { rewrite !length_app, Hla. lia. }
  2: done.
  split; [done|]. split; [done|].
  intros Hin. apply (proj1 (Forall_forall _ _) Hkey) in Hin.
  by rewrite N.eqb_refl in Hin.
Qed.

(** X21: [iter_entries_with_raw] yields finitely many triples for every
    text, in the order of the text and with spans that do not overlap.
    The raw block of a triple is the text of its span, which starts at
    the start of a line: white space, [@], the entry type (one or more
    letters, the second component), white space and a body in braces that
    balance at its last character and not before.  The key has no
    comma. *)
Theorem iter_entries_with_raw_spans (text : str) :
  ∃ out, iter_entries_with_raw text = Ret out
    ∧ raw_spans text 0 out (length text).
Proof.
  apply iter_loop_spans; [lia|lia|simpl; lia].
Qed.

End IterProps.

Module FilterProps.
Import Screening.

(** *** The filters of [active_filters] *)

Lemma first_failed_elem (filters : list filter_fn) etype fields raw flt :
  first_failed filters etype fields raw = Some flt → flt ∈ filters.
Proof.
  induction filters as [|f fs IH]; [done|]. cbn [first_failed].
  destruct (run f etype fields raw) as [[|]|].
  - intros Hf. right. by apply IH.
  - intros [= <-]. by left.
  - intros [= <-]. by left.
Qed.

Section Filters.
Context `{L : PyLib} `{!AsciiLib L} `{PyInt}.

Lemma searchword_of_fields (e : str) fields :
  extract_all_fields e = Ret fields →
  match fields !! py "searchword" with
  | Some (VStr sw) =>
      fields !! py "searchword_list" = Some (VList (searchword_list sw))
  | Some (VList _) => False
  | None => fields !! py "searchword_list" = Some (VList [])
  end.
Proof.
  unfold extract_all_fields.
  assert (py "searchword" ≠ py "language") as Hn1 by done.
  assert (py "searchword_list" ≠ py "searchword") as Hn3 by done.
  generalize dependent (py "searchword_list"). intros SL.
  generalize dependent (py "searchword"). intros SW.
  generalize dependent (py "langid"). intros LI.
  generalize dependent (py "language"). intros LA. intros Hn1 Hn3.
  destruct (collect (occurrences_of e) ∅) as [f| |]; [|done..].
  cbn [mbind outcome_bind].
  set (f' := match f !! LA, f !! LI with
             | None, Some langid => <[LA := langid]> f
             | _, _ => f
             end).
  destruct (f' !! SW) as [[sw|l]|] eqn:Hsw; [|done|]; intros [= <-];
    rewrite lookup_insert_ne by done; rewrite Hsw;
    by rewrite lookup_insert_eq.
Qed.

Lemma run_not_equal etype fields raw :
  run (by_field_not_equal (py "searchWord") (Some (py "NoMatch")))
    etype fields raw
  = match fields !! py "searchword" with
    | Some (VStr s) => Some (negb (bool_decide (s = py "NoMatch")))
    | _ => Some true
    end
  ∧ bucket (by_field_not_equal (py "searchWord") (Some (py "NoMatch")))
    = py "field:searchword".
Proof.
  unfold by_field_not_equal.
  assert (strip (str_lower (py "searchWord")) = py "searchword") as ->.
  { rewrite lower_ascii by (repeat constructor). by vm_compute. }
  assert (bool_decide (py "searchword" = [])
          || negb (bool_decide (is_Some (Some (py "NoMatch"))))
          || bool_decide (strip (default [] (Some (py "NoMatch"))) = [])
          = false) as -> by (by vm_compute).
  done.
Qed.

(** X22: in the filter list of [active_filters] the last filter,
    [by_field_not_equal("searchWord", "NoMatch")], never decides.  For the
    fields [extract_all_fields] returns for an entry, the loop over the
    five filters stops at the same filter, or keeps the entry, as the loop
    over the first four: an entry whose [searchWord] is [NoMatch] has one
    search word and has failed [by_searchword_min_len(2)] already.  So
    the bucket of a removed entry is [year], [type], [language] or
    [searchword], never [field:searchword]. *)
Theorem last_filter_never_decides (raw etype : str) fields :
  extract_all_fields raw = Ret fields →
  first_failed active_filters etype fields raw
  = first_failed (take 4 active_filters) etype fields raw
  ∧ ∀ flt, first_failed active_filters etype fields raw = Some flt →
      bucket flt ∈ [py "year"; py "type"; py "language"; py "searchword"].
Proof.
  intros He. apply searchword_of_fields in He.
  assert (first_failed active_filters etype fields raw
          = first_failed (take 4 active_filters) etype fields raw) as Heq.
  { unfold active_filters. cbn [take first_failed].
    destruct (run (by_year_range _ _) _ _ _) as [[|]|]; [|done..].
    destruct (run (by_types _) _ _ _) as [[|]|]; [|done..].
    destruct (run (by_language _) _ _ _) as [[|]|]; [|done..].
    destruct (run (by_searchword_min_len _) _ _ _) as [[|]|] eqn:H4; [|done..].
    destruct (run_not_equal etype fields raw) as [-> _].
    destruct (fields !! py "searchword") as [[sw|l]|]; [|done..].
    case_bool_decide as Hsw; [|done]. exfalso. subst sw.
    revert H4. unfold by_searchword_min_len. cbn [Z.leb Z.compare].
    unfold _mark. cbn [run]. rewrite He.
    assert (searchword_list (py "NoMatch") = [py "NoMatch"]) as ->
      by (by vm_compute).
    done. }
  split; [done|]. intros flt. rewrite Heq. intros Hf%first_failed_elem.
  unfold active_filters in Hf. cbn [take] in Hf.
  apply elem_of_cons in Hf as [->|Hf]; [set_solver|].
  apply elem_of_cons in Hf as [->|Hf].
  { unfold by_types. case_bool_decide; cbn [bucket _mark]; set_solver. }
  apply elem_of_cons in Hf as [->|Hf].
  { unfold by_language. case_bool_decide; cbn [bucket _mark]; set_solver. }
  apply list_elem_of_singleton in Hf as ->. set_solver.
Qed.

End Filters.

Lemma last_filter_never_decides_witness :
  let raw :=
    py "@article{k," ++ [NL] ++ py "  year = {2020}," ++ [NL]
    ++ py "  type = {article}," ++ [NL]
    ++ py "  searchWord = {NoMatch}," ++ [NL] ++ py "}" in
  ∃ fields,
    @extract_all_fields basic_latin raw = Ret fields
    ∧ fields !! py "searchword" = Some (VStr (py "NoMatch"))
    ∧ (@first_failed (@active_filters basic_latin basic_latin_int)
         (py "article") fields raw
       = @first_failed (take 4 (@active_filters basic_latin basic_latin_int))
           (py "article") fields raw
       ∧ ∀ flt,
           @first_failed (@active_filters basic_latin basic_latin_int)
             (py "article") fields raw = Some flt →
           bucket flt
           ∈ [py "year"; py "type"; py "language"; py "searchword"]).
Proof.
  cbv zeta. eexists. split; [vm_compute; reflexivity|].
  split; [vm_compute; reflexivity|].
  apply (@last_filter_never_decides basic_latin NormFacts.basic_latin_ascii
           basic_latin_int).
  vm_compute. reflexivity.
Defined.

End FilterProps.

Module MergeProps.
Section Merge.
Context `{PyLib}.

(** *** The merged output of Unique.py *)

Lemma earliest_go_spec (us : list str) :
  ∀ prev,
    let r := Unique.earliest_go prev us in
    r `sublist_of` us
    ∧ NoDup (Unique.build_dedupe_key <$> r)
    ∧ (∀ v, v ∈ r →
         Unique.build_dedupe_key v ∉ Unique.build_dedupe_key <$> prev)
    ∧ (∀ v, v ∈ us →
         Unique.build_dedupe_key v ∈ Unique.build_dedupe_key <$> prev
         ∨ Unique.build_dedupe_key v ∈ Unique.build_dedupe_key <$> r).
Proof.
  induction us as [|u us IH]; intros prev; cbv zeta; cbn [Unique.earliest_go].
  { split; [done|]. split; [constructor|]. split; intros v Hv;
      by apply elem_of_nil in Hv. }
  destruct (IH (prev ++ [u])) as (I1 & I2 & I3 & I4).
  assert (∀ v, Unique.build_dedupe_key v
               ∈ Unique.build_dedupe_key <$> (prev ++ [u])
               ↔ Unique.build_dedupe_key v ∈ Unique.build_dedupe_key <$> prev
                 ∨ Unique.build_dedupe_key v = Unique.build_dedupe_key u)
    as Hk.
  { intros v. rewrite fmap_app, elem_of_app. cbn [fmap list_fmap].
    by rewrite list_elem_of_singleton. }
  case_bool_decide as Hin; cbn [app].
  - split; [by apply sublist_cons|]. split; [done|]. split.
    + intros v Hv Hp. apply (I3 v Hv). apply Hk. by left.
    + intros v [->|Hv]%elem_of_cons; [by left|].
      destruct (I4 v Hv) as [[Hp| ->]%Hk|Hr]; [by left|by left|by right].
  - split; [by apply sublist_skip|]. split; [|split].
    + rewrite fmap_cons. constructor; [|done].
      intros (v & Hkv & Hv)%list_elem_of_fmap.
      apply (I3 v Hv). apply Hk. by right.
    + intros v [->|Hv]%elem_of_cons; [done|].
      intros Hp. apply (I3 v Hv). apply Hk. by left.
    + intros v [->|Hv]%elem_of_cons.
      * right. rewrite fmap_cons. by left.
      * rewrite fmap_cons.
        destruct (I4 v Hv) as [[Hp|Hu]%Hk|Hr];
          [by left|right; rewrite Hu; by left|right; by right].
Qed.

(** X23: what [main] of Unique.py merges.  [main] returns; the records of
    [merged_entries] are records of the input in the order of processing;
    no two of them have the same deduplication key; and the key of every
    record of the input is the key of a merged record. *)
Theorem main_merges_one_per_key (found : list str) (read : str → str) :
  ∃ st, Unique.main found read = Ret st
    ∧ let us := Unique.processing_order found read in
      Unique.merged_entries st `sublist_of` us
      ∧ NoDup (Unique.build_dedupe_key <$> Unique.merged_entries st)
      ∧ ∀ u, u ∈ us →
          Unique.build_dedupe_key u
          ∈ Unique.build_dedupe_key <$> Unique.merged_entries st.
Proof.
  eexists. split.
  { unfold Unique.main. rewrite UniqueFacts.mapM_entries.
    cbn [mbind outcome_bind]. reflexivity. }
  cbv zeta.
  rewrite UniqueFacts.foldl_files, UniqueFacts.processing_order_jobs.
  destruct (UniqueFacts.dedup_inv_foldl
              (fp ← Unique.sorted found;
               (fun e => (fp, e)) <$> Unique.entries_of (read fp)))
    as (-> & _ & _).
  destruct (earliest_go_spec
              ((fun '(fp, e) => Unique.updated_of fp e)
               <$> (fp ← Unique.sorted found;
                    (fun e => (fp, e)) <$> Unique.entries_of (read fp))) [])
    as (E1 & E2 & _ & E4).
  split; [exact E1|]. split; [exact E2|].
  intros u Hu. destruct (E4 u Hu) as [Hn|Hr]; [|exact Hr].
  by apply elem_of_nil in Hn.
Qed.

End Merge.
End MergeProps.

Module CleanKeptProps.
Section Kept.
Context `{PyLib}.

(** *** The cleaned output of clean_ISSN.py *)

Lemma survivors_go_spec (es : list str) :
  ∀ prev,
    let r := CleanISSN.survivors_go prev es in
    r `sublist_of` es
    ∧ NoDup (omap CleanISSN.entry_key r)
    ∧ (∀ v k, v ∈ r → CleanISSN.entry_key v = Some k →
         Some k ∉ CleanISSN.entry_key <$> prev)
    ∧ (∀ v k, v ∈ es → CleanISSN.entry_key v = Some k →
         Some k ∈ CleanISSN.entry_key <$> prev
         ∨ k ∈ omap CleanISSN.entry_key r).
Proof.
  induction es as [|e es IH]; intros prev; cbv zeta;
    cbn [CleanISSN.survivors_go].
  { split; [done|]. split; [constructor|]. split; intros v k Hv;
      by apply elem_of_nil in Hv. }
  destruct (IH (prev ++ [e])) as (I1 & I2 & I3 & I4).
  assert (∀ k, Some k ∈ CleanISSN.entry_key <$> (prev ++ [e])
               ↔ Some k ∈ CleanISSN.entry_key <$> prev
                 ∨ CleanISSN.entry_key e = Some k) as Hk.
  { intros k. rewrite fmap_app, elem_of_app. cbn [fmap list_fmap].
    rewrite list_elem_of_singleton. naive_solver. }
  destruct (CleanISSN.entry_key e) as [ke|] eqn:He.
  - case_bool_decide as Hin; cbn [app].
    + split; [by apply sublist_cons|]. split; [done|]. split.
      * intros v k Hv Hkv Hp. apply (I3 v k Hv Hkv). apply Hk. by left.
      * intros v k [->|Hv]%elem_of_cons Hkv.
        { left. congruence. }
        destruct (I4 v k Hv Hkv) as [[Hp|Hu]%Hk|Hr];
          [by left|left; congruence|by right].
    + split; [by apply sublist_skip|]. split; [|split].
      * cbn [omap list_omap]. rewrite He. constructor; [|done].
        intros (v & Hv & Hkv)%list_elem_of_omap.
        apply (I3 v ke Hv Hkv). apply Hk. by right.
      * intros v k [->|Hv]%elem_of_cons Hkv; [congruence|].
        intros Hp. apply (I3 v k Hv Hkv). apply Hk. by left.
      * intros v k [->|Hv]%elem_of_cons Hkv.
        { right. cbn [omap list_omap]. rewrite He.
          apply elem_of_cons. left. congruence. }
        cbn [omap list_omap]. rewrite He.
        destruct (I4 v k Hv Hkv) as [[Hp|Hu]%Hk|Hr];
          [by left| |right; by right].
        right. apply elem_of_cons. left. congruence.
  - cbn [app]. split; [by apply sublist_skip|]. split; [|split].
    + cbn [omap list_omap]. by rewrite He.
    + intros v k [->|Hv]%elem_of_cons Hkv; [congruence|].
      intros Hp. apply (I3 v k Hv Hkv). apply Hk. by left.
    + intros v k [->|Hv]%elem_of_cons Hkv; [congruence|].
      cbn [omap list_omap]. rewrite He.
      destruct (I4 v k Hv Hkv) as [[Hp|Hu]%Hk|Hr];
        [by left|congruence|by right].
Qed.

(** X24: what the duplicate pass of clean_ISSN.py keeps of a file.  The
    kept entries are entries of the file in their order; no two kept
    entries have the same (ISSN, title) key; and every key of an entry of
    the file is the key of a kept entry. *)
Theorem clean_keeps_one_per_key (entries : list str) :
  let kept := CleanISSN.kept_entries (CleanISSN.clean entries) in
  kept `sublist_of` entries
  ∧ NoDup (omap CleanISSN.entry_key kept)
  ∧ ∀ e k, e ∈ entries → CleanISSN.entry_key e = Some k →
      k ∈ omap CleanISSN.entry_key kept.
Proof.
  cbv zeta.
  destruct (CleanFacts.clean_loop_inv entries CleanISSN.initial [] 0)
    as (Hk & _ & _).
  { split; [done|]. split; [|done]. intros k. set_solver. }
  cbn [app] in Hk. fold (CleanISSN.clean entries) in Hk. rewrite Hk.
  destruct (survivors_go_spec entries []) as (S1 & S2 & _ & S4).
  split; [exact S1|]. split; [exact S2|].
  intros e k He Hke. destruct (S4 e k He Hke) as [Hn|Hr]; [|exact Hr].
  by apply elem_of_nil in Hn.
Qed.

End Kept.
End CleanKeptProps.

Module BibIdProps.

(** *** [get_bibtex_id] after [append_fields] *)

Lemma find_in_take_app c (l r : str) n :
  ∀ i j, find_in c l i = Some j → j - i < n →
    find_in c (take n l ++ r) i = Some j.
Proof.
  revert n. induction l as [|x t IH]; intros n i j Hf Hn; [done|].
  cbn [find_in] in Hf. destruct n as [|n]; [lia|]. cbn [take app find_in].
  destruct (x =? c)%N; [done|].
  pose proof (find_in_spec _ _ _ _ Hf). apply IH; [done|lia].
Qed.

Lemma find_char_take_app c (s r : str) n i j :
  find_char c s i = Some j → j < n →
  find_char c (take n s ++ r) i = Some j.
Proof.
  unfold find_char. intros Hf Hn.
  pose proof (find_in_spec _ _ _ _ Hf) as Hj. rewrite length_drop in Hj.
  rewrite drop_app_le by (rewrite length_take; lia).
  replace n with (i + (n - i)) at 1 by lia.
  rewrite <- take_drop_commute.
  apply find_in_take_app; [done|lia].
Qed.

Lemma slice_take_app (s r : str) n a b :
  b ≤ n → b ≤ length s → slice (take n s ++ r) a b = slice s a b.
Proof.
  intros Hb Hs. unfold slice.
  destruct (decide (a ≤ b)) as [Ha|Ha].
  - rewrite drop_app_le by (rewrite length_take; lia).
    rewrite take_app_le by (rewrite length_drop, length_take; lia).
    replace n with (a + (n - a)) at 1 by lia.
    rewrite <- take_drop_commute, take_take. f_equal. lia.
  - replace (b - a) with 0 by lia. done.
Qed.

Section BibId.
Context `{PyLib}.

(** X25: the BibTeX id [main] of Unique.py reports.  Where an entry has
    a brace, a comma after its first brace, and this comma comes before
    the last closing brace (before the end when there is none), the id of
    the entry with the fields [append_fields] adds is the id of the entry:
    the trimmed text between the first brace and that comma. *)
Theorem get_bibtex_id_appended (e a : str) (s : option str)
    (first_brace comma : nat) :
  find_char LBRACE e 0 = Some first_brace →
  find_char COMMA e (first_brace + 1) = Some comma →
  comma < default (length e) (rfind_char RBRACE e) →
  Unique.get_bibtex_id (Unique.append_fields e a s)
  = strip (slice e (first_brace + 1) comma)
  ∧ Unique.get_bibtex_id e = strip (slice e (first_brace + 1) comma).
Proof.
  intros Hb Hc Hlt.
  pose proof (find_char_spec _ _ _ _ Hc) as Hcb.
  split; [|unfold Unique.get_bibtex_id; by rewrite Hb, Hc].
  assert (∃ rest, Unique.append_fields e a s
                  = take (default (length e) (rfind_char RBRACE e)) e
                    ++ rest) as [rest ->].
  { unfold Unique.append_fields.
    destruct (rfind_char RBRACE e) as [i|]; by eexists. }
  unfold Unique.get_bibtex_id.
  rewrite (find_char_take_app _ _ _ _ _ _ Hb) by lia.
  rewrite (find_char_take_app _ _ _ _ _ _ Hc) by lia.
  rewrite slice_take_app; [done|lia|lia].
Qed.

End BibId.

Lemma get_bibtex_id_appended_witness :
  let e := py "@article{ smith2020 , title = {T} }" in
  Unique.get_bibtex_id
    (Unique.append_fields (H := basic_latin) e (py "q1")
       (Some (py "scopus")))
  = py "smith2020".
Proof.
  cbv zeta.
  refine (proj1 (get_bibtex_id_appended (H := basic_latin) _ (py "q1")
                   (Some (py "scopus")) 8 20 _ _ _));
    [reflexivity|reflexivity|vm_compute; lia].
Defined.

End BibIdProps.

Module NormIdem.

(** ** Unique.py: [_norm_text] applied twice *)

Lemma match_at_alt_chr p q bef rest i :
  match_at (Alt (Chr p) (Chr q)) (Cursor bef rest i)
  = match rest with
    | x :: _ => if p x || q x then Some (Mobj i (S i) ∅) else None
    | [] => None
    end.
Proof.
  unfold match_at. cbn [mtch ahead pos]. destruct rest as [|x t]; [done|].
  by destruct (p x), (q x).
Qed.

(** [re.sub] with a choice of two one-character classes. *)
Lemma sub_go_alt_chr p q rep (rest : str) bef i :
  sub_go (Alt (Chr p) (Chr q)) rep bef rest i 0
  = rest ≫= (fun c => if p c || q c then rep else [c]).
Proof.
  revert bef i. induction rest as [|x t IH]; intros bef i; cbn [sub_go].
  - by rewrite match_at_alt_chr.
  - rewrite match_at_alt_chr. cbn [mbind list_bind]. destruct (p x || q x).
    + cbn [m_end].
      replace (S i =? i) with false by (symmetry; apply Nat.eqb_neq; lia).
      replace (S i - i - 1) with 0 by lia. cbn [app]. by rewrite IH.
    + cbn [app]. by rewrite IH.
Qed.

(** Removing the braces. *)
Lemma re_sub_braces (s : str) :
  re_sub (Alt (lit LBRACE) (lit RBRACE)) [] s
  = filter (fun c => c ≠ LBRACE ∧ c ≠ RBRACE) s.
Proof.
  unfold re_sub, lit. rewrite sub_go_alt_chr.
  induction s as [|c t IH]; [done|]. cbn [mbind list_bind].
  rewrite filter_cons, IH.
  destruct (N.eqb_spec LBRACE c) as [<-|H1]; cbn [orb].
  { by rewrite decide_False by (intros [? _]; done). }
  destruct (N.eqb_spec RBRACE c) as [<-|H2].
  { by rewrite decide_False by (intros [_ ?]; done). }
  by rewrite decide_True by (split; congruence).
Qed.

Section Idempotence.
Context `{L : PyLib} {HF : FoldLib L}.

(** A character of a normalised text is folded and not in the
    punctuation class. *)
Lemma norm_text_folded x c :
  c ∈ Unique._norm_text (Some x) → folded_char c ∧ Unique.punct c = false.
Proof.
  unfold Unique._norm_text, ws. intros Hin%NormFacts.strip_elem.
  rewrite re_sub_plus_chr in Hin.
  apply NormFacts.squeeze_elem in Hin as [Hin|Hin].
  - change (py " ") with [SPACE] in Hin.
    apply list_elem_of_singleton in Hin as ->. split; [by left|done].
  - rewrite re_sub_chr in Hin.
    apply list_elem_of_bind in Hin as (c0 & Hc & Hc0).
    destruct (Unique.punct c0) eqn:Hp.
    + change (py " ") with [SPACE] in Hc.
      apply list_elem_of_singleton in Hc as ->. split; [by left|done].
    + apply list_elem_of_singleton in Hc as ->. split; [|done].
      right. eexists. exact Hc0.
Qed.

(** The second pass on a normalised text: the braces go, the rest
    stays. *)
Lemma norm_text_again (x : str) :
  let y := Unique._norm_text (Some x) in
  Unique._norm_text (Some y)
  = strip (re_sub (plus ws) (py " ")
             (filter (fun c => c ≠ LBRACE ∧ c ≠ RBRACE) y)).
Proof.
  cbv zeta. remember (Unique._norm_text (Some x)) as y eqn:Hy.
  assert (∀ c, c ∈ y → folded_char c ∧ Unique.punct c = false) as Hch.
  { intros c Hc. rewrite Hy in Hc. by apply norm_text_folded in Hc. }
  assert (∀ c, Unique.punct c = true → c ∉ y) as Hnot.
  { intros c Hp Hc. apply Hch in Hc as [_ Hc]. congruence. }
  set (y1 := filter (fun c => c ≠ LBRACE ∧ c ≠ RBRACE) y).
  assert (∀ c, c ∈ y1 → c ∈ y) as Hsub.
  { intros c Hc. by apply list_elem_of_filter in Hc as [_ Hc]. }
  assert (∀ c, Unique.punct c = true → c ∉ y1) as Hnot1.
  { intros c Hp Hc. by apply (Hnot c Hp), Hsub. }
  assert (Forall folded_char y1) as Hf1.
  { apply Forall_forall. intros c Hc. by apply Hch, Hsub. }
  assert (html_unescape y = y) as E1 by (by apply fold_unescape, Hnot).
  assert (unquote y = y) as E2 by (by apply fold_unquote, Hnot).
  assert (re_sub (seqs [lit LT; star (Chr (fun c => negb (c =? GT)%N));
                        lit GT]) (py " ") y1 = y1) as E4.
  { apply (re_sub_no_match _ (N.eqb LT)); [apply starts_with_seq|].
    apply Forall_forall. intros c Hc. apply N.eqb_neq. intros <-.
    by apply (Hnot1 LT). }
  assert (Unique._strip_latex y1 = y1) as E5.
  { unfold Unique._strip_latex.
    rewrite (re_sub_no_match Unique.latex_command_re (N.eqb BACKSLASH));
      [|apply starts_with_seq|].
    2: { apply Forall_forall. intros c Hc. apply N.eqb_neq. intros <-.
         by apply (Hnot1 BACKSLASH). }
    unfold replace.
    rewrite (NormFacts.replace_go_absent (py "\&") _ BACKSLASH (py "&")),
      (NormFacts.replace_go_absent (py "\/") _ BACKSLASH (py "/")),
      (NormFacts.replace_go_absent (py "\%") _ BACKSLASH (py "%"));
      (done || by apply Hnot1). }
  assert (Unique._fold_accents y1 = y1) as E6.
  { unfold Unique._fold_accents. rewrite (fold_nfkd y1 Hf1).
    apply NormFacts.filter_all. eapply Forall_impl; [exact Hf1|].
    intros c Hc. by apply fold_combining. }
  assert (str_lower y1 = y1) as E7 by (by apply fold_lower).
  assert (re_sub (Chr Unique.punct) (py " ") y1 = y1) as E8.
  { apply (re_sub_no_match _ Unique.punct); [apply starts_with_chr|].
    apply Forall_forall. intros c Hc.
    destruct (Unique.punct c) eqn:Hp; [|done]. by apply Hnot1 in Hc. }
  unfold Unique._norm_text.
  rewrite E1, E2, re_sub_braces. fold y1. by rewrite E4, E5, E6, E7, E8.
Qed.

(** C4 (as amended): a second pass of [_norm_text] changes the result of
    the first exactly when that result has a brace.  So normalising is
    idempotent on every input whose normalised text has no brace, whatever
    its other characters, and on no other input. *)
Theorem norm_text_idempotent (x : str) :
  let y := Unique._norm_text (Some x) in
  Unique._norm_text (Some y) = y ↔ LBRACE ∉ y ∧ RBRACE ∉ y.
Proof.
  cbv zeta. rewrite norm_text_again.
  set (y := Unique._norm_text (Some x)). split.
  - intros Heq.
    assert (∀ c, c ∈ y → c ≠ LBRACE ∧ c ≠ RBRACE) as Hno.
    { intros c Hc. rewrite <- Heq in Hc.
      apply NormFacts.strip_elem in Hc. unfold ws in Hc.
      rewrite re_sub_plus_chr in Hc.
      apply NormFacts.squeeze_elem in Hc as [Hc|Hc].
      - change (py " ") with [SPACE] in Hc.
        apply list_elem_of_singleton in Hc as ->. done.
      - by apply list_elem_of_filter in Hc as [Hc _]. }
    split; intros Hin; apply Hno in Hin as [? ?]; done.
  - intros [H1 H2].
    rewrite NormFacts.filter_all.
    + unfold y, Unique._norm_text, ws. rewrite !re_sub_plus_chr.
      apply NormFacts.strip_squeeze_idem.
    + apply Forall_forall. intros c Hc. split; intros ->; done.
Qed.

End Idempotence.

(** The instance on Basic Latin leaves folded text alone. *)
Lemma basic_latin_fold : FoldLib basic_latin.
Proof.
  assert (∀ c, @folded_char basic_latin c →
               in_range 65281 65374 c = false
               ∧ in_range 768 879 c = false ∧ AZ c = false) as Hf.
  { intros c [->|[s Hc]]; [done|]. cbn in Hc.
    apply list_elem_of_fmap in Hc as (c0 & -> & Hc).
    apply list_elem_of_filter in Hc as [Hcomb Hc].
    apply list_elem_of_fmap in Hc as (c1 & -> & _).
    cbv beta in Hcomb.
    set (c0 := if in_range 65281 65374 c1 then (c1 - 65248)%N else c1) in *.
    assert (in_range 65281 65374 c0 = false) as Hw.
    { unfold c0, in_range.
      destruct (N.leb_spec 65281 c1), (N.leb_spec c1 65374); cbn [andb];
        apply andb_false_iff; rewrite !N.leb_gt; lia. }
    clearbody c0. revert Hcomb Hw. unfold ascii_lower, AZ, in_range.
    destruct (N.leb_spec 65 c0), (N.leb_spec c0 90); cbn [andb];
      intros Hcomb Hw; repeat split; try done;
      apply andb_false_iff; rewrite !N.leb_gt; lia. }
  split.
  - done.
  - done.
  - intros s Hs. cbn. apply NormFacts.fmap_id_on.
    eapply Forall_impl; [exact Hs|]. intros c Hc.
    by destruct (Hf c Hc) as (-> & _).
  - intros c Hc. cbn. by destruct (Hf c Hc) as (_ & -> & _).
  - intros s Hs. cbn. apply NormFacts.fmap_id_on.
    eapply Forall_impl; [exact Hs|]. intros c Hc.
    unfold ascii_lower. by destruct (Hf c Hc) as (_ & _ & ->).
Qed.

Lemma norm_text_idempotent_witness :
  let x := [83; 248]%N ++ py "ren  Kierkegaard, <i>Enten</i> - Eller!" in
  Unique._norm_text (Some x)
  = [115; 248]%N ++ py "ren kierkegaard enten eller"
  ∧ Unique._norm_text (Some (Unique._norm_text (Some x)))
    = Unique._norm_text (Some x).
Proof.
  intros x. split; [vm_compute; reflexivity|].
  apply (proj2 (norm_text_idempotent (HF := basic_latin_fold) x)).
  split; apply (bool_decide_unpack _); vm_compute; exact I.
Defined.

End NormIdem.
